(** * Verification of the obsidian-mcp core

    A shallow embedding of the bounded cache and its specialised forms
    ([src/lru-cache.ts]), the document parser
    ([src/utils/obsidian-parser.ts]), the content store
    ([src/utils/file-utils.ts]), the link graph engine
    ([src/utils/link-parser.ts], [src/utils/graph-utils.ts]) and the
    similarity and search engines ([src/utils/vault-utils.ts]), with the
    properties the specification states about them and further properties
    of the code.

    Conventions of the embedding:
    - a JavaScript [string] is a [string], its characters being code units
      below 256 wherever character classes or letter case matter; integers
      held in a [number] are [Z] (or [nat] for lengths and counters);
      ratios held in a [number] are exact rationals [Q], a [NaN] among
      them is [None]; the similarities of [findSimilarNotes], whose
      rounding decides what is reported, are binary64 floats ([float]);
    - a [Map]/[Set] whose iteration order is observable is an
      insertion-ordered association list ([JsMap]) or duplicate-free list
      ([JsSet]); a [Map]/[Set] used only through [has]/[get]/[set]/[add]
      is a [gmap]/[gset];
    - [Date.now()] is an explicit argument [now] of every operation that
      reads the clock;
    - a call that throws returns [Err] with the name and the message of
      the error thrown, a loop that does not terminate returns [None]. *)

From Stdlib Require Import ZArith QArith Ascii String List Lia Floats.
From stdpp Require Import base decidable option list strings gmap.

Local Open Scope string_scope.
Local Open Scope list_scope.
Local Open Scope Z_scope.

(** ** Insertion-ordered maps and sets (ECMAScript [Map] and [Set]) *)

Module JsMap.
Section Defs.
Context {V : Type}.

Definition t := list (string * V).

Definition empty : t := [].

Fixpoint get (k : string) (m : t) : option V :=
  match m with
  | [] => None
  | (k', v) :: m' => if String.eqb k k' then Some v else get k m'
  end.

Definition has (k : string) (m : t) : bool :=
  match get k m with Some _ => true | None => false end.

(** [Map.prototype.set]: an existing key keeps its position, a new key
    goes last. *)
Fixpoint set (k : string) (v : V) (m : t) : t :=
  match m with
  | [] => [(k, v)]
  | (k', v') :: m' =>
      if String.eqb k k' then (k, v) :: m' else (k', v') :: set k v m'
  end.

Fixpoint delete (k : string) (m : t) : t :=
  match m with
  | [] => []
  | (k', v') :: m' =>
      if String.eqb k k' then m' else (k', v') :: delete k m'
  end.

Definition keys (m : t) : list string := map fst m.

Definition values (m : t) : list V := map snd m.

Definition size (m : t) : nat := length m.
End Defs.
Arguments t : clear implicits.
End JsMap.

Module JsSet.
Definition t := list string.

Definition empty : t := [].

Definition has (x : string) (s : t) : bool := bool_decide (x ∈ s).

(** [Set.prototype.add]: a value already present keeps its position. *)
Definition add (x : string) (s : t) : t :=
  if decide (x ∈ s) then s else s ++ [x].

Definition size (s : t) : nat := length s.
End JsSet.

(** ** The bounded cache: [src/lru-cache.ts] *)

Module LRU.
Section Cache.
Context {T : Type}.

Record CacheEntry := {
  value : T;
  size : Z;
  lastAccessed : Z;
  accessCount : Z
}.

Record LRUCache := {
  cache : JsMap.t CacheEntry;
  maxSize : Z;
  maxItems : Z;
  currentSize : Z;
  ttl : Z
}.

Definition with_cache (c : LRUCache) (m : JsMap.t CacheEntry) (sz : Z) : LRUCache :=
  {| cache := m; maxSize := maxSize c; maxItems := maxItems c;
     currentSize := sz; ttl := ttl c |}.

(** [constructor]: [options.ttl || 3600000]. *)
Definition new (maxSize_ maxItems_ : Z) (ttl_ : option Z) : LRUCache :=
  {| cache := JsMap.empty; maxSize := maxSize_; maxItems := maxItems_;
     currentSize := 0;
     ttl := match ttl_ with
            | Some t => if t =? 0 then 3600000 else t
            | None => 3600000
            end |}.

Definition delete (key : string) (c : LRUCache) : bool * LRUCache :=
  match JsMap.get key (cache c) with
  | Some entry =>
      (true, with_cache c (JsMap.delete key (cache c)) (currentSize c - size entry))
  | None => (false, c)
  end.

Definition expired (c : LRUCache) (now : Z) (entry : CacheEntry) : bool :=
  now - lastAccessed entry >? ttl c.

Definition get (key : string) (now : Z) (c : LRUCache) : option T * LRUCache :=
  match JsMap.get key (cache c) with
  | None => (None, c)
  | Some entry =>
      if expired c now entry then (None, snd (delete key c))
      else
        let entry' := {| value := value entry; size := size entry;
                         lastAccessed := now;
                         accessCount := accessCount entry + 1 |} in
        (Some (value entry'),
         with_cache c (JsMap.set key entry' (JsMap.delete key (cache c)))
                    (currentSize c))
  end.

Definition has (key : string) (now : Z) (c : LRUCache) : bool * LRUCache :=
  match JsMap.get key (cache c) with
  | None => (false, c)
  | Some entry =>
      if expired c now entry then (false, snd (delete key c)) else (true, c)
  end.

Definition clear (c : LRUCache) : LRUCache := with_cache c JsMap.empty 0.

Definition keys (c : LRUCache) : list string := JsMap.keys (cache c).

(** [removeExpired]: collect the expired keys, then delete each. *)
Definition removeExpired (now : Z) (c : LRUCache) : LRUCache :=
  let keysToDelete :=
    JsMap.keys (List.filter (fun kv => expired c now (snd kv)) (cache c)) in
  fold_left (fun c' key => snd (delete key c')) keysToDelete c.

Definition needsRoom (requiredSize : Z) (c : LRUCache) : bool :=
  ((currentSize c + requiredSize >? maxSize c)
   || (Z.of_nat (JsMap.size (cache c)) >=? maxItems c))
  && (0 <? Z.of_nat (JsMap.size (cache c))).

(** The eviction loop of [ensureSpace].  [if (firstKey)] skips the
    deletion when the first key is the empty string; the loop then repeats
    in an unchanged state and never ends: [None]. *)
Fixpoint evict (fuel : nat) (requiredSize : Z) (c : LRUCache) : option LRUCache :=
  if needsRoom requiredSize c then
    match fuel with
    | O => None
    | S fuel' =>
        match JsMap.keys (cache c) with
        | firstKey :: _ =>
            if String.eqb firstKey "" then None
            else evict fuel' requiredSize (snd (delete firstKey c))
        | [] => Some c
        end
    end
  else Some c.

Definition ensureSpace (requiredSize : Z) (now : Z) (c : LRUCache) : option LRUCache :=
  if requiredSize >? maxSize c then Some c
  else
    let c' := removeExpired now c in
    evict (JsMap.size (cache c')) requiredSize c'.

Definition set (key : string) (v : T) (sz : Z) (now : Z) (c : LRUCache)
  : option LRUCache :=
  let c1 := if JsMap.has key (cache c) then snd (delete key c) else c in
  match ensureSpace sz now c1 with
  | None => None
  | Some c2 =>
      let entry := {| value := v; size := sz; lastAccessed := now;
                      accessCount := 1 |} in
      Some (with_cache c2 (JsMap.set key entry (cache c2)) (currentSize c2 + sz))
  end.

(** [getStats().itemCount] and [getStats().totalSize]. *)
Definition itemCount (c : LRUCache) : Z := Z.of_nat (JsMap.size (cache c)).
Definition totalSize (c : LRUCache) : Z := currentSize c.

(** The sum of the [size] fields of the stored entries. *)
Definition storedBytes (c : LRUCache) : Z :=
  fold_right Z.add 0 (map size (JsMap.values (cache c))).

(** [getStats()].  [hitRate] and [avgAccessCount] are computed by the
    same expression, the mean of the access counts. *)
Record Stats := {
  stats_itemCount : Z;
  stats_totalSize : Z;
  stats_maxSize : Z;
  hitRate : Q;
  avgAccessCount : Q
}.

Definition getStats (c : LRUCache) : Stats :=
  let totalAccess :=
    fold_left (fun total entry => total + accessCount entry)
              (JsMap.values (cache c)) 0 in
  let n := Z.of_nat (JsMap.size (cache c)) in
  {| stats_itemCount := n;
     stats_totalSize := currentSize c;
     stats_maxSize := maxSize c;
     hitRate := if n >? 0 then (inject_Z totalAccess / inject_Z n)%Q else 0%Q;
     avgAccessCount := if n >? 0 then (inject_Z totalAccess / inject_Z n)%Q else 0%Q |}.

End Cache.
Arguments CacheEntry : clear implicits.
Arguments LRUCache : clear implicits.
End LRU.

(** ** Results of fallible calls *)

(** A thrown [Error] object: its [name] and its [message].  A string
    stands for the plain error [new Error(message)], whose name is
    ["Error"]; that is also what [fs] rejects with.  The subclasses
    ([TypeError], the [YAMLException] of the front matter reader) differ in
    the name. *)
Record JsError := {
  err_name : string;
  err_message : string
}.

Definition plainError (message : string) : JsError :=
  {| err_name := "Error"; err_message := message |}.
Coercion plainError : string >-> JsError.

Inductive Result (A : Type) : Type :=
| Ok (a : A)
| Err (error : JsError).
Arguments Ok {A} a.
Arguments Err {A} error.

(** Template rendering of a caught error, [`${error}`]:
    [Error.prototype.toString]. *)
Definition errorToString (e : JsError) : string :=
  (err_name e ++ ": " ++ err_message e)%string.

(** ** String helpers ([String.prototype] methods used by the sources) *)

Definition endsWith (s suffix : string) : bool :=
  let n := String.length s in
  let k := String.length suffix in
  (k <=? n)%nat && String.eqb (substring (n - k) k s) suffix.

Definition startsWith (s pre : string) : bool := String.prefix pre s.

Fixpoint includesChar (c : Ascii.ascii) (s : string) : bool :=
  match s with
  | EmptyString => false
  | String c' s' => Ascii.eqb c c' || includesChar c s'
  end.

(** [s.substring(n)] *)
Definition substringFrom (n : nat) (s : string) : string :=
  substring n (String.length s - n) s.

(** [Buffer.byteLength(s, 'utf8')] for a string of code units below 256:
    one byte below 128, two from 128 on. *)
Fixpoint byteLength (s : string) : Z :=
  match s with
  | EmptyString => 0
  | String c s' =>
      (if (Ascii.nat_of_ascii c <? 128)%nat then 1 else 2) + byteLength s'
  end.

(** ** Characters and regular expressions

    A string is a sequence of code units below 256.  On these,
    [toLowerCase] moves [A-Z] and the capital letters of U+00C0-U+00DE
    (the sign U+00D7 apart) 32 places up; [\w] is [[A-Za-z0-9_]]; [\s]
    and the white space of [trim] are the code units 9 to 13, 32 and
    160. *)

Module Js.

Definition code (c : ascii) : nat := Ascii.nat_of_ascii c.

Definition between (lo hi : nat) (c : ascii) : bool :=
  (lo <=? code c)%nat && (code c <=? hi)%nat.

Definition isUpper (c : ascii) : bool :=
  between 65 90 c || (between 192 222 c && negb (code c =? 215)%nat).

Definition toLowerChar (c : ascii) : ascii :=
  if isUpper c then Ascii.ascii_of_nat (code c + 32) else c.

Definition isDigit (c : ascii) : bool := between 48 57 c.

(** [\w] *)
Definition isWord (c : ascii) : bool :=
  between 65 90 c || between 97 122 c || isDigit c || (code c =? 95)%nat.

(** [\s] *)
Definition isSpace (c : ascii) : bool :=
  between 9 13 c || (code c =? 32)%nat || (code c =? 160)%nat.

Fixpoint mapChars (f : ascii -> ascii) (s : string) : string :=
  match s with
  | EmptyString => EmptyString
  | String c s' => String (f c) (mapChars f s')
  end.

Fixpoint filterChars (keep : ascii -> bool) (s : string) : string :=
  match s with
  | EmptyString => EmptyString
  | String c s' => if keep c then String c (filterChars keep s') else filterChars keep s'
  end.

Fixpoint allChars (p : ascii -> bool) (s : string) : bool :=
  match s with
  | EmptyString => true
  | String c s' => p c && allChars p s'
  end.

Definition toLowerCase (s : string) : string := mapChars toLowerChar s.

(** [s.replace(/\s+/g, sep)] for a one-character [sep]: every maximal
    run of white space becomes one [sep]. *)
Fixpoint replaceSpaceRuns (sep : ascii) (inRun : bool) (s : string) : string :=
  match s with
  | EmptyString => EmptyString
  | String c s' =>
      if isSpace c then
        if inRun then replaceSpaceRuns sep true s'
        else String sep (replaceSpaceRuns sep true s')
      else String c (replaceSpaceRuns sep false s')
  end.

(** [s.replace(/-+/g, '-')] *)
Fixpoint squeezeHyphens (inRun : bool) (s : string) : string :=
  match s with
  | EmptyString => EmptyString
  | String c s' =>
      if Ascii.eqb c "-" then
        if inRun then squeezeHyphens true s' else String c (squeezeHyphens true s')
      else String c (squeezeHyphens false s')
  end.

(** The string without the leading characters that satisfy [p]. *)
Fixpoint dropWhileChars (p : ascii -> bool) (s : string) : string :=
  match s with
  | EmptyString => EmptyString
  | String c s' => if p c then dropWhileChars p s' else s
  end.

(** The string without the trailing characters that satisfy [p]. *)
Fixpoint dropEndChars (p : ascii -> bool) (s : string) : string :=
  match s with
  | EmptyString => EmptyString
  | String c s' =>
      match dropEndChars p s' with
      | EmptyString => if p c then EmptyString else String c EmptyString
      | rest => String c rest
      end
  end.

Definition trim (s : string) : string :=
  dropEndChars isSpace (dropWhileChars isSpace s).

(** [s.split(/\s+/)]: the pieces between the maximal runs of white space;
    [cur] is the piece being read.  A string that starts or ends with
    white space gives an empty first or last piece, and the empty string
    gives one empty piece. *)
Fixpoint splitSpaces (inRun : bool) (cur : string) (s : string) : list string :=
  match s with
  | EmptyString => [cur]
  | String c s' =>
      if isSpace c then
        if inRun then splitSpaces true EmptyString s'
        else cur :: splitSpaces true EmptyString s'
      else splitSpaces false (cur ++ String c EmptyString) s'
  end.

End Js.

(** ** The specialised caches of [src/lru-cache.ts] *)

Module FileContentCache.

Definition new (maxSizeInMB maxItems : Z) : LRU.LRUCache string :=
  LRU.new (maxSizeInMB * 1024 * 1024) maxItems (Some 3600000).

Definition cacheFile (path content : string) (now : Z) (c : LRU.LRUCache string)
  : option (LRU.LRUCache string) :=
  LRU.set path content (byteLength content) now c.

Definition getCachedFile (path : string) (now : Z) (c : LRU.LRUCache string)
  : option string * LRU.LRUCache string :=
  LRU.get path now c.

End FileContentCache.

Module LinkCache.
Section LinkCache.
(** [Buffer.byteLength(JSON.stringify(links), 'utf8')] *)
Context (jsonByteLength : list string -> Z).

Definition new (maxItems : Z) : LRU.LRUCache (list string) :=
  LRU.new (5 * 1024 * 1024) maxItems (Some 1800000).

Definition cacheBacklinks (path : string) (backlinks : list string) (now : Z)
           (c : LRU.LRUCache (list string)) : option (LRU.LRUCache (list string)) :=
  LRU.set ("back:" ++ path) backlinks (jsonByteLength backlinks) now c.

Definition getCachedBacklinks (path : string) (now : Z)
           (c : LRU.LRUCache (list string))
  : option (list string) * LRU.LRUCache (list string) :=
  LRU.get ("back:" ++ path) now c.

Definition cacheForwardLinks (path : string) (links : list string) (now : Z)
           (c : LRU.LRUCache (list string)) : option (LRU.LRUCache (list string)) :=
  LRU.set ("fwd:" ++ path) links (jsonByteLength links) now c.

Definition getCachedForwardLinks (path : string) (now : Z)
           (c : LRU.LRUCache (list string))
  : option (list string) * LRU.LRUCache (list string) :=
  LRU.get ("fwd:" ++ path) now c.

(** [invalidateFile].  The loop runs over the array [this.keys()] taken
    before it starts; [clock key] is the reading of [Date.now()] when
    [this.get(key)] is called.  An array is truthy, so [links && ...]
    fails only for [undefined]. *)
Definition invalidateFile (path : string) (clock : string -> Z)
           (c : LRU.LRUCache (list string)) : LRU.LRUCache (list string) :=
  let c1 := snd (LRU.delete ("back:" ++ path) c) in
  let c2 := snd (LRU.delete ("fwd:" ++ path) c1) in
  fold_left
    (fun c' key =>
       if startsWith key "fwd:" then
         match LRU.get key (clock key) c' with
         | (Some links, c'') =>
             if bool_decide (path ∈ links) then snd (LRU.delete key c'') else c''
         | (None, c'') => c''
         end
       else c')
    (LRU.keys c2) c2.

End LinkCache.
End LinkCache.

(** ** The document parser: [src/utils/obsidian-parser.ts] *)

Module Parser.

Inductive LinkType := wiki | markdown | external.

Record NoteLink := {
  type : LinkType;
  target : string;
  displayText : option string;
  position : nat * nat
}.

Section Frontmatter.
(** The values of a frontmatter object are whatever the YAML reader
    produces. *)
Context {Yaml : Type}.

Definition Frontmatter := JsMap.t Yaml.

Record Parsed := { data : Frontmatter; content : string }.

(** The gray-matter package: [matter(content)] and
    [matter.stringify(content, data)]. *)
Record GrayMatter := {
  matter : string -> Parsed;
  matter_stringify : string -> Frontmatter -> string
}.

Context (gm : GrayMatter).

Definition parseFrontmatter (raw : string) : Parsed :=
  let parsed := matter gm raw in
  {| data := data parsed; content := content parsed |}.

Definition stringifyWithFrontmatter (frontmatter : Frontmatter) (body : string)
  : string :=
  if (length (JsMap.keys frontmatter) =? 0)%nat then body
  else matter_stringify gm body frontmatter.
End Frontmatter.
Arguments Frontmatter : clear implicits.
Arguments Parsed : clear implicits.
Arguments GrayMatter : clear implicits.

(** *** Links in the text *)

(** The longest prefix of [s] without the character [stop], and what
    follows it. *)
Fixpoint untilChar (stop : ascii) (s : string) : string * string :=
  match s with
  | EmptyString => (EmptyString, EmptyString)
  | String c s' =>
      if Ascii.eqb c stop then (EmptyString, s)
      else (String c (fst (untilChar stop s')), snd (untilChar stop s'))
  end.

(** [s.split(sep)] for a one-character separator; [cur] is the piece
    being read. *)
Fixpoint splitChar (sep : ascii) (cur : string) (s : string) : list string :=
  match s with
  | EmptyString => [cur]
  | String c s' =>
      if Ascii.eqb c sep then cur :: splitChar sep EmptyString s'
      else splitChar sep (cur ++ String c EmptyString)%string s'
  end.

(** [s.replace(pattern, '')] for a string pattern: the first occurrence
    is removed. *)
Fixpoint removeFirst (pattern : string) (s : string) : string :=
  match s with
  | EmptyString => EmptyString
  | String c s' =>
      if String.prefix pattern s then substringFrom (String.length pattern) s
      else String c (removeFirst pattern s')
  end.

(** [/\[\[([^\]]+)\]\]/] at the start of [s]: two opening brackets, one
    or more characters other than the closing bracket (as many as there
    are), two closing brackets.  The result is the captured group. *)
Definition matchWikiLink (s : string) : option string :=
  match s with
  | String c1 (String c2 s1) =>
      if Ascii.eqb c1 "[" && Ascii.eqb c2 "[" then
        match untilChar "]" s1 with
        | (EmptyString, _) => None
        | (inner, String _ (String c4 _)) =>
            if Ascii.eqb c4 "]" then Some inner else None
        | _ => None
        end
      else None
  | _ => None
  end.

(** The expression for markdown links at the start of [s]: an opening
    bracket, the characters up to the next closing bracket (possibly
    none), that bracket, an opening parenthesis, one or more characters
    other than the closing parenthesis (as many as there are), a closing
    parenthesis.  The result is the two captured groups. *)
Definition matchMarkdownLink (s : string) : option (string * string) :=
  match s with
  | String c1 s1 =>
      if Ascii.eqb c1 "[" then
        match untilChar "]" s1 with
        | (text, String _ (String c3 s2)) =>
            if Ascii.eqb c3 "(" then
              match untilChar ")" s2 with
              | (EmptyString, _) => None
              | (target_, String _ _) => Some (text, target_)
              | _ => None
              end
            else None
        | _ => None
        end
      else None
  | _ => None
  end.

(** [const [target, displayText] = fullMatch.split('|').map(s => s.trim())] *)
Definition wikiParts (inner : string) : string * option string :=
  let parts := map Js.trim (splitChar "|" EmptyString inner) in
  (nth 0 parts EmptyString, nth_error parts 1).

Definition wikiLinkAt (pos : nat) (inner : string) : NoteLink :=
  {| type := wiki;
     target := fst (wikiParts inner);
     displayText := snd (wikiParts inner);
     position := (pos, pos + (String.length inner + 4))%nat |}.

Definition markdownLinkAt (pos : nat) (text target_ : string) : NoteLink :=
  {| type := if startsWith target_ "http://" || startsWith target_ "https://"
             then external else markdown;
     target := target_;
     displayText := Some text;
     position := (pos, pos + (String.length text + String.length target_ + 4))%nat |}.

(** The loop [while ((match = regex.exec(content)) !== null)] of a global
    regular expression: [pos] is the index of the first character of [s]
    in the content, [skip] the number of characters of [s] that belong to
    the last match. *)
Fixpoint wikiLinksFrom (pos skip : nat) (s : string) : list NoteLink :=
  match s with
  | EmptyString => []
  | String _ s' =>
      match skip with
      | S k => wikiLinksFrom (S pos) k s'
      | O =>
          match matchWikiLink s with
          | Some inner =>
              wikiLinkAt pos inner :: wikiLinksFrom (S pos) (String.length inner + 3) s'
          | None => wikiLinksFrom (S pos) 0 s'
          end
      end
  end.

Definition extractWikiLinks (content : string) : list NoteLink :=
  wikiLinksFrom 0 0 content.

Fixpoint markdownLinksFrom (pos skip : nat) (s : string) : list NoteLink :=
  match s with
  | EmptyString => []
  | String _ s' =>
      match skip with
      | S k => markdownLinksFrom (S pos) k s'
      | O =>
          match matchMarkdownLink s with
          | Some (text, target_) =>
              markdownLinkAt pos text target_
              :: markdownLinksFrom (S pos)
                   (String.length text + String.length target_ + 3) s'
          | None => markdownLinksFrom (S pos) 0 s'
          end
      end
  end.

Definition extractMarkdownLinks (content : string) : list NoteLink :=
  markdownLinksFrom 0 0 content.

(** The stable sort by [position.start]. *)
Fixpoint insertByStart (x : NoteLink) (sorted : list NoteLink) : list NoteLink :=
  match sorted with
  | [] => [x]
  | y :: rest =>
      if (fst (position y) <=? fst (position x))%nat then y :: insertByStart x rest
      else x :: y :: rest
  end.

Definition extractAllLinks (content : string) : list NoteLink :=
  fold_left (fun acc x => insertByStart x acc)
            (extractWikiLinks content ++ extractMarkdownLinks content) [].

(** [content.replace(regex, callback)] for the two link expressions: the
    callback receives the match and its groups, and what it returns takes
    the place of the match. *)
Fixpoint replaceWikiLinks (callback : string -> string -> string) (skip : nat)
         (s : string) : string :=
  match s with
  | EmptyString => EmptyString
  | String c s' =>
      match skip with
      | S k => replaceWikiLinks callback k s'
      | O =>
          match matchWikiLink s with
          | Some inner =>
              (callback ("[[" ++ inner ++ "]]") inner
               ++ replaceWikiLinks callback (String.length inner + 3) s')%string
          | None => String c (replaceWikiLinks callback 0 s')
          end
      end
  end.

Fixpoint replaceMarkdownLinks (callback : string -> string -> string -> string)
         (skip : nat) (s : string) : string :=
  match s with
  | EmptyString => EmptyString
  | String c s' =>
      match skip with
      | S k => replaceMarkdownLinks callback k s'
      | O =>
          match matchMarkdownLink s with
          | Some (text, target_) =>
              (callback ("[" ++ text ++ "](" ++ target_ ++ ")") text target_
               ++ replaceMarkdownLinks callback
                    (String.length text + String.length target_ + 3) s')%string
          | None => String c (replaceMarkdownLinks callback 0 s')
          end
      end
  end.

(** [target === oldPath || target === oldPath.replace('.md', '')] *)
Definition namesPath (target_ path : string) : bool :=
  String.eqb target_ path || String.eqb target_ (removeFirst ".md" path).

Definition updateLinks (content oldPath newPath : string) : string :=
  let updated :=
    replaceWikiLinks
      (fun whole linkContent =>
         let '(target_, display) := wikiParts linkContent in
         if namesPath target_ oldPath then
           let newTarget := removeFirst ".md" newPath in
           match display with
           | Some shown =>
               if negb (String.eqb shown "")
               then ("[[" ++ newTarget ++ "|" ++ shown ++ "]]")%string
               else ("[[" ++ newTarget ++ "]]")%string
           | None => ("[[" ++ newTarget ++ "]]")%string
           end
         else whole)
      0 content in
  replaceMarkdownLinks
    (fun whole text target_ =>
       if namesPath target_ oldPath then ("[" ++ text ++ "](" ++ newPath ++ ")")%string
       else whole)
    0 updated.

Definition removeLink (content targetPath : string) : string :=
  let updated :=
    replaceWikiLinks
      (fun whole linkContent =>
         let '(target_, display) := wikiParts linkContent in
         if namesPath target_ targetPath then default EmptyString display
         else whole)
      0 content in
  replaceMarkdownLinks
    (fun whole text target_ => if namesPath target_ targetPath then text else whole)
    0 updated.

(** [createSlug]: lower case; everything but [\w], [\s] and the hyphen
    removed; each run of white space turned into a hyphen; the hyphens at
    both ends removed. *)
Definition createSlug (text : string) : string :=
  let lowered := Js.toLowerCase text in
  let kept :=
    Js.filterChars (fun c => Js.isWord c || Js.isSpace c || Ascii.eqb c "-") lowered in
  let hyphenated := Js.replaceSpaceRuns "-" false kept in
  Js.dropEndChars (fun c => Ascii.eqb c "-")
                  (Js.dropWhileChars (fun c => Ascii.eqb c "-") hyphenated).

(** The parser object handed to the link graph engine.
    [parseFrontmatter] throws what the front matter reader throws on a
    malformed block, and [extractTags] throws on a tag without [toString]
    (a [null] in the list of tags); the regular expressions of
    [extractAllLinks] and the tests of [getNoteTitle] do not throw on a
    string. *)
Record ObsidianParser (Yaml : Type) := {
  op_parseFrontmatter : string -> Result (Parsed Yaml);
  op_extractAllLinks : string -> list NoteLink;
  op_extractTags : string -> Frontmatter Yaml -> Result (list string);
  op_getNoteTitle : Frontmatter Yaml -> string -> string
}.
Arguments op_parseFrontmatter {Yaml}.
Arguments op_extractAllLinks {Yaml}.
Arguments op_extractTags {Yaml}.
Arguments op_getNoteTitle {Yaml}.

End Parser.

(** ** The content store: [src/utils/file-utils.ts] *)

Module FileUtils.

Definition ensureMarkdownExtension (filePath : string) : string :=
  if negb (endsWith filePath ".md") then filePath ++ ".md" else filePath.

(** The part of the store that touches the disk: the sorted listing and
    [readFile], which throws when the document cannot be read. *)
Record t := {
  listMarkdownFiles : list string;
  readFile : string -> Result string
}.

End FileUtils.

(** Node's [path] module, as far as [resolveLink] uses it. *)
Record PathModule := {
  dirname : string -> string;
  join : string -> string -> string;
  normalize : string -> string
}.

(** ** The content store over the disk: class [FileUtils] of
       [src/utils/file-utils.ts] *)

Module FileUtilsOnDisk.

(** Node's [fs/promises], as far as the class uses it, over a disk of
    type [D]: each call returns its outcome and the disk it leaves. *)
Record Fs (D : Type) := {
  fs_readFile : string -> D -> Result string;
  fs_writeFile : string -> string -> D -> Result unit * D;
  fs_mkdir : string -> D -> Result unit * D;
  fs_unlink : string -> D -> Result unit * D;
  fs_rename : string -> string -> D -> Result unit * D;
  fs_access : string -> D -> Result unit
}.
Arguments fs_readFile {D}.
Arguments fs_writeFile {D}.
Arguments fs_mkdir {D}.
Arguments fs_unlink {D}.
Arguments fs_rename {D}.
Arguments fs_access {D}.

(** The optional cache of the object, and the disk. *)
Record State (D : Type) := {
  cache : option (LRU.LRUCache string);
  disk : D
}.
Arguments cache {D}.
Arguments disk {D}.

Section FileUtils.
Context {D : Type}.
Context (fs : Fs D) (nodePath : PathModule) (isAbsolute : string -> bool)
        (vaultPath : string).

Definition toAbsolutePath (relativePath : string) : string :=
  if isAbsolute relativePath then relativePath
  else join nodePath vaultPath relativePath.

(** [exists] *)
Definition exists_ (filePath : string) (st : State D) : bool :=
  match fs_access fs (toAbsolutePath filePath) (disk st) with
  | Ok _ => true
  | Err _ => false
  end.

(** [this.cache?.delete(normalizedPath)] *)
Definition invalidate (normalizedPath : string) (c : option (LRU.LRUCache string))
  : option (LRU.LRUCache string) :=
  match c with
  | Some c' => Some (snd (LRU.delete normalizedPath c'))
  | None => None
  end.

(** The part of [readFile] after a cache miss: read from the disk, then
    cache the content if it is shorter than 5 MB.  [tSet] is the reading of
    the clock inside [cache.set]. *)
Definition readFromDisk (normalizedPath : string) (tSet : Z)
           (c : option (LRU.LRUCache string)) (d : D)
  : option (Result string * State D) :=
  match fs_readFile fs (toAbsolutePath normalizedPath) d with
  | Err e => Some (Err e, {| cache := c; disk := d |})
  | Ok content =>
      match c with
      | Some c' =>
          if Z.of_nat (String.length content) <? 5 * 1024 * 1024 then
            match LRU.set normalizedPath content (byteLength content) tSet c' with
            | Some c'' => Some (Ok content, {| cache := Some c''; disk := d |})
            | None => None
            end
          else Some (Ok content, {| cache := c; disk := d |})
      | None => Some (Ok content, {| cache := None; disk := d |})
      end
  end.

(** [readFile].  [tGet] is the reading of the clock inside [cache.get].
    A cached empty string is falsy, so [if (cached)] sends it to the
    disk. *)
Definition readFile (filePath : string) (tGet tSet : Z) (st : State D)
  : option (Result string * State D) :=
  let normalizedPath := FileUtils.ensureMarkdownExtension filePath in
  match cache st with
  | Some c =>
      match LRU.get normalizedPath tGet c with
      | (Some cached, c') =>
          if negb (String.eqb cached "") then
            Some (Ok cached, {| cache := Some c'; disk := disk st |})
          else readFromDisk normalizedPath tSet (Some c') (disk st)
      | (None, c') => readFromDisk normalizedPath tSet (Some c') (disk st)
      end
  | None => readFromDisk normalizedPath tSet None (disk st)
  end.

Definition writeFile (filePath content : string) (st : State D)
  : Result unit * State D :=
  let normalizedPath := FileUtils.ensureMarkdownExtension filePath in
  let absPath := toAbsolutePath normalizedPath in
  let dir := dirname nodePath absPath in
  match fs_mkdir fs dir (disk st) with
  | (Err e, d1) => (Err e, {| cache := cache st; disk := d1 |})
  | (Ok _, d1) =>
      match fs_writeFile fs absPath content d1 with
      | (Err e, d2) => (Err e, {| cache := cache st; disk := d2 |})
      | (Ok _, d2) =>
          (Ok tt, {| cache := invalidate normalizedPath (cache st); disk := d2 |})
      end
  end.

Definition deleteFile (filePath : string) (st : State D) : Result unit * State D :=
  let normalizedPath := FileUtils.ensureMarkdownExtension filePath in
  let absPath := toAbsolutePath normalizedPath in
  match fs_unlink fs absPath (disk st) with
  | (Err e, d1) => (Err e, {| cache := cache st; disk := d1 |})
  | (Ok _, d1) =>
      (Ok tt, {| cache := invalidate normalizedPath (cache st); disk := d1 |})
  end.

(** [renameFile]: only the old path is taken out of the cache. *)
Definition renameFile (oldPath newPath : string) (st : State D)
  : Result unit * State D :=
  let normalizedOldPath := FileUtils.ensureMarkdownExtension oldPath in
  let normalizedNewPath := FileUtils.ensureMarkdownExtension newPath in
  let absOldPath := toAbsolutePath normalizedOldPath in
  let absNewPath := toAbsolutePath normalizedNewPath in
  let newDir := dirname nodePath absNewPath in
  match fs_mkdir fs newDir (disk st) with
  | (Err e, d1) => (Err e, {| cache := cache st; disk := d1 |})
  | (Ok _, d1) =>
      match fs_rename fs absOldPath absNewPath d1 with
      | (Err e, d2) => (Err e, {| cache := cache st; disk := d2 |})
      | (Ok _, d2) =>
          (Ok tt, {| cache := invalidate normalizedOldPath (cache st); disk := d2 |})
      end
  end.

End FileUtils.
End FileUtilsOnDisk.

(** ** The link parser: [src/utils/link-parser.ts] *)

Module LinkParser.
Import Parser.

Record GraphNode := {
  id : string;
  path : string;
  title : string;
  links : nat;
  backlinks : nat;
  tags : list string
}.

Record GraphEdge := {
  source : string;
  target : string;
  type : LinkType
}.

Record GraphData := {
  nodes : list GraphNode;
  edges : list GraphEdge;
  orphaned : list string;
  hubs : list string
}.

(** The two private maps of a [LinkParser] object. *)
Record State := {
  linkCache : JsMap.t JsSet.t;
  backlinkCache : JsMap.t JsSet.t
}.

Definition init : State := {| linkCache := JsMap.empty; backlinkCache := JsMap.empty |}.

Section LinkParser.
Context {Yaml : Type}.
Context (fileUtils : FileUtils.t) (parser : ObsidianParser Yaml) (nodePath : PathModule).

(** [link.replace(/\.md$/, '')] *)
Definition stripMd (link : string) : string :=
  if endsWith link ".md" then substring 0 (String.length link - 3) link else link.

Definition resolveLink (link fromFile : string) : string :=
  let linkWithoutExt := stripMd link in
  if startsWith linkWithoutExt "/" then substringFrom 1 linkWithoutExt ++ ".md"
  else if includesChar "/"%char linkWithoutExt then
    let fromDir := dirname nodePath fromFile in
    let resolved := join nodePath fromDir linkWithoutExt in
    normalize nodePath resolved ++ ".md"
  else
    let fromDir := dirname nodePath fromFile in
    if String.eqb fromDir "." then linkWithoutExt ++ ".md"
    else join nodePath fromDir linkWithoutExt ++ ".md".

(** The inner loop of the first pass: the outgoing set of [file] and the
    edges it contributes. *)
Definition processLinks (file : string) (found : list NoteLink)
  : JsSet.t * list GraphEdge :=
  fold_left
    (fun (acc : JsSet.t * list GraphEdge) (link : NoteLink) =>
       match Parser.type link with
       | external => acc
       | ty =>
           let targetPath := resolveLink (Parser.target link) file in
           if negb (String.eqb targetPath "") && negb (String.eqb targetPath file)
           then (JsSet.add targetPath (fst acc),
                 snd acc ++ [{| source := file; target := targetPath; type := ty |}])
           else acc
       end)
    found (JsSet.empty, []).

Record Pass1 := {
  p_linkCache : JsMap.t JsSet.t;
  p_nodes : JsMap.t GraphNode;
  p_edges : list GraphEdge
}.

(** What the body of the first pass obtains from a document before it
    changes any map. *)
Record Note := {
  n_content : string;
  n_frontmatter : Frontmatter Yaml;
  n_links : list NoteLink;
  n_tags : list string
}.

(** The head of the loop body of the first pass: [readFile],
    [parseFrontmatter], [extractAllLinks], [extractTags], in that order.
    What the first, the second or the fourth throws leaves the loop, and
    nothing in [buildLinkGraph] catches it. *)
Definition readNote (file : string) : Result Note :=
  match FileUtils.readFile fileUtils file with
  | Err e => Err e
  | Ok content =>
      match op_parseFrontmatter parser content with
      | Err e => Err e
      | Ok parsed =>
          let found := op_extractAllLinks parser content in
          match op_extractTags parser content (data parsed) with
          | Err e => Err e
          | Ok tags_ =>
              Ok {| n_content := content; n_frontmatter := data parsed;
                    n_links := found; n_tags := tags_ |}
          end
      end
  end.

(** First pass.  [node] is the object stored in [nodes]; the assignment
    [node.links = outgoingLinks.size] that follows [nodes.set] is folded
    into the record.  A document that cannot be read or parsed leaves the
    loop at once; the second component is [this.linkCache] at that
    moment. *)
Fixpoint firstPass (files : list string) (acc : Pass1)
  : Result Pass1 * JsMap.t JsSet.t :=
  match files with
  | [] => (Ok acc, p_linkCache acc)
  | file :: rest =>
      match readNote file with
      | Err e => (Err e, p_linkCache acc)
      | Ok note =>
          let '(outgoingLinks, newEdges) := processLinks file (n_links note) in
          let node := {| id := file; path := file;
                         title := op_getNoteTitle parser (n_frontmatter note) file;
                         links := JsSet.size outgoingLinks;
                         backlinks := 0; tags := n_tags note |} in
          firstPass rest
            {| p_linkCache := JsMap.set file outgoingLinks (p_linkCache acc);
               p_nodes := JsMap.set file node (p_nodes acc);
               p_edges := p_edges acc ++ newEdges |}
      end
  end.

(** Second pass: invert the forward sets. *)
Definition secondPass (lc : JsMap.t JsSet.t) : JsMap.t JsSet.t :=
  fold_left
    (fun bl (entry : string * JsSet.t) =>
       let '(src, targets) := entry in
       fold_left
         (fun bl tgt =>
            let bl1 := if JsMap.has tgt bl then bl else JsMap.set tgt JsSet.empty bl in
            JsMap.set tgt (JsSet.add src (default JsSet.empty (JsMap.get tgt bl1))) bl1)
         targets bl)
    lc JsMap.empty.

Definition updateBacklinkCounts (bl : JsMap.t JsSet.t) (ns : JsMap.t GraphNode)
  : JsMap.t GraphNode :=
  fold_left
    (fun ns (entry : string * JsSet.t) =>
       let '(file, backs) := entry in
       match JsMap.get file ns with
       | Some node =>
           JsMap.set file
             {| id := id node; path := path node; title := title node;
                links := links node; backlinks := JsSet.size backs;
                tags := tags node |} ns
       | None => ns
       end)
    bl ns.

Definition degree (n : GraphNode) : nat := (links n + backlinks n)%nat.

(** [Array.prototype.sort] is stable; the comparator orders by descending
    degree. *)
Fixpoint insertByDegree (n : GraphNode) (sorted : list GraphNode) : list GraphNode :=
  match sorted with
  | [] => [n]
  | m :: rest =>
      if (degree m <? degree n)%nat then n :: m :: rest
      else m :: insertByDegree n rest
  end.

Definition sortByDegree (ns : list GraphNode) : list GraphNode :=
  fold_left (fun acc n => insertByDegree n acc) ns [].

Definition buildLinkGraph (st : State) : Result GraphData * State :=
  match firstPass (FileUtils.listMarkdownFiles fileUtils)
          {| p_linkCache := JsMap.empty; p_nodes := JsMap.empty; p_edges := [] |} with
  | (Err e, lc) => (Err e, {| linkCache := lc; backlinkCache := JsMap.empty |})
  | (Ok p, lc) =>
      let bl := secondPass lc in
      let ns := JsMap.values (updateBacklinkCounts bl (p_nodes p)) in
      (Ok {| nodes := ns;
             edges := p_edges p;
             orphaned :=
               map path
                 (List.filter
                    (fun n => (links n =? 0)%nat && (backlinks n =? 0)%nat) ns);
             hubs := map path (take 10 (sortByDegree ns)) |},
       {| linkCache := lc; backlinkCache := bl |})
  end.

(** [if (this.linkCache.size === 0) await this.buildLinkGraph()] *)
Definition ensureBuilt (st : State) : Result unit * State :=
  if (JsMap.size (linkCache st) =? 0)%nat then
    match buildLinkGraph st with
    | (Ok _, st') => (Ok tt, st')
    | (Err e, st') => (Err e, st')
    end
  else (Ok tt, st).

Definition getForwardLinks (notePath : string) (st : State)
  : Result (list string) * State :=
  match ensureBuilt st with
  | (Err e, st') => (Err e, st')
  | (Ok _, st') =>
      (Ok (default [] (JsMap.get notePath (linkCache st'))), st')
  end.

(** [getBacklinks] looks at the size of [backlinkCache], not of
    [linkCache], to decide whether the graph must be built. *)
Definition getBacklinks (notePath : string) (st : State)
  : Result (list string) * State :=
  if (JsMap.size (backlinkCache st) =? 0)%nat then
    match buildLinkGraph st with
    | (Err e, st') => (Err e, st')
    | (Ok _, st') =>
        (Ok (default [] (JsMap.get notePath (backlinkCache st'))), st')
    end
  else (Ok (default [] (JsMap.get notePath (backlinkCache st))), st).

(** The loop of [LinkParser.findShortestPath]; [Some None] is [null]. *)
Fixpoint searchQueue (fuel : nat) (lc : JsMap.t JsSet.t) (to : string)
         (queue : list (string * list string)) (visited : gset string)
  : option (option (list string)) :=
  match queue with
  | [] => Some None
  | (node, path) :: queue' =>
      match fuel with
      | O => None
      | S fuel' =>
          if decide (node = to) then Some (Some path)
          else if decide (node ∈ visited) then searchQueue fuel' lc to queue' visited
          else
            let visited' := {[node]} ∪ visited in
            let found := default [] (JsMap.get node lc) in
            searchQueue fuel' lc to
              (fold_left
                 (fun q link =>
                    if decide (link ∈ visited') then q
                    else q ++ [(link, path ++ [link])])
                 found queue')
              visited'
      end
  end.

Definition findShortestPath (fuel : nat) (from to : string) (st : State)
  : option (Result (option (list string)) * State) :=
  match ensureBuilt st with
  | (Err e, st') => Some (Err e, st')
  | (Ok _, st') =>
      match searchQueue fuel (linkCache st') to [(from, [from])] ∅ with
      | Some r => Some (Ok r, st')
      | None => None
      end
  end.

(** [new Set([...forwardLinks, ...backLinks])], where a missing entry of
    either map stands for the empty set. *)
Definition allLinks (lc bl : JsMap.t JsSet.t) (node : string) : JsSet.t :=
  fold_left (fun s link => JsSet.add link s)
            (default JsSet.empty (JsMap.get node lc)
             ++ default JsSet.empty (JsMap.get node bl))
            JsSet.empty.

(** The body of [for (const link of allLinks)] in
    [findNotesWithinDistance], on the distances and the queue. *)
Definition relax (distance : nat) (acc : JsMap.t nat * list (string * nat))
           (link : string) : JsMap.t nat * list (string * nat) :=
  let '(distances, queue) := acc in
  if negb (JsMap.has link distances)
     || (distance + 1 <? default 0 (JsMap.get link distances))%nat
  then (JsMap.set link (distance + 1)%nat distances,
        queue ++ [(link, (distance + 1)%nat)])
  else acc.

(** The loop of [findNotesWithinDistance]; [maxDistance] is a finite
    number. *)
Fixpoint distanceQueue (fuel : nat) (lc bl : JsMap.t JsSet.t) (maxDistance : Q)
         (queue : list (string * nat)) (distances : JsMap.t nat)
  : option (JsMap.t nat) :=
  match queue with
  | [] => Some distances
  | (node, distance) :: queue' =>
      match fuel with
      | O => None
      | S fuel' =>
          if Qle_bool maxDistance (inject_Z (Z.of_nat distance))
          then distanceQueue fuel' lc bl maxDistance queue' distances
          else
            let '(distances', queue'') :=
              fold_left (relax distance) (allLinks lc bl node) (distances, queue') in
            distanceQueue fuel' lc bl maxDistance queue'' distances'
      end
  end.

Definition findNotesWithinDistance (fuel : nat) (notePath : string) (maxDistance : Q)
           (st : State) : option (Result (JsMap.t nat) * State) :=
  match ensureBuilt st with
  | (Err e, st') => Some (Err e, st')
  | (Ok _, st') =>
      match distanceQueue fuel (linkCache st') (backlinkCache st') maxDistance
              [(notePath, 0%nat)] (JsMap.set notePath 0%nat JsMap.empty) with
      | Some distances => Some (Ok distances, st')
      | None => None
      end
  end.

(** [dfsCluster]: [fuel] bounds the depth of the recursion; the two sets
    are the ones the calls share. *)
Fixpoint dfsCluster (fuel : nat) (lc bl : JsMap.t JsSet.t) (node : string)
         (acc : JsSet.t * JsSet.t) : option (JsSet.t * JsSet.t) :=
  match fuel with
  | O => None
  | S fuel' =>
      let '(visited, cluster) := acc in
      if JsSet.has node visited then Some acc
      else
        let visitAll (links : JsSet.t) (from : option (JsSet.t * JsSet.t)) :=
          fold_left
            (fun r link =>
               match r with
               | Some a => dfsCluster fuel' lc bl link a
               | None => None
               end)
            links from in
        let forwardLinks := default JsSet.empty (JsMap.get node lc) in
        let backLinks := default JsSet.empty (JsMap.get node bl) in
        visitAll backLinks
          (visitAll forwardLinks
             (Some (JsSet.add node visited, JsSet.add node cluster)))
  end.

(** The loop [for (const [node] of this.linkCache)] of
    [findLinkClusters]. *)
Fixpoint clusterScan (fuel : nat) (lc bl : JsMap.t JsSet.t) (nodes : list string)
         (visited : JsSet.t) (clusters : list JsSet.t) : option (list JsSet.t) :=
  match nodes with
  | [] => Some clusters
  | node :: rest =>
      if negb (JsSet.has node visited) then
        match dfsCluster fuel lc bl node (visited, JsSet.empty) with
        | Some (visited', cluster) =>
            clusterScan fuel lc bl rest visited'
              (if (1 <? JsSet.size cluster)%nat then clusters ++ [cluster] else clusters)
        | None => None
        end
      else clusterScan fuel lc bl rest visited clusters
  end.

(** The stable sort by descending size. *)
Fixpoint insertBySize (c : JsSet.t) (sorted : list JsSet.t) : list JsSet.t :=
  match sorted with
  | [] => [c]
  | m :: rest =>
      if (JsSet.size m <? JsSet.size c)%nat then c :: m :: rest
      else m :: insertBySize c rest
  end.

Definition sortBySize (cs : list JsSet.t) : list JsSet.t :=
  fold_left (fun acc c => insertBySize c acc) cs [].

Definition findLinkClusters (fuel : nat) (st : State)
  : option (Result (list JsSet.t) * State) :=
  match ensureBuilt st with
  | (Err e, st') => Some (Err e, st')
  | (Ok _, st') =>
      match clusterScan fuel (linkCache st') (backlinkCache st')
              (JsMap.keys (linkCache st')) JsSet.empty [] with
      | Some clusters => Some (Ok (sortBySize clusters), st')
      | None => None
      end
  end.

End LinkParser.
End LinkParser.

(** ** The graph queries: [src/utils/graph-utils.ts] *)

Module GraphUtils.

Record GraphError := {
  ge_path : option string;
  ge_operation : option string;
  ge_error : string
}.

Record Metadata := {
  totalProcessed : Z;
  successCount : Z;
  errorCount : Z
}.

Record GraphResponse (A : Type) := {
  data : A;
  errors : option (list GraphError);
  metadata : Metadata
}.
Arguments data {A}.
Arguments errors {A}.
Arguments metadata {A}.

(** [errors.length > 0 ? errors : undefined] *)
Definition errorsField (es : list GraphError) : option (list GraphError) :=
  match es with [] => None | _ => Some es end.

(** The object state: the private [linkCache] memo and the state of the
    injected link parser. *)
Record State := {
  linkCache : gmap string (list string);
  linkParser : LinkParser.State
}.

Definition init : State := {| linkCache := ∅; linkParser := LinkParser.init |}.


Section GraphUtils.
Context {Yaml : Type}.
Context (fileUtils : FileUtils.t) (parser : Parser.ObsidianParser Yaml)
        (nodePath : PathModule).

Definition getLinksFromFile (path : string) (st : State)
  : Result (list string) * State :=
  let normalizedPath := FileUtils.ensureMarkdownExtension path in
  match linkCache st !! normalizedPath with
  | Some cached => (Ok cached, st)
  | None =>
      match LinkParser.getForwardLinks fileUtils parser nodePath normalizedPath
              (linkParser st) with
      | (Ok found, lp) =>
          (Ok found,
           {| linkCache := <[normalizedPath := found]> (linkCache st);
              linkParser := lp |})
      | (Err e, lp) =>
          (Err ("Failed to get links from file: " ++ errorToString e)%string,
           {| linkCache := linkCache st; linkParser := lp |})
      end
  end.

Definition getForwardLinks (path : string) (st : State)
  : GraphResponse (list string) * State :=
  match getLinksFromFile path st with
  | (Ok found, st') =>
      ({| data := found; errors := None;
          metadata := {| totalProcessed := 1; successCount := 1; errorCount := 0 |} |},
       st')
  | (Err e, st') =>
      ({| data := [];
          errors := Some [{| ge_path := Some path;
                             ge_operation := Some "getForwardLinks";
                             ge_error := err_message e |}];
          metadata := {| totalProcessed := 1; successCount := 0; errorCount := 1 |} |},
       st')
  end.

(** The [for (const link of linksResponse.data)] loop of
    [findShortestPath]: either the path that reaches [target], or the
    updated [visited] set and [queue]. *)
Fixpoint scanLinks (target : string) (path : list string) (found : list string)
         (visited : gset string) (queue : list (list string))
  : list string + (gset string * list (list string)) :=
  match found with
  | [] => inr (visited, queue)
  | link :: rest =>
      let normalizedLink := FileUtils.ensureMarkdownExtension link in
      if decide (normalizedLink = target) then inl (path ++ [normalizedLink])
      else if decide (normalizedLink ∈ visited) then
        scanLinks target path rest visited queue
      else
        scanLinks target path rest ({[normalizedLink]} ∪ visited)
                  (queue ++ [path ++ [normalizedLink]])
  end.

Definition response (found : list string) (processedCount : Z)
           (errs : list GraphError) : GraphResponse (list string) :=
  {| data := found;
     errors := errorsField errs;
     metadata := {| totalProcessed := processedCount;
                    successCount := processedCount - Z.of_nat (length errs);
                    errorCount := Z.of_nat (length errs) |} |}.

(** The [while (queue.length > 0)] loop.  [getForwardLinks] catches every
    failure itself, so the [catch] clause around the loop body is never
    entered.  A queued path is never empty; [last path ""] is
    [path[path.length - 1]]. *)
Fixpoint searchLoop (fuel : nat) (target : string) (queue : list (list string))
         (visited : gset string) (processedCount : Z) (errs : list GraphError)
         (st : State) : option (GraphResponse (list string) * State) :=
  match queue with
  | [] => Some (response [] processedCount errs, st)
  | path :: queue' =>
      match fuel with
      | O => None
      | S fuel' =>
          let current := List.last path "" in
          let processedCount' := processedCount + 1 in
          let '(linksResponse, st') := getForwardLinks current st in
          let errs' := errs ++ default [] (errors linksResponse) in
          match scanLinks target path (data linksResponse) visited queue' with
          | inl found => Some (response found processedCount' errs', st')
          | inr (visited', queue'') =>
              searchLoop fuel' target queue'' visited' processedCount' errs' st'
          end
      end
  end.

Definition findShortestPath (fuel : nat) (sourcePath targetPath : string) (st : State)
  : option (GraphResponse (list string) * State) :=
  let source := FileUtils.ensureMarkdownExtension sourcePath in
  let target := FileUtils.ensureMarkdownExtension targetPath in
  if decide (source = target) then
    Some ({| data := [source]; errors := None;
             metadata := {| totalProcessed := 0; successCount := 1;
                            errorCount := 0 |} |}, st)
  else searchLoop fuel target [[source]] {[source]} 0 [] st.

(** The loop of [getBacklinks]: a document whose links cannot be
    obtained is recorded in [errors] and the scan goes on. *)
Fixpoint backlinkScan (normalizedPath : string) (files : list string)
         (backlinks : list string) (errs : list GraphError) (processedCount : Z)
         (st : State) : (list string * list GraphError * Z) * State :=
  match files with
  | [] => ((backlinks, errs, processedCount), st)
  | file :: rest =>
      if String.eqb file normalizedPath then
        backlinkScan normalizedPath rest backlinks errs processedCount st
      else
        match getLinksFromFile file st with
        | (Ok found, st') =>
            backlinkScan normalizedPath rest
              (if existsb
                    (fun link =>
                       String.eqb (FileUtils.ensureMarkdownExtension link) normalizedPath)
                    found
               then backlinks ++ [file] else backlinks)
              errs (processedCount + 1) st'
        | (Err e, st') =>
            backlinkScan normalizedPath rest backlinks
              (errs ++ [{| ge_path := Some file;
                           ge_operation := Some "getBacklinks";
                           ge_error := err_message e |}])
              (processedCount + 1) st'
        end
  end.

Definition getBacklinks (path : string) (st : State)
  : GraphResponse (list string) * State :=
  let normalizedPath := FileUtils.ensureMarkdownExtension path in
  let '((backlinks, errs, processedCount), st') :=
    backlinkScan normalizedPath (FileUtils.listMarkdownFiles fileUtils) [] [] 0 st in
  (response backlinks processedCount errs, st').

(** The loop of [findOrphanedNotes].  [getBacklinks] and
    [getForwardLinks] catch every failure themselves, so the [catch]
    clause of the loop body is never entered; the errors of both calls are
    appended to [errors]. *)
Fixpoint orphanScan (files : list string) (orphaned : list string)
         (errs : list GraphError) (processedCount : Z) (st : State)
  : (list string * list GraphError * Z) * State :=
  match files with
  | [] => ((orphaned, errs, processedCount), st)
  | file :: rest =>
      let '(backlinksResponse, st1) := getBacklinks file st in
      let '(forwardLinksResponse, st2) := getForwardLinks file st1 in
      let errs' := errs ++ default [] (errors backlinksResponse)
                        ++ default [] (errors forwardLinksResponse) in
      orphanScan rest
        (if (length (data backlinksResponse) =? 0)%nat
            && (length (data forwardLinksResponse) =? 0)%nat
         then orphaned ++ [file] else orphaned)
        errs' (processedCount + 1) st2
  end.

Definition findOrphanedNotes (st : State) : GraphResponse (list string) * State :=
  let '((orphaned, errs, processedCount), st') :=
    orphanScan (FileUtils.listMarkdownFiles fileUtils) [] [] 0 st in
  (response orphaned processedCount errs, st').

Definition clearCache (st : State) : State :=
  {| linkCache := ∅; linkParser := linkParser st |}.

End GraphUtils.
End GraphUtils.

(** ** The similarity engine: [src/utils/vault-utils.ts] *)

Module VaultUtils.

(** One row of the edit-distance matrix: [prev] is row [i-1] from column
    [j-1] on, [left] is [matrix[i][j-1]], [c2] is [str2.charAt(i-1)]. *)
Fixpoint fillRow (c2 : ascii) (str1 : string) (prev : list nat) (left : nat)
  : list nat :=
  match str1, prev with
  | String c1 rest, diag :: ((up :: _) as prev') =>
      let cell :=
        if Ascii.eqb c2 c1 then diag
        else Nat.min (diag + 1) (Nat.min (left + 1) (up + 1)) in
      cell :: fillRow c2 rest prev' cell
  | _, _ => []
  end.

(** Rows [i], [i+1], ... of the matrix; the result is the last row. *)
Fixpoint fillRows (i : nat) (str2 : string) (str1 : string) (prev : list nat)
  : list nat :=
  match str2 with
  | EmptyString => prev
  | String c2 rest => fillRows (S i) rest str1 (i :: fillRow c2 str1 prev i)
  end.

Definition MAX_LENGTH : nat := 1000.

Definition levenshteinDistance (str1 str2 : string) : nat :=
  if (MAX_LENGTH <? String.length str1)%nat || (MAX_LENGTH <? String.length str2)%nat
  then
    if decide (str1 = str2) then 0%nat
    else Nat.max (String.length str1) (String.length str2)
  else
    List.last (fillRows 1 str2 str1 (seq 0 (S (String.length str1)))) 0%nat.

Definition ratio (a b : nat) : Q := inject_Z (Z.of_nat a) / inject_Z (Z.of_nat b).

Definition Qlt_bool (a b : Q) : bool := negb (Qle_bool b a).

Definition SAMPLE_SIZE : nat := 500.
Definition NUM_SAMPLES : nat := 5.

(** [Math.floor((i / NUM_SAMPLES) * Math.max(0, min - SAMPLE_SIZE))]; for
    lengths a [number] holds exactly the rounded product has the same
    floor as the exact one. *)
Definition sampleOffset (i : nat) (len1 len2 : nat) : nat :=
  ((i * Nat.max 0 (Nat.min len1 len2 - SAMPLE_SIZE)) / NUM_SAMPLES)%nat.

Definition sampleSimilarity (str1 str2 : string) (i : nat) : Q :=
  let offset := sampleOffset i (String.length str1) (String.length str2) in
  let sample1 := substring offset SAMPLE_SIZE str1 in
  let sample2 := substring offset SAMPLE_SIZE str2 in
  if negb (String.eqb sample1 "") && negb (String.eqb sample2 "") then
    let editDistance := levenshteinDistance sample1 sample2 in
    let longest := Nat.max (String.length sample1) (String.length sample2) in
    inject_Z (Z.of_nat longest - Z.of_nat editDistance) / inject_Z (Z.of_nat longest)
  else 0%Q.

Definition calculateSampledSimilarity (str1 str2 : string) : Q :=
  if decide (str1 = str2) then 1%Q
  else
    let lengthRatio :=
      ratio (Nat.min (String.length str1) (String.length str2))
            (Nat.max (String.length str1) (String.length str2)) in
    if Qlt_bool lengthRatio (1 # 2) then 0%Q
    else
      let totalSimilarity :=
        fold_left (fun total i => (total + sampleSimilarity str1 str2 i)%Q)
                  (seq 0 NUM_SAMPLES) 0%Q in
      (lengthRatio * (3 # 10)
       + (totalSimilarity / inject_Z (Z.of_nat NUM_SAMPLES)) * (7 # 10))%Q.

(** [normalizeFilename]: lower case; everything but [\w], [\s] and the
    hyphen removed; each run of white space turned into a hyphen; each run
    of hyphens squeezed to one; then [trim]. *)
Definition normalizeFilename (filename : string) : string :=
  let lowered := Js.toLowerCase filename in
  let kept :=
    Js.filterChars (fun c => Js.isWord c || Js.isSpace c || Ascii.eqb c "-") lowered in
  let hyphenated := Js.replaceSpaceRuns "-" false kept in
  Js.trim (Js.squeezeHyphens false hyphenated).

Definition MAX_LEVENSHTEIN_LENGTH : nat := 1000.

Definition calculateStringSimilarity (str1 str2 : string) : Q :=
  let longer := if (String.length str2 <? String.length str1)%nat then str1 else str2 in
  let shorter := if (String.length str2 <? String.length str1)%nat then str2 else str1 in
  if (String.length longer =? 0)%nat then 1%Q
  else if (MAX_LEVENSHTEIN_LENGTH <? String.length longer)%nat then
    calculateSampledSimilarity str1 str2
  else
    let editDistance := levenshteinDistance longer shorter in
    (inject_Z (Z.of_nat (String.length longer) - Z.of_nat editDistance)
     / inject_Z (Z.of_nat (String.length longer)))%Q.

(** *** The content comparison of one pair in [findDuplicateNotes] *)

Inductive SimilarityType := content | title.

Inductive IO := ReadFile (file : string) | ComputeFileHash (file : string).

Record VaultError := {
  ve_path : option string;
  ve_operation : option string;
  ve_error : string
}.

Record Comparison := {
  similarity : Q;
  type : SimilarityType;
  trace : list IO;
  errors : list VaultError
}.

Definition SAFE_SIZE_LIMIT : Z := 50 * 1024.

Section ContentComparison.
(** The disk, as the scan sees it: [fileUtils.readFile] and the streamed
    SHA-256 digest of [computeFileHash], either of which may fail. *)
Context (readFile : string -> Result string)
        (computeFileHash : string -> Result string).

(** [hash1], then [hash2], then the comparison; the calls made are
    returned with the outcome. *)
Definition compareHashes (file1 file2 : string) (sim : Q) (ty : SimilarityType)
  : Result (Q * SimilarityType) * list IO :=
  match computeFileHash file1 with
  | Err e => (Err e, [ComputeFileHash file1])
  | Ok hash1 =>
      match computeFileHash file2 with
      | Err e => (Err e, [ComputeFileHash file1; ComputeFileHash file2])
      | Ok hash2 =>
          (Ok (if String.eqb hash1 hash2 then (1%Q, content) else (sim, ty)),
           [ComputeFileHash file1; ComputeFileHash file2])
      end
  end.

(** The [catch] of the direct comparison: try the hashes, give up
    silently if they fail too. *)
Definition hashFallback (file1 file2 : string) (sim : Q) (ty : SimilarityType)
           (done : list IO) : Comparison :=
  match compareHashes file1 file2 sim ty with
  | (Ok (s, t), tr) =>
      {| similarity := s; type := t; trace := done ++ tr; errors := [] |}
  | (Err _, tr) =>
      {| similarity := sim; type := ty; trace := done ++ tr; errors := [] |}
  end.

(** The block guarded by [checkContent && similarity < threshold], for
    the pair [(file1, file2)] with recorded sizes [file1Size] and
    [file2Size] ([fileSizes.get(file) || 0]); [sim] and [ty] are the
    values left by the title check. *)
Definition compareContent (checkContent : bool) (threshold : Q)
           (file1 file2 : string) (file1Size file2Size : Z)
           (sim : Q) (ty : SimilarityType) : Comparison :=
  let unchanged tr := {| similarity := sim; type := ty; trace := tr; errors := [] |} in
  if checkContent && Qlt_bool sim threshold then
    if (file1Size >? SAFE_SIZE_LIMIT) || (file2Size >? SAFE_SIZE_LIMIT) then
      let sizeDiff := Z.abs (file1Size - file2Size) in
      let avgSize := (inject_Z (file1Size + file2Size) / 2)%Q in
      if Qlt_bool (inject_Z sizeDiff / avgSize) (1 # 10) then
        match compareHashes file1 file2 sim ty with
        | (Ok (s, t), tr) =>
            {| similarity := s; type := t; trace := tr; errors := [] |}
        | (Err e, tr) =>
            {| similarity := sim; type := ty; trace := tr;
               errors := [{| ve_path := Some file2;
                             ve_operation := Some "findDuplicateNotes.contentComparison";
                             ve_error := err_message e |}] |}
        end
      else unchanged []
    else
      match readFile file1 with
      | Err _ => hashFallback file1 file2 sim ty [ReadFile file1]
      | Ok content1 =>
          match readFile file2 with
          | Err _ => hashFallback file1 file2 sim ty [ReadFile file1; ReadFile file2]
          | Ok content2 =>
              if (Z.of_nat (String.length content1) >? SAFE_SIZE_LIMIT)
                 || (Z.of_nat (String.length content2) >? SAFE_SIZE_LIMIT)
              then
                match compareHashes file1 file2 sim ty with
                | (Ok (s, t), tr) =>
                    {| similarity := s; type := t;
                       trace := [ReadFile file1; ReadFile file2] ++ tr;
                       errors := [] |}
                | (Err _, tr) =>
                    hashFallback file1 file2 sim ty
                                 ([ReadFile file1; ReadFile file2] ++ tr)
                end
              else
                let contentSim := calculateStringSimilarity content1 content2 in
                if Qlt_bool sim contentSim then
                  {| similarity := contentSim; type := content;
                     trace := [ReadFile file1; ReadFile file2]; errors := [] |}
                else unchanged [ReadFile file1; ReadFile file2]
          end
      end
  else unchanged [].

End ContentComparison.
End VaultUtils.

(** ** The search engine: class [SearchUtils], kept in
       [src/utils/vault-utils.ts] *)

Module SearchUtils.

Record SearchError := {
  se_path : option string;
  se_operation : option string;
  se_error : string
}.

Record Metadata := {
  totalProcessed : Z;
  successCount : Z;
  errorCount : Z
}.

Record SearchResponse (A : Type) := {
  results : A;
  errors : option (list SearchError);
  metadata : Metadata
}.
Arguments results {A}.
Arguments errors {A}.
Arguments metadata {A}.

(** [similarity] is a [number]: an IEEE double. *)
Record Similar := {
  path : string;
  similarity : float
}.

(** [getWords]: lower case, everything but [\w] and [\s] turned into a
    space, split at white space, words of more than three characters
    kept. *)
Definition getWords (content : string) : list string :=
  List.filter
    (fun word => (3 <? String.length word)%nat)
    (Js.splitSpaces false EmptyString
       (Js.mapChars (fun c => if Js.isWord c || Js.isSpace c then c else " "%char)
                    (Js.toLowerCase content))).

(** The [length] of an array as a [number] (array lengths are below
    [2^32]). *)
Definition ofLength (n : nat) : float :=
  PrimFloat.of_uint63 (Uint63.of_Z (Z.of_nat n)).

(** [common.length / Math.max(a.length, b.length)], in doubles: [0 / 0]
    is [NaN]. *)
Definition overlap (common a b : nat) : float :=
  PrimFloat.div (ofLength common) (ofLength (Nat.max a b)).

(** The similarity of a candidate to the reference: [similarity = 0]
    followed by the three [similarity += ... * weight], in doubles. *)
#[warnings="-inexact-float"]
Definition similarityOf (tags referenceTags links referenceLinks : list string)
           (content referenceContent : string) : float :=
  let commonTags := List.filter (fun tag => bool_decide (tag ∈ referenceTags)) tags in
  let tagSimilarity := overlap (length commonTags) (length tags) (length referenceTags) in
  let commonLinks := List.filter (fun link => bool_decide (link ∈ referenceLinks)) links in
  let linkSimilarity :=
    overlap (length commonLinks) (length links) (length referenceLinks) in
  let refWords := getWords referenceContent in
  let fileWords := getWords content in
  let commonWords := List.filter (fun word => bool_decide (word ∈ fileWords)) refWords in
  let contentSimilarity :=
    overlap (length commonWords) (length refWords) (length fileWords) in
  PrimFloat.add
    (PrimFloat.add
       (PrimFloat.add 0%float (PrimFloat.mul tagSimilarity 0.3%float))
       (PrimFloat.mul linkSimilarity 0.3%float))
    (PrimFloat.mul contentSimilarity 0.4%float).

(** [similarity >= minSimilarity] *)
Definition atLeast (similarity minSimilarity : float) : bool :=
  PrimFloat.leb minSimilarity similarity.

(** The stable sort with the comparator
    [(a, b) => b.similarity - a.similarity]: [x] goes before the first
    [y] for which the comparator gives [y] a positive number. *)
Fixpoint insertBySimilarity (x : Similar) (sorted : list Similar) : list Similar :=
  match sorted with
  | [] => [x]
  | y :: rest =>
      if PrimFloat.ltb 0%float (PrimFloat.sub (similarity x) (similarity y))
      then x :: y :: rest
      else y :: insertBySimilarity x rest
  end.

Definition sortBySimilarity (xs : list Similar) : list Similar :=
  fold_left (fun acc x => insertBySimilarity x acc) xs [].

(** [array.slice(0, limit)] for an integer [limit]; a negative one counts
    from the end. *)
Definition sliceTo {A : Type} (limit : Z) (xs : list A) : list A :=
  if limit <? 0 then take (Z.to_nat (Z.max (Z.of_nat (length xs) + limit) 0)) xs
  else take (Z.to_nat limit) xs.

Section SearchUtils.
Context {Yaml : Type}.
Context (fileUtils : FileUtils.t) (parser : Parser.ObsidianParser Yaml)
        (nodePath : PathModule).

(** [readFile], [parseFrontmatter] and [extractTags] on one document, as
    the reference note and every candidate go through them; each of the
    three may throw. *)
Definition contentAndTags (file : string) : Result (string * list string) :=
  match FileUtils.readFile fileUtils file with
  | Err e => Err e
  | Ok content =>
      match Parser.op_parseFrontmatter parser content with
      | Err e => Err e
      | Ok parsed =>
          match Parser.op_extractTags parser content (Parser.data parsed) with
          | Err e => Err e
          | Ok tags => Ok (content, tags)
          end
      end
  end.

(** The loop of [findSimilarNotes] over the listed documents.  What a
    candidate throws is caught and recorded, and the loop goes on. *)
Fixpoint scanSimilar (path referenceContent : string)
         (referenceTags referenceLinks : list string) (minSimilarity : float)
         (files : list string) (similarities : list Similar)
         (errs : list SearchError) (processedCount : Z) (st : LinkParser.State)
  : (list Similar * list SearchError * Z) * LinkParser.State :=
  match files with
  | [] => ((similarities, errs, processedCount), st)
  | file :: rest =>
      if String.eqb file path then
        scanSimilar path referenceContent referenceTags referenceLinks minSimilarity
                    rest similarities errs processedCount st
      else
        let failed (e : JsError) st' :=
          scanSimilar path referenceContent referenceTags referenceLinks minSimilarity
                      rest similarities
                      (errs ++ [{| se_path := Some file;
                                   se_operation := Some "findSimilarNotes";
                                   se_error := err_message e |}])
                      (processedCount + 1) st' in
        match contentAndTags file with
        | Err e => failed e st
        | Ok (content, tags) =>
            match LinkParser.getForwardLinks fileUtils parser nodePath file st with
            | (Err e, st') => failed e st'
            | (Ok links, st') =>
                let sim := similarityOf tags referenceTags links referenceLinks
                                        content referenceContent in
                scanSimilar path referenceContent referenceTags referenceLinks
                            minSimilarity rest
                            (if atLeast sim minSimilarity
                             then similarities ++ [{| path := file; similarity := sim |}]
                             else similarities)
                            errs (processedCount + 1) st'
            end
        end
  end.

(** [findSimilarNotes].  A failure on the reference note leaves through
    the outer [catch], which throws
    [`Failed to find similar notes: ${error}`]. *)
Definition findSimilarNotes (path : string) (limit : Z) (minSimilarity : float)
           (st : LinkParser.State)
  : Result (SearchResponse (list Similar)) * LinkParser.State :=
  match contentAndTags path with
  | Err e => (Err ("Failed to find similar notes: " ++ errorToString e)%string, st)
  | Ok (referenceContent, referenceTags) =>
      match LinkParser.getForwardLinks fileUtils parser nodePath path st with
      | (Err e, st1) =>
          (Err ("Failed to find similar notes: " ++ errorToString e)%string, st1)
      | (Ok referenceLinks, st1) =>
          let '((similarities, errs, processedCount), st2) :=
            scanSimilar path referenceContent referenceTags referenceLinks minSimilarity
                        (FileUtils.listMarkdownFiles fileUtils) [] [] 0 st1 in
          (Ok {| results := sliceTo limit (sortBySimilarity similarities);
                 errors := match errs with [] => None | _ => Some errs end;
                 metadata :=
                   {| totalProcessed := processedCount;
                      successCount := processedCount - Z.of_nat (length errs);
                      errorCount := Z.of_nat (length errs) |} |},
           st2)
      end
  end.

End SearchUtils.
End SearchUtils.

(** ** Vocabulary of the statements *)

(** The accounting of the cache is exact when [currentSize] is the sum of
    the stored sizes and no key occurs twice. *)
Definition accounted {T : Type} (c : LRU.LRUCache T) : Prop :=
  LRU.currentSize c = LRU.storedBytes c /\ NoDup (LRU.keys c).

(** The two bounds of the occupancy invariant. *)
Definition withinBounds {T : Type} (c : LRU.LRUCache T) : Prop :=
  LRU.storedBytes c <= LRU.maxSize c /\ LRU.itemCount c <= LRU.maxItems c.

(** The configuration of a cache never changes. *)
Definition sameLimits {T : Type} (c c' : LRU.LRUCache T) : Prop :=
  LRU.maxSize c' = LRU.maxSize c /\ LRU.maxItems c' = LRU.maxItems c
  /\ LRU.ttl c' = LRU.ttl c.

(** The public calls that change a cache, and sequences of them. *)
Inductive CacheOp (T : Type) : Type :=
| OpSet (key : string) (v : T) (byteSize now : Z)
| OpGet (key : string) (now : Z)
| OpHas (key : string) (now : Z)
| OpDelete (key : string)
| OpClear.
Arguments OpSet {T}.
Arguments OpGet {T}.
Arguments OpHas {T}.
Arguments OpDelete {T}.
Arguments OpClear {T}.

Definition applyOp {T : Type} (op : CacheOp T) (c : LRU.LRUCache T)
  : option (LRU.LRUCache T) :=
  match op with
  | OpSet key v byteSize now => LRU.set key v byteSize now c
  | OpGet key now => Some (snd (LRU.get key now c))
  | OpHas key now => Some (snd (LRU.has key now c))
  | OpDelete key => Some (snd (LRU.delete key c))
  | OpClear => Some (LRU.clear c)
  end.

Fixpoint runOps {T : Type} (ops : list (CacheOp T)) (c : LRU.LRUCache T)
  : option (LRU.LRUCache T) :=
  match ops with
  | [] => Some c
  | op :: rest =>
      match applyOp op c with
      | Some c' => runOps rest c'
      | None => None
      end
  end.

(** Exact accounting, both bounds, and no negative stored size. *)
Definition wellFormed {T : Type} (c : LRU.LRUCache T) : Prop :=
  accounted c /\ withinBounds c
  /\ Forall (fun e => 0 <= LRU.size e) (JsMap.values (LRU.cache c)).

(** A call that is not a [set] of a negative or oversized entry. *)
Definition withinLimit {T : Type} (limit : Z) (op : CacheOp T) : Prop :=
  match op with
  | OpSet _ _ byteSize _ => 0 <= byteSize <= limit
  | _ => True
  end.

(** The states a [LinkParser] object goes through: fresh, after a build
    (finished or aborted), after a forward-link query. *)
Inductive Reachable {Yaml : Type} (fs : FileUtils.t)
          (parser : Parser.ObsidianParser Yaml) (np : PathModule)
  : LinkParser.State -> Prop :=
| reach_init : Reachable fs parser np LinkParser.init
| reach_build st :
    Reachable fs parser np st ->
    Reachable fs parser np (snd (LinkParser.buildLinkGraph fs parser np st))
| reach_forward st p :
    Reachable fs parser np st ->
    Reachable fs parser np (snd (LinkParser.getForwardLinks fs parser np p st)).

(** No document is in its own forward set. *)
Definition selfFree (lc : JsMap.t JsSet.t) : Prop :=
  forall k s, JsMap.get k lc = Some s -> k ∉ s.

(** [readFile] succeeds on the document. *)
Definition readable (fs : FileUtils.t) (f : string) : Prop :=
  exists c, FileUtils.readFile fs f = Ok c.

(** The first pass gets through the document: it can be read, and
    neither [parseFrontmatter] nor [extractTags] throws on its content. *)
Definition processable {Yaml : Type} (fs : FileUtils.t)
           (parser : Parser.ObsidianParser Yaml) (f : string) : Prop :=
  exists note, LinkParser.readNote fs parser f = Ok note.

(** Every node of the [nodes] map is stored under its own path. *)
Definition keyedByPath (ns : JsMap.t LinkParser.GraphNode) : Prop :=
  forall k n, (k, n) ∈ ns -> LinkParser.path n = k.

(** The forward-link graph a successful build leaves in [linkCache], the
    links [findShortestPath] follows in it, and the walks they form. *)
Definition forwardGraph {Yaml : Type} (fs : FileUtils.t)
           (parser : Parser.ObsidianParser Yaml) (np : PathModule) : JsMap.t JsSet.t :=
  LinkParser.linkCache (snd (LinkParser.buildLinkGraph fs parser np LinkParser.init)).

(** What [getForwardLinks(u)] returns once the graph is built. *)
Definition forwardOf (G : JsMap.t JsSet.t) (u : string) : list string :=
  default [] (JsMap.get (FileUtils.ensureMarkdownExtension u) G).

(** One hop of the search: [v] is a forward link of [u], normalised. *)
Definition linked (G : JsMap.t JsSet.t) (u v : string) : Prop :=
  exists l, l ∈ forwardOf G u /\ v = FileUtils.ensureMarkdownExtension l.

(** [walkTo G s p t]: [p] is a sequence of documents that starts with [s],
    ends with [t] and follows one link at each step. *)
Inductive walkTo (G : JsMap.t JsSet.t) (s : string) : list string -> string -> Prop :=
| walk_start : walkTo G s [s] s
| walk_step p u v : walkTo G s p u -> linked G u v -> walkTo G s (p ++ [v]) v.

(** The states of a [GraphUtils] object over an unchanging vault: the link
    parser has not built its graph yet or holds the graph of the vault,
    and the memo of the object agrees with that graph. *)
Definition Consistent {Yaml : Type} (fs : FileUtils.t)
           (parser : Parser.ObsidianParser Yaml) (np : PathModule)
           (st : GraphUtils.State) : Prop :=
  (LinkParser.linkCache (GraphUtils.linkParser st) = JsMap.empty
   \/ LinkParser.linkCache (GraphUtils.linkParser st) = forwardGraph fs parser np)
  /\ forall k v, GraphUtils.linkCache st !! k = Some v ->
                 v = default [] (JsMap.get k (forwardGraph fs parser np)).

(** Every link target of the graph, normalised: the documents a search
    can ever enqueue. *)
Definition linkTargets (G : JsMap.t JsSet.t) : list string :=
  flat_map (fun entry : string * JsSet.t => map FileUtils.ensureMarkdownExtension (snd entry)) G.

(** How many of them are still to be visited. *)
Definition unvisited (universe : list string) (visited : gset string) : nat :=
  length (List.filter (fun x => bool_decide (x ∉ visited)) universe).

(** The invariant of the search loop.  [pending] holds the queued paths
    and, while the links of a document are scanned, the path that led to
    it.  Every pending path is a walk from the source to a visited
    document and is as short as any walk to that document; the target is
    not visited; a visited document either has all its links visited or
    is the end of a pending path. *)
Record SearchInv (G : JsMap.t JsSet.t) (src tgt : string)
       (pending : list (list string)) (visited : gset string) : Prop := {
  inv_walk : forall q, q ∈ pending -> exists u, walkTo G src q u /\ u ∈ visited;
  inv_src : src ∈ visited;
  inv_tgt : tgt ∉ visited;
  inv_closed : forall v, v ∈ visited ->
      (forall w, linked G v w -> w ∈ visited) \/ exists q, q ∈ pending /\ walkTo G src q v;
  inv_min : forall q u, q ∈ pending -> walkTo G src q u ->
      forall p, walkTo G src p u -> (length q <= length p)%nat
}.

(** The queue holds paths of [L] documents followed by paths of [L + 1]
    documents. *)
Definition levels (L : nat) (queue : list (list string)) : Prop :=
  exists qs1 qs2, queue = qs1 ++ qs2
    /\ Forall (fun q => length q = L) qs1
    /\ Forall (fun q => length q = S L) qs2.

(** One hop of the link parser's own search: [v] is in the forward set of
    [u], as stored. *)
Definition follows (G : JsMap.t JsSet.t) (u v : string) : Prop :=
  v ∈ default [] (JsMap.get u G).

(** [trail G s p t]: [p] starts with [s], ends with [t] and follows one
    stored link at each step. *)
Inductive trail (G : JsMap.t JsSet.t) (s : string) : list string -> string -> Prop :=
| trail_start : trail G s [s] s
| trail_step p u v : trail G s p u -> follows G u v -> trail G s (p ++ [v]) v.

(** The links of the documents not yet visited: a bound on what the
    search can still enqueue. *)
Definition pendingLinks (G : JsMap.t JsSet.t) (visited : gset string) : nat :=
  fold_right
    (fun (entry : string * JsSet.t) n =>
       ((if decide (fst entry ∈ visited) then 0 else length (snd entry)) + n)%nat)
    0%nat G.

(** The invariant of that search: every queued path is a walk to its
    document; the target is not visited; the source is visited or queued;
    each link of a visited document leads to a visited document or to a
    queued path that is at most one step longer than any walk to the
    document. *)
Record TrailInv (G : JsMap.t JsSet.t) (from to : string)
       (queue : list (string * list string)) (visited : gset string) : Prop := {
  ti_walk : forall x q, (x, q) ∈ queue -> trail G from q x;
  ti_to : to ∉ visited;
  ti_start : from ∈ visited \/ (from, [from]) ∈ queue;
  ti_next : forall v w, v ∈ visited -> follows G v w ->
      w ∈ visited
      \/ exists q, (w, q) ∈ queue
                   /\ forall p, trail G from p v -> (length q <= length p + 1)%nat
}.

(** One hop of [findNotesWithinDistance]: [v] is in the forward set or in
    the backward set of [u], as stored. *)
Definition neighbour (lc bl : JsMap.t JsSet.t) (u v : string) : Prop :=
  v ∈ default [] (JsMap.get u lc) \/ v ∈ default [] (JsMap.get u bl).

(** [hops lc bl s n t]: [t] is reached from [s] in [n] hops. *)
Inductive hops (lc bl : JsMap.t JsSet.t) (s : string) : nat -> string -> Prop :=
| hops_start : hops lc bl s 0 s
| hops_step n u v : hops lc bl s n u -> neighbour lc bl u v -> hops lc bl s (S n) v.

(** Every note a hop can lead to, and how many of them have no distance
    yet: a bound on what that search can still enqueue. *)
Definition hopTargets (lc bl : JsMap.t JsSet.t) : gset string :=
  list_to_set (concat (JsMap.values lc) ++ concat (JsMap.values bl)).

Definition withoutDistance (lc bl : JsMap.t JsSet.t) (distances : JsMap.t nat) : nat :=
  size (hopTargets lc bl ∖ list_to_set (JsMap.keys distances)).

(** The queue holds notes at [L] hops followed by notes at [L + 1] hops,
    and no distance is above [L + 1]. *)
Definition hopLevels (L : nat) (queue : list (string * nat)) (distances : JsMap.t nat)
  : Prop :=
  (exists q1 q2, queue = q1 ++ q2
     /\ Forall (fun e : string * nat => snd e = L) q1
     /\ Forall (fun e : string * nat => snd e = S L) q2)
  /\ forall k d, JsMap.get k distances = Some d -> (d <= S L)%nat.

(** The invariant of that search: the start is at distance 0; every
    distance is the length of a walk and was given below the bound; a
    queued note has the distance it is queued with; each neighbour of a
    note with a distance has a distance at most one larger, unless the
    note is still queued or at the bound. *)
Record HopInv (lc bl : JsMap.t JsSet.t) (maxDistance : Q) (start : string)
       (queue : list (string * nat)) (distances : JsMap.t nat) : Prop := {
  hi_start : JsMap.get start distances = Some 0%nat;
  hi_hops : forall k d, JsMap.get k distances = Some d ->
      hops lc bl start d k
      /\ forall d0, d = S d0 -> Qle_bool maxDistance (inject_Z (Z.of_nat d0)) = false;
  hi_queued : forall x d, (x, d) ∈ queue -> JsMap.get x distances = Some d;
  hi_next : forall u d v, JsMap.get u distances = Some d -> neighbour lc bl u v ->
      (exists d', JsMap.get v distances = Some d' /\ (d' <= S d)%nat)
      \/ (u, d) ∈ queue
      \/ Qle_bool maxDistance (inject_Z (Z.of_nat d)) = true
}.

(** [t] is reached from [s] in some number of hops. *)
Definition connected (lc bl : JsMap.t JsSet.t) (s t : string) : Prop :=
  exists n, hops lc bl s n t.

(** The notes of the stored graph, and how many of them are not in a
    list: a bound on the depth of [dfsCluster]. *)
Definition storedNotes (lc bl : JsMap.t JsSet.t) : gset string :=
  list_to_set (JsMap.keys lc) ∪ hopTargets lc bl.

Definition notVisited (lc bl : JsMap.t JsSet.t) (visited : JsSet.t) : nat :=
  size (storedNotes lc bl ∖ list_to_set visited).

(** A list of sets in descending order of size. *)
Fixpoint descendingSize (l : list JsSet.t) : Prop :=
  match l with
  | [] => True
  | a :: l' =>
      Forall (fun b => (JsSet.size b <= JsSet.size a)%nat) l' /\ descendingSize l'
  end.

(** The edit-distance recurrence of [levenshteinDistance], on two words
    read from their last character. *)
Fixpoint editDistance (u : list ascii) : list ascii -> nat :=
  match u with
  | [] => fun v => length v
  | b :: y =>
      fix inner (v : list ascii) : nat :=
        match v with
        | [] => S (length y)
        | a :: x =>
            if Ascii.eqb b a then editDistance y x
            else Nat.min (editDistance y x + 1)
                         (Nat.min (inner x + 1) (editDistance y (a :: x) + 1))
        end
  end.

(** The row of the matrix for the word [u], from the column of [acc] on. *)
Fixpoint rowFrom (u acc : list ascii) (rest : string) : list nat :=
  editDistance u acc ::
  match rest with
  | EmptyString => []
  | String c rest' => rowFrom u (c :: acc) rest'
  end.

(** The characters of [s] in reverse order, in front of [acc]. *)
Fixpoint revChars (s : string) (acc : list ascii) : list ascii :=
  match s with
  | EmptyString => acc
  | String c s' => revChars s' (c :: acc)
  end.

(** [sizeDiff / avgSize < 0.1] *)
Definition sizesWithinTenPercent (s1 s2 : Z) : Prop :=
  (inject_Z (Z.abs (s1 - s2)) / (inject_Z (s1 + s2) / 2) < 1 # 10)%Q.

(** What a comparison by digests leaves in [r]: similarity 1 of type
    "content" when both digests are computed and equal, the values [sim]
    and [ty] of the title check otherwise. *)
Definition decidedByHashes (computeFileHash : string -> Result string)
           (file1 file2 : string) (sim : Q) (ty : VaultUtils.SimilarityType)
           (r : VaultUtils.Comparison) : Prop :=
  (forall h1 h2, computeFileHash file1 = Ok h1 -> computeFileHash file2 = Ok h2 ->
     (VaultUtils.similarity r, VaultUtils.type r)
     = if String.eqb h1 h2 then (1%Q, VaultUtils.content) else (sim, ty))
  /\ ((VaultUtils.similarity r, VaultUtils.type r) = (sim, ty)
      \/ (VaultUtils.similarity r, VaultUtils.type r) = (1%Q, VaultUtils.content)
         /\ exists h, computeFileHash file1 = Ok h /\ computeFileHash file2 = Ok h).

(** The direct comparison gave up after the calls [reads]: digests were
    asked for, nothing more was read, the digests decided and no error
    was recorded. *)
Definition fellBackToHashes (computeFileHash : string -> Result string)
           (file1 file2 : string) (sim : Q) (ty : VaultUtils.SimilarityType)
           (reads : list VaultUtils.IO) (r : VaultUtils.Comparison) : Prop :=
  VaultUtils.errors r = []
  /\ (exists hashes, VaultUtils.trace r = reads ++ hashes
                     /\ hashes <> []
                     /\ forall f, VaultUtils.ReadFile f ∉ hashes)
  /\ decidedByHashes computeFileHash file1 file2 sim ty r.

(** The entry [get] leaves behind on a hit at time [t]. *)
Definition touched {T : Type} (e : LRU.CacheEntry T) (t : Z) : LRU.CacheEntry T :=
  {| LRU.value := LRU.value e; LRU.size := LRU.size e;
     LRU.lastAccessed := t; LRU.accessCount := LRU.accessCount e + 1 |}.

(** The forward lists that [invalidateFile path] keeps: those that have
    not expired when they are looked up and do not name [path]. *)
Definition keptForwardLists (path : string) (clock : string -> Z) (ttl : Z)
           (m : JsMap.t (LRU.CacheEntry (list string)))
  : JsMap.t (LRU.CacheEntry (list string)) :=
  flat_map
    (fun kv : string * LRU.CacheEntry (list string) =>
       if startsWith (fst kv) "fwd:"
          && negb (clock (fst kv) - LRU.lastAccessed (snd kv) >? ttl)
          && negb (bool_decide (path ∈ LRU.value (snd kv)))
       then [(fst kv, touched (snd kv) (clock (fst kv)))]
       else [])
    m.

(** The forward set the first pass computes for a document: the
    resolved targets of the wiki and markdown links of its content. *)
Definition outgoing {Yaml : Type} (fs : FileUtils.t)
           (parser : Parser.ObsidianParser Yaml) (np : PathModule) (file : string)
  : JsSet.t :=
  match FileUtils.readFile fs file with
  | Ok content =>
      fst (LinkParser.processLinks np file (Parser.op_extractAllLinks parser content))
  | Err _ => JsSet.empty
  end.

(** What the first pass has gathered is coherent: each processed document
    has its forward set in [linkCache] and a node that counts it, and the
    edges list exactly the stored links. *)
Definition gathered {Yaml : Type} (fs : FileUtils.t)
           (parser : Parser.ObsidianParser Yaml) (np : PathModule)
           (acc : LinkParser.Pass1) : Prop :=
  NoDup (JsMap.keys (LinkParser.p_linkCache acc))
  /\ JsMap.keys (LinkParser.p_nodes acc) = JsMap.keys (LinkParser.p_linkCache acc)
  /\ (forall k out, JsMap.get k (LinkParser.p_linkCache acc) = Some out ->
                    out = outgoing fs parser np k)
  /\ (forall k n, (k, n) ∈ LinkParser.p_nodes acc ->
        LinkParser.path n = k
        /\ LinkParser.links n
           = length (default [] (JsMap.get k (LinkParser.p_linkCache acc)))
        /\ LinkParser.backlinks n = 0%nat)
  /\ (forall s t,
        (exists ty, {| LinkParser.source := s; LinkParser.target := t;
                       LinkParser.type := ty |} ∈ LinkParser.p_edges acc)
        <-> t ∈ default [] (JsMap.get s (LinkParser.p_linkCache acc))).

(** The documents whose stored forward set holds [t], in the order of
    the map: what the second pass collects for [t]. *)
Definition sourcesOf (lc : JsMap.t JsSet.t) (t : string) : list string :=
  map fst (List.filter (fun entry : string * JsSet.t => bool_decide (t ∈ snd entry)) lc).

(** A list of nodes in descending order of degree. *)
Fixpoint descendingDegree (l : list LinkParser.GraphNode) : Prop :=
  match l with
  | [] => True
  | a :: l' =>
      Forall (fun b => (LinkParser.degree b <= LinkParser.degree a)%nat) l'
      /\ descendingDegree l'
  end.

(** The characters of a slug and of a normalised file name: lower-case
    letters, digits, the underscore and the hyphen. *)
Definition isSlugChar (c : ascii) : bool :=
  Js.between 97 122 c || Js.isDigit c || (Js.code c =? 95)%nat || Ascii.eqb c "-".

(** The string has no two hyphens in a row. *)
Fixpoint singleHyphens (s : string) : bool :=
  match s with
  | EmptyString => true
  | String c s' =>
      match s' with
      | String c' _ => negb (Ascii.eqb c "-" && Ascii.eqb c' "-") && singleHyphens s'
      | EmptyString => true
      end
  end.

(** [s.charAt(0)] and [s.charAt(s.length - 1)], if any. *)
Definition firstChar (s : string) : option ascii :=
  match s with
  | EmptyString => None
  | String c _ => Some c
  end.

Fixpoint lastChar (s : string) : option ascii :=
  match s with
  | EmptyString => None
  | String c EmptyString => Some c
  | String _ s' => lastChar s'
  end.

(** The links follow one another in the text: the first starts at
    [from] or later, and each of the others where the one before it ends
    or later. *)
Fixpoint inTextOrder (from : nat) (links : list Parser.NoteLink) : Prop :=
  match links with
  | [] => True
  | l :: rest =>
      (from <= fst (Parser.position l))%nat
      /\ (fst (Parser.position l) < snd (Parser.position l))%nat
      /\ inTextOrder (snd (Parser.position l)) rest
  end.

(** ** Sample vaults *)

Module Sample.
Import Parser.

(** A store held in a table; a document that is listed but cannot be
    read is entered with its error. *)
Definition store (files : JsMap.t (Result string)) : FileUtils.t :=
  {| FileUtils.listMarkdownFiles := JsMap.keys files;
     FileUtils.readFile := fun f =>
       default (Err ("ENOENT: no such file or directory, open '" ++ f ++ "'")%string)
               (JsMap.get f files) |}.

Definition wikiLink (target_ : string) : NoteLink :=
  {| type := wiki; target := target_; displayText := None; position := (0, 0)%nat |}.

(** A parser that knows the links of the few contents it is given, in
    the manner of the mocked parser of the link-parser tests. *)
Definition tableParser (table : JsMap.t (list NoteLink)) : ObsidianParser unit :=
  {| op_parseFrontmatter := fun raw => Ok {| data := JsMap.empty; content := raw |};
     op_extractAllLinks := fun raw => default [] (JsMap.get raw table);
     op_extractTags := fun _ _ => Ok [];
     op_getNoteTitle := fun _ file => file |}.

(** [path] restricted to a vault without folders. *)
Definition flatPath : PathModule :=
  {| dirname := fun _ => ".";
     join := fun a b => (a ++ "/" ++ b)%string;
     normalize := fun p => p |}.

Definition links : JsMap.t (list NoteLink) :=
  [("to B", [wikiLink "B"]);
   ("to C and A", [wikiLink "C"; wikiLink "A"]);
   ("to A and B", [wikiLink "A"; wikiLink "B.md"])].

Definition parser : ObsidianParser unit := tableParser links.

(** [A] links to [B]; [B] links to [C] and back to [A]. *)
Definition chain : FileUtils.t :=
  store [("A.md", Ok "to B"); ("B.md", Ok "to C and A"); ("C.md", Ok "")].

(** [A] links to itself and to [B]. *)
Definition selfLink : FileUtils.t :=
  store [("A.md", Ok "to A and B"); ("B.md", Ok "")].

(** [B] is listed but unreadable. *)
Definition locked : FileUtils.t :=
  store [("A.md", Ok "to B");
         ("B.md", Err "EACCES: permission denied, open 'B.md'");
         ("C.md", Ok "to B")].

Definition emptyVault : FileUtils.t := store [].

(** Three notes with some prose, and a parser that files every note under
    the tag [work]. *)
Definition prose : JsMap.t (list NoteLink) :=
  [("project notes, see B", [wikiLink "B"]);
   ("project notes, see C and A", [wikiLink "C"; wikiLink "A"])].

Definition tagging : ObsidianParser unit :=
  {| op_parseFrontmatter := fun raw => Ok {| data := JsMap.empty; content := raw |};
     op_extractAllLinks := fun raw => default [] (JsMap.get raw prose);
     op_extractTags := fun _ _ => Ok ["work"];
     op_getNoteTitle := fun _ file => file |}.

Definition journal : FileUtils.t :=
  store [("A.md", Ok "project notes, see B");
         ("B.md", Ok "project notes, see C and A");
         ("C.md", Ok "")].

(** [A] is listed first and cannot be read. *)
Definition sealed : FileUtils.t :=
  store [("A.md", Err "EACCES: permission denied, open 'A.md'");
         ("B.md", Ok "to C and A"); ("C.md", Ok "")].

(** A note whose front matter block opens a list it never closes, and a
    parser that, as [gray-matter] does, throws on it. *)
Definition unclosed : string := "--- tags: [work ---".

Definition strict : ObsidianParser unit :=
  {| op_parseFrontmatter := fun raw =>
       if String.eqb raw unclosed then
         Err {| err_name := "YAMLException";
                err_message := "unexpected end of the stream within a flow collection" |}
       else Ok {| data := JsMap.empty; content := raw |};
     op_extractAllLinks := fun raw => default [] (JsMap.get raw links);
     op_extractTags := fun _ _ => Ok [];
     op_getNoteTitle := fun _ file => file |}.

(** [A] can be read but not parsed. *)
Definition draft : FileUtils.t :=
  store [("A.md", Ok unclosed); ("B.md", Ok "to C and A"); ("C.md", Ok "")].

(** [A] links to [B]; nothing links to [D] and [D] links to nothing. *)
Definition withOrphan : FileUtils.t :=
  store [("A.md", Ok "to B"); ("B.md", Ok ""); ("D.md", Ok "")].


(** A disk held in memory: a table from absolute paths to contents, with
    no folders and no permissions. *)
Definition memFs : FileUtilsOnDisk.Fs (gmap string string) :=
  {| FileUtilsOnDisk.fs_readFile := fun p d =>
       match d !! p with
       | Some c => Ok c
       | None => Err ("ENOENT: no such file or directory, open '" ++ p ++ "'")%string
       end;
     FileUtilsOnDisk.fs_writeFile := fun p c d => (Ok tt, <[p := c]> d);
     FileUtilsOnDisk.fs_mkdir := fun _ d => (Ok tt, d);
     FileUtilsOnDisk.fs_unlink := fun p d =>
       match d !! p with
       | Some _ => (Ok tt, base.delete p d)
       | None => (Err ("ENOENT: no such file or directory, unlink '" ++ p ++ "'")%string, d)
       end;
     FileUtilsOnDisk.fs_rename := fun a b d =>
       match d !! a with
       | Some c => (Ok tt, <[b := c]> (base.delete a d))
       | None => (Err ("ENOENT: no such file or directory, rename '" ++ a ++ "'")%string, d)
       end;
     FileUtilsOnDisk.fs_access := fun p d =>
       match d !! p with
       | Some _ => Ok tt
       | None => Err ("ENOENT: no such file or directory, access '" ++ p ++ "'")%string
       end |}.

(** A disk for the duplicate scan: [a.md] cannot be opened, [b.md] and
    [c.md] hold the same text, [big1.md] and [big2.md] have equal
    digests. *)
Definition read (file : string) : Result string :=
  if String.eqb file "a.md" then Err "EACCES: permission denied, open 'a.md'"
  else if String.eqb file "b.md" then Ok "beta"
  else if String.eqb file "c.md" then Ok "beta"
  else Err "ENOENT".

Definition digest (file : string) : Result string :=
  if String.eqb file "a.md" then Err "EACCES: permission denied, open 'a.md'"
  else if String.eqb file "big1.md" then Ok "9f86d081884c7d65"
  else if String.eqb file "big2.md" then Ok "9f86d081884c7d65"
  else Ok file.

End Sample.

(** * Properties *)

(** ** Insertion-ordered maps and sets *)

Section JsMapFacts.
Context {V : Type}.
Implicit Types (m : JsMap.t V) (k : string) (v : V).

Lemma JsMap_get_set m k k' v :
  JsMap.get k' (JsMap.set k v m)
  = if String.eqb k' k then Some v else JsMap.get k' m.
Proof.
  induction m as [|[k0 v0] m IH]; cbn.
  - destruct (String.eqb_spec k' k); reflexivity.
  - destruct (String.eqb_spec k k0) as [->|Hk]; cbn.
    + destruct (String.eqb_spec k' k0); reflexivity.
    + destruct (String.eqb_spec k' k0) as [->|Hk'].
      * destruct (String.eqb_spec k0 k); congruence.
      * apply IH.
Qed.

Lemma JsMap_keys_set m k v k' :
  k' ∈ JsMap.keys (JsMap.set k v m) <-> k' = k \/ k' ∈ JsMap.keys m.
Proof.
  unfold JsMap.keys. induction m as [|[k0 v0] m IH]; cbn.
  - rewrite list_elem_of_singleton, elem_of_nil. tauto.
  - destruct (String.eqb_spec k k0) as [->|Hk]; cbn.
    + rewrite !elem_of_cons. tauto.
    + rewrite !elem_of_cons, IH. tauto.
Qed.

Lemma JsMap_elem_set m k v k' v' :
  (k', v') ∈ JsMap.set k v m -> (k', v') = (k, v) \/ (k', v') ∈ m.
Proof.
  induction m as [|[k0 v0] m IH]; cbn.
  - rewrite list_elem_of_singleton. auto.
  - destruct (String.eqb_spec k k0) as [->|Hk]; rewrite !elem_of_cons; intuition.
Qed.

Lemma JsMap_keys_set_present m k v :
  is_Some (JsMap.get k m) -> JsMap.keys (JsMap.set k v m) = JsMap.keys m.
Proof.
  unfold JsMap.keys. induction m as [|[k0 v0] m IH]; cbn.
  - intros [? ?]; discriminate.
  - destruct (String.eqb_spec k k0) as [->|Hk]; cbn; [reflexivity|].
    intros H. rewrite IH; auto.
Qed.

Lemma JsMap_get_elem m k v : JsMap.get k m = Some v -> (k, v) ∈ m.
Proof.
  induction m as [|[k0 v0] m IH]; cbn; [discriminate|].
  destruct (String.eqb_spec k k0) as [->|Hk].
  - intros [= ->]. apply list_elem_of_here.
  - intros H. apply list_elem_of_further. auto.
Qed.
End JsMapFacts.

Lemma JsSet_add_elem x y s : x ∈ JsSet.add y s <-> x = y \/ x ∈ s.
Proof.
  unfold JsSet.add. case_decide.
  - split; [auto|]. intros [->|?]; assumption.
  - rewrite elem_of_app, list_elem_of_singleton. tauto.
Qed.

(** ** Bounded cache *)

(** Decides the clock comparisons of a goal from the ordering hypotheses on
    the time stamps. *)
Ltac settle_clock :=
  repeat match goal with
  | |- context [Z.gtb ?a ?b] =>
      first [ replace (Z.gtb a b) with false
                by (symmetry; rewrite Z.gtb_ltb; apply Z.ltb_ge; lia)
            | replace (Z.gtb a b) with true
                by (symmetry; rewrite Z.gtb_ltb; apply Z.ltb_lt; lia) ]
  end.

Ltac run_set :=
  unfold LRU.set, LRU.ensureSpace, LRU.removeExpired, LRU.expired;
  cbn; settle_clock; reflexivity.

(** C5.  A cache built with [maxSize = 300] and [maxItems = 10] that
    receives ["a"], ["b"], ["c"] of 100 bytes each and then ["d"] of 100
    bytes evicts exactly ["a"] and keeps ["b"], ["c"], ["d"]; if ["a"] is
    read before ["d"] is inserted, the read is a hit, ["b"] is evicted
    instead and ["a"] stays, now more recent than ["c"].  The calls happen
    at non-decreasing times within one time-to-live. *)
Theorem lru_eviction_order_and_recency
  {T : Type} (va vb vc vd : T) (ttl0 : option Z) (t1 t2 t3 t4 t5 : Z) :
  let c0 := LRU.new 300 10 ttl0 in
  t1 <= t2 <= t3 -> t3 <= t4 <= t5 -> t5 - t1 <= LRU.ttl c0 ->
  exists c1 c2 c3,
    LRU.set "a" va 100 t1 c0 = Some c1
    /\ LRU.set "b" vb 100 t2 c1 = Some c2
    /\ LRU.set "c" vc 100 t3 c2 = Some c3
    /\ (exists c4,
          LRU.set "d" vd 100 t5 c3 = Some c4
          /\ LRU.keys c4 = ["b"; "c"; "d"])
    /\ (exists c4,
          fst (LRU.get "a" t4 c3) = Some va
          /\ LRU.set "d" vd 100 t5 (snd (LRU.get "a" t4 c3)) = Some c4
          /\ LRU.keys c4 = ["c"; "a"; "d"]).
Proof.
  intros c0 H12 H45 Httl. subst c0.
  set (ttl := LRU.ttl (LRU.new 300 10 ttl0)) in *.
  assert (Hnew : @LRU.new T 300 10 ttl0
                 = {| LRU.cache := []; LRU.maxSize := 300; LRU.maxItems := 10;
                      LRU.currentSize := 0; LRU.ttl := ttl |}) by reflexivity.
  rewrite Hnew. clearbody ttl. clear Hnew.
  do 3 eexists.
  split; [reflexivity|].
  split; [run_set|].
  split; [run_set|].
  split.
  - eexists. split; [run_set|]. reflexivity.
  - eexists. unfold LRU.get, LRU.expired. cbn. settle_clock. cbn.
    split; [reflexivity|]. split; [run_set|]. reflexivity.
Qed.

Lemma lru_eviction_order_and_recency_witness :
  exists c1 c2 c3,
    LRU.set "a" 1%nat 100 0 (LRU.new 300 10 None) = Some c1
    /\ LRU.set "b" 2%nat 100 1 c1 = Some c2
    /\ LRU.set "c" 3%nat 100 2 c2 = Some c3
    /\ (exists c4,
          LRU.set "d" 4%nat 100 4 c3 = Some c4
          /\ LRU.keys c4 = ["b"; "c"; "d"])
    /\ (exists c4,
          fst (LRU.get "a" 3 c3) = Some 1%nat
          /\ LRU.set "d" 4%nat 100 4 (snd (LRU.get "a" 3 c3)) = Some c4
          /\ LRU.keys c4 = ["c"; "a"; "d"]).
Proof.
  apply (lru_eviction_order_and_recency 1%nat 2%nat 3%nat 4%nat None 0 1 2 3 4);
    cbn; lia.
Defined.

(** C1 (the code departs from it).  [ensureSpace] returns early for an
    entry larger than [maxSize], but [set] stores the entry all the same:
    after one call on a cache with [maxSize = 100] the stored bytes are 200,
    and on a cache with [maxItems = 1] that already holds one entry an
    oversized second entry brings the count to 2. *)
Theorem lru_oversized_set_breaks_bounds :
  (exists c,
      LRU.set "key1" "value1" 200 0 (LRU.new 100 10 None) = Some c
      /\ LRU.keys c = ["key1"]
      /\ LRU.storedBytes c = 200 /\ LRU.maxSize c = 100)
  /\ (exists c1 c2,
      LRU.set "a" "x" 10 0 (LRU.new 100 1 None) = Some c1
      /\ LRU.set "b" "y" 200 0 c1 = Some c2
      /\ LRU.itemCount c2 = 2 /\ LRU.maxItems c2 = 1).
Proof.
  split.
  - eexists. split; [reflexivity|]. repeat split.
  - do 2 eexists. split; [reflexivity|]. split; [reflexivity|]. repeat split.
Qed.

(** C2 (the code departs from it).  A [set] whose size exceeds [maxSize]
    is not a no-op: a new key is stored and accounted, and an existing key
    loses its old value and takes the oversized one. *)
Theorem lru_oversized_set_not_atomic :
  exists c1 c2 c3,
    LRU.set "a" "x" 50 0 (LRU.new 100 10 None) = Some c1
    /\ LRU.set "b" "y" 200 0 c1 = Some c2
    /\ LRU.keys c2 = ["a"; "b"] /\ LRU.currentSize c2 = 250
    /\ LRU.set "a" "z" 200 0 c1 = Some c3
    /\ fst (LRU.get "a" 0 c3) = Some "z" /\ LRU.currentSize c3 = 200
    /\ LRU.maxSize c1 = 100.
Proof.
  do 3 eexists. split; [reflexivity|]. split; [reflexivity|].
  split; [reflexivity|]. split; [reflexivity|]. split; [reflexivity|].
  repeat split.
Qed.

(** The eviction loop skips a first key that is the empty string, and so
    never ends once that key must be evicted. *)
Example lru_empty_key_blocks_eviction :
  exists c1,
    LRU.set "" "x" 10 0 (LRU.new 100 10 None) = Some c1
    /\ LRU.set "b" "y" 100 0 c1 = None.
Proof. eexists. split; reflexivity. Qed.

(** What the cache guarantees within its limits. *)

Section CacheFacts.
Context {T : Type}.
Implicit Types (c : LRU.LRUCache T) (m : JsMap.t (LRU.CacheEntry T)).

Abbreviation bytes m := (fold_right Z.add 0 (map LRU.size (JsMap.values m))).

Lemma bytes_delete m k e :
  JsMap.get k m = Some e -> bytes (JsMap.delete k m) = bytes m - LRU.size e.
Proof.
  unfold JsMap.values. induction m as [|[k0 e0] m IH]; cbn; [discriminate|].
  destruct (String.eqb_spec k k0) as [->|Hk].
  - intros [= ->]. lia.
  - intros H. cbn. rewrite (IH H). lia.
Qed.

Lemma length_delete m k e :
  JsMap.get k m = Some e -> S (length (JsMap.delete k m)) = length m.
Proof.
  induction m as [|[k0 e0] m IH]; cbn; [discriminate|].
  destruct (String.eqb_spec k k0) as [->|Hk]; [reflexivity|].
  intros H. cbn. rewrite (IH H). reflexivity.
Qed.

Lemma keys_delete m k k' :
  k' ∈ JsMap.keys (JsMap.delete k m) -> k' ∈ JsMap.keys m.
Proof.
  unfold JsMap.keys. induction m as [|[k0 e0] m IH]; cbn; [auto|].
  destruct (String.eqb_spec k k0) as [->|Hk]; cbn; rewrite !elem_of_cons; intuition.
Qed.

Lemma NoDup_delete m k :
  NoDup (JsMap.keys m) ->
  NoDup (JsMap.keys (JsMap.delete k m)) /\ k ∉ JsMap.keys (JsMap.delete k m).
Proof.
  unfold JsMap.keys. induction m as [|[k0 e0] m IH]; cbn; intros Hnd.
  - split; [constructor|apply not_elem_of_nil].
  - apply NoDup_cons in Hnd as [Hk0 Hnd].
    destruct (String.eqb_spec k k0) as [->|Hk]; cbn; [auto|].
    destruct (IH Hnd) as [IH1 IH2]. split.
    + apply NoDup_cons. split; [|assumption].
      intros Hin. apply Hk0. apply (keys_delete m k k0 Hin).
    + rewrite elem_of_cons. intuition.
Qed.

Lemma set_absent m k e :
  k ∉ JsMap.keys m -> JsMap.set k e m = m ++ [(k, e)].
Proof.
  unfold JsMap.keys. induction m as [|[k0 e0] m IH]; cbn; [reflexivity|].
  rewrite not_elem_of_cons. intros [Hk Hm].
  destruct (String.eqb_spec k k0); [contradiction|]. rewrite (IH Hm). reflexivity.
Qed.

Lemma bytes_app m k e : bytes (m ++ [(k, e)]) = bytes m + LRU.size e.
Proof.
  unfold JsMap.values. induction m as [|[k0 e0] m IH]; cbn; [lia|].
  cbn in IH. rewrite IH. lia.
Qed.

Lemma JsMap_get_keys m k : k ∈ JsMap.keys m <-> is_Some (JsMap.get k m).
Proof.
  unfold JsMap.keys. induction m as [|[k0 v0] m IH]; cbn.
  - rewrite elem_of_nil. split; [tauto|]. intros [? ?]; discriminate.
  - rewrite elem_of_cons, IH. destruct (String.eqb_spec k k0) as [->|Hk].
    + split; eauto.
    + split; [intros [?|?]; [congruence|assumption] | auto].
Qed.

Lemma delete_spec key c :
  accounted c ->
  accounted (snd (LRU.delete key c))
  /\ sameLimits c (snd (LRU.delete key c))
  /\ (key ∉ LRU.keys (snd (LRU.delete key c)))
  /\ (forall k, k ∈ LRU.keys (snd (LRU.delete key c)) -> k ∈ LRU.keys c)
  /\ (length (LRU.cache (snd (LRU.delete key c))) <= length (LRU.cache c))%nat.
Proof.
  intros [Hsz Hnd]. unfold LRU.delete.
  destruct (JsMap.get key (LRU.cache c)) as [e|] eqn:Hget; cbn [snd].
  - destruct (NoDup_delete _ key Hnd) as [Hnd' Hkey].
    pose proof (bytes_delete _ _ _ Hget) as Hb.
    pose proof (length_delete _ _ _ Hget) as Hl.
    split; [split|split; [|split; [|split]]]; cbn [snd].
    + unfold LRU.storedBytes. cbn [LRU.cache LRU.with_cache LRU.currentSize].
      rewrite Hb, Hsz. reflexivity.
    + exact Hnd'.
    + repeat split.
    + exact Hkey.
    + intros k. apply keys_delete.
    + cbn. lia.
  - split; [split; assumption|]. split; [repeat split|]. split; [|split; [auto|lia]].
    intros Hin. apply JsMap_get_keys in Hin as [? Hin]. congruence.
Qed.

Lemma removeExpired_spec now c :
  accounted c ->
  accounted (LRU.removeExpired now c)
  /\ sameLimits c (LRU.removeExpired now c)
  /\ (forall k, k ∈ LRU.keys (LRU.removeExpired now c) -> k ∈ LRU.keys c).
Proof.
  unfold LRU.removeExpired.
  generalize (JsMap.keys (List.filter (fun kv => LRU.expired c now (snd kv)) (LRU.cache c))).
  intros ks. revert c. induction ks as [|k ks IH]; intros c Hc; cbn.
  - split; [assumption|]. split; [repeat split|auto].
  - destruct (delete_spec k c Hc) as (H1 & (H2 & H3 & H4) & _ & H5 & _).
    destruct (IH _ H1) as (I1 & (I2 & I3 & I4) & I5).
    split; [assumption|]. split; [repeat split; congruence|]. auto.
Qed.

Lemma evict_spec fuel requiredSize :
  forall c c', accounted c -> LRU.evict fuel requiredSize c = Some c' ->
    accounted c' /\ sameLimits c c'
    /\ (forall k, k ∈ LRU.keys c' -> k ∈ LRU.keys c)
    /\ LRU.needsRoom requiredSize c' = false.
Proof.
  induction fuel as [|fuel IH]; intros c c' Hc; cbn.
  - destruct (LRU.needsRoom requiredSize c) eqn:Hroom; [discriminate|].
    intros [= <-]. split; [assumption|]. split; [repeat split|auto].
  - destruct (LRU.needsRoom requiredSize c) eqn:Hroom.
    2:{ intros [= <-]. split; [assumption|]. split; [repeat split|auto]. }
    destruct (JsMap.keys (LRU.cache c)) as [|firstKey rest] eqn:Hkeys.
    { intros [= <-]. unfold LRU.needsRoom in Hroom.
      destruct (LRU.cache c); [|discriminate]. cbn in Hroom.
      rewrite andb_false_r in Hroom. discriminate. }
    destruct (String.eqb firstKey ""); [discriminate|].
    intros Hev.
    destruct (delete_spec firstKey c Hc) as (H1 & (H2 & H3 & H4) & _ & H5 & _).
    destruct (IH _ _ H1 Hev) as (I1 & (I2 & I3 & I4) & I5 & I6).
    split; [assumption|]. split; [repeat split; congruence|]. auto.
Qed.

Lemma elem_delete m k (x : string * LRU.CacheEntry T) :
  x ∈ JsMap.delete k m -> x ∈ m.
Proof.
  induction m as [|[k0 e0] m IH]; cbn; [auto|].
  destruct (String.eqb_spec k k0) as [->|Hk]; rewrite !elem_of_cons; intuition.
Qed.

Lemma delete_entries key c x :
  x ∈ LRU.cache (snd (LRU.delete key c)) -> x ∈ LRU.cache c.
Proof.
  unfold LRU.delete. destruct (JsMap.get key (LRU.cache c)); cbn; [apply elem_delete|auto].
Qed.

Lemma removeExpired_entries now c x :
  x ∈ LRU.cache (LRU.removeExpired now c) -> x ∈ LRU.cache c.
Proof.
  unfold LRU.removeExpired.
  generalize (JsMap.keys (List.filter (fun kv => LRU.expired c now (snd kv)) (LRU.cache c))).
  intros ks. revert c. induction ks as [|k ks IH]; intros c; cbn; [auto|].
  intros Hx. apply (delete_entries k c), IH, Hx.
Qed.

Lemma evict_entries fuel requiredSize :
  forall c c' x, LRU.evict fuel requiredSize c = Some c' ->
                 x ∈ LRU.cache c' -> x ∈ LRU.cache c.
Proof.
  induction fuel as [|fuel IH]; intros c c' x; cbn;
    destruct (LRU.needsRoom requiredSize c); try discriminate;
    try (intros [= <-]; auto; fail).
  destruct (JsMap.keys (LRU.cache c)) as [|firstKey rest]; [intros [= <-]; auto|].
  destruct (String.eqb firstKey ""); [discriminate|].
  intros Hev Hx. apply (delete_entries firstKey c). eapply IH; eassumption.
Qed.

Lemma entries_keys c c' :
  (forall x, x ∈ LRU.cache c' -> x ∈ LRU.cache c) ->
  forall k, k ∈ LRU.keys c' -> k ∈ LRU.keys c.
Proof.
  intros Hsub k. unfold LRU.keys, JsMap.keys. rewrite !list_elem_of_fmap.
  intros (x & -> & Hx). exists x. auto.
Qed.

Lemma evict_total fuel requiredSize :
  forall c, (length (LRU.cache c) <= fuel)%nat -> "" ∉ LRU.keys c ->
            exists c', LRU.evict fuel requiredSize c = Some c'.
Proof.
  induction fuel as [|fuel IH]; intros c Hlen Hkey; cbn.
  - unfold LRU.needsRoom, JsMap.size.
    destruct (LRU.cache c); [|cbn in Hlen; lia].
    cbn. rewrite andb_false_r. eauto.
  - destruct (LRU.needsRoom requiredSize c); [|eauto].
    unfold LRU.keys in Hkey. unfold LRU.delete.
    destruct (LRU.cache c) as [|[firstKey e] m] eqn:Hcache; cbn; [eauto|].
    cbn in Hkey. apply not_elem_of_cons in Hkey as [Hne Hrest].
    destruct (String.eqb_spec firstKey ""); [congruence|].
    destruct (String.eqb_spec firstKey firstKey); [|congruence]. cbn [snd].
    apply IH; cbn; [cbn in Hlen; lia|exact Hrest].
Qed.

(** [set] returns unless the empty string is a key of the cache. *)
Lemma set_total key (v : T) sz now c :
  "" ∉ LRU.keys c -> exists c', LRU.set key v sz now c = Some c'.
Proof.
  intros Hkey. unfold LRU.set.
  set (c1 := if JsMap.has key (LRU.cache c) then snd (LRU.delete key c) else c).
  assert (H1 : "" ∉ LRU.keys c1).
  { subst c1. destruct (JsMap.has key (LRU.cache c)); [|exact Hkey].
    intros Hin. apply Hkey. revert Hin. apply entries_keys.
    intros x. apply delete_entries. }
  unfold LRU.ensureSpace. destruct (sz >? LRU.maxSize c1); [eauto|].
  destruct (evict_total (JsMap.size (LRU.cache (LRU.removeExpired now c1))) sz
              (LRU.removeExpired now c1)) as [c2 ->]; [reflexivity| |eauto].
  intros Hin. apply H1. revert Hin. apply entries_keys.
  intros x. apply removeExpired_entries.
Qed.

(** X5.  [set] returns unless the empty string is a key of the cache. *)
Theorem lru_set_returns key (v : T) sz now c :
  "" ∉ LRU.keys c -> exists c', LRU.set key v sz now c = Some c'.
Proof.
  intros Hkey. unfold LRU.set, LRU.ensureSpace.
  set (c1 := if JsMap.has key (LRU.cache c) then snd (LRU.delete key c) else c).
  assert (Hsub : forall x, x ∈ LRU.cache c1 -> x ∈ LRU.cache c).
  { subst c1. destruct (JsMap.has key (LRU.cache c)); [apply delete_entries|auto]. }
  destruct (sz >? LRU.maxSize c1); [eauto|].
  destruct (evict_total (JsMap.size (LRU.cache (LRU.removeExpired now c1))) sz
              (LRU.removeExpired now c1)) as [c3 ->]; [reflexivity| |eauto].
  intros Hin. apply Hkey. apply (entries_keys c c1 Hsub).
  apply (entries_keys c1 _ (removeExpired_entries now c1)). exact Hin.
Qed.

Lemma bytes_nonneg m :
  Forall (fun e => 0 <= LRU.size e) (JsMap.values m) -> 0 <= bytes m.
Proof.
  unfold JsMap.values. induction m as [|[k e] m IH]; cbn; [lia|].
  intros H. apply Forall_cons in H as [He Hm]. specialize (IH Hm). lia.
Qed.

(** What a [set] within the size limit does: it leaves a part [c3] of the
    old entries, for which no room is needed any more, and appends the new
    entry. *)
Lemma set_within_limit_inv key (v : T) sz now c c' :
  accounted c -> sz <= LRU.maxSize c ->
  LRU.set key v sz now c = Some c' ->
  exists c3,
    accounted c3 /\ sameLimits c c3
    /\ (forall x, x ∈ LRU.cache c3 -> x ∈ LRU.cache c)
    /\ (key ∉ LRU.keys c3)
    /\ LRU.needsRoom sz c3 = false
    /\ c' = LRU.with_cache c3
              (LRU.cache c3 ++ [(key, {| LRU.value := v; LRU.size := sz;
                                         LRU.lastAccessed := now;
                                         LRU.accessCount := 1 |})])
              (LRU.currentSize c3 + sz).
Proof.
  intros Hc Hsz. unfold LRU.set, LRU.ensureSpace.
  set (c1 := if JsMap.has key (LRU.cache c) then snd (LRU.delete key c) else c).
  assert (H1 : accounted c1 /\ sameLimits c c1 /\ (key ∉ LRU.keys c1)
               /\ forall x, x ∈ LRU.cache c1 -> x ∈ LRU.cache c).
  { subst c1. unfold JsMap.has.
    destruct (JsMap.get key (LRU.cache c)) as [e|] eqn:Hget.
    - destruct (delete_spec key c Hc) as (? & ? & ? & _).
      repeat (split; [assumption|]). apply delete_entries.
    - split; [assumption|]. split; [repeat split|]. split; [|auto].
      intros Hin. apply JsMap_get_keys in Hin as [? Hin]. congruence. }
  destruct H1 as (Hc1 & (L1 & L2 & L3) & Hkey1 & Hsub1).
  replace (sz >? LRU.maxSize c1) with false
    by (symmetry; rewrite Z.gtb_ltb; apply Z.ltb_ge; lia).
  destruct (removeExpired_spec now c1 Hc1) as (Hc2 & (M1 & M2 & M3) & Hsub2).
  destruct (LRU.evict _ sz (LRU.removeExpired now c1)) as [c3|] eqn:Hev; [|discriminate].
  destruct (evict_spec _ _ _ _ Hc2 Hev) as (Hc3 & (N1 & N2 & N3) & Hsub3 & Hroom).
  intros [= <-]. exists c3.
  assert (Hkey3 : key ∉ LRU.keys c3) by (intros Hin; apply Hkey1; auto).
  split; [assumption|]. split; [repeat split; congruence|]. split.
  { intros x Hx. apply Hsub1, (removeExpired_entries now c1).
    apply (evict_entries _ _ _ _ x Hev Hx). }
  split; [assumption|]. split; [assumption|].
  unfold LRU.keys in Hkey3. rewrite (set_absent _ _ _ Hkey3). reflexivity.
Qed.

(** Within the size limit, [set] keeps the accounting exact and the two
    bounds of the cache. *)
Theorem lru_set_within_limit_keeps_bounds key (v : T) sz now c c' :
  accounted c -> 1 <= LRU.maxItems c -> sz <= LRU.maxSize c ->
  LRU.set key v sz now c = Some c' ->
  accounted c' /\ withinBounds c' /\ sameLimits c c'
  /\ key ∈ LRU.keys c'.
Proof.
  intros Hc Hitems Hsz Hset.
  destruct (set_within_limit_inv key v sz now c c' Hc Hsz Hset)
    as (c3 & [Hsize3 Hnd3] & (N1 & N2 & N3) & _ & Hkey3 & Hroom & ->).
  unfold accounted, withinBounds, sameLimits, LRU.storedBytes, LRU.itemCount, LRU.keys in *.
  cbn [LRU.cache LRU.with_cache LRU.currentSize LRU.maxSize LRU.maxItems LRU.ttl].
  rewrite bytes_app. cbn [LRU.size].
  unfold JsMap.keys, JsMap.size in *. rewrite map_app, length_app. cbn [map length fst].
  split; [split; [lia|]|].
  { apply NoDup_app. split; [assumption|]. split; [|apply NoDup_singleton].
    intros x Hx Hx'. apply list_elem_of_singleton in Hx' as ->. contradiction. }
  split.
  { unfold LRU.needsRoom, JsMap.size in Hroom.
    apply andb_false_iff in Hroom as [Hroom|Hroom].
    - apply orb_false_iff in Hroom as [Hr1 Hr2].
      rewrite Z.gtb_ltb in Hr1. apply Z.ltb_ge in Hr1.
      rewrite Z.geb_leb in Hr2. apply Z.leb_gt in Hr2. lia.
    - apply Z.ltb_ge in Hroom.
      destruct (LRU.cache c3); [|cbn in Hroom; lia]. cbn in *. lia. }
  split; [repeat split; congruence|].
  rewrite elem_of_app, list_elem_of_singleton. auto.
Qed.


Lemma nonneg_sub c c' :
  (forall x, x ∈ LRU.cache c' -> x ∈ LRU.cache c) ->
  Forall (fun e => 0 <= LRU.size e) (JsMap.values (LRU.cache c)) ->
  Forall (fun e => 0 <= LRU.size e) (JsMap.values (LRU.cache c')).
Proof.
  intros Hsub Hpos. rewrite Forall_forall in Hpos |- *.
  intros e He. unfold JsMap.values in *. apply list_elem_of_fmap in He as (x & -> & Hx).
  apply Hpos. apply list_elem_of_fmap. exists x. auto.
Qed.

Lemma delete_wellFormed key c :
  wellFormed c ->
  wellFormed (snd (LRU.delete key c)) /\ sameLimits c (snd (LRU.delete key c)).
Proof.
  intros (Hacc & [Hb Hn] & Hpos).
  destruct (delete_spec key c Hacc) as (Hacc' & Hlim & _ & _ & Hlen).
  split; [|assumption]. split; [assumption|].
  pose proof (nonneg_sub c _ (delete_entries key c) Hpos) as Hpos'.
  split; [|assumption].
  destruct Hlim as (L1 & L2 & _). unfold withinBounds, LRU.itemCount, JsMap.size.
  rewrite L1, L2. split; [|unfold LRU.itemCount, JsMap.size in Hn; lia].
  unfold LRU.delete in *.
  destruct (JsMap.get key (LRU.cache c)) as [e|] eqn:Hget; cbn [snd] in *; [|assumption].
  unfold LRU.storedBytes in *. cbn [LRU.cache LRU.with_cache].
  rewrite (bytes_delete _ _ _ Hget).
  assert (0 <= LRU.size e); [|lia].
  rewrite Forall_forall in Hpos. apply Hpos. unfold JsMap.values.
  apply list_elem_of_fmap. exists (key, e). split; [reflexivity|].
  apply JsMap_get_elem. assumption.
Qed.

Lemma get_wellFormed key now c :
  wellFormed c ->
  wellFormed (snd (LRU.get key now c)) /\ sameLimits c (snd (LRU.get key now c)).
Proof.
  intros Hwf. unfold LRU.get.
  destruct (JsMap.get key (LRU.cache c)) as [e|] eqn:Hget; cbn [snd];
    [|split; [assumption|repeat split]].
  destruct (LRU.expired c now e); cbn [snd]; [apply delete_wellFormed; assumption|].
  split; [|repeat split].
  destruct Hwf as ([Hsz Hnd] & [Hb Hn] & Hpos).
  destruct (NoDup_delete _ key Hnd) as [Hnd' Hkey].
  pose proof (bytes_delete _ _ _ Hget) as Hbytes.
  pose proof (length_delete _ _ _ Hget) as Hlen.
  unfold wellFormed, accounted, withinBounds, LRU.storedBytes, LRU.itemCount, LRU.keys,
    JsMap.size in *.
  cbn [LRU.cache LRU.with_cache LRU.currentSize LRU.maxSize LRU.maxItems].
  rewrite (set_absent _ _ _ Hkey), bytes_app. cbn [LRU.size].
  unfold JsMap.keys, JsMap.values in *. rewrite !map_app, length_app. cbn [map length fst snd].
  split; [split; [lia|]|split; [split; lia|]].
  - apply NoDup_app. split; [assumption|]. split; [|apply NoDup_singleton].
    intros x Hx Hx'. apply list_elem_of_singleton in Hx' as ->. contradiction.
  - apply Forall_app. split.
    + rewrite Forall_forall in Hpos |- *. intros e' He'.
      apply list_elem_of_fmap in He' as (x & -> & Hx). apply Hpos.
      apply list_elem_of_fmap. exists x. split; [reflexivity|]. eapply elem_delete, Hx.
    + constructor; [|constructor]. cbn. rewrite Forall_forall in Hpos. apply Hpos.
      apply list_elem_of_fmap. exists (key, e). split; [reflexivity|].
      apply JsMap_get_elem. assumption.
Qed.

Lemma has_wellFormed key now c :
  wellFormed c ->
  wellFormed (snd (LRU.has key now c)) /\ sameLimits c (snd (LRU.has key now c)).
Proof.
  intros Hwf. unfold LRU.has.
  destruct (JsMap.get key (LRU.cache c)) as [e|]; cbn [snd];
    [|split; [assumption|repeat split]].
  destruct (LRU.expired c now e); cbn [snd];
    [apply delete_wellFormed; assumption|split; [assumption|repeat split]].
Qed.

Lemma set_wellFormed key (v : T) sz now c c' :
  wellFormed c -> 1 <= LRU.maxItems c -> 0 <= sz <= LRU.maxSize c ->
  LRU.set key v sz now c = Some c' ->
  wellFormed c' /\ sameLimits c c'.
Proof.
  intros (Hacc & _ & Hpos) Hitems [Hsz0 Hsz] Hset.
  destruct (lru_set_within_limit_keeps_bounds key v sz now c c' Hacc Hitems Hsz Hset)
    as (Hacc' & Hb' & Hlim & _).
  split; [|assumption]. split; [assumption|]. split; [assumption|].
  destruct (set_within_limit_inv key v sz now c c' Hacc Hsz Hset)
    as (c3 & _ & _ & Hsub & _ & _ & ->).
  cbn [LRU.cache LRU.with_cache]. unfold JsMap.values. rewrite map_app.
  apply Forall_app. split; [apply (nonneg_sub c c3 Hsub Hpos)|].
  constructor; [assumption|constructor].
Qed.

(** X4.  The occupancy invariant the cache does keep: as long as no
    [set] carries a negative size or a size above [maxSize], every
    sequence of [set], [get], [has], [delete] and [clear] calls that
    returns leaves the stored bytes within [maxSize] and the number of
    entries within [maxItems]. *)
Theorem lru_bounds_hold_without_oversized_sets (ops : list (CacheOp T)) :
  forall c c',
    wellFormed c -> 1 <= LRU.maxItems c ->
    Forall (withinLimit (LRU.maxSize c)) ops ->
    runOps ops c = Some c' ->
    wellFormed c' /\ sameLimits c c'.
Proof.
  induction ops as [|op ops IH]; intros c c' Hwf Hitems Hops; cbn.
  - intros [= <-]. split; [assumption|repeat split].
  - apply Forall_cons in Hops as [Hop Hops].
    destruct (applyOp op c) as [c1|] eqn:Hstep; [|discriminate].
    assert (H1 : wellFormed c1 /\ sameLimits c c1).
    { destruct op as [key v sz now|key now|key now|key|]; cbn in Hstep, Hop.
      - eapply set_wellFormed; eassumption.
      - injection Hstep as <-. apply get_wellFormed. assumption.
      - injection Hstep as <-. apply has_wellFormed. assumption.
      - injection Hstep as <-. apply delete_wellFormed. assumption.
      - injection Hstep as <-. split; [|repeat split].
        destruct Hwf as (_ & [Hb Hn] & Hpos).
        pose proof (bytes_nonneg _ Hpos) as Hnonneg.
        unfold wellFormed, accounted, withinBounds, LRU.clear, LRU.storedBytes,
          LRU.itemCount, LRU.keys in *. cbn.
        repeat split; try constructor; lia. }
    destruct H1 as [Hwf1 (L1 & L2 & L3)].
    intros Hrun. destruct (IH c1 c' Hwf1) as [Hwf' (K1 & K2 & K3)];
      [lia|rewrite L1; assumption|assumption|].
    split; [assumption|]. repeat split; congruence.
Qed.
End CacheFacts.

(** ** Document parser *)

(** C6.  With the empty frontmatter object, [stringifyWithFrontmatter]
    returns the body it is given, whatever the YAML library would print:
    for every body, and so for the body [parseFrontmatter] extracts from
    any raw document. *)
Theorem stringify_empty_frontmatter_is_identity
  {Yaml : Type} (gm : Parser.GrayMatter Yaml) (d body : string) :
  Parser.stringifyWithFrontmatter gm JsMap.empty body = body
  /\ Parser.stringifyWithFrontmatter gm JsMap.empty
       (Parser.content (Parser.parseFrontmatter gm d))
     = Parser.content (Parser.parseFrontmatter gm d).
Proof. split; reflexivity. Qed.

(** ** Link graph construction *)

Section LinkGraph.
Context {Yaml : Type}.
Context (fs : FileUtils.t) (parser : Parser.ObsidianParser Yaml) (np : PathModule).
Import LinkParser.

Lemma processLinks_no_self file found :
  file ∉ fst (processLinks np file found).
Proof.
  unfold processLinks.
  match goal with |- _ ∉ fst (fold_left ?f _ _) => set (step := f) end.
  assert (Hgen : forall acc : JsSet.t * list GraphEdge,
             file ∉ fst acc -> file ∉ fst (fold_left step found acc)).
  { induction found as [|link found IH]; intros acc Hacc; cbn; [assumption|].
    apply IH. subst step. cbn.
    destruct (Parser.type link); cbn; try assumption;
      destruct (String.eqb_spec (resolveLink np (Parser.target link) file) "");
      destruct (String.eqb_spec (resolveLink np (Parser.target link) file) file);
      cbn; try assumption;
      rewrite JsSet_add_elem; intros [?|?]; congruence. }
  apply Hgen. cbn. apply not_elem_of_nil.
Qed.

Lemma selfFree_set file out lc :
  file ∉ out -> selfFree lc -> selfFree (JsMap.set file out lc).
Proof.
  intros Hout Hlc k s. rewrite JsMap_get_set.
  destruct (String.eqb_spec k file) as [->|Hk].
  - intros [= <-]. assumption.
  - apply Hlc.
Qed.

Lemma firstPass_selfFree files acc :
  selfFree (p_linkCache acc) -> selfFree (snd (firstPass fs parser np files acc)).
Proof.
  revert acc. induction files as [|file files IH]; intros acc Hacc;
    cbn [firstPass]; [assumption|].
  destruct (readNote fs parser file) as [note|e]; cbn; [|assumption].
  pose proof (processLinks_no_self file (n_links note)) as Hno.
  destruct (processLinks np file (n_links note)) as [out es].
  apply IH. cbn. apply selfFree_set; assumption.
Qed.

Lemma buildLinkGraph_linkCache st :
  linkCache (snd (buildLinkGraph fs parser np st))
  = snd (firstPass fs parser np (FileUtils.listMarkdownFiles fs)
           {| p_linkCache := JsMap.empty; p_nodes := JsMap.empty; p_edges := [] |}).
Proof.
  unfold buildLinkGraph.
  destruct (firstPass _ _ _ _ _) as [[p|e] lc]; reflexivity.
Qed.

Lemma buildLinkGraph_selfFree st :
  selfFree (linkCache (snd (buildLinkGraph fs parser np st))).
Proof.
  rewrite buildLinkGraph_linkCache. apply firstPass_selfFree.
  intros k s. cbn. discriminate.
Qed.

Lemma getForwardLinks_state p st :
  snd (getForwardLinks fs parser np p st) = st
  \/ snd (getForwardLinks fs parser np p st) = snd (buildLinkGraph fs parser np st).
Proof.
  unfold getForwardLinks, ensureBuilt.
  destruct (_ =? _)%nat.
  - right. destruct (buildLinkGraph fs parser np st) as [[g|e] st']; reflexivity.
  - left. reflexivity.
Qed.

Lemma Reachable_selfFree st : Reachable fs parser np st -> selfFree (linkCache st).
Proof.
  induction 1 as [|st _ _|st p _ IH].
  - intros k s. cbn. discriminate.
  - apply buildLinkGraph_selfFree.
  - destruct (getForwardLinks_state p st) as [-> | ->];
      [assumption | apply buildLinkGraph_selfFree].
Qed.

(** C7.  Whatever the documents contain, a document is never among its
    own forward links: in every state a link parser can reach, a
    successful [getForwardLinks(d)] returns a list without [d]. *)
Theorem forward_links_exclude_self st d found st' :
  Reachable fs parser np st ->
  getForwardLinks fs parser np d st = (Ok found, st') ->
  d ∉ found.
Proof.
  intros Hst Hget.
  assert (Hst' : selfFree (linkCache st')).
  { replace st' with (snd (getForwardLinks fs parser np d st))
      by (rewrite Hget; reflexivity).
    apply Reachable_selfFree. constructor. assumption. }
  unfold getForwardLinks in Hget.
  destruct (ensureBuilt fs parser np st) as [[[]|e] st1]; [|discriminate].
  injection Hget as <- <-.
  destruct (JsMap.get d (linkCache st1)) as [s|] eqn:Hd; cbn.
  - apply (Hst' d s Hd).
  - apply not_elem_of_nil.
Qed.

Lemma keyedByPath_paths ns :
  keyedByPath ns -> map path (JsMap.values ns) = JsMap.keys ns.
Proof.
  unfold JsMap.values, JsMap.keys.
  induction ns as [|[k n] ns IH]; intros H; cbn; [reflexivity|].
  f_equal.
  - apply H. apply list_elem_of_here.
  - apply IH. intros k' n' Hin. apply H. apply list_elem_of_further. assumption.
Qed.

Lemma keyedByPath_set ns k n :
  keyedByPath ns -> path n = k -> keyedByPath (JsMap.set k n ns).
Proof.
  intros Hns Hn k' n' Hin. apply JsMap_elem_set in Hin as [[= -> ->]|Hin]; auto.
Qed.

Lemma updateBacklinkCounts_spec bl ns :
  keyedByPath ns ->
  keyedByPath (updateBacklinkCounts bl ns)
  /\ JsMap.keys (updateBacklinkCounts bl ns) = JsMap.keys ns.
Proof.
  unfold updateBacklinkCounts. revert ns.
  induction bl as [|[file backs] bl IH]; intros ns Hns; cbn; [auto|].
  destruct (JsMap.get file ns) as [node|] eqn:Hget; [|auto].
  destruct (IH (JsMap.set file
            {| id := id node; path := path node; title := title node;
               links := links node; backlinks := JsSet.size backs;
               tags := tags node |} ns)) as [H1 H2].
  { apply keyedByPath_set; [assumption|]. cbn. apply Hns.
    apply JsMap_get_elem. assumption. }
  split; [exact H1|]. etransitivity; [exact H2|].
  apply JsMap_keys_set_present. eauto.
Qed.

Lemma readNote_unreadable file e :
  FileUtils.readFile fs file = Err e -> readNote fs parser file = Err e.
Proof. intros H. unfold readNote. rewrite H. reflexivity. Qed.

Lemma readNote_ok file note :
  readNote fs parser file = Ok note ->
  FileUtils.readFile fs file = Ok (n_content note)
  /\ n_links note = Parser.op_extractAllLinks parser (n_content note).
Proof.
  unfold readNote. destruct (FileUtils.readFile fs file) as [content|e]; [|discriminate].
  destruct (Parser.op_parseFrontmatter parser content) as [parsed|e]; [|discriminate].
  destruct (Parser.op_extractTags parser content _) as [tags_|e]; [|discriminate].
  intros [= <-]. split; reflexivity.
Qed.

Lemma firstPass_readable files acc :
  Forall (processable fs parser) files ->
  keyedByPath (p_nodes acc) ->
  exists p,
    firstPass fs parser np files acc = (Ok p, p_linkCache p)
    /\ keyedByPath (p_nodes p)
    /\ (forall f, f ∈ JsMap.keys (p_linkCache p)
                  <-> f ∈ files \/ f ∈ JsMap.keys (p_linkCache acc))
    /\ (forall f, f ∈ JsMap.keys (p_nodes p)
                  <-> f ∈ files \/ f ∈ JsMap.keys (p_nodes acc)).
Proof.
  intros Hread. revert acc.
  induction Hread as [|file files [note Hfile] _ IH]; intros acc Hacc; cbn [firstPass].
  - exists acc. repeat split; try assumption; rewrite ?elem_of_nil; tauto.
  - rewrite Hfile.
    destruct (processLinks np file (n_links note)) as [out es].
    match goal with
    | |- context [firstPass _ _ _ files ?a] =>
        destruct (IH a) as (p & Hp & Hk & Hl & Hn)
    end.
    { cbn. apply keyedByPath_set; [assumption|reflexivity]. }
    exists p. split; [assumption|]. split; [assumption|].
    split; intros f; [rewrite Hl|rewrite Hn]; cbn [p_linkCache p_nodes];
      rewrite JsMap_keys_set, elem_of_cons; tauto.
Qed.

Lemma firstPass_unreadable pre d post e acc :
  Forall (processable fs parser) pre ->
  readNote fs parser d = Err e ->
  exists lc,
    firstPass fs parser np (pre ++ d :: post) acc = (Err e, lc)
    /\ (forall f, f ∈ JsMap.keys lc <-> f ∈ pre \/ f ∈ JsMap.keys (p_linkCache acc)).
Proof.
  intros Hpre Hd. revert acc.
  induction Hpre as [|file pre [note Hfile] _ IH]; intros acc; cbn [app firstPass].
  - rewrite Hd. eexists. split; [reflexivity|]. intros f. rewrite elem_of_nil. tauto.
  - rewrite Hfile.
    destruct (processLinks np file (n_links note)) as [out es].
    match goal with
    | |- context [firstPass _ _ _ _ ?a] => destruct (IH a) as (lc & Hlc & Hk)
    end.
    exists lc. split; [assumption|].
    intros f; rewrite Hk; cbn [p_linkCache];
      rewrite JsMap_keys_set, elem_of_cons; tauto.
Qed.

Lemma buildLinkGraph_all_readable st :
  Forall (processable fs parser) (FileUtils.listMarkdownFiles fs) ->
  exists g st',
    buildLinkGraph fs parser np st = (Ok g, st')
    /\ (forall f, f ∈ map path (nodes g) <-> f ∈ FileUtils.listMarkdownFiles fs)
    /\ (forall f, f ∈ JsMap.keys (linkCache st')
                  <-> f ∈ FileUtils.listMarkdownFiles fs).
Proof.
  intros Hread. unfold buildLinkGraph.
  destruct (firstPass_readable (FileUtils.listMarkdownFiles fs)
              {| p_linkCache := JsMap.empty; p_nodes := JsMap.empty; p_edges := [] |}
              Hread) as (p & -> & Hk & Hl & Hn).
  { intros k n Hin. cbn in Hin. apply elem_of_nil in Hin. contradiction. }
  do 2 eexists. split; [reflexivity|]. cbn.
  destruct (updateBacklinkCounts_spec (secondPass (p_linkCache p)) (p_nodes p) Hk)
    as [Hk' Hkeys].
  split; intros f.
  - rewrite (keyedByPath_paths _ Hk'), Hkeys, Hn. cbn. rewrite elem_of_nil. tauto.
  - rewrite Hl. cbn. rewrite elem_of_nil. tauto.
Qed.

Lemma buildLinkGraph_first_unreadable st pre d post e :
  FileUtils.listMarkdownFiles fs = pre ++ d :: post ->
  Forall (processable fs parser) pre ->
  readNote fs parser d = Err e ->
  exists st',
    buildLinkGraph fs parser np st = (Err e, st')
    /\ (forall f, f ∈ JsMap.keys (linkCache st') <-> f ∈ pre)
    /\ backlinkCache st' = JsMap.empty.
Proof.
  intros Hfiles Hpre Hd. unfold buildLinkGraph. rewrite Hfiles.
  destruct (firstPass_unreadable pre d post e
              {| p_linkCache := JsMap.empty; p_nodes := JsMap.empty; p_edges := [] |}
              Hpre Hd) as (lc & -> & Hlc).
  eexists. split; [reflexivity|]. cbn. split; [|reflexivity].
  intros f. rewrite Hlc. cbn. rewrite elem_of_nil. tauto.
Qed.

(** What [buildLinkGraph] does, having no per-document error handling.
    It returns a graph, covering exactly the listed documents, when every
    listed document can be read and parsed.  When [d] is the first
    document that cannot, the call fails with what [readFile],
    [parseFrontmatter] or [extractTags] threw on [d] and returns neither a
    graph nor an error list; the documents listed before [d] have their
    forward links recorded, [d] and the documents after it have not, and
    no backlink is computed. *)
Theorem buildLinkGraph_stops_at_unreadable_document st :
  (Forall (processable fs parser) (FileUtils.listMarkdownFiles fs) ->
   exists g st',
     buildLinkGraph fs parser np st = (Ok g, st')
     /\ (forall f, f ∈ map path (nodes g) <-> f ∈ FileUtils.listMarkdownFiles fs)
     /\ (forall f, f ∈ JsMap.keys (linkCache st')
                   <-> f ∈ FileUtils.listMarkdownFiles fs))
  /\ (forall pre d post e,
        FileUtils.listMarkdownFiles fs = pre ++ d :: post ->
        Forall (processable fs parser) pre ->
        readNote fs parser d = Err e ->
        exists st',
          buildLinkGraph fs parser np st = (Err e, st')
          /\ (forall f, f ∈ JsMap.keys (linkCache st') <-> f ∈ pre)
          /\ backlinkCache st' = JsMap.empty).
Proof.
  split.
  - apply buildLinkGraph_all_readable.
  - intros pre d post e. apply buildLinkGraph_first_unreadable.
Qed.

End LinkGraph.

Lemma forward_links_exclude_self_witness : "A.md" ∉ ["B.md"].
Proof.
  eapply (forward_links_exclude_self Sample.selfLink Sample.parser Sample.flatPath
            LinkParser.init "A.md" ["B.md"] _ (reach_init _ _ _)).
  vm_compute. reflexivity.
Defined.

Lemma buildLinkGraph_stops_at_unreadable_document_witness :
  (exists g st',
      LinkParser.buildLinkGraph Sample.chain Sample.parser Sample.flatPath
        LinkParser.init = (Ok g, st')
      /\ (forall f, f ∈ map LinkParser.path (LinkParser.nodes g)
                    <-> f ∈ ["A.md"; "B.md"; "C.md"])
      /\ (forall f, f ∈ JsMap.keys (LinkParser.linkCache st')
                    <-> f ∈ ["A.md"; "B.md"; "C.md"]))
  /\ (exists st',
        LinkParser.buildLinkGraph Sample.locked Sample.parser Sample.flatPath
          LinkParser.init
        = (Err "EACCES: permission denied, open 'B.md'", st')
        /\ (forall f, f ∈ JsMap.keys (LinkParser.linkCache st') <-> f ∈ ["A.md"])
        /\ LinkParser.backlinkCache st' = JsMap.empty).
Proof.
  split.
  - apply (proj1 (buildLinkGraph_stops_at_unreadable_document
                    Sample.chain Sample.parser Sample.flatPath LinkParser.init)).
    repeat constructor; eexists; reflexivity.
  - apply (proj2 (buildLinkGraph_stops_at_unreadable_document
                    Sample.locked Sample.parser Sample.flatPath LinkParser.init)
             ["A.md"] "B.md" ["C.md"]).
    + reflexivity.
    + repeat constructor; eexists; reflexivity.
    + reflexivity.
Defined.

(** C3 (the code departs from it).  With [B.md] unreadable the build
    returns no graph at all and no error list, only the read error of
    [B.md], and [C.md], which can be read, is never processed. *)
Lemma buildLinkGraph_not_failure_tolerant :
  let r := LinkParser.buildLinkGraph Sample.locked Sample.parser Sample.flatPath
             LinkParser.init in
  readable Sample.locked "C.md"
  /\ (forall g, fst r <> Ok g)
  /\ fst r = Err "EACCES: permission denied, open 'B.md'"
  /\ JsMap.get "C.md" (LinkParser.linkCache (snd r)) = None.
Proof.
  cbv zeta. split; [eexists; reflexivity|].
  split; [intros g; vm_compute; discriminate|].
  split; reflexivity.
Qed.

(** ** Graph queries *)

(** C10.  When the two arguments normalise to the same path,
    [findShortestPath] answers at once with that single path and no error
    list, without consulting the vault: the answer is the same for every
    store, including one that holds no such document. *)
Theorem findShortestPath_trivial_case_unchecked
  {Yaml : Type} (fs : FileUtils.t) (parser : Parser.ObsidianParser Yaml)
  (np : PathModule) (fuel : nat) (s t : string) (st : GraphUtils.State) :
  FileUtils.ensureMarkdownExtension s = FileUtils.ensureMarkdownExtension t ->
  GraphUtils.findShortestPath fs parser np fuel s t st
  = Some ({| GraphUtils.data := [FileUtils.ensureMarkdownExtension s];
             GraphUtils.errors := None;
             GraphUtils.metadata :=
               {| GraphUtils.totalProcessed := 0; GraphUtils.successCount := 1;
                  GraphUtils.errorCount := 0 |} |}, st).
Proof.
  intros Heq. unfold GraphUtils.findShortestPath.
  destruct (decide _) as [_|Hne]; [reflexivity|contradiction].
Qed.

Lemma findShortestPath_trivial_case_unchecked_witness :
  GraphUtils.findShortestPath Sample.emptyVault Sample.parser Sample.flatPath
    0 "ghost" "ghost.md" GraphUtils.init
  = Some ({| GraphUtils.data := ["ghost.md"];
             GraphUtils.errors := None;
             GraphUtils.metadata :=
               {| GraphUtils.totalProcessed := 0; GraphUtils.successCount := 1;
                  GraphUtils.errorCount := 0 |} |}, GraphUtils.init).
Proof.
  apply (findShortestPath_trivial_case_unchecked
           Sample.emptyVault Sample.parser Sample.flatPath 0 "ghost" "ghost.md").
  reflexivity.
Defined.

(** ** Shortest paths *)

#[local] Set Warnings "-clear-no-such-hyp".

Section Search.
Context {Yaml : Type}.
Context (fs : FileUtils.t) (parser : Parser.ObsidianParser Yaml) (np : PathModule).
Context (Hread : Forall (processable fs parser) (FileUtils.listMarkdownFiles fs)).

Abbreviation G := (forwardGraph fs parser np).

Lemma buildLinkGraph_readable lp :
  exists g st',
    LinkParser.buildLinkGraph fs parser np lp = (Ok g, st')
    /\ LinkParser.linkCache st' = G.
Proof.
  destruct (buildLinkGraph_all_readable fs parser np lp Hread) as (g & st' & Hb & _).
  exists g, st'. split; [assumption|].
  unfold forwardGraph. change (LinkParser.buildLinkGraph fs parser np LinkParser.init)
    with (LinkParser.buildLinkGraph fs parser np lp). rewrite Hb. reflexivity.
Qed.

Lemma LinkParser_getForwardLinks_consistent p lp :
  LinkParser.linkCache lp = JsMap.empty \/ LinkParser.linkCache lp = G ->
  exists lp',
    LinkParser.getForwardLinks fs parser np p lp
    = (Ok (default [] (JsMap.get p G)), lp')
    /\ LinkParser.linkCache lp' = G.
Proof.
  intros Hlp. unfold LinkParser.getForwardLinks, LinkParser.ensureBuilt.
  destruct (JsMap.size (LinkParser.linkCache lp) =? 0)%nat eqn:Hsize.
  - destruct (buildLinkGraph_readable lp) as (g & st' & -> & HG).
    exists st'. rewrite HG. split; reflexivity.
  - destruct Hlp as [Hlp|Hlp].
    + rewrite Hlp in Hsize. discriminate.
    + exists lp. rewrite Hlp. split; reflexivity.
Qed.

Lemma getForwardLinks_consistent p st :
  Consistent fs parser np st ->
  exists st',
    GraphUtils.getForwardLinks fs parser np p st
    = ({| GraphUtils.data := forwardOf G p; GraphUtils.errors := None;
          GraphUtils.metadata :=
            {| GraphUtils.totalProcessed := 1; GraphUtils.successCount := 1;
               GraphUtils.errorCount := 0 |} |}, st')
    /\ Consistent fs parser np st'.
Proof.
  intros [Hlp Hmemo]. unfold GraphUtils.getForwardLinks, GraphUtils.getLinksFromFile.
  destruct (GraphUtils.linkCache st !! FileUtils.ensureMarkdownExtension p)
    as [cached|] eqn:Hhit.
  - exists st. rewrite (Hmemo _ _ Hhit). split; [reflexivity|]. split; assumption.
  - destruct (LinkParser_getForwardLinks_consistent
                (FileUtils.ensureMarkdownExtension p) _ Hlp) as (lp' & -> & HG).
    eexists. split; [reflexivity|]. split; cbn.
    + right. assumption.
    + intros k v. rewrite lookup_insert. case_decide as Hk.
      * subst k. intros [= <-]. reflexivity.
      * apply Hmemo.
Qed.

(** Walks *)

Lemma walkTo_last s p u d : walkTo G s p u -> List.last p d = u.
Proof. destruct 1; [reflexivity|apply last_last]. Qed.

Lemma walkTo_functional s p u u' : walkTo G s p u -> walkTo G s p u' -> u = u'.
Proof.
  intros H H'. rewrite <- (walkTo_last s p u "" H). apply (walkTo_last s p u' "" H').
Qed.

Lemma walkTo_length s p u : walkTo G s p u -> (1 <= length p)%nat.
Proof. destruct 1; [cbn; lia|rewrite length_app; cbn; lia]. Qed.

Lemma walkTo_head s p u : walkTo G s p u -> head p = Some s.
Proof.
  induction 1 as [|p u v _ IH _]; [reflexivity|].
  destruct p; [discriminate|exact IH].
Qed.

Lemma linked_target u v : linked G u v -> v ∈ linkTargets G.
Proof.
  intros (l & Hl & ->). unfold forwardOf in Hl.
  destruct (JsMap.get _ G) as [s|] eqn:Hget; cbn in Hl;
    [|apply elem_of_nil in Hl; contradiction].
  apply JsMap_get_elem in Hget.
  unfold linkTargets. apply list_elem_of_In, in_flat_map.
  eexists. split; [apply list_elem_of_In; exact Hget|].
  cbn. apply in_map, list_elem_of_In. assumption.
Qed.

(** The counter that bounds the loop *)

Lemma unvisited_le U visited : (unvisited U visited <= length U)%nat.
Proof. apply filter_length_le. Qed.

Lemma unvisited_mono U visited v :
  (unvisited U ({[v]} ∪ visited) <= unvisited U visited)%nat.
Proof.
  unfold unvisited. induction U as [|x U IH]; cbn; [lia|].
  destruct (bool_decide_reflect (x ∉ {[v]} ∪ visited)) as [H1|H1];
    destruct (bool_decide_reflect (x ∉ visited)) as [H2|H2]; cbn; try lia.
  exfalso. apply H2. set_solver.
Qed.

Lemma unvisited_add U visited v :
  v ∈ U -> v ∉ visited ->
  (S (unvisited U ({[v]} ∪ visited)) <= unvisited U visited)%nat.
Proof.
  unfold unvisited. induction U as [|x U IH]; intros Hin Hv.
  - apply elem_of_nil in Hin. contradiction.
  - cbn. apply elem_of_cons in Hin as [<-|Hin].
    + pose proof (unvisited_mono U visited v) as Hmono. unfold unvisited in Hmono.
      destruct (bool_decide_reflect (v ∉ {[v]} ∪ visited)) as [H1|H1];
        [exfalso; set_solver|].
      destruct (bool_decide_reflect (v ∉ visited)) as [H2|H2]; [|contradiction].
      cbn. lia.
    + specialize (IH Hin Hv).
      destruct (bool_decide_reflect (x ∉ {[v]} ∪ visited)) as [H1|H1];
        destruct (bool_decide_reflect (x ∉ visited)) as [H2|H2]; cbn; try lia.
      exfalso. apply H2. set_solver.
Qed.

(** The invariant of the search *)

Section Invariant.
Context (src tgt : string).

Lemma frontier_closed pending visited L :
  SearchInv G src tgt pending visited ->
  (forall q, q ∈ pending -> (L <= length q)%nat) ->
  forall p u, walkTo G src p u -> (length p < L)%nat ->
    u ∈ visited /\ forall w, linked G u w -> w ∈ visited.
Proof.
  intros Hinv Hlen p u Hwalk.
  induction Hwalk as [|p u v Hwalk IH Hedge]; intros Hp.
  - assert (Hsrc : src ∈ visited) by apply Hinv.
    split; [assumption|].
    destruct (inv_closed _ _ _ _ _ Hinv src Hsrc) as [Hc|(q & Hq & Hqw)];
      [assumption|].
    pose proof (inv_min _ _ _ _ _ Hinv q src Hq Hqw [src] (walk_start G src)) as Hmin.
    specialize (Hlen q Hq). cbn in Hp, Hmin. lia.
  - rewrite length_app in Hp. cbn in Hp.
    destruct IH as [_ Hclosed]; [lia|].
    assert (Hv : v ∈ visited) by (apply Hclosed; assumption).
    split; [assumption|].
    destruct (inv_closed _ _ _ _ _ Hinv v Hv) as [Hc|(q & Hq & Hqw)];
      [assumption|].
    pose proof (inv_min _ _ _ _ _ Hinv q v Hq Hqw (p ++ [v])
                  (walk_step G src p u v Hwalk Hedge)) as Hmin.
    specialize (Hlen q Hq). rewrite length_app in Hmin. cbn in Hmin. lia.
Qed.

Lemma frontier_visited pending visited L :
  SearchInv G src tgt pending visited ->
  (forall q, q ∈ pending -> (L <= length q)%nat) ->
  forall p u, walkTo G src p u -> (length p <= L)%nat -> u ∈ visited.
Proof.
  intros Hinv Hlen p u Hwalk Hp. destruct Hwalk as [|p u v Hwalk Hedge].
  - apply Hinv.
  - rewrite length_app in Hp. cbn in Hp.
    destruct (frontier_closed pending visited L Hinv Hlen p u Hwalk) as [_ Hc]; [lia|].
    apply Hc. assumption.
Qed.

Lemma levels_ge L queue q : levels L queue -> q ∈ queue -> (L <= length q)%nat.
Proof.
  intros (qs1 & qs2 & -> & H1 & H2) Hq. rewrite Forall_forall in H1, H2.
  apply elem_of_app in Hq as [Hq|Hq];
    [rewrite (H1 q Hq)|rewrite (H2 q Hq)]; lia.
Qed.

Lemma levels_snoc L queue q :
  levels L queue -> length q = S L -> levels L (queue ++ [q]).
Proof.
  intros (qs1 & qs2 & -> & H1 & H2) Hq.
  exists qs1, (qs2 ++ [q]). split; [symmetry; apply app_assoc|].
  split; [assumption|]. apply Forall_app. split; [assumption|]. constructor; auto.
Qed.

Lemma levels_head L path rest :
  levels L (path :: rest) -> length path = L -> levels L rest.
Proof.
  intros (qs1 & qs2 & Heq & H1 & H2) Hlen.
  destruct qs1 as [|q qs1]; cbn in Heq.
  - subst qs2. inversion H2; subst. lia.
  - injection Heq as <- ->. inversion H1; subst.
    exists qs1, qs2. auto.
Qed.

Lemma levels_next L queue :
  levels L queue ->
  exists L', levels L' queue
             /\ forall path rest, queue = path :: rest -> length path = L'.
Proof.
  intros (qs1 & qs2 & -> & H1 & H2).
  destruct qs1 as [|q qs1]; cbn.
  - exists (S L). split.
    + exists qs2, []. rewrite app_nil_r. auto.
    + intros path rest ->. inversion H2; subst. assumption.
  - exists L. split.
    + exists (q :: qs1), qs2. auto.
    + intros path rest [= <- _]. inversion H1; subst. reflexivity.
Qed.

Lemma inv_enqueue path queue visited c v L :
  SearchInv G src tgt (path :: queue) visited ->
  walkTo G src path c -> length path = L ->
  (forall q, q ∈ queue -> (L <= length q)%nat) ->
  linked G c v -> v <> tgt -> v ∉ visited ->
  SearchInv G src tgt (path :: (queue ++ [path ++ [v]])) ({[v]} ∪ visited).
Proof.
  intros Hinv Hpath Hlen Hqueue Hedge Hvt Hv.
  assert (Hnew : walkTo G src (path ++ [v]) v) by (eapply walk_step; eassumption).
  assert (Hpending : forall q, q ∈ path :: (queue ++ [path ++ [v]]) ->
                               q ∈ path :: queue \/ q = path ++ [v]).
  { intros q. rewrite !elem_of_cons, elem_of_app, list_elem_of_singleton. tauto. }
  assert (Hold : forall q, q ∈ path :: queue -> q ∈ path :: (queue ++ [path ++ [v]])).
  { intros q. rewrite !elem_of_cons, elem_of_app. tauto. }
  split.
  - intros q Hq. apply Hpending in Hq as [Hq| ->].
    + destruct (inv_walk _ _ _ _ _ Hinv q Hq) as (u & Hu & Huv).
      exists u. split; [assumption|set_solver].
    + exists v. split; [assumption|set_solver].
  - pose proof (inv_src _ _ _ _ _ Hinv). set_solver.
  - pose proof (inv_tgt _ _ _ _ _ Hinv). set_solver.
  - intros x Hx. apply elem_of_union in Hx as [Hx|Hx].
    + apply elem_of_singleton in Hx as ->. right. exists (path ++ [v]).
      split; [|assumption].
      rewrite elem_of_cons, elem_of_app, list_elem_of_singleton. tauto.
    + destruct (inv_closed _ _ _ _ _ Hinv x Hx) as [Hc|(q & Hq & Hqw)].
      * left. intros w Hw. specialize (Hc w Hw). set_solver.
      * right. exists q. auto.
  - intros q u Hq Hqu p Hp. apply Hpending in Hq as [Hq| ->].
    + apply (inv_min _ _ _ _ _ Hinv q u Hq Hqu p Hp).
    + assert (u = v) as -> by apply (walkTo_functional src _ u v Hqu Hnew).
      rewrite length_app. cbn.
      destruct (le_lt_dec (length p) L) as [Hle|Hgt]; [|lia].
      exfalso. apply Hv.
      apply (frontier_visited (path :: queue) visited L Hinv) with (p := p);
        [|assumption|assumption].
      intros q Hq. apply elem_of_cons in Hq as [->|Hq]; [lia|auto].
Qed.

Lemma inv_found path queue visited c L :
  SearchInv G src tgt (path :: queue) visited ->
  walkTo G src path c -> length path = L ->
  (forall q, q ∈ queue -> (L <= length q)%nat) ->
  linked G c tgt ->
  walkTo G src (path ++ [tgt]) tgt
  /\ forall p, walkTo G src p tgt -> (length (path ++ [tgt]) <= length p)%nat.
Proof.
  intros Hinv Hpath Hlen Hqueue Hedge.
  split; [eapply walk_step; eassumption|].
  intros p Hp. rewrite length_app. cbn.
  destruct (le_lt_dec (length p) L) as [Hle|Hgt]; [|lia].
  exfalso. apply (inv_tgt _ _ _ _ _ Hinv).
  apply (frontier_visited (path :: queue) visited L Hinv) with (p := p);
    [|assumption|assumption].
  intros q Hq. apply elem_of_cons in Hq as [->|Hq]; [lia|auto].
Qed.

Lemma inv_close path queue visited c :
  SearchInv G src tgt (path :: queue) visited ->
  walkTo G src path c ->
  (forall w, linked G c w -> w ∈ visited) ->
  SearchInv G src tgt queue visited.
Proof.
  intros Hinv Hpath Hclosed. split.
  - intros q Hq. apply (inv_walk _ _ _ _ _ Hinv). apply list_elem_of_further, Hq.
  - apply Hinv.
  - apply Hinv.
  - intros x Hx. destruct (inv_closed _ _ _ _ _ Hinv x Hx) as [Hc|(q & Hq & Hqw)];
      [left; assumption|].
    apply elem_of_cons in Hq as [->|Hq].
    + left. assert (x = c) as -> by apply (walkTo_functional src _ x c Hqw Hpath).
      assumption.
    + right. exists q. auto.
  - intros q u Hq. apply (inv_min _ _ _ _ _ Hinv). apply list_elem_of_further, Hq.
Qed.

Lemma inv_exhausted visited :
  SearchInv G src tgt [] visited -> forall p, ~ walkTo G src p tgt.
Proof.
  intros Hinv p Hp.
  assert (Hall : forall p u, walkTo G src p u -> u ∈ visited).
  { clear p Hp. intros p u Hwalk. induction Hwalk as [|p u v _ IH Hedge].
    - apply Hinv.
    - destruct (inv_closed _ _ _ _ _ Hinv u IH) as [Hc|(q & Hq & _)]; [auto|].
      apply elem_of_nil in Hq. contradiction. }
  apply (inv_tgt _ _ _ _ _ Hinv). eapply Hall. eassumption.
Qed.

Lemma scanLinks_spec path c L found :
  walkTo G src path c -> length path = L ->
  (forall l, l ∈ found -> linked G c (FileUtils.ensureMarkdownExtension l)) ->
  forall visited queue,
    SearchInv G src tgt (path :: queue) visited ->
    levels L queue ->
    match GraphUtils.scanLinks tgt path found visited queue with
    | inl res =>
        walkTo G src res tgt
        /\ forall p, walkTo G src p tgt -> (length res <= length p)%nat
    | inr (visited', queue') =>
        SearchInv G src tgt (path :: queue') visited'
        /\ levels L queue'
        /\ (forall l, l ∈ found -> FileUtils.ensureMarkdownExtension l ∈ visited')
        /\ visited ⊆ visited'
        /\ (length queue' + unvisited (linkTargets G) visited'
            <= length queue + unvisited (linkTargets G) visited)%nat
    end.
Proof.
  intros Hpath Hlen. induction found as [|l found IH]; intros Hfound visited queue Hinv Hlv;
    cbn [GraphUtils.scanLinks].
  - split; [assumption|]. split; [assumption|]. split; [|split; [reflexivity|lia]].
    intros l Hl. apply elem_of_nil in Hl. contradiction.
  - assert (Hedge : linked G c (FileUtils.ensureMarkdownExtension l))
      by (apply Hfound, list_elem_of_here).
    assert (Hrest : forall l', l' ∈ found ->
               linked G c (FileUtils.ensureMarkdownExtension l'))
      by (intros l' Hl'; apply Hfound, list_elem_of_further, Hl').
    assert (Hge : forall q, q ∈ queue -> (L <= length q)%nat)
      by (intros q; apply levels_ge; assumption).
    destruct (decide (FileUtils.ensureMarkdownExtension l = tgt)) as [Ht|Ht].
    + rewrite Ht. rewrite Ht in Hedge.
      apply (inv_found path queue visited c L Hinv Hpath Hlen Hge Hedge).
    + destruct (decide (FileUtils.ensureMarkdownExtension l ∈ visited)) as [Hv|Hv].
      * specialize (IH Hrest visited queue Hinv Hlv).
        destruct (GraphUtils.scanLinks tgt path found visited queue)
          as [res|[visited' queue']]; [assumption|].
        destruct IH as (H1 & H2 & H3 & H4 & H5).
        repeat (split; [assumption|]). split; [|split; assumption].
        intros l' Hl'. apply elem_of_cons in Hl' as [->|Hl']; [set_solver|auto].
      * pose proof (inv_enqueue path queue visited c _ L Hinv Hpath Hlen Hge Hedge Ht Hv)
          as Hinv'.
        assert (Hlv' : levels L (queue ++ [path ++ [FileUtils.ensureMarkdownExtension l]])).
        { apply levels_snoc; [assumption|]. rewrite length_app. cbn. lia. }
        specialize (IH Hrest _ _ Hinv' Hlv').
        destruct (GraphUtils.scanLinks tgt path found _ _)
          as [res|[visited' queue']]; [assumption|].
        destruct IH as (H1 & H2 & H3 & H4 & H5).
        repeat (split; [assumption|]). split; [|split; [set_solver|]].
        -- intros l' Hl'. apply elem_of_cons in Hl' as [->|Hl']; [set_solver|auto].
        -- pose proof (unvisited_add (linkTargets G) visited _
                         (linked_target _ _ Hedge) Hv) as Hadd.
           rewrite length_app in H5. cbn in H5. lia.
Qed.

Lemma searchLoop_spec fuel :
  forall queue visited processedCount st L,
    Consistent fs parser np st ->
    SearchInv G src tgt queue visited ->
    levels L queue ->
    (forall path rest, queue = path :: rest -> length path = L) ->
    (length queue + unvisited (linkTargets G) visited <= fuel)%nat ->
    exists r st',
      GraphUtils.searchLoop fs parser np fuel tgt queue visited processedCount [] st
      = Some (r, st')
      /\ Consistent fs parser np st'
      /\ GraphUtils.errors r = None
      /\ ((GraphUtils.data r = [] /\ forall p, ~ walkTo G src p tgt)
          \/ (walkTo G src (GraphUtils.data r) tgt
              /\ forall p, walkTo G src p tgt ->
                           (length (GraphUtils.data r) <= length p)%nat)).
Proof.
  induction fuel as [|fuel IH]; intros queue visited pc st L Hst Hinv Hlv Hhead Hfuel.
  - destruct queue as [|path rest]; [|cbn in Hfuel; lia].
    cbn. do 2 eexists. split; [reflexivity|]. split; [assumption|].
    split; [reflexivity|]. left. split; [reflexivity|].
    apply (inv_exhausted visited Hinv).
  - destruct queue as [|path rest].
    { cbn. do 2 eexists. split; [reflexivity|]. split; [assumption|].
      split; [reflexivity|]. left. split; [reflexivity|].
      apply (inv_exhausted visited Hinv). }
    cbn [GraphUtils.searchLoop].
    destruct (inv_walk _ _ _ _ _ Hinv path (list_elem_of_here _ _)) as (c & Hpath & Hc).
    rewrite (walkTo_last src path c "" Hpath).
    destruct (getForwardLinks_consistent c st Hst) as (st1 & -> & Hst1).
    cbn [GraphUtils.data GraphUtils.errors default app].
    pose proof (Hhead path rest eq_refl) as Hlen.
    pose proof (levels_head L path rest Hlv Hlen) as Hlv'.
    assert (Hfound : forall l, l ∈ forwardOf G c ->
               linked G c (FileUtils.ensureMarkdownExtension l)).
    { intros l Hl. exists l. auto. }
    pose proof (scanLinks_spec path c L (forwardOf G c) Hpath Hlen Hfound
                  visited rest Hinv Hlv') as Hscan.
    destruct (GraphUtils.scanLinks tgt path (forwardOf G c) visited rest)
      as [res|[visited' queue']].
    + do 2 eexists. split; [reflexivity|]. split; [assumption|].
      split; [reflexivity|]. right. exact Hscan.
    + destruct Hscan as (Hinv' & Hlv'' & Hdone & Hsub & Hmeasure).
      assert (Hclosed : forall w, linked G c w -> w ∈ visited').
      { intros w (l & Hl & ->). auto. }
      pose proof (inv_close path queue' visited' c Hinv' Hpath Hclosed) as Hinv''.
      destruct (levels_next L queue' Hlv'') as (L' & HL' & Hhead').
      apply (IH queue' visited' (pc + 1) st1 L' Hst1 Hinv'' HL' Hhead').
      cbn in Hfuel. lia.
Qed.
End Invariant.

Lemma SearchInv_initial src tgt :
  src <> tgt -> SearchInv G src tgt [[src]] {[src]}.
Proof.
  intros Hne. split.
  - intros q Hq. apply list_elem_of_singleton in Hq as ->.
    exists src. split; [constructor|set_solver].
  - set_solver.
  - set_solver.
  - intros v Hv. apply elem_of_singleton in Hv as ->. right.
    exists [src]. split; [apply list_elem_of_here|constructor].
  - intros q u Hq Hqu p Hp. apply list_elem_of_singleton in Hq as ->.
    cbn. eapply walkTo_length. eassumption.
Qed.

(** The contract of the path search where nothing fails.  In a vault
    whose documents can all be read and parsed, for every state the query
    object can be in over that vault and every pair of arguments,
    [findShortestPath] returns once given enough iterations, with no error
    list, and:
    - for a document [x] (a path ending in [.md]), [findShortestPath(x, x)]
      is [[x]];
    - when no walk along forward links leads from the source to the
      target, the data is the empty list;
    - when such a walk exists, the data is such a walk, from the source to
      the target inclusive, and no walk between them is shorter. *)
Theorem findShortestPath_contract st s t :
  Consistent fs parser np st ->
  let src := FileUtils.ensureMarkdownExtension s in
  let tgt := FileUtils.ensureMarkdownExtension t in
  exists fuel0, forall fuel, (fuel0 <= fuel)%nat ->
    exists r st',
      GraphUtils.findShortestPath fs parser np fuel s t st = Some (r, st')
      /\ Consistent fs parser np st'
      /\ GraphUtils.errors r = None
      /\ (s = t -> endsWith s ".md" = true -> GraphUtils.data r = [s])
      /\ ((forall p, ~ walkTo G src p tgt) -> GraphUtils.data r = [])
      /\ ((exists p, walkTo G src p tgt) ->
          walkTo G src (GraphUtils.data r) tgt
          /\ forall p, walkTo G src p tgt ->
                       (length (GraphUtils.data r) <= length p)%nat).
Proof.
  intros Hst src tgt. exists (S (length (linkTargets G))). intros fuel Hfuel.
  unfold GraphUtils.findShortestPath. fold src tgt.
  destruct (decide (src = tgt)) as [Heq|Hne].
  - do 2 eexists. split; [reflexivity|]. split; [assumption|]. split; [reflexivity|].
    cbn [GraphUtils.data]. split; [|split].
    + intros _ Hmd. subst src. unfold FileUtils.ensureMarkdownExtension.
      rewrite Hmd. reflexivity.
    + intros Hno. exfalso. apply (Hno [src]). rewrite <- Heq. constructor.
    + intros _. rewrite <- Heq. split; [constructor|].
      intros p Hp. cbn. eapply walkTo_length. eassumption.
  - destruct (searchLoop_spec src tgt fuel [[src]] {[src]} 0 st 1%nat Hst
                (SearchInv_initial src tgt Hne)) as (r & st' & Hrun & Hst' & Herr & Hres).
    + exists [[src]], []. repeat split; repeat constructor.
    + intros path rest [= <- _]. reflexivity.
    + pose proof (unvisited_le (linkTargets G) {[src]}). cbn. lia.
    + exists r, st'. split; [assumption|]. split; [assumption|]. split; [assumption|].
      split; [|split].
      * intros -> _. contradiction.
      * intros Hno. destruct Hres as [[Hnil _]|[Hwalk _]]; [assumption|].
        exfalso. eapply Hno. eassumption.
      * intros [p Hp]. destruct Hres as [[_ Hno]|Hres]; [|assumption].
        exfalso. eapply Hno. eassumption.
Qed.
End Search.

(** ** The search kept in the link parser *)

Lemma pendingLinks_mono G visited x :
  (pendingLinks G ({[x]} ∪ visited) <= pendingLinks G visited)%nat.
Proof.
  unfold pendingLinks. induction G as [|[k s] G IH]; cbn; [lia|].
  destruct (decide (k ∈ {[x]} ∪ visited)) as [H1|H1];
    destruct (decide (k ∈ visited)) as [H2|H2]; try lia.
  exfalso. apply H1. set_solver.
Qed.

Lemma pendingLinks_drop G visited x s :
  JsMap.get x G = Some s -> x ∉ visited ->
  (pendingLinks G ({[x]} ∪ visited) + length s <= pendingLinks G visited)%nat.
Proof.
  unfold pendingLinks. induction G as [|[k s'] G IH]; cbn; [discriminate|].
  intros Hget Hx. destruct (String.eqb_spec x k) as [->|Hk].
  - injection Hget as ->.
    pose proof (pendingLinks_mono G visited k) as Hmono. unfold pendingLinks in Hmono.
    destruct (decide (k ∈ {[k]} ∪ visited)) as [H1|H1]; [|exfalso; set_solver].
    destruct (decide (k ∈ visited)) as [H2|H2]; [contradiction|]. lia.
  - specialize (IH Hget Hx).
    destruct (decide (k ∈ {[x]} ∪ visited)) as [H1|H1];
      destruct (decide (k ∈ visited)) as [H2|H2]; try lia.
    exfalso. apply H1. set_solver.
Qed.

Section Trail.
Context (G : JsMap.t JsSet.t) (from to : string).

Lemma trail_length p u : trail G from p u -> (1 <= length p)%nat.
Proof. destruct 1; [cbn; lia|rewrite length_app; cbn; lia]. Qed.

(** Every walk ends in a visited document or is at least as long as some
    queued path. *)
Lemma trail_covered queue visited :
  TrailInv G from to queue visited ->
  forall p u, trail G from p u ->
    u ∈ visited \/ exists x q, (x, q) ∈ queue /\ (length q <= length p)%nat.
Proof.
  intros Hinv p u Hwalk. induction Hwalk as [|p u v Hwalk IH Hedge].
  - destruct (ti_start _ _ _ _ _ Hinv) as [H|H]; [auto|].
    right. exists from, [from]. auto.
  - rewrite length_app. cbn. destruct IH as [Hu|(x & q & Hq & Hlen)].
    + destruct (ti_next _ _ _ _ _ Hinv u v Hu Hedge) as [Hv|(q & Hq & Hlen)]; [auto|].
      right. exists v, q. split; [assumption|]. apply Hlen. assumption.
    + right. exists x, q. split; [assumption|lia].
Qed.


Lemma levels_app L queue new :
  levels L queue -> Forall (fun q => length q = S L) new -> levels L (queue ++ new).
Proof.
  intros (qs1 & qs2 & -> & H1 & H2) Hnew.
  exists qs1, (qs2 ++ new). split; [symmetry; apply app_assoc|].
  split; [assumption|]. apply Forall_app. auto.
Qed.

Lemma enqueue_spec (visited : gset string) (path : list string) found :
  forall queue,
    fold_left
      (fun (q : list (string * list string)) link =>
         if decide (link ∈ visited) then q else q ++ [(link, path ++ [link])])
      found queue
    = queue ++ map (fun l => (l, path ++ [l]))
                   (List.filter (fun l => bool_decide (l ∉ visited)) found).
Proof.
  induction found as [|l found IH]; intros queue; cbn; [symmetry; apply app_nil_r|].
  rewrite IH. destruct (decide (l ∈ visited)) as [Hl|Hl].
  - rewrite bool_decide_eq_false_2; auto.
  - rewrite bool_decide_eq_true_2 by assumption. cbn. rewrite <- app_assoc. reflexivity.
Qed.

Lemma searchQueue_spec fuel :
  forall queue visited L,
    TrailInv G from to queue visited ->
    levels L (map snd queue) ->
    (forall x q rest, queue = (x, q) :: rest -> length q = L) ->
    (length queue + pendingLinks G visited <= fuel)%nat ->
    exists r,
      LinkParser.searchQueue fuel G to queue visited = Some r
      /\ match r with
         | Some p =>
             trail G from p to
             /\ forall p', trail G from p' to -> (length p <= length p')%nat
         | None => forall p, ~ trail G from p to
         end.
Proof.
  induction fuel as [|fuel IH]; intros queue visited L Hinv Hlv Hhead Hfuel.
  - destruct queue as [|[x q] rest]; [|cbn in Hfuel; lia].
    exists None. split; [reflexivity|]. intros p Hp.
    destruct (trail_covered [] visited Hinv p to Hp) as [Hv|(x & q & Hq & _)].
    + apply (ti_to _ _ _ _ _ Hinv Hv).
    + apply elem_of_nil in Hq. contradiction.
  - destruct queue as [|[x q] rest].
    { exists None. split; [reflexivity|]. intros p Hp.
      destruct (trail_covered [] visited Hinv p to Hp) as [Hv|(x & q & Hq & _)].
      + apply (ti_to _ _ _ _ _ Hinv Hv).
      + apply elem_of_nil in Hq. contradiction. }
    cbn [LinkParser.searchQueue].
    pose proof (Hhead x q rest eq_refl) as Hlen.
    pose proof (ti_walk _ _ _ _ _ Hinv x q (list_elem_of_here _ _)) as Hq.
    assert (Hmin : forall p, trail G from p x -> x ∉ visited -> (L <= length p)%nat).
    { intros p Hp Hx.
      destruct (trail_covered _ visited Hinv p x Hp) as [Hv|(x' & q' & Hq' & Hle)];
        [contradiction|].
      assert (L <= length q')%nat; [|lia].
      apply (levels_ge L (map snd ((x, q) :: rest))); [assumption|].
      apply list_elem_of_fmap. exists (x', q'). auto. }
    cbn [map snd] in Hlv. pose proof (levels_head L q (map snd rest) Hlv Hlen) as Hlv'.
    destruct (decide (x = to)) as [->|Hxto].
    { exists (Some q). split; [reflexivity|]. split; [assumption|].
      intros p' Hp'. rewrite Hlen. apply Hmin; [assumption|apply Hinv]. }
    destruct (decide (x ∈ visited)) as [Hx|Hx].
    { destruct (levels_next L (map snd rest) Hlv') as (L' & HL' & Hhead').
      apply (IH rest visited L').
      - split.
        + intros y qy Hy. apply (ti_walk _ _ _ _ _ Hinv). apply list_elem_of_further, Hy.
        + apply Hinv.
        + destruct (ti_start _ _ _ _ _ Hinv) as [H|H]; [auto|].
          apply elem_of_cons in H as [[= <- _]|H]; auto.
        + intros v w Hv Hvw.
          destruct (ti_next _ _ _ _ _ Hinv v w Hv Hvw) as [H|(q' & Hq' & Hb)]; [auto|].
          apply elem_of_cons in Hq' as [[= -> _]|Hq']; [auto|]. right. eauto.
      - assumption.
      - intros y qy rest' ->. apply (Hhead' qy (map snd rest')). reflexivity.
      - cbn in Hfuel. lia. }
    set (visited' := {[x]} ∪ visited).
    set (found := default [] (JsMap.get x G)).
    rewrite enqueue_spec.
    set (new := map (fun l => (l, q ++ [l]))
                    (List.filter (fun l => bool_decide (l ∉ visited')) found)).
    assert (Hnew : forall y qy, (y, qy) ∈ new ->
               qy = q ++ [y] /\ follows G x y /\ y ∉ visited').
    { intros y qy Hy. subst new. apply list_elem_of_fmap in Hy as (l & [= -> ->] & Hl).
      apply list_elem_of_In, filter_In in Hl as [Hl Hd].
      apply bool_decide_eq_true_1 in Hd. apply list_elem_of_In in Hl. auto. }
    assert (Hlv'' : levels L (map snd (rest ++ new))).
    { rewrite map_app. apply levels_app; [assumption|].
      apply Forall_forall. intros qy Hqy.
      apply list_elem_of_fmap in Hqy as ([y qy'] & -> & Hy).
      destruct (Hnew y qy' Hy) as (-> & _). cbn. rewrite length_app. cbn. lia. }
    destruct (levels_next L _ Hlv'') as (L' & HL' & Hhead').
    apply (IH (rest ++ new) visited' L').
    + split.
      * intros y qy Hy. apply elem_of_app in Hy as [Hy|Hy].
        -- apply (ti_walk _ _ _ _ _ Hinv). apply list_elem_of_further, Hy.
        -- destruct (Hnew y qy Hy) as (-> & Hf & _). eapply trail_step; eassumption.
      * pose proof (ti_to _ _ _ _ _ Hinv). subst visited'. set_solver.
      * destruct (ti_start _ _ _ _ _ Hinv) as [H|H]; [left; subst visited'; set_solver|].
        apply elem_of_cons in H as [[= <- _]|H].
        -- left. subst visited'. set_solver.
        -- right. apply elem_of_app. auto.
      * intros v w Hv Hvw. destruct (decide (w ∈ visited')) as [Hw|Hw]; [auto|right].
        subst visited'. apply elem_of_union in Hv as [Hv|Hv].
        -- apply elem_of_singleton in Hv as ->. exists (q ++ [w]). split.
           ++ apply elem_of_app. right. subst new. apply list_elem_of_fmap.
              exists w. split; [reflexivity|].
              apply list_elem_of_In, filter_In. split.
              ** apply list_elem_of_In. exact Hvw.
              ** apply bool_decide_eq_true_2. assumption.
           ++ intros p Hp. rewrite length_app. cbn.
              specialize (Hmin p Hp Hx). lia.
        -- destruct (ti_next _ _ _ _ _ Hinv v w Hv Hvw) as [H|(q' & Hq' & Hb)];
             [exfalso; apply Hw; set_solver|].
           apply elem_of_cons in Hq' as [[= -> _]|Hq'];
             [exfalso; apply Hw; set_solver|].
           exists q'. split; [apply elem_of_app; auto|assumption].
    + assumption.
    + intros y qy rest' Heq. apply (Hhead' qy (map snd rest')).
      rewrite Heq. reflexivity.
    + rewrite length_app. cbn in Hfuel.
      assert (Hcount : (length new <= length found)%nat).
      { subst new. rewrite length_map. apply filter_length_le. }
      assert (Hdrop : (pendingLinks G visited' + length found
                       <= pendingLinks G visited)%nat).
      { subst found visited'. destruct (JsMap.get x G) as [s|] eqn:Hget; cbn.
        - apply pendingLinks_drop; assumption.
        - pose proof (pendingLinks_mono G visited x). lia. }
      lia.
Qed.
End Trail.

Section LinkParserSearch.
Context {Yaml : Type}.
Context (fs : FileUtils.t) (parser : Parser.ObsidianParser Yaml) (np : PathModule).
Context (Hread : Forall (processable fs parser) (FileUtils.listMarkdownFiles fs)).

Abbreviation G := (forwardGraph fs parser np).

(** X15.  The search kept in the link parser obeys the same contract on
    the stored graph, with [null] for "no path": in a vault whose documents
    can all be read and parsed it returns, given enough iterations, a
    shortest walk
    from [from] to [to] when one exists (so [[from]] when the two are
    equal) and [null] when none exists. *)
Theorem LinkParser_findShortestPath_contract st from to :
  LinkParser.linkCache st = JsMap.empty \/ LinkParser.linkCache st = G ->
  exists fuel0, forall fuel, (fuel0 <= fuel)%nat ->
    exists r st',
      LinkParser.findShortestPath fs parser np fuel from to st = Some (Ok r, st')
      /\ LinkParser.linkCache st' = G
      /\ (from = to -> r = Some [from])
      /\ match r with
         | Some p =>
             trail G from p to
             /\ forall p', trail G from p' to -> (length p <= length p')%nat
         | None => forall p, ~ trail G from p to
         end.
Proof.
  intros Hst. exists (S (pendingLinks G ∅)). intros fuel Hfuel.
  unfold LinkParser.findShortestPath.
  assert (Hbuilt : exists st', LinkParser.ensureBuilt fs parser np st = (Ok tt, st')
                               /\ LinkParser.linkCache st' = G).
  { unfold LinkParser.ensureBuilt.
    destruct (JsMap.size (LinkParser.linkCache st) =? 0)%nat eqn:Hsize.
    - destruct (buildLinkGraph_readable fs parser np Hread st) as (g & st' & -> & HG).
      eauto.
    - destruct Hst as [Hst|Hst]; [rewrite Hst in Hsize; discriminate|eauto]. }
  destruct Hbuilt as (st' & -> & HG). rewrite HG.
  destruct (searchQueue_spec G from to fuel [(from, [from])] ∅ 1%nat) as (r & -> & Hr).
  - split.
    + intros x q Hx. apply list_elem_of_singleton in Hx as [= -> ->]. constructor.
    + apply not_elem_of_empty.
    + right. apply list_elem_of_here.
    + intros v w Hv. apply not_elem_of_empty in Hv. contradiction.
  - exists [[from]], []. repeat split; repeat constructor.
  - intros x q rest [= _ <- _]. reflexivity.
  - cbn. lia.
  - exists r, st'. split; [reflexivity|]. split; [assumption|]. split; [|assumption].
    intros <-. destruct r as [p|].
    + destruct Hr as [Hp Hmin]. specialize (Hmin [from] (trail_start G from)).
      cbn in Hmin. destruct Hp as [|p u v Hp _]; [reflexivity|].
      apply (trail_length G from) in Hp. rewrite length_app in Hmin. cbn in Hmin. lia.
    + exfalso. apply (Hr [from]). constructor.
Qed.
End LinkParserSearch.

(** ** Similarity *)

Section Similarity.
Import VaultUtils.

Lemma editDistance_cons b y a x :
  editDistance (b :: y) (a :: x)
  = if Ascii.eqb b a then editDistance y x
    else Nat.min (editDistance y x + 1)
                 (Nat.min (editDistance (b :: y) x + 1) (editDistance y (a :: x) + 1)).
Proof. reflexivity. Qed.

Lemma editDistance_nil_r u : editDistance u [] = length u.
Proof. destruct u; reflexivity. Qed.

Lemma editDistance_sym u v : editDistance u v = editDistance v u.
Proof.
  revert v. induction u as [|b y IHu]; intros v.
  - rewrite editDistance_nil_r. reflexivity.
  - induction v as [|a x IHv].
    + reflexivity.
    + rewrite !editDistance_cons, (Ascii.eqb_sym a b), (IHu x), IHv, (IHu (a :: x)).
      destruct (Ascii.eqb b a); [reflexivity|].
      f_equal. apply Nat.min_comm.
Qed.

Lemma editDistance_diag u : editDistance u u = 0%nat.
Proof.
  induction u as [|b y IH]; [reflexivity|].
  rewrite editDistance_cons, Ascii.eqb_refl. exact IH.
Qed.

Lemma rowFrom_head u acc rest :
  rowFrom u acc rest = editDistance u acc :: tl (rowFrom u acc rest).
Proof. destruct rest; reflexivity. Qed.

Lemma fillRow_rowFrom c2 y rest acc :
  fillRow c2 rest (rowFrom y acc rest) (editDistance (c2 :: y) acc)
  = tl (rowFrom (c2 :: y) acc rest).
Proof.
  revert acc. induction rest as [|c1 rest IH]; intros acc; [reflexivity|].
  cbn [rowFrom tl]. rewrite (rowFrom_head y (c1 :: acc) rest).
  cbn [fillRow]. rewrite <- (rowFrom_head y (c1 :: acc) rest).
  rewrite <- editDistance_cons, IH. symmetry. apply rowFrom_head.
Qed.

Lemma fillRows_rowFrom str2 str1 u :
  fillRows (S (length u)) str2 str1 (rowFrom u [] str1)
  = rowFrom (revChars str2 u) [] str1.
Proof.
  revert u. induction str2 as [|c2 rest IH]; intros u; [reflexivity|].
  cbn [fillRows revChars].
  change (S (length u)) with (editDistance (c2 :: u) []) at 2 3.
  rewrite fillRow_rowFrom, <- rowFrom_head.
  apply (IH (c2 :: u)).
Qed.

Lemma seq_rowFrom acc rest :
  seq (length acc) (S (String.length rest)) = rowFrom [] acc rest.
Proof.
  revert acc. induction rest as [|c rest IH]; intros acc; [reflexivity|].
  cbn [String.length rowFrom]. rewrite <- (IH (c :: acc)). reflexivity.
Qed.

Lemma last_rowFrom u acc rest :
  List.last (rowFrom u acc rest) 0%nat = editDistance u (revChars rest acc).
Proof.
  revert acc. induction rest as [|c rest IH]; intros acc; [reflexivity|].
  cbn [rowFrom revChars]. rewrite <- IH.
  rewrite (rowFrom_head u (c :: acc) rest). reflexivity.
Qed.

Lemma matrix_editDistance str1 str2 :
  List.last (fillRows 1 str2 str1 (seq 0 (S (String.length str1)))) 0%nat
  = editDistance (revChars str2 []) (revChars str1 []).
Proof.
  pose proof (seq_rowFrom [] str1) as Hrow0.
  pose proof (fillRows_rowFrom str2 str1 []) as Hrows.
  cbn [length] in Hrow0, Hrows. rewrite Hrow0, Hrows.
  apply last_rowFrom.
Qed.

Lemma levenshteinDistance_sym a b : levenshteinDistance a b = levenshteinDistance b a.
Proof.
  unfold levenshteinDistance.
  rewrite !matrix_editDistance, (editDistance_sym (revChars b [])), (orb_comm (_ <? String.length a)%nat),
    (Nat.max_comm (String.length a)).
  destruct (_ || _); [|reflexivity].
  destruct (decide (a = b)), (decide (b = a)); congruence.
Qed.

Lemma levenshteinDistance_diag a : levenshteinDistance a a = 0%nat.
Proof.
  unfold levenshteinDistance. rewrite matrix_editDistance, editDistance_diag.
  destruct (_ || _); [|reflexivity]. destruct (decide (a = a)); congruence.
Qed.

Lemma sampleSimilarity_sym a b i : sampleSimilarity a b i = sampleSimilarity b a i.
Proof.
  unfold sampleSimilarity, sampleOffset.
  rewrite (Nat.min_comm (String.length a)), (levenshteinDistance_sym (substring _ _ a)),
    (Nat.max_comm (String.length (substring _ _ a))), (andb_comm (negb (String.eqb (substring _ _ a) ""))).
  reflexivity.
Qed.

Lemma calculateSampledSimilarity_sym a b :
  calculateSampledSimilarity a b = calculateSampledSimilarity b a.
Proof.
  unfold calculateSampledSimilarity.
  rewrite (Nat.min_comm (String.length a)), (Nat.max_comm (String.length a)).
  destruct (decide (a = b)), (decide (b = a)); try congruence.
  destruct (Qlt_bool _ _); [reflexivity|].
  cbn [NUM_SAMPLES seq fold_left].
  rewrite !(sampleSimilarity_sym a b). reflexivity.
Qed.

Lemma calculateSampledSimilarity_diag a : calculateSampledSimilarity a a = 1%Q.
Proof. unfold calculateSampledSimilarity. destruct (decide (a = a)); congruence. Qed.

(** C9.  The similarity of a string with itself is 1 (in the direct tier
    the quotient [n / n], in the sampled tier the literal [1.0]), and the
    similarity of two strings does not depend on their order; the same
    holds of the sampled similarity and of the edit distance on their
    own. *)
Theorem string_similarity_reflexive_symmetric (a b : string) :
  (calculateStringSimilarity a a == 1)%Q
  /\ calculateStringSimilarity a b = calculateStringSimilarity b a
  /\ calculateSampledSimilarity a a = 1%Q
  /\ calculateSampledSimilarity a b = calculateSampledSimilarity b a
  /\ levenshteinDistance a a = 0%nat
  /\ levenshteinDistance a b = levenshteinDistance b a.
Proof.
  split; [|split; [|auto using calculateSampledSimilarity_diag, calculateSampledSimilarity_sym,
                       levenshteinDistance_diag, levenshteinDistance_sym]].
  - unfold calculateStringSimilarity. rewrite Nat.ltb_irrefl.
    destruct (String.length a =? 0)%nat eqn:Hlen; [reflexivity|].
    destruct (_ <? _)%nat; [rewrite calculateSampledSimilarity_diag; reflexivity|].
    rewrite levenshteinDistance_diag, Z.sub_0_r.
    apply Qmult_inv_r. apply Nat.eqb_neq in Hlen.
    intros H. unfold Qeq in H. cbn in H. lia.
  - unfold calculateStringSimilarity.
    destruct (Nat.lt_trichotomy (String.length a) (String.length b)) as [Hlt|[Heq|Hgt]].
    + replace (String.length b <? String.length a)%nat with false by (symmetry; apply Nat.ltb_ge; lia).
      replace (String.length a <? String.length b)%nat with true by (symmetry; apply Nat.ltb_lt; lia).
      rewrite (calculateSampledSimilarity_sym a b). reflexivity.
    + replace (String.length b <? String.length a)%nat with false by (symmetry; apply Nat.ltb_ge; lia).
      replace (String.length a <? String.length b)%nat with false by (symmetry; apply Nat.ltb_ge; lia).
      rewrite (calculateSampledSimilarity_sym a b), (levenshteinDistance_sym b a), Heq. reflexivity.
    + replace (String.length b <? String.length a)%nat with true by (symmetry; apply Nat.ltb_lt; lia).
      replace (String.length a <? String.length b)%nat with false by (symmetry; apply Nat.ltb_ge; lia).
      rewrite (calculateSampledSimilarity_sym a b). reflexivity.
Qed.

End Similarity.

(** ** Duplicate scan *)

Section DuplicateScan.
Import VaultUtils.

Lemma Qlt_bool_iff a b : Qlt_bool a b = true <-> (a < b)%Q.
Proof.
  unfold Qlt_bool. rewrite negb_true_iff, <- not_true_iff_false, Qle_bool_iff.
  split; [apply Qnot_le_lt | apply Qlt_not_le].
Qed.

Section Cmp.
Context (readFile computeFileHash : string -> Result string).

Lemma compareHashes_spec file1 file2 sim ty :
  let r := compareHashes computeFileHash file1 file2 sim ty in
  (forall f, ReadFile f ∉ snd r)
  /\ snd r <> []
  /\ (forall h1 h2, computeFileHash file1 = Ok h1 -> computeFileHash file2 = Ok h2 ->
        fst r = Ok (if String.eqb h1 h2 then (1%Q, content) else (sim, ty)))
  /\ (forall s t, fst r = Ok (s, t) ->
        (s, t) = (sim, ty) \/
        (s, t) = (1%Q, content) /\ exists h, computeFileHash file1 = Ok h /\ computeFileHash file2 = Ok h).
Proof.
  unfold compareHashes.
  destruct (computeFileHash file1) as [h1|e1]; [destruct (computeFileHash file2) as [h2|e2]|]; cbn.
  - split; [|split; [|split]].
    + intros f. rewrite !elem_of_cons, elem_of_nil. intros [?|[?|?]]; discriminate || assumption.
    + discriminate.
    + intros ? ? [= <-] [= <-]. reflexivity.
    + intros s t. destruct (String.eqb_spec h1 h2) as [->|Hne]; intros [= <- <-]; eauto.
  - split; [|split; [|split]].
    + intros f. rewrite !elem_of_cons, elem_of_nil. intros [?|[?|?]]; discriminate || assumption.
    + discriminate.
    + discriminate.
    + discriminate.
  - split; [|split; [|split]].
    + intros f. rewrite !elem_of_cons, elem_of_nil. intros [?|?]; discriminate || assumption.
    + discriminate.
    + discriminate.
    + discriminate.
Qed.

Lemma hashFallback_spec file1 file2 sim ty done :
  fellBackToHashes computeFileHash file1 file2 sim ty done
    (hashFallback computeFileHash file1 file2 sim ty done).
Proof.
  unfold hashFallback.
  destruct (compareHashes_spec file1 file2 sim ty) as (Hno & Hne & Heq & Hcases).
  destruct (compareHashes computeFileHash file1 file2 sim ty) as [[[s t]|e] tr];
    cbn [fst snd] in *.
  - split; [reflexivity|]. split; [exists tr; auto|]. split; cbn.
    + intros h1 h2 H1 H2. specialize (Heq h1 h2 H1 H2). congruence.
    + destruct (Hcases s t eq_refl) as [?|[? ?]]; auto.
  - split; [reflexivity|]. split; [exists tr; auto|]. split; cbn.
    + intros h1 h2 H1 H2. specialize (Heq h1 h2 H1 H2). discriminate.
    + auto.
Qed.

(** C8, as the code has it.  The content comparison of a pair runs only
    when [checkContent] is set and the similarity left by the title check
    is below the threshold; otherwise nothing is read or hashed.
    - If either recorded size exceeds 51200 bytes, no content is read; the
      files are hashed only when the sizes are within 10% of each other;
      the similarity becomes exactly 1 (type "content") when both digests
      are computed and equal, and keeps its value otherwise.
    - If both recorded sizes are at most 51200 bytes, [file1] is read and,
      if that succeeds, [file2].  When both reads succeed and neither
      content is longer than 51200 characters, the contents are compared
      by [calculateStringSimilarity], no digest being computed; the
      result replaces the similarity when it is higher.  When the first
      read fails, when the second read fails, or when a content is longer
      than 51200 characters, the digests decide instead and no error is
      recorded. *)
Theorem size_gated_comparison checkContent threshold file1 file2 size1 size2 sim ty :
  let r := compareContent readFile computeFileHash checkContent threshold
             file1 file2 size1 size2 sim ty in
  (checkContent = false \/ ~ (sim < threshold)%Q ->
     trace r = [] /\ errors r = [] /\ (similarity r, type r) = (sim, ty))
  /\ (SAFE_SIZE_LIMIT < size1 \/ SAFE_SIZE_LIMIT < size2 ->
     (forall f, ReadFile f ∉ trace r)
     /\ (trace r <> [] ->
           checkContent = true /\ (sim < threshold)%Q
           /\ sizesWithinTenPercent size1 size2)
     /\ (checkContent = true -> (sim < threshold)%Q ->
         sizesWithinTenPercent size1 size2 ->
         forall h1 h2, computeFileHash file1 = Ok h1 -> computeFileHash file2 = Ok h2 ->
           (similarity r, type r) = if String.eqb h1 h2 then (1%Q, content) else (sim, ty))
     /\ ((similarity r, type r) = (sim, ty)
         \/ (similarity r, type r) = (1%Q, content)
            /\ exists h, computeFileHash file1 = Ok h /\ computeFileHash file2 = Ok h))
  /\ (size1 <= SAFE_SIZE_LIMIT -> size2 <= SAFE_SIZE_LIMIT ->
      checkContent = true -> (sim < threshold)%Q ->
      (forall content1 content2,
         readFile file1 = Ok content1 -> readFile file2 = Ok content2 ->
         Z.of_nat (String.length content1) <= SAFE_SIZE_LIMIT ->
         Z.of_nat (String.length content2) <= SAFE_SIZE_LIMIT ->
         trace r = [ReadFile file1; ReadFile file2]
         /\ errors r = []
         /\ (similarity r, type r)
            = if Qlt_bool sim (calculateStringSimilarity content1 content2)
              then (calculateStringSimilarity content1 content2, content)
              else (sim, ty))
      /\ (forall e, readFile file1 = Err e ->
            fellBackToHashes computeFileHash file1 file2 sim ty [ReadFile file1] r)
      /\ (forall content1 e,
            readFile file1 = Ok content1 -> readFile file2 = Err e ->
            fellBackToHashes computeFileHash file1 file2 sim ty
              [ReadFile file1; ReadFile file2] r)
      /\ (forall content1 content2,
            readFile file1 = Ok content1 -> readFile file2 = Ok content2 ->
            SAFE_SIZE_LIMIT < Z.of_nat (String.length content1)
            \/ SAFE_SIZE_LIMIT < Z.of_nat (String.length content2) ->
            fellBackToHashes computeFileHash file1 file2 sim ty
              [ReadFile file1; ReadFile file2] r)).
Proof.
  cbv zeta. split; [|split].
  - intros Hgate. unfold compareContent.
    destruct checkContent; cbn [andb]; [|auto].
    destruct Hgate as [Hgate|Hgate]; [discriminate|].
    destruct (Qlt_bool sim threshold) eqn:Hsim; [|auto].
    apply Qlt_bool_iff in Hsim. contradiction.
  - intros Hbig. unfold compareContent.
    assert (Hgate : (size1 >? SAFE_SIZE_LIMIT) || (size2 >? SAFE_SIZE_LIMIT) = true).
    { apply orb_true_iff. rewrite !Z.gtb_ltb, !Z.ltb_lt. exact Hbig. }
    rewrite Hgate.
    destruct checkContent; cbn [andb].
    2:{ cbn. repeat split; try (intros; congruence); auto. intros f. apply not_elem_of_nil. }
    destruct (Qlt_bool sim threshold) eqn:Hsim.
    2:{ cbn. repeat split; try (intros; congruence); auto.
        - intros f. apply not_elem_of_nil.
        - intros _ Hlt. apply Qlt_bool_iff in Hlt. congruence. }
    apply Qlt_bool_iff in Hsim.
    destruct (Qlt_bool (inject_Z (Z.abs (size1 - size2)) / (inject_Z (size1 + size2) / 2)) (1 # 10)) eqn:Hratio.
    2:{ cbn. repeat split; try (intros; congruence); auto.
        - intros f. apply not_elem_of_nil.
        - intros _ _ Hlt. apply Qlt_bool_iff in Hlt. congruence. }
    apply Qlt_bool_iff in Hratio.
    destruct (compareHashes_spec file1 file2 sim ty) as (Hno & Hne & Heq & Hcases).
    destruct (compareHashes computeFileHash file1 file2 sim ty) as [[[s t]|e] tr]; cbn in *.
    + split; [assumption|]. split; [auto|]. split.
      * intros _ _ _ h1 h2 H1 H2. specialize (Heq h1 h2 H1 H2). congruence.
      * destruct (Hcases s t eq_refl) as [?|[? ?]]; auto.
    + split; [assumption|]. split; [auto|]. split.
      * intros _ _ _ h1 h2 H1 H2. specialize (Heq h1 h2 H1 H2). discriminate.
      * auto.
  - intros H1 H2 -> Hsim. unfold compareContent.
    apply Qlt_bool_iff in Hsim. rewrite Hsim. cbn [andb].
    replace (size1 >? SAFE_SIZE_LIMIT) with false by (symmetry; rewrite Z.gtb_ltb; apply Z.ltb_ge; lia).
    replace (size2 >? SAFE_SIZE_LIMIT) with false by (symmetry; rewrite Z.gtb_ltb; apply Z.ltb_ge; lia).
    cbn [orb]. split; [|split; [|split]].
    + intros c1 c2 Hc1 Hc2 Hl1 Hl2. rewrite Hc1, Hc2.
      replace (Z.of_nat (String.length c1) >? SAFE_SIZE_LIMIT) with false by (symmetry; rewrite Z.gtb_ltb; apply Z.ltb_ge; lia).
      replace (Z.of_nat (String.length c2) >? SAFE_SIZE_LIMIT) with false by (symmetry; rewrite Z.gtb_ltb; apply Z.ltb_ge; lia).
      cbn [orb].
      destruct (Qlt_bool sim (calculateStringSimilarity c1 c2)); repeat split; reflexivity.
    + intros e He. rewrite He. apply hashFallback_spec.
    + intros c1 e Hc1 He. rewrite Hc1, He. apply hashFallback_spec.
    + intros c1 c2 Hc1 Hc2 Hlong. rewrite Hc1, Hc2.
      assert (Hgate : (Z.of_nat (String.length c1) >? SAFE_SIZE_LIMIT)
                      || (Z.of_nat (String.length c2) >? SAFE_SIZE_LIMIT) = true).
      { apply orb_true_iff. rewrite !Z.gtb_ltb, !Z.ltb_lt. exact Hlong. }
      rewrite Hgate.
      pose proof (hashFallback_spec file1 file2 sim ty [ReadFile file1; ReadFile file2])
        as Hfirst.
      unfold hashFallback in Hfirst.
      destruct (compareHashes_spec file1 file2 sim ty) as (Hno & Hne & _).
      destruct (compareHashes computeFileHash file1 file2 sim ty) as [[[s t]|e] tr] eqn:Hcmp;
        [exact Hfirst|].
      cbn [fst snd] in Hno, Hne.
      destruct (hashFallback_spec file1 file2 sim ty ([ReadFile file1; ReadFile file2] ++ tr))
        as (Herr & (hashes & Htrace & Hhashes & Hnoread) & Hdecided).
      split; [exact Herr|]. split; [|exact Hdecided].
      exists (tr ++ hashes). split; [rewrite Htrace, <- app_assoc; reflexivity|].
      split; [destruct tr; [congruence|discriminate]|].
      intros f. rewrite elem_of_app. intros [Hf|Hf]; [exact (Hno f Hf)|exact (Hnoread f Hf)].
Qed.
End Cmp.

End DuplicateScan.

(** ** The statements at sample inputs *)

Lemma Consistent_init {Yaml : Type} (fs : FileUtils.t)
      (parser : Parser.ObsidianParser Yaml) (np : PathModule) :
  Consistent fs parser np GraphUtils.init.
Proof.
  split; [left; reflexivity|]. intros k v. cbn. rewrite lookup_empty. discriminate.
Qed.

Lemma findShortestPath_contract_witness :
  exists fuel0, forall fuel, (fuel0 <= fuel)%nat ->
    exists r st',
      GraphUtils.findShortestPath Sample.chain Sample.parser Sample.flatPath
        fuel "A" "C.md" GraphUtils.init = Some (r, st')
      /\ Consistent Sample.chain Sample.parser Sample.flatPath st'
      /\ GraphUtils.errors r = None
      /\ ("A" = "C.md" -> endsWith "A" ".md" = true -> GraphUtils.data r = ["A"])
      /\ ((forall p, ~ walkTo (forwardGraph Sample.chain Sample.parser Sample.flatPath)
                       (FileUtils.ensureMarkdownExtension "A") p
                       (FileUtils.ensureMarkdownExtension "C.md")) ->
          GraphUtils.data r = [])
      /\ ((exists p, walkTo (forwardGraph Sample.chain Sample.parser Sample.flatPath)
                       (FileUtils.ensureMarkdownExtension "A") p
                       (FileUtils.ensureMarkdownExtension "C.md")) ->
          walkTo (forwardGraph Sample.chain Sample.parser Sample.flatPath)
            (FileUtils.ensureMarkdownExtension "A") (GraphUtils.data r)
            (FileUtils.ensureMarkdownExtension "C.md")
          /\ forall p, walkTo (forwardGraph Sample.chain Sample.parser Sample.flatPath)
                         (FileUtils.ensureMarkdownExtension "A") p
                         (FileUtils.ensureMarkdownExtension "C.md") ->
                       (length (GraphUtils.data r) <= length p)%nat).
Proof.
  apply (findShortestPath_contract Sample.chain Sample.parser Sample.flatPath).
  - repeat constructor; eexists; reflexivity.
  - split; [left; reflexivity|]. intros k v H. vm_compute in H. discriminate.
Defined.

(** Scenario 4 of the specification, by evaluation. *)
Example chain_shortest_path :
  option_map (fun r => GraphUtils.data (fst r))
    (GraphUtils.findShortestPath Sample.chain Sample.parser Sample.flatPath
       10 "A.md" "C.md" GraphUtils.init)
  = Some ["A.md"; "B.md"; "C.md"].
Proof. vm_compute. reflexivity. Qed.

Example chain_no_path :
  option_map (fun r => GraphUtils.data (fst r))
    (GraphUtils.findShortestPath Sample.chain Sample.parser Sample.flatPath
       10 "C.md" "A.md" GraphUtils.init)
  = Some [].
Proof. vm_compute. reflexivity. Qed.

(** The variant kept in the link parser answers the same on the sample,
    with [null] where no path exists. *)
Example chain_shortest_path_link_parser :
  option_map fst
    (LinkParser.findShortestPath Sample.chain Sample.parser Sample.flatPath
       10 "A.md" "C.md" LinkParser.init)
  = Some (Ok (Some ["A.md"; "B.md"; "C.md"]))
  /\ option_map fst
       (LinkParser.findShortestPath Sample.chain Sample.parser Sample.flatPath
          10 "C.md" "A.md" LinkParser.init)
     = Some (Ok None).
Proof. split; vm_compute; reflexivity. Qed.

(** With [B.md] unreadable, the failure that [buildLinkGraph] lets through
    is caught by the caller: the first forward-link query answers with no
    data and one error record.  The aborted build leaves the forward links
    of [A.md] behind, and the next query is served from them. *)
Example locked_vault_first_and_second_query :
  let first :=
    GraphUtils.getForwardLinks Sample.locked Sample.parser Sample.flatPath
      "A.md" GraphUtils.init in
  let second :=
    GraphUtils.getForwardLinks Sample.locked Sample.parser Sample.flatPath
      "A.md" (snd first) in
  GraphUtils.data (fst first) = []
  /\ GraphUtils.errors (fst first)
     = Some [{| GraphUtils.ge_path := Some "A.md";
                GraphUtils.ge_operation := Some "getForwardLinks";
                GraphUtils.ge_error :=
                  "Failed to get links from file: Error: EACCES: permission denied, open 'B.md'" |}]
  /\ GraphUtils.data (fst second) = ["B.md"]
  /\ GraphUtils.errors (fst second) = None.
Proof. cbv zeta. repeat split; vm_compute; reflexivity. Qed.

(** A note that can be read but whose front matter cannot be parsed
    stops the build as an unreadable note does. *)
Example draft_vault_build_and_query :
  readable Sample.draft "A.md"
  /\ fst (LinkParser.buildLinkGraph Sample.draft Sample.strict Sample.flatPath
            LinkParser.init)
     = Err {| err_name := "YAMLException";
              err_message := "unexpected end of the stream within a flow collection" |}
  /\ (let r := fst (GraphUtils.getForwardLinks Sample.draft Sample.strict Sample.flatPath
                      "B.md" GraphUtils.init) in
      GraphUtils.data r = []
      /\ GraphUtils.errors r
         = Some [{| GraphUtils.ge_path := Some "B.md";
                    GraphUtils.ge_operation := Some "getForwardLinks";
                    GraphUtils.ge_error :=
                      "Failed to get links from file: YAMLException: unexpected end of the stream within a flow collection" |}]).
Proof. split; [eexists; reflexivity|]. repeat split; vm_compute; reflexivity. Qed.

(** The graph of the three-note sample. *)
Example chain_graph :
  exists g st,
    LinkParser.buildLinkGraph Sample.chain Sample.parser Sample.flatPath LinkParser.init
    = (Ok g, st)
    /\ LinkParser.orphaned g = []
    /\ LinkParser.hubs g = ["B.md"; "A.md"; "C.md"]
    /\ LinkParser.linkCache st
       = [("A.md", ["B.md"]); ("B.md", ["C.md"; "A.md"]); ("C.md", [])]
    /\ LinkParser.backlinkCache st
       = [("B.md", ["A.md"]); ("C.md", ["B.md"]); ("A.md", ["B.md"])].
Proof. do 2 eexists. split; [vm_compute; reflexivity|]. repeat split. Qed.

Example levenshtein_kitten_sitting :
  VaultUtils.levenshteinDistance "kitten" "sitting" = 3%nat
  /\ VaultUtils.calculateStringSimilarity "kitten" "sitting" = (4 # 7)%Q.
Proof. split; reflexivity. Qed.

Lemma size_gated_comparison_witness :
  let hashed :=
    VaultUtils.compareContent Sample.read Sample.digest true (8 # 10)
      "big1.md" "big2.md" 60000 61000 0 VaultUtils.title in
  let direct :=
    VaultUtils.compareContent Sample.read Sample.digest true (8 # 10)
      "b.md" "c.md" 4 4 0 VaultUtils.title in
  let unreadable :=
    VaultUtils.compareContent Sample.read Sample.digest true (8 # 10)
      "a.md" "b.md" 4 4 0 VaultUtils.title in
  ((forall f, VaultUtils.ReadFile f ∉ VaultUtils.trace hashed)
   /\ (VaultUtils.trace hashed <> [] ->
       true = true /\ (0 < 8 # 10)%Q /\ sizesWithinTenPercent 60000 61000)
   /\ (true = true -> (0 < 8 # 10)%Q -> sizesWithinTenPercent 60000 61000 ->
       forall h1 h2, Sample.digest "big1.md" = Ok h1 -> Sample.digest "big2.md" = Ok h2 ->
         (VaultUtils.similarity hashed, VaultUtils.type hashed)
         = if String.eqb h1 h2 then (1%Q, VaultUtils.content) else (0%Q, VaultUtils.title))
   /\ ((VaultUtils.similarity hashed, VaultUtils.type hashed) = (0%Q, VaultUtils.title)
       \/ (VaultUtils.similarity hashed, VaultUtils.type hashed) = (1%Q, VaultUtils.content)
          /\ exists h, Sample.digest "big1.md" = Ok h /\ Sample.digest "big2.md" = Ok h))
  /\ (VaultUtils.trace direct = [VaultUtils.ReadFile "b.md"; VaultUtils.ReadFile "c.md"]
      /\ VaultUtils.errors direct = []
      /\ (VaultUtils.similarity direct, VaultUtils.type direct)
         = if VaultUtils.Qlt_bool 0 (VaultUtils.calculateStringSimilarity "beta" "beta")
           then (VaultUtils.calculateStringSimilarity "beta" "beta", VaultUtils.content)
           else (0%Q, VaultUtils.title))
  /\ fellBackToHashes Sample.digest "a.md" "b.md" 0 VaultUtils.title
       [VaultUtils.ReadFile "a.md"] unreadable.
Proof.
  cbv zeta. split; [|split].
  - apply (proj1 (proj2 (size_gated_comparison Sample.read Sample.digest true (8 # 10)
                           "big1.md" "big2.md" 60000 61000 0 VaultUtils.title))).
    left. reflexivity.
  - apply (proj2 (proj2 (size_gated_comparison Sample.read Sample.digest true (8 # 10)
                           "b.md" "c.md" 4 4 0 VaultUtils.title)));
      try reflexivity; discriminate.
  - refine (proj1 (proj2 (proj2 (proj2 (size_gated_comparison Sample.read Sample.digest
                                          true (8 # 10) "a.md" "b.md" 4 4 0 VaultUtils.title))
                                   _ _ _ _)) _ _);
      try reflexivity; discriminate.
Defined.

(** C4 (the code departs from it).  [B.md] links to [C.md], yet with the
    unrelated [A.md] unreadable the search from [B.md] to [C.md] finds no
    path: the query for the links of [B.md] runs the build, which stops
    at [A.md], so the search reports the failure for [B.md] and returns
    the empty list.  With [A.md] readable and the same [B.md] and [C.md]
    the path is found. *)
Lemma findShortestPath_misses_link_beside_unreadable_note :
  readable Sample.sealed "B.md" /\ readable Sample.sealed "C.md"
  /\ "C.md" ∈ outgoing Sample.sealed Sample.parser Sample.flatPath "B.md"
  /\ (forall fuel,
        exists st',
          GraphUtils.findShortestPath Sample.sealed Sample.parser Sample.flatPath
            (S fuel) "B.md" "C.md" GraphUtils.init
          = Some ({| GraphUtils.data := [];
                     GraphUtils.errors :=
                       Some [{| GraphUtils.ge_path := Some "B.md";
                                GraphUtils.ge_operation := Some "getForwardLinks";
                                GraphUtils.ge_error :=
                                  "Failed to get links from file: Error: EACCES: permission denied, open 'A.md'" |}];
                     GraphUtils.metadata :=
                       {| GraphUtils.totalProcessed := 1;
                          GraphUtils.successCount := 0;
                          GraphUtils.errorCount := 1 |} |}, st'))
  /\ (forall fuel,
        exists r st',
          GraphUtils.findShortestPath Sample.chain Sample.parser Sample.flatPath
            (S fuel) "B.md" "C.md" GraphUtils.init = Some (r, st')
          /\ GraphUtils.data r = ["B.md"; "C.md"] /\ GraphUtils.errors r = None).
Proof.
  split; [eexists; reflexivity|]. split; [eexists; reflexivity|].
  split; [vm_compute; apply list_elem_of_here|]. split.
  - intros [|fuel]; eexists; vm_compute; reflexivity.
  - intros [|fuel]; do 2 eexists; (split; [vm_compute; reflexivity|]); split; reflexivity.
Qed.

(** C8 as stated fails: two files within the ceiling are not always
    compared by string similarity.  With [a.md] unreadable the pair falls
    back to the digests and no contents are compared; with a title
    similarity already at the threshold nothing is read at all. *)
Lemma small_pair_not_string_compared :
  let unreadable :=
    VaultUtils.compareContent Sample.read Sample.digest true (8 # 10)
      "a.md" "b.md" 4 4 0 VaultUtils.title in
  let sameTitle :=
    VaultUtils.compareContent Sample.read Sample.digest true (8 # 10)
      "b.md" "c.md" 4 4 1 VaultUtils.title in
  4 <= VaultUtils.SAFE_SIZE_LIMIT
  /\ VaultUtils.trace unreadable
     = [VaultUtils.ReadFile "a.md"; VaultUtils.ComputeFileHash "a.md"]
  /\ VaultUtils.trace sameTitle = []
  /\ (VaultUtils.similarity sameTitle, VaultUtils.type sameTitle)
     = (1%Q, VaultUtils.title).
Proof.
  cbv zeta. split; [discriminate|]. repeat split.
Qed.

(** ** Further properties of the bounded cache *)

Section CacheUse.
Context {T : Type}.
Implicit Types (c : LRU.LRUCache T) (m : JsMap.t (LRU.CacheEntry T)).

Lemma ttl_delete key c : LRU.ttl (snd (LRU.delete key c)) = LRU.ttl c.
Proof. unfold LRU.delete. destruct (JsMap.get key (LRU.cache c)); reflexivity. Qed.

Lemma ttl_removeExpired now c : LRU.ttl (LRU.removeExpired now c) = LRU.ttl c.
Proof.
  unfold LRU.removeExpired.
  generalize (JsMap.keys (List.filter (fun kv => LRU.expired c now (snd kv))
                                      (LRU.cache c))).
  intros ks. revert c. induction ks as [|k ks IH]; intros c; cbn; [reflexivity|].
  rewrite IH. apply ttl_delete.
Qed.

Lemma ttl_evict fuel requiredSize :
  forall c c', LRU.evict fuel requiredSize c = Some c' -> LRU.ttl c' = LRU.ttl c.
Proof.
  induction fuel as [|fuel IH]; intros c c'; cbn.
  - destruct (LRU.needsRoom requiredSize c); [discriminate|]. intros [= <-]. reflexivity.
  - destruct (LRU.needsRoom requiredSize c); [|intros [= <-]; reflexivity].
    destruct (JsMap.keys (LRU.cache c)) as [|firstKey ks]; [intros [= <-]; reflexivity|].
    destruct (String.eqb firstKey ""); [discriminate|].
    intros H. apply IH in H. rewrite H. apply ttl_delete.
Qed.

Lemma ttl_ensureSpace sz now c c' :
  LRU.ensureSpace sz now c = Some c' -> LRU.ttl c' = LRU.ttl c.
Proof.
  unfold LRU.ensureSpace. destruct (sz >? LRU.maxSize c); [intros [= <-]; reflexivity|].
  intros H. apply ttl_evict in H. rewrite H. apply ttl_removeExpired.
Qed.

(** X1.  Round trip of [set] and [get]: after [set(key, v)] at
    time [now], a [get(key)] at time [now'] returns [v] when at most [ttl]
    milliseconds have passed and [undefined] when more have, whatever the
    size of the entry and the earlier content of the cache. *)
Theorem lru_get_after_set key (v : T) sz now now' c c' :
  LRU.set key v sz now c = Some c' ->
  fst (LRU.get key now' c')
  = if now' - now >? LRU.ttl c then None else Some v.
Proof.
  unfold LRU.set.
  set (c1 := if JsMap.has key (LRU.cache c) then snd (LRU.delete key c) else c).
  assert (Hc1 : LRU.ttl c1 = LRU.ttl c).
  { subst c1. destruct (JsMap.has key (LRU.cache c)); [apply ttl_delete|reflexivity]. }
  destruct (LRU.ensureSpace sz now c1) as [c2|] eqn:Hspace; [|discriminate].
  apply ttl_ensureSpace in Hspace. intros [= <-].
  unfold LRU.get. cbn [LRU.cache LRU.with_cache].
  rewrite JsMap_get_set. destruct (String.eqb_spec key key); [|congruence].
  unfold LRU.expired. cbn. rewrite Hspace, Hc1.
  destruct (now' - now >? LRU.ttl c); reflexivity.
Qed.


Lemma JsMap_get_split m key e :
  JsMap.get key m = Some e ->
  exists before after,
    m = before ++ (key, e) :: after
    /\ (key ∉ JsMap.keys before)
    /\ JsMap.delete key m = before ++ after.
Proof.
  induction m as [|[k0 e0] m IH]; cbn; [discriminate|].
  destruct (String.eqb_spec key k0) as [->|Hk].
  - intros [= ->]. exists [], m. split; [reflexivity|]. split; [apply not_elem_of_nil|reflexivity].
  - intros H. destruct (IH H) as (before & after & -> & Hnot & Hdel).
    exists ((k0, e0) :: before), after. split; [reflexivity|]. split.
    + cbn. rewrite not_elem_of_cons. auto.
    + rewrite Hdel. reflexivity.
Qed.

(** X2.  A hit moves the entry to the most recent position: a [get]
    of a stored key that has not expired returns its value, takes the
    entry out of its place and appends it with [lastAccessed] set to the
    time of the call and [accessCount] raised by one; the other entries
    keep their order and [currentSize] is unchanged. *)
Theorem lru_get_moves_entry_to_most_recent key now c e :
  NoDup (LRU.keys c) ->
  JsMap.get key (LRU.cache c) = Some e ->
  now - LRU.lastAccessed e <= LRU.ttl c ->
  exists before after,
    LRU.cache c = before ++ (key, e) :: after
    /\ LRU.get key now c
       = (Some (LRU.value e),
          LRU.with_cache c
            (before ++ after
             ++ [(key, {| LRU.value := LRU.value e; LRU.size := LRU.size e;
                          LRU.lastAccessed := now;
                          LRU.accessCount := LRU.accessCount e + 1 |})])
            (LRU.currentSize c)).
Proof.
  intros Hnd Hget Hfresh.
  destruct (JsMap_get_split _ _ _ Hget) as (before & after & Hm & Hnot & Hdel).
  exists before, after. split; [assumption|].
  unfold LRU.get. rewrite Hget. unfold LRU.expired.
  replace (now - LRU.lastAccessed e >? LRU.ttl c) with false
    by (symmetry; rewrite Z.gtb_ltb; apply Z.ltb_ge; lia).
  cbn [LRU.value]. f_equal. f_equal.
  rewrite Hdel, set_absent, <- app_assoc; [reflexivity|].
  unfold LRU.keys in Hnd. rewrite Hm in Hnd. unfold JsMap.keys in *.
  rewrite map_app in *. cbn in Hnd. apply NoDup_app in Hnd as (_ & Hdisj & Hnd).
  apply NoDup_cons in Hnd as [Hafter _].
  rewrite elem_of_app. tauto.
Qed.


Lemma cache_delete key c :
  LRU.cache (snd (LRU.delete key c)) = JsMap.delete key (LRU.cache c).
Proof.
  unfold LRU.delete. destruct (JsMap.get key (LRU.cache c)) eqn:Hget; cbn; [reflexivity|].
  induction (LRU.cache c) as [|[k0 e0] m IH]; cbn in *; [reflexivity|].
  destruct (String.eqb key k0); [discriminate|]. rewrite <- IH; auto.
Qed.

Lemma JsMap_delete_filter m key :
  NoDup (JsMap.keys m) ->
  JsMap.delete key m = List.filter (fun kv => negb (String.eqb (fst kv) key)) m.
Proof.
  unfold JsMap.keys. induction m as [|[k0 e0] m IH]; cbn; [reflexivity|].
  intros Hnd. apply NoDup_cons in Hnd as [Hk0 Hnd].
  rewrite (String.eqb_sym k0 key).
  destruct (String.eqb_spec key k0) as [->|Hk]; cbn.
  - symmetry. rewrite <- (filter_ext_in (fun _ => true)); [clear; induction m; cbn; congruence|].
    intros [k e] Hin. cbn. destruct (String.eqb_spec k k0) as [->|]; [|reflexivity].
    exfalso. apply Hk0. apply list_elem_of_In. apply in_map_iff. exists (k0, e). auto.
  - rewrite IH; auto.
Qed.

Lemma NoDup_keys_filter m (P : string * LRU.CacheEntry T -> bool) :
  NoDup (JsMap.keys m) -> NoDup (JsMap.keys (List.filter P m)).
Proof.
  unfold JsMap.keys. induction m as [|[k0 e0] m IH]; cbn; [auto|].
  intros Hnd. apply NoDup_cons in Hnd as [Hk0 Hnd].
  destruct (P (k0, e0)); cbn; [|auto].
  apply NoDup_cons. split; [|auto].
  intros Hin. apply Hk0. apply list_elem_of_In in Hin. apply in_map_iff in Hin as ([k e] & <- & Hin).
  apply filter_In in Hin as [Hin _]. apply list_elem_of_In. apply in_map_iff. exists (k, e). auto.
Qed.

(** Deleting a list of keys one by one filters them out. *)
Lemma cache_delete_all ks :
  forall c, NoDup (LRU.keys c) ->
    LRU.cache (fold_left (fun c' key => snd (LRU.delete key c')) ks c)
    = List.filter (fun kv => negb (bool_decide (fst kv ∈ ks))) (LRU.cache c).
Proof.
  induction ks as [|k ks IH]; intros c Hnd; cbn [fold_left].
  - symmetry. rewrite <- (filter_ext_in (fun _ => true)).
    + induction (LRU.cache c); cbn; congruence.
    + intros kv _. rewrite bool_decide_eq_false_2; [reflexivity|apply not_elem_of_nil].
  - rewrite IH.
    + rewrite cache_delete, JsMap_delete_filter by assumption.
      induction (LRU.cache c) as [|[k0 e0] m IHm]; cbn; [reflexivity|].
      destruct (String.eqb_spec k0 k) as [->|Hk]; cbn.
      * rewrite (bool_decide_eq_true_2 (k ∈ k :: ks)) by apply list_elem_of_here.
        cbn. apply IHm.
      * rewrite IHm. f_equal.
        destruct (bool_decide_reflect (k0 ∈ ks)) as [Hin|Hin].
        -- rewrite bool_decide_eq_true_2 by (apply list_elem_of_further; assumption).
           reflexivity.
        -- rewrite bool_decide_eq_false_2; [reflexivity|].
           rewrite not_elem_of_cons. auto.
    + unfold LRU.keys. rewrite cache_delete, JsMap_delete_filter by assumption.
      apply NoDup_keys_filter. assumption.
Qed.

(** [removeExpired] keeps the entries that are not expired, in order. *)
Lemma cache_removeExpired now c :
  NoDup (LRU.keys c) ->
  LRU.cache (LRU.removeExpired now c)
  = List.filter (fun kv => negb (LRU.expired c now (snd kv))) (LRU.cache c).
Proof.
  intros Hnd. unfold LRU.removeExpired. rewrite cache_delete_all by assumption.
  apply filter_ext_in. intros [k e] Hin. cbn. f_equal.
  destruct (LRU.expired c now e) eqn:He.
  - apply bool_decide_eq_true_2. apply list_elem_of_In. apply in_map_iff.
    exists (k, e). split; [reflexivity|]. apply filter_In. auto.
  - apply bool_decide_eq_false_2. intros Hk. apply list_elem_of_In in Hk.
    apply in_map_iff in Hk as ([k' e'] & Hkk & Hin'). cbn in Hkk. subst k'.
    apply filter_In in Hin' as [Hin' He']. cbn in He'.
    assert (e' = e); [|congruence].
    unfold LRU.keys, JsMap.keys in Hnd. clear -Hnd Hin Hin'.
    induction (LRU.cache c) as [|[k0 e0] m IH]; [inversion Hin|].
    cbn in Hnd. apply NoDup_cons in Hnd as [Hk0 Hnd].
    destruct Hin as [[= -> ->]|Hin], Hin' as [[= ->]|Hin'].
    + reflexivity.
    + exfalso. apply Hk0. apply list_elem_of_In. apply in_map_iff. exists (k, e'). auto.
    + subst. exfalso. apply Hk0. apply list_elem_of_In. apply in_map_iff. exists (k, e). auto.
    + auto.
Qed.

(** The eviction loop drops a prefix of the entries. *)
Lemma evict_prefix fuel requiredSize :
  forall c c', LRU.evict fuel requiredSize c = Some c' ->
               exists dropped, LRU.cache c = dropped ++ LRU.cache c'.
Proof.
  induction fuel as [|fuel IH]; intros c c'; cbn.
  - destruct (LRU.needsRoom requiredSize c); [discriminate|]. intros [= <-]. exists []. reflexivity.
  - destruct (LRU.needsRoom requiredSize c); [|intros [= <-]; exists []; reflexivity].
    destruct (LRU.cache c) as [|[firstKey e] m] eqn:Hm; cbn; [intros [= <-]; exists []; auto|].
    destruct (String.eqb firstKey ""); [discriminate|].
    intros H. apply IH in H as [dropped H].
    rewrite cache_delete, Hm in H. cbn in H.
    destruct (String.eqb_spec firstKey firstKey); [|congruence].
    exists ((firstKey, e) :: dropped). rewrite H. reflexivity.
Qed.

(** What a returning [set] within [maxSize] leaves of the old entries. *)
Lemma set_keeps_suffix key (v : T) sz now c c' :
  NoDup (LRU.keys c) ->
  sz <= LRU.maxSize c ->
  LRU.set key v sz now c = Some c' ->
  exists dropped kept,
    List.filter (fun kv => negb (LRU.expired c now (snd kv)))
                (JsMap.delete key (LRU.cache c))
    = dropped ++ kept
    /\ LRU.cache c'
       = kept ++ [(key, {| LRU.value := v; LRU.size := sz;
                           LRU.lastAccessed := now; LRU.accessCount := 1 |})].
Proof.
  intros Hnd Hsz. unfold LRU.set.
  set (c1 := if JsMap.has key (LRU.cache c) then snd (LRU.delete key c) else c).
  assert (Hc1 : LRU.cache c1 = JsMap.delete key (LRU.cache c)
                /\ LRU.ttl c1 = LRU.ttl c /\ LRU.maxSize c1 = LRU.maxSize c).
  { subst c1. unfold JsMap.has, LRU.delete.
    destruct (JsMap.get key (LRU.cache c)) eqn:Hget; cbn; [auto|].
    split; [|auto]. clear -Hget.
    induction (LRU.cache c) as [|[k0 e0] m IH]; cbn in *; [reflexivity|].
    destruct (String.eqb key k0); [discriminate|]. rewrite <- IH; auto. }
  destruct Hc1 as (Hcache & Httl & Hmax).
  assert (Hnd1 : NoDup (LRU.keys c1) /\ key ∉ LRU.keys c1).
  { unfold LRU.keys. rewrite Hcache. apply NoDup_delete. assumption. }
  destruct Hnd1 as [Hnd1 Hkey].
  unfold LRU.ensureSpace. rewrite Hmax.
  replace (sz >? LRU.maxSize c) with false
    by (symmetry; rewrite Z.gtb_ltb; apply Z.ltb_ge; lia).
  destruct (LRU.evict _ sz (LRU.removeExpired now c1)) as [c2|] eqn:Hev; [|discriminate].
  intros [= <-]. cbn [LRU.cache LRU.with_cache].
  destruct (evict_prefix _ _ _ _ Hev) as [dropped Hdrop].
  exists dropped, (LRU.cache c2). split.
  - rewrite <- Hdrop, cache_removeExpired, Hcache by assumption.
    apply filter_ext. intros [k e]. unfold LRU.expired. rewrite Httl. reflexivity.
  - apply set_absent. intros Hin. apply Hkey.
    assert (Hsub : forall k, k ∈ JsMap.keys (LRU.cache c2)
                             -> k ∈ JsMap.keys (LRU.cache (LRU.removeExpired now c1))).
    { intros k Hk. rewrite Hdrop. unfold JsMap.keys. rewrite map_app, elem_of_app. auto. }
    apply Hsub in Hin. rewrite cache_removeExpired in Hin by assumption.
    unfold LRU.keys, JsMap.keys in *. apply list_elem_of_In in Hin.
    apply in_map_iff in Hin as (kv & <- & Hin). apply filter_In in Hin as [Hin _].
    apply list_elem_of_In. apply in_map_iff. eauto.
Qed.

(** X3.  Eviction follows the recency order: when the keys are
    distinct and none is the empty string, a [set] whose size is within
    [maxSize] returns, having removed the expired entries and then
    dropped entries from the least recent end only.  The entries left are
    a suffix of the unexpired entries (the old entry of [key] apart),
    followed by the new entry as the most recent one. *)
Theorem lru_set_evicts_least_recent_first key (v : T) sz now c :
  NoDup (LRU.keys c) ->
  sz <= LRU.maxSize c ->
  "" ∉ LRU.keys c ->
  exists c' dropped kept,
    LRU.set key v sz now c = Some c'
    /\ List.filter (fun kv => negb (LRU.expired c now (snd kv)))
                   (JsMap.delete key (LRU.cache c))
       = dropped ++ kept
    /\ LRU.cache c'
       = kept ++ [(key, {| LRU.value := v; LRU.size := sz;
                           LRU.lastAccessed := now; LRU.accessCount := 1 |})].
Proof.
  intros Hnd Hsz Hkey.
  destruct (set_total key v sz now c Hkey) as [c' Hset].
  destruct (set_keeps_suffix key v sz now c c' Hnd Hsz Hset) as (dropped & kept & H1 & H2).
  exists c', dropped, kept. auto.
Qed.


(** Every stored entry has been accessed at least once. *)
Lemma counted_delete key c :
  (forall x, x ∈ LRU.cache c -> 1 <= LRU.accessCount (snd x)) ->
  forall x, x ∈ LRU.cache (snd (LRU.delete key c)) -> 1 <= LRU.accessCount (snd x).
Proof. intros H x Hx. apply H. eapply delete_entries. eassumption. Qed.

Lemma counted_step (op : CacheOp T) c c' :
  (forall x, x ∈ LRU.cache c -> 1 <= LRU.accessCount (snd x)) ->
  applyOp op c = Some c' ->
  forall x, x ∈ LRU.cache c' -> 1 <= LRU.accessCount (snd x).
Proof.
  intros H. destruct op as [key v sz now|key now|key now|key|]; cbn.
  - unfold LRU.set.
    set (c1 := if JsMap.has key (LRU.cache c) then snd (LRU.delete key c) else c).
    assert (H1 : forall x, x ∈ LRU.cache c1 -> 1 <= LRU.accessCount (snd x)).
    { subst c1. destruct (JsMap.has key (LRU.cache c)); [apply counted_delete|]; assumption. }
    destruct (LRU.ensureSpace sz now c1) as [c2|] eqn:Hspace; [|discriminate].
    intros [= <-] [k e] Hx. cbn [LRU.cache LRU.with_cache] in Hx.
    apply JsMap_elem_set in Hx as [[= -> ->]|Hx]; [cbn; lia|].
    apply H1. unfold LRU.ensureSpace in Hspace.
    destruct (sz >? LRU.maxSize c1); [injection Hspace as <-; assumption|].
    eapply removeExpired_entries, evict_entries; eassumption.
  - intros [= <-]. unfold LRU.get.
    destruct (JsMap.get key (LRU.cache c)) as [e|] eqn:Hget; [|assumption].
    destruct (LRU.expired c now e); [apply counted_delete; assumption|].
    intros [k e'] Hx. cbn [snd LRU.cache LRU.with_cache] in Hx.
    apply JsMap_elem_set in Hx as [[= -> ->]|Hx].
    + cbn. apply JsMap_get_elem in Hget. apply H in Hget. cbn in Hget. lia.
    + apply H. eapply elem_delete. eassumption.
  - intros [= <-]. unfold LRU.has.
    destruct (JsMap.get key (LRU.cache c)) as [e|]; [|assumption].
    destruct (LRU.expired c now e); [apply counted_delete|]; assumption.
  - intros [= <-]. apply counted_delete. assumption.
  - intros [= <-] x Hx. cbn in Hx. inversion Hx.
Qed.

Lemma counted_run (ops : list (CacheOp T)) :
  forall c c',
    (forall x, x ∈ LRU.cache c -> 1 <= LRU.accessCount (snd x)) ->
    runOps ops c = Some c' ->
    forall x, x ∈ LRU.cache c' -> 1 <= LRU.accessCount (snd x).
Proof.
  induction ops as [|op ops IH]; intros c c' H; cbn.
  - intros [= <-]. assumption.
  - destruct (applyOp op c) as [c1|] eqn:Hop; [|discriminate].
    apply IH. eapply counted_step; eassumption.
Qed.

Lemma totalAccess_ge (es : list (LRU.CacheEntry T)) :
  (forall e, e ∈ es -> 1 <= LRU.accessCount e) ->
  forall acc,
    acc + Z.of_nat (length es)
    <= fold_left (fun total entry => total + LRU.accessCount entry) es acc.
Proof.
  induction es as [|e es IH]; intros H acc; cbn [fold_left length]; [lia|].
  etransitivity; [|apply IH; intros; apply H; apply list_elem_of_further; assumption].
  specialize (H e (list_elem_of_here _ _)). lia.
Qed.

(** X7.  [getStats().hitRate] is the mean access count, not a rate:
    after any sequence of calls on a new cache it equals
    [avgAccessCount], is 0 for an empty cache and at least 1 for any
    other, since every stored entry has been accessed at least once. *)
Theorem lru_hit_rate_is_mean_access_count
        (maxSize maxItems : Z) (ttl : option Z) (ops : list (CacheOp T)) c :
  runOps ops (LRU.new maxSize maxItems ttl) = Some c ->
  LRU.hitRate (LRU.getStats c) = LRU.avgAccessCount (LRU.getStats c)
  /\ (LRU.keys c = [] -> LRU.hitRate (LRU.getStats c) = 0%Q)
  /\ (LRU.keys c <> [] -> (1 <= LRU.hitRate (LRU.getStats c))%Q).
Proof.
  intros Hrun. split; [reflexivity|].
  unfold LRU.getStats, LRU.keys, JsMap.keys, JsMap.size. cbn [LRU.hitRate].
  split.
  - intros Hk. apply map_eq_nil in Hk. rewrite Hk. reflexivity.
  - intros Hk.
    assert (Hlen : 0 < Z.of_nat (length (LRU.cache c))).
    { destruct (LRU.cache c); [contradiction Hk; reflexivity|cbn; lia]. }
    replace (Z.of_nat (length (LRU.cache c)) >? 0) with true
      by (symmetry; rewrite Z.gtb_ltb; apply Z.ltb_lt; lia).
    pose proof (totalAccess_ge (JsMap.values (LRU.cache c))) as Hsum.
    specialize (Hsum ltac:(
      intros e He; unfold JsMap.values in He; apply list_elem_of_fmap in He as (x & -> & Hx);
      revert x Hx; eapply counted_run; [|exact Hrun]; intros x Hx; inversion Hx) 0).
    unfold JsMap.values in Hsum. rewrite length_map in Hsum.
    set (total := fold_left _ _ 0) in *. clearbody total.
    apply Qle_shift_div_l.
    + unfold Qlt. cbn. lia.
    + unfold Qle. cbn. lia.
Qed.

End CacheUse.

Lemma lru_get_after_set_witness :
  fst (LRU.get "a" 5 (LRU.with_cache (LRU.new 100 2 (Some 10))
                        [("a", {| LRU.value := "x"; LRU.size := 60;
                                  LRU.lastAccessed := 0; LRU.accessCount := 1 |})] 60))
  = if 5 - 0 >? LRU.ttl (@LRU.new string 100 2 (Some 10)) then None else Some "x".
Proof.
  apply (lru_get_after_set "a" "x" 60 0 5 (LRU.new 100 2 (Some 10))). reflexivity.
Defined.

Lemma lru_get_moves_entry_to_most_recent_witness :
  let ea := {| LRU.value := "x"; LRU.size := 10; LRU.lastAccessed := 0;
               LRU.accessCount := 1 |} in
  let eb := {| LRU.value := "y"; LRU.size := 20; LRU.lastAccessed := 1;
               LRU.accessCount := 1 |} in
  let c := LRU.with_cache (LRU.new 100 5 (Some 10)) [("a", ea); ("b", eb)] 30 in
  exists before after,
    LRU.cache c = before ++ ("a", ea) :: after
    /\ LRU.get "a" 4 c
       = (Some "x",
          LRU.with_cache c
            (before ++ after
             ++ [("a", {| LRU.value := "x"; LRU.size := 10; LRU.lastAccessed := 4;
                          LRU.accessCount := 1 + 1 |})])
            30).
Proof.
  intros ea eb c.
  apply (lru_get_moves_entry_to_most_recent "a" 4 c ea).
  - cbn. repeat constructor; rewrite ?list_elem_of_singleton, ?elem_of_nil; try tauto.
    discriminate.
  - reflexivity.
  - cbn. lia.
Defined.

Lemma lru_set_evicts_least_recent_first_witness :
  let ea := {| LRU.value := "x"; LRU.size := 60; LRU.lastAccessed := 0;
               LRU.accessCount := 1 |} in
  let eb := {| LRU.value := "y"; LRU.size := 30; LRU.lastAccessed := 1;
               LRU.accessCount := 1 |} in
  let ec := {| LRU.value := "z"; LRU.size := 50; LRU.lastAccessed := 2;
               LRU.accessCount := 1 |} in
  let c := LRU.with_cache (LRU.new 100 5 (Some 10)) [("a", ea); ("b", eb)] 90 in
  LRU.set "c" "z" 50 2 c
  = Some (LRU.with_cache (LRU.new 100 5 (Some 10)) [("b", eb); ("c", ec)] 80)
  /\ exists c' dropped kept,
      LRU.set "c" "z" 50 2 c = Some c'
      /\ List.filter (fun kv => negb (LRU.expired c 2 (snd kv)))
                     (JsMap.delete "c" (LRU.cache c))
         = dropped ++ kept
      /\ LRU.cache c' = kept ++ [("c", ec)].
Proof.
  intros ea eb ec c. split; [reflexivity|].
  apply (lru_set_evicts_least_recent_first "c" "z" 50 2 c).
  - cbn. repeat constructor; rewrite ?list_elem_of_singleton, ?elem_of_nil; try tauto.
    discriminate.
  - cbn. lia.
  - cbn. rewrite !elem_of_cons, elem_of_nil. intros [H|[H|[]]]; discriminate.
Defined.

Lemma lru_hit_rate_is_mean_access_count_witness :
  exists c,
    runOps [OpSet "a" "x" 60 0; OpGet "a" 1; OpGet "a" 2; OpSet "b" "y" 10 3]
           (LRU.new 100 5 None) = Some c
    /\ LRU.hitRate (LRU.getStats c) = LRU.avgAccessCount (LRU.getStats c)
    /\ (LRU.keys c = [] -> LRU.hitRate (LRU.getStats c) = 0%Q)
    /\ (LRU.keys c <> [] -> (1 <= LRU.hitRate (LRU.getStats c))%Q).
Proof.
  eexists. split; [reflexivity|].
  apply (lru_hit_rate_is_mean_access_count 100 5 None
           [OpSet "a" "x" 60 0; OpGet "a" 1; OpGet "a" 2; OpSet "b" "y" 10 3]).
  reflexivity.
Defined.

(** Sample runs of the guarantees proved above for calls within the
    limits. *)

Lemma lru_bounds_hold_without_oversized_sets_witness :
  exists c',
    runOps [OpSet "a" "x" 60 0; OpGet "a" 1; OpSet "b" "y" 50 2; OpDelete "c"; OpHas "b" 3]
           (LRU.new 100 2 None) = Some c'
    /\ wellFormed c' /\ sameLimits (LRU.new 100 2 None) c'.
Proof.
  eexists. split; [reflexivity|].
  eapply (lru_bounds_hold_without_oversized_sets
            [OpSet "a" "x" 60 0; OpGet "a" 1; OpSet "b" "y" 50 2; OpDelete "c"; OpHas "b" 3]
            (LRU.new 100 2 None)).
  - split; [split; [reflexivity|apply NoDup_nil_2]|].
    split; [split; vm_compute; discriminate|apply Forall_nil_2].
  - cbn. lia.
  - repeat constructor; cbn; lia.
  - reflexivity.
Defined.

Lemma lru_set_returns_witness :
  exists c', LRU.set "b" "y" 80 1 (LRU.with_cache (LRU.new 100 2 None)
                                     [("a", {| LRU.value := "x"; LRU.size := 60;
                                               LRU.lastAccessed := 0;
                                               LRU.accessCount := 1 |})] 60) = Some c'.
Proof.
  apply lru_set_returns. cbn. rewrite list_elem_of_singleton. discriminate.
Defined.


(** ** The cache of link lists *)

Section LinkCacheFacts.
Context (jsonByteLength : list string -> Z).
Implicit Types (c : LRU.LRUCache (list string)).

Lemma JsMap_get_app_r {V} (m1 m2 : JsMap.t V) k :
  k ∉ JsMap.keys m1 -> JsMap.get k (m1 ++ m2) = JsMap.get k m2.
Proof.
  unfold JsMap.keys. induction m1 as [|[k0 v0] m1 IH]; cbn; [reflexivity|].
  rewrite not_elem_of_cons. intros [Hk Hin].
  destruct (String.eqb_spec k k0); [contradiction|auto].
Qed.

Lemma JsMap_delete_app_r {V} (m1 m2 : JsMap.t V) k :
  k ∉ JsMap.keys m1 -> JsMap.delete k (m1 ++ m2) = m1 ++ JsMap.delete k m2.
Proof.
  unfold JsMap.keys. induction m1 as [|[k0 v0] m1 IH]; cbn; [reflexivity|].
  rewrite not_elem_of_cons. intros [Hk Hin].
  destruct (String.eqb_spec k k0); [contradiction|]. rewrite IH; auto.
Qed.

Lemma JsMap_delete_absent {V} (m : JsMap.t V) k :
  k ∉ JsMap.keys m -> JsMap.delete k m = m.
Proof.
  unfold JsMap.keys. induction m as [|[k0 v0] m IH]; cbn; [reflexivity|].
  rewrite not_elem_of_cons. intros [Hk Hin].
  destruct (String.eqb_spec k k0); [contradiction|]. rewrite IH; auto.
Qed.

Lemma keys_filter_sub {V} (P : string * V -> bool) (m : JsMap.t V) k :
  k ∈ JsMap.keys (List.filter P m) -> k ∈ JsMap.keys m.
Proof.
  unfold JsMap.keys. intros H. apply list_elem_of_In in H.
  apply in_map_iff in H as (kv & <- & Hin). apply filter_In in Hin as [Hin _].
  apply list_elem_of_In. apply in_map_iff. eauto.
Qed.

Lemma keys_kept path clock ttl m k :
  k ∈ JsMap.keys (keptForwardLists path clock ttl m) -> k ∈ JsMap.keys m.
Proof.
  unfold JsMap.keys, keptForwardLists. intros H. apply list_elem_of_In in H.
  apply in_map_iff in H as (kv & <- & Hin). apply in_flat_map in Hin as (kv0 & Hin0 & Hin).
  destruct (_ && _); [|inversion Hin]. destruct Hin as [<-|[]]. cbn.
  apply list_elem_of_In. apply in_map_iff. eauto.
Qed.

Lemma filter_snoc {A} (P : A -> bool) l x :
  List.filter P (l ++ [x]) = List.filter P l ++ (if P x then [x] else []).
Proof. rewrite List.filter_app. cbn. destruct (P x); reflexivity. Qed.

Lemma kept_snoc path clock ttl m k e :
  keptForwardLists path clock ttl (m ++ [(k, e)])
  = keptForwardLists path clock ttl m
    ++ (if startsWith k "fwd:" && negb (clock k - LRU.lastAccessed e >? ttl)
           && negb (bool_decide (path ∈ LRU.value e))
        then [(k, touched e (clock k))] else []).
Proof.
  unfold keptForwardLists. rewrite flat_map_app. cbn [flat_map fst snd].
  rewrite app_nil_r. reflexivity.
Qed.

Lemma get_present {T} key now (c : LRU.LRUCache T) e :
  JsMap.get key (LRU.cache c) = Some e ->
  LRU.get key now c
  = if LRU.expired c now e then (None, snd (LRU.delete key c))
    else (Some (LRU.value e),
          LRU.with_cache c (JsMap.set key (touched e now) (JsMap.delete key (LRU.cache c)))
                         (LRU.currentSize c)).
Proof. intros H. unfold LRU.get. rewrite H. reflexivity. Qed.

(** The loop of [invalidateFile], from a cache that holds the entries
    already passed ([done]), those to come ([todo]) and the lists kept so
    far. *)
Lemma invalidate_loop path clock :
  forall todo done c,
    NoDup (JsMap.keys (done ++ todo)) ->
    LRU.cache c
    = List.filter (fun kv => negb (startsWith (fst kv) "fwd:")) done
      ++ todo ++ keptForwardLists path clock (LRU.ttl c) done ->
    LRU.cache
      (fold_left
         (fun c' key =>
            if startsWith key "fwd:" then
              match LRU.get key (clock key) c' with
              | (Some links, c'') =>
                  if bool_decide (path ∈ links) then snd (LRU.delete key c'') else c''
              | (None, c'') => c''
              end
            else c')
         (JsMap.keys todo) c)
    = List.filter (fun kv => negb (startsWith (fst kv) "fwd:")) (done ++ todo)
      ++ keptForwardLists path clock (LRU.ttl c) (done ++ todo).
Proof.
  induction todo as [|[k e] todo IH]; intros done c Hnd Hc; cbn [JsMap.keys map fold_left fst].
  - rewrite app_nil_r. exact Hc.
  - assert (Hk1 : k ∉ JsMap.keys
                    (List.filter (fun kv => negb (startsWith (fst kv) "fwd:")) done)).
    { intros H. apply keys_filter_sub in H. unfold JsMap.keys in *. rewrite map_app in Hnd.
      apply NoDup_app in Hnd as (_ & Hdisj & _). apply (Hdisj k H). apply list_elem_of_here. }
    assert (Hk2 : k ∉ JsMap.keys todo).
    { unfold JsMap.keys in *. rewrite map_app in Hnd.
      apply NoDup_app in Hnd as (_ & _ & Hnd). cbn in Hnd. apply NoDup_cons in Hnd. tauto. }
    assert (Hk3 : k ∉ JsMap.keys (keptForwardLists path clock (LRU.ttl c) done)).
    { intros H. apply keys_kept in H. unfold JsMap.keys in *. rewrite map_app in Hnd.
      apply NoDup_app in Hnd as (_ & Hdisj & _). apply (Hdisj k H). apply list_elem_of_here. }
    assert (Hget : JsMap.get k (LRU.cache c) = Some e).
    { rewrite Hc, JsMap_get_app_r by assumption. cbn.
      destruct (String.eqb_spec k k); [reflexivity|congruence]. }
    assert (Hdel : JsMap.delete k (LRU.cache c)
                   = List.filter (fun kv => negb (startsWith (fst kv) "fwd:")) done
                     ++ todo ++ keptForwardLists path clock (LRU.ttl c) done).
    { rewrite Hc, JsMap_delete_app_r by assumption. cbn.
      destruct (String.eqb_spec k k); [reflexivity|congruence]. }
    replace (done ++ (k, e) :: todo) with ((done ++ [(k, e)]) ++ todo) in *
      by (rewrite <- app_assoc; reflexivity).
    destruct (startsWith k "fwd:") eqn:Hfwd.
    + rewrite (get_present _ _ _ _ Hget). unfold LRU.expired.
      destruct (clock k - LRU.lastAccessed e >? LRU.ttl c) eqn:Hexp.
      * (* expired: deleted *)
        rewrite <- (ttl_delete k c). apply IH; [assumption|].
        rewrite cache_delete, Hdel, filter_snoc, kept_snoc. cbn [fst].
        rewrite Hfwd, ttl_delete, Hexp. cbn [negb andb]. rewrite !app_nil_r. reflexivity.
      * destruct (bool_decide (path ∈ LRU.value e)) eqn:Hin.
        -- (* names the file: promoted, then deleted *)
           set (c1 := LRU.with_cache c _ _).
           replace (LRU.ttl c) with (LRU.ttl (snd (LRU.delete k c1)))
             by (rewrite ttl_delete; reflexivity).
           apply IH; [assumption|].
           rewrite cache_delete. subst c1. cbn [LRU.cache LRU.with_cache].
           rewrite Hdel, set_absent.
           2:{ unfold JsMap.keys. rewrite !map_app, !elem_of_app. tauto. }
           rewrite <- !app_assoc.
           rewrite JsMap_delete_app_r by assumption.
           rewrite JsMap_delete_app_r by assumption.
           rewrite JsMap_delete_app_r by assumption.
           cbn [JsMap.delete]. destruct (String.eqb_spec k k); [|congruence].
           rewrite filter_snoc, kept_snoc. cbn [fst].
           rewrite Hfwd, ttl_delete. cbn [LRU.ttl LRU.with_cache].
           rewrite Hexp, Hin. cbn [negb andb]. rewrite !app_nil_r. reflexivity.
        -- set (c1 := LRU.with_cache c _ _).
           replace (LRU.ttl c) with (LRU.ttl c1) by reflexivity.
           apply IH; [assumption|].
           subst c1. cbn [LRU.cache LRU.with_cache LRU.ttl].
           rewrite Hdel, set_absent.
           2:{ unfold JsMap.keys. rewrite !map_app, !elem_of_app. tauto. }
           rewrite filter_snoc, kept_snoc. cbn [fst].
           rewrite Hfwd, Hexp, Hin. cbn [negb andb].
           rewrite !app_nil_r, <- !app_assoc. reflexivity.
    + apply IH; [assumption|]. rewrite Hc.
      rewrite filter_snoc, kept_snoc. cbn [fst].
      rewrite Hfwd. cbn [negb andb].
      rewrite app_nil_r, <- !app_assoc. reflexivity.
Qed.


Lemma invalidateFile_cache path clock c :
  NoDup (LRU.keys c) ->
  let m := JsMap.delete ("fwd:" ++ path) (JsMap.delete ("back:" ++ path) (LRU.cache c)) in
  LRU.cache (LinkCache.invalidateFile path clock c)
  = List.filter (fun kv => negb (startsWith (fst kv) "fwd:")) m
    ++ keptForwardLists path clock (LRU.ttl c) m.
Proof.
  intros Hnd m. unfold LinkCache.invalidateFile.
  set (c2 := snd (LRU.delete ("fwd:" ++ path) (snd (LRU.delete ("back:" ++ path) c)))).
  assert (Hm : LRU.cache c2 = m) by (subst c2 m; rewrite !cache_delete; reflexivity).
  assert (Httl : LRU.ttl c2 = LRU.ttl c) by (subst c2; rewrite !ttl_delete; reflexivity).
  rewrite <- Httl. unfold LRU.keys. rewrite Hm.
  apply (invalidate_loop path clock m [] c2).
  - cbn [app]. subst m. apply NoDup_delete, NoDup_delete. exact Hnd.
  - cbn. rewrite app_nil_r. exact Hm.
Qed.

(** X8.  [LinkCache.invalidateFile(path)] leaves the entries whose
    key is neither a forward key nor [back:path] as they were and in
    their order, and behind them the forward lists it keeps: none of them
    is the list of [path] or names [path], and each has been touched by
    the lookup, so every kept forward list is now more recent than every
    other entry. *)
Theorem link_cache_invalidate_file path clock c :
  NoDup (LRU.keys c) ->
  exists forwards,
    LRU.cache (LinkCache.invalidateFile path clock c)
    = List.filter
        (fun kv : string * LRU.CacheEntry (list string) =>
           negb (startsWith (fst kv) "fwd:")
           && negb (String.eqb (fst kv) ("back:" ++ path)))
        (LRU.cache c)
      ++ forwards
    /\ Forall
         (fun kv : string * LRU.CacheEntry (list string) =>
            startsWith (fst kv) "fwd:" = true
            /\ fst kv <> ("fwd:" ++ path)%string
            /\ (path ∉ LRU.value (snd kv))
            /\ LRU.lastAccessed (snd kv) = clock (fst kv))
         forwards.
Proof.
  intros Hnd. rewrite invalidateFile_cache by assumption.
  set (m1 := JsMap.delete ("back:" ++ path) (LRU.cache c)).
  assert (Hnd1 : NoDup (JsMap.keys m1)) by (apply NoDup_delete; exact Hnd).
  destruct (NoDup_delete _ ("fwd:" ++ path) Hnd1) as [Hnd2 Hgone].
  exists (keptForwardLists path clock (LRU.ttl c) (JsMap.delete ("fwd:" ++ path) m1)).
  split.
  - f_equal. rewrite (JsMap_delete_filter _ _ Hnd1). subst m1.
    rewrite (JsMap_delete_filter _ _ Hnd). clear Hgone Hnd2 Hnd1 Hnd.
    induction (LRU.cache c) as [|[k e] m IH]; [reflexivity|].
    cbn [List.filter fst].
    destruct (String.eqb_spec k ("back:" ++ path)) as [->|Hback];
      cbn [negb andb List.filter fst].
    + rewrite IH. replace (startsWith ("back:" ++ path) "fwd:") with false by reflexivity.
      reflexivity.
    + destruct (String.eqb_spec k ("fwd:" ++ path)) as [->|Hfwd];
        cbn [negb andb List.filter fst].
      * rewrite IH.
        replace (startsWith ("fwd:" ++ path) "fwd:") with true
          by (unfold startsWith; cbv [String.append]; cbn; destruct path; reflexivity).
        reflexivity.
      * rewrite IH. rewrite andb_true_r. reflexivity.
  - apply Forall_forall. intros [k e'] Hin. apply list_elem_of_In in Hin.
    unfold keptForwardLists in Hin. apply in_flat_map in Hin as ([k0 e] & Hin0 & Hin).
    cbn [fst snd] in Hin.
    destruct (startsWith k0 "fwd:") eqn:Hfwd; [|inversion Hin].
    destruct (clock k0 - LRU.lastAccessed e >? LRU.ttl c); [inversion Hin|].
    destruct (bool_decide_reflect (path ∈ LRU.value e)) as [|Hpath]; [inversion Hin|].
    destruct Hin as [[= <- <-]|[]]. cbn. repeat split; try assumption.
    intros ->. apply Hgone. apply list_elem_of_In. apply in_map_iff.
    exists (("fwd:" ++ path)%string, e). auto.
Qed.

End LinkCacheFacts.

Lemma link_cache_invalidate_file_witness :
  let entry links t := {| LRU.value := links; LRU.size := 10; LRU.lastAccessed := t;
                          LRU.accessCount := 1 |} in
  let c := LRU.with_cache (LinkCache.new 10)
             [("fwd:a.md", entry ["b.md"] 0); ("back:b.md", entry ["a.md"] 0);
              ("fwd:c.md", entry ["d.md"] 0); ("back:d.md", entry ["c.md"] 0)] 40 in
  exists forwards,
    LRU.cache (LinkCache.invalidateFile "b.md" (fun _ => 5) c)
    = List.filter
        (fun kv : string * LRU.CacheEntry (list string) =>
           negb (startsWith (fst kv) "fwd:")
           && negb (String.eqb (fst kv) ("back:" ++ "b.md")))
        (LRU.cache c)
      ++ forwards
    /\ Forall
         (fun kv : string * LRU.CacheEntry (list string) =>
            startsWith (fst kv) "fwd:" = true
            /\ fst kv <> ("fwd:" ++ "b.md")%string
            /\ ("b.md" ∉ LRU.value (snd kv))
            /\ LRU.lastAccessed (snd kv) = 5)
         forwards.
Proof.
  intros entry c. apply (link_cache_invalidate_file "b.md" (fun _ => 5) c).
  cbn. repeat constructor;
    rewrite ?elem_of_cons, ?elem_of_nil; intuition discriminate.
Defined.

(** ** The search kept in the link parser, on the sample vault *)

Lemma LinkParser_findShortestPath_contract_witness :
  exists fuel0, forall fuel, (fuel0 <= fuel)%nat ->
    exists r st',
      LinkParser.findShortestPath Sample.chain Sample.parser Sample.flatPath
        fuel "A.md" "C.md" LinkParser.init = Some (Ok r, st')
      /\ LinkParser.linkCache st'
         = forwardGraph Sample.chain Sample.parser Sample.flatPath
      /\ ("A.md" = "C.md" -> r = Some ["A.md"])
      /\ match r with
         | Some p =>
             trail (forwardGraph Sample.chain Sample.parser Sample.flatPath) "A.md" p "C.md"
             /\ forall p',
                 trail (forwardGraph Sample.chain Sample.parser Sample.flatPath)
                       "A.md" p' "C.md" ->
                 (length p <= length p')%nat
         | None =>
             forall p,
               ~ trail (forwardGraph Sample.chain Sample.parser Sample.flatPath)
                       "A.md" p "C.md"
         end.
Proof.
  apply (LinkParser_findShortestPath_contract Sample.chain Sample.parser Sample.flatPath).
  - repeat constructor; eexists; reflexivity.
  - left. reflexivity.
Defined.

(** ** Link resolution *)

Lemma length_append (s t : string) :
  String.length (s ++ t) = (String.length s + String.length t)%nat.
Proof.
  induction s as [|c s IH]; [reflexivity|].
  change (String c s ++ t)%string with (String c (s ++ t)%string). cbn. f_equal. exact IH.
Qed.

Lemma substring_append (s t : string) k :
  substring (String.length s) k (s ++ t) = substring 0 k t.
Proof.
  induction s as [|c s IH]; [reflexivity|].
  change (String c s ++ t)%string with (String c (s ++ t)%string). cbn. exact IH.
Qed.

Lemma endsWith_append (s suffix : string) : endsWith (s ++ suffix) suffix = true.
Proof.
  unfold endsWith. rewrite length_append.
  replace (String.length s + String.length suffix - String.length suffix)%nat
    with (String.length s) by lia.
  rewrite substring_append.
  apply andb_true_intro. split; [apply Nat.leb_le; lia|].
  apply String.eqb_eq. clear. induction suffix as [|c t IH]; cbn; [reflexivity|].
  f_equal. exact IH.
Qed.

Section Resolve.
Context (np : PathModule).

Lemma resolveLink_markdown_file (link fromFile : string) :
  endsWith (LinkParser.resolveLink np link fromFile) ".md" = true
  /\ LinkParser.resolveLink np link fromFile <> ""
  /\ FileUtils.ensureMarkdownExtension (LinkParser.resolveLink np link fromFile)
     = LinkParser.resolveLink np link fromFile.
Proof.
  assert (H : endsWith (LinkParser.resolveLink np link fromFile) ".md" = true).
  { unfold LinkParser.resolveLink.
    repeat match goal with |- context [if ?b then _ else _] => destruct b end;
      apply endsWith_append. }
  split; [exact H|]. split.
  - intros Heq. rewrite Heq in H. discriminate.
  - unfold FileUtils.ensureMarkdownExtension. rewrite H. reflexivity.
Qed.


(** X9.  [resolveLink] never returns [null] or an empty path: whatever
    the link, the document it is found in and the path library, the
    result ends with [.md], so [ensureMarkdownExtension] leaves it as it
    is and the test [targetPath &&] of its callers never fails. *)
Theorem resolveLink_always_names_a_markdown_file (link fromFile : string) :
  endsWith (LinkParser.resolveLink np link fromFile) ".md" = true
  /\ LinkParser.resolveLink np link fromFile <> ""
  /\ FileUtils.ensureMarkdownExtension (LinkParser.resolveLink np link fromFile)
     = LinkParser.resolveLink np link fromFile.
Proof. apply resolveLink_markdown_file. Qed.
End Resolve.

(** ** The link graph *)

Section MapFacts.
Context {V : Type}.
Implicit Types (m : JsMap.t V) (k : string) (v : V).

Lemma JsMap_set_NoDup m k v :
  NoDup (JsMap.keys m) -> NoDup (JsMap.keys (JsMap.set k v m)).
Proof.
  unfold JsMap.keys. induction m as [|[k0 v0] m IH]; cbn.
  - intros _. repeat constructor. apply not_elem_of_nil.
  - intros Hnd. apply NoDup_cons in Hnd as [Hk0 Hnd].
    destruct (String.eqb_spec k k0) as [->|Hk]; cbn.
    + apply NoDup_cons. auto.
    + apply NoDup_cons. split; [|auto].
      intros Hin. apply (JsMap_keys_set m k v k0) in Hin as [Heq|Hin]; [congruence|].
      contradiction.
Qed.

Lemma JsMap_elem_get m k v :
  NoDup (JsMap.keys m) -> (k, v) ∈ m -> JsMap.get k m = Some v.
Proof.
  unfold JsMap.keys. induction m as [|[k0 v0] m IH]; cbn.
  - intros _ H. inversion H.
  - intros Hnd Hin. apply NoDup_cons in Hnd as [Hk0 Hnd].
    apply elem_of_cons in Hin as [[= -> ->]|Hin].
    + destruct (String.eqb_spec k0 k0); [reflexivity|congruence].
    + destruct (String.eqb_spec k k0) as [->|Hk]; [|auto].
      exfalso. apply Hk0. apply list_elem_of_fmap. exists (k0, v). auto.
Qed.

Lemma JsMap_get_None m k : JsMap.get k m = None <-> k ∉ JsMap.keys m.
Proof.
  unfold JsMap.keys. induction m as [|[k0 v0] m IH]; cbn.
  - split; [intros _; apply not_elem_of_nil|reflexivity].
  - rewrite not_elem_of_cons. destruct (String.eqb_spec k k0) as [->|Hk].
    + split; [discriminate|]. intros [H _]. congruence.
    + rewrite IH. tauto.
Qed.


End MapFacts.

(** The second pass inverts the forward sets. *)
Lemma secondPass_targets src :
  forall targets bl,
    (forall t, src ∉ default [] (JsMap.get t bl)) ->
    let bl' :=
      fold_left
        (fun bl tgt =>
           let bl1 := if JsMap.has tgt bl then bl else JsMap.set tgt JsSet.empty bl in
           JsMap.set tgt (JsSet.add src (default JsSet.empty (JsMap.get tgt bl1))) bl1)
        targets bl in
    forall t, default [] (JsMap.get t bl')
              = default [] (JsMap.get t bl)
                ++ (if bool_decide (t ∈ targets) then [src] else []).
Proof.
  assert (Hstep : forall bl tgt t,
    default [] (JsMap.get t
      (let bl1 := if JsMap.has tgt bl then bl else JsMap.set tgt JsSet.empty bl in
       JsMap.set tgt (JsSet.add src (default JsSet.empty (JsMap.get tgt bl1))) bl1))
    = if String.eqb t tgt then JsSet.add src (default [] (JsMap.get t bl))
      else default [] (JsMap.get t bl)).
  { intros bl tgt t. cbv zeta. rewrite JsMap_get_set.
    unfold JsMap.has. destruct (String.eqb_spec t tgt) as [->|Ht].
    - cbn. destruct (JsMap.get tgt bl) eqn:Hget; [rewrite Hget; reflexivity|].
      rewrite JsMap_get_set. destruct (String.eqb_spec tgt tgt); [|congruence].
      reflexivity.
    - destruct (JsMap.get tgt bl) eqn:Hget; [reflexivity|].
      rewrite JsMap_get_set. destruct (String.eqb_spec t tgt); [congruence|reflexivity]. }
  intros targets. induction targets as [|tgt targets IH] using rev_ind; intros bl Hsrc bl' t.
  - subst bl'. cbn. rewrite app_nil_r. reflexivity.
  - subst bl'. rewrite fold_left_app. cbn [fold_left]. rewrite Hstep.
    specialize (IH bl Hsrc). cbv zeta in IH. rewrite IH.
    destruct (String.eqb_spec t tgt) as [->|Ht].
    + rewrite (bool_decide_eq_true_2 (tgt ∈ targets ++ [tgt]))
        by (rewrite elem_of_app, list_elem_of_singleton; auto).
      unfold JsSet.add.
      pose proof (Hsrc tgt) as Hnot.
      destruct (bool_decide_reflect (tgt ∈ targets)) as [Hin|Hin].
      * rewrite decide_True; [reflexivity|].
        rewrite elem_of_app, list_elem_of_singleton. auto.
      * rewrite app_nil_r. rewrite decide_False by assumption. reflexivity.
    + f_equal. destruct (bool_decide_reflect (t ∈ targets)) as [Hin|Hin].
      * rewrite bool_decide_eq_true_2; [reflexivity|]. rewrite elem_of_app. auto.
      * rewrite bool_decide_eq_false_2; [reflexivity|].
        rewrite elem_of_app, list_elem_of_singleton. tauto.
Qed.

Lemma sourcesOf_keys lc t s : s ∈ sourcesOf lc t -> s ∈ JsMap.keys lc.
Proof.
  unfold sourcesOf, JsMap.keys. intros H. apply list_elem_of_fmap in H as (e & -> & He).
  apply list_elem_of_In, filter_In in He as [He _]. apply list_elem_of_fmap.
  exists e. split; [reflexivity|]. apply list_elem_of_In. exact He.
Qed.

Lemma secondPass_sources lc :
  NoDup (JsMap.keys lc) ->
  forall t, default [] (JsMap.get t (LinkParser.secondPass lc)) = sourcesOf lc t.
Proof.
  unfold LinkParser.secondPass.
  induction lc as [|[src targets] lc IH] using rev_ind; intros Hnd t; [reflexivity|].
  unfold JsMap.keys in Hnd. rewrite map_app in Hnd. cbn in Hnd.
  apply NoDup_app in Hnd as (Hnd & Hsrc & _).
  rewrite fold_left_app. cbn [fold_left].
  rewrite secondPass_targets.
  - rewrite IH by assumption. unfold sourcesOf. rewrite List.filter_app, map_app.
    cbn [List.filter snd].
    repeat match goal with
           | |- context [bool_decide ?P] => destruct (bool_decide_reflect P)
           end; try reflexivity; contradiction.
  - intros t' Hin. rewrite IH in Hin by assumption.
    apply sourcesOf_keys in Hin. apply (Hsrc src Hin). apply list_elem_of_here.
Qed.

Lemma sourcesOf_spec lc t s :
  NoDup (JsMap.keys lc) ->
  s ∈ sourcesOf lc t <-> t ∈ default [] (JsMap.get s lc).
Proof.
  intros Hnd. unfold sourcesOf. rewrite list_elem_of_fmap. split.
  - intros ([s' T] & -> & He). apply list_elem_of_In, filter_In in He as [He Ht].
    cbn in *. apply bool_decide_eq_true_1 in Ht.
    rewrite (JsMap_elem_get lc s' T Hnd); [exact Ht|]. apply list_elem_of_In. exact He.
  - intros Ht. destruct (JsMap.get s lc) as [T|] eqn:Hget; [|inversion Ht].
    exists (s, T). split; [reflexivity|]. apply list_elem_of_In, filter_In.
    split; [apply list_elem_of_In, JsMap_get_elem; exact Hget|].
    apply bool_decide_eq_true_2. exact Ht.
Qed.

Section Gather.
Context {Yaml : Type}.
Context (fs : FileUtils.t) (parser : Parser.ObsidianParser Yaml) (np : PathModule).
Import LinkParser.

Lemma JsMap_keys_set_eq {V W} (m1 : JsMap.t V) (m2 : JsMap.t W) k v w :
  JsMap.keys m1 = JsMap.keys m2 ->
  JsMap.keys (JsMap.set k v m1) = JsMap.keys (JsMap.set k w m2).
Proof.
  unfold JsMap.keys. revert m2.
  induction m1 as [|[k1 v1] m1 IH]; intros [|[k2 v2] m2]; cbn; try discriminate; [reflexivity|].
  intros [= <- Hrest]. destruct (String.eqb k k1); cbn; [congruence|].
  f_equal. apply IH. exact Hrest.
Qed.

(** The inner loop of the first pass: the edges it adds start at the
    document and end in its forward set, and every member of the forward
    set has an edge. *)
Lemma processLinks_edges file found :
  (forall e, e ∈ snd (processLinks np file found) ->
             source e = file /\ target e ∈ fst (processLinks np file found))
  /\ (forall t, t ∈ fst (processLinks np file found) ->
                exists ty, {| source := file; target := t; type := ty |}
                           ∈ snd (processLinks np file found)).
Proof.
  unfold processLinks.
  set (step := fun (acc : JsSet.t * list GraphEdge) (link : Parser.NoteLink) => _).
  assert (H : forall found acc,
    ((forall e, e ∈ snd acc -> source e = file /\ target e ∈ fst acc)
     /\ (forall t, t ∈ fst acc ->
                   exists ty, {| source := file; target := t; type := ty |} ∈ snd acc)) ->
    (forall e, e ∈ snd (fold_left step found acc) ->
               source e = file /\ target e ∈ fst (fold_left step found acc))
    /\ (forall t, t ∈ fst (fold_left step found acc) ->
                  exists ty, {| source := file; target := t; type := ty |}
                             ∈ snd (fold_left step found acc))).
  { clear found. intros found. induction found as [|link found IH]; intros acc Hacc; [exact Hacc|].
    cbn [fold_left]. apply IH. destruct Hacc as [H1 H2].
    assert (Hadd : forall ty,
      let acc' := (JsSet.add (resolveLink np (Parser.target link) file) (fst acc),
                   snd acc ++ [{| source := file;
                                  target := resolveLink np (Parser.target link) file;
                                  type := ty |}]) in
      (forall e, e ∈ snd acc' -> source e = file /\ target e ∈ fst acc')
      /\ (forall t, t ∈ fst acc' ->
                    exists ty, {| source := file; target := t; type := ty |} ∈ snd acc')).
    { intros ty acc'. subst acc'. cbn [fst snd]. split.
      - intros e He. apply elem_of_app in He as [He|He].
        + destruct (H1 e He) as [Hs Ht]. split; [exact Hs|].
          apply JsSet_add_elem. auto.
        + apply list_elem_of_singleton in He as ->. cbn. split; [reflexivity|].
          apply JsSet_add_elem. auto.
      - intros t Ht. apply JsSet_add_elem in Ht as [->|Ht].
        + exists ty. apply elem_of_app. right. apply list_elem_of_here.
        + destruct (H2 t Ht) as [ty' Hty]. exists ty'. apply elem_of_app. auto. }
    subst step. cbn beta.
    destruct (Parser.type link); try (split; assumption);
      destruct (negb _ && negb _); try (split; assumption); apply Hadd. }
  apply H. cbn. split; [intros e He; inversion He|intros t Ht; inversion Ht].
Qed.

Lemma gathered_step file note acc :
  readNote fs parser file = Ok note ->
  gathered fs parser np acc ->
  let found := n_links note in
  gathered fs parser np
    {| p_linkCache := JsMap.set file (fst (processLinks np file found)) (p_linkCache acc);
       p_nodes :=
         JsMap.set file
           {| id := file; path := file;
              title := Parser.op_getNoteTitle parser (n_frontmatter note) file;
              links := JsSet.size (fst (processLinks np file found));
              backlinks := 0;
              tags := n_tags note |}
           (p_nodes acc);
       p_edges := p_edges acc ++ snd (processLinks np file found) |}.
Proof.
  intros Hnote (Hnd & Hkeys & Hout & Hnodes & Hedges) found.
  destruct (readNote_ok fs parser file note Hnote) as [Hread Hlinks].
  assert (Hfile : fst (processLinks np file found) = outgoing fs parser np file).
  { unfold outgoing, found. rewrite Hread, Hlinks. reflexivity. }
  destruct (processLinks_edges file found) as [He1 He2].
  set (out := fst (processLinks np file found)) in *.
  assert (Hold : forall k, k ∈ JsMap.keys (p_linkCache acc) ->
                           JsMap.get k (p_linkCache acc) = Some (outgoing fs parser np k)).
  { intros k Hk. destruct (JsMap.get k (p_linkCache acc)) as [S|] eqn:Hget.
    - f_equal. apply Hout. exact Hget.
    - apply JsMap_get_None in Hget. contradiction. }
  unfold gathered. cbn [p_linkCache p_nodes p_edges].
  split; [apply JsMap_set_NoDup; exact Hnd|].
  split; [apply JsMap_keys_set_eq; exact Hkeys|].
  split.
  { intros k S. rewrite JsMap_get_set. destruct (String.eqb_spec k file) as [->|Hk].
    - intros [= <-]. exact Hfile.
    - apply Hout. }
  split.
  { intros k n Hin. rewrite JsMap_get_set.
    apply JsMap_elem_set in Hin as [[= -> ->]|Hin].
    - cbn. destruct (String.eqb_spec file file); [|congruence]. auto.
    - destruct (Hnodes k n Hin) as (Hp & Hl & Hb). split; [exact Hp|]. split; [|exact Hb].
      destruct (String.eqb_spec k file) as [->|Hk]; [|exact Hl].
      rewrite Hl, Hold, Hfile; [reflexivity|].
      rewrite <- Hkeys. unfold JsMap.keys. apply list_elem_of_fmap. exists (file, n). auto. }
  intros s t. rewrite JsMap_get_set. split.
  - intros [ty Hin]. apply elem_of_app in Hin as [Hin|Hin].
    + assert (Hst : t ∈ default [] (JsMap.get s (p_linkCache acc)))
        by (apply Hedges; eauto).
      destruct (String.eqb_spec s file) as [->|Hs]; [|exact Hst].
      destruct (JsMap.get file (p_linkCache acc)) as [S|] eqn:Hget; [|inversion Hst].
      cbn in *. rewrite (Hout _ _ Hget) in Hst. rewrite Hfile. exact Hst.
    + destruct (He1 _ Hin) as [Hs Ht]. cbn in Hs, Ht. subst s.
      destruct (String.eqb_spec file file); [|congruence]. exact Ht.
  - destruct (String.eqb_spec s file) as [->|Hs].
    + intros Ht. destruct (He2 t Ht) as [ty Hty]. exists ty. apply elem_of_app. auto.
    + intros Ht. apply Hedges in Ht as [ty Hty]. exists ty. apply elem_of_app. auto.
Qed.

Lemma firstPass_gathered files :
  forall acc p lc,
    gathered fs parser np acc ->
    firstPass fs parser np files acc = (Ok p, lc) ->
    gathered fs parser np p /\ lc = p_linkCache p.
Proof.
  induction files as [|file files IH]; intros acc p lc Hacc; cbn [firstPass].
  - intros [= <- <-]. auto.
  - destruct (readNote fs parser file) as [note|e] eqn:Hread; [|discriminate].
    destruct (processLinks np file (n_links note)) as [out newEdges] eqn:Hp.
    apply IH. pose proof (gathered_step file note acc Hread Hacc) as H.
    cbv zeta in H. rewrite Hp in H. exact H.
Qed.


Lemma gathered_empty :
  gathered fs parser np
    {| p_linkCache := JsMap.empty; p_nodes := JsMap.empty; p_edges := [] |}.
Proof.
  unfold gathered. cbn. split; [apply NoDup_nil_2|]. split; [reflexivity|].
  split; [discriminate|]. split; [intros k n H; inversion H|].
  intros s t. split; [intros [ty H]; inversion H|intros H; inversion H].
Qed.

(** What a finished build returns and leaves, in terms of the first
    pass. *)
Lemma buildLinkGraph_ok st g st' :
  buildLinkGraph fs parser np st = (Ok g, st') ->
  exists p,
    gathered fs parser np p
    /\ linkCache st' = p_linkCache p
    /\ backlinkCache st' = secondPass (p_linkCache p)
    /\ nodes g = JsMap.values (updateBacklinkCounts (secondPass (p_linkCache p)) (p_nodes p))
    /\ edges g = p_edges p.
Proof.
  unfold buildLinkGraph.
  destruct (firstPass _ _ _ _ _) as [[p|e] lc] eqn:Hpass; [|discriminate].
  intros [= <- <-]. cbn.
  destruct (firstPass_gathered _ _ _ _ gathered_empty Hpass) as [Hg ->].
  exists p. auto.
Qed.


End Gather.

Section Graph.
Context {Yaml : Type}.
Context (fs : FileUtils.t) (parser : Parser.ObsidianParser Yaml) (np : PathModule).
Import LinkParser.

Lemma buildLinkGraph_again st st' :
  buildLinkGraph fs parser np st' = buildLinkGraph fs parser np st.
Proof. reflexivity. Qed.

Lemma JsMap_set_present (ns : JsMap.t GraphNode) f node node' :
  NoDup (JsMap.keys ns) ->
  JsMap.get f ns = Some node ->
  JsMap.set f node' ns
  = map (fun kn : string * GraphNode =>
           if String.eqb (fst kn) f then (f, node') else kn) ns.
Proof.
  unfold JsMap.keys. induction ns as [|[k0 n0] ns IH]; cbn; [discriminate|].
  intros Hnd Hget. apply NoDup_cons in Hnd as [Hk0 Hnd].
  rewrite (String.eqb_sym k0 f).
  destruct (String.eqb_spec f k0) as [->|Hk].
  - f_equal. symmetry. rewrite <- (map_id ns) at 2. apply map_ext_in.
    intros [k n] Hin. cbn. destruct (String.eqb_spec k k0) as [->|]; [|reflexivity].
    exfalso. apply Hk0. apply list_elem_of_fmap. exists (k0, n).
    split; [reflexivity|]. apply list_elem_of_In. exact Hin.
  - f_equal. apply IH; assumption.
Qed.

(** The backlink counts, node by node. *)
Lemma updateBacklinkCounts_nodes bl :
  forall ns,
    NoDup (JsMap.keys bl) -> NoDup (JsMap.keys ns) ->
    updateBacklinkCounts bl ns
    = map (fun kn : string * GraphNode =>
             (fst kn,
              match JsMap.get (fst kn) bl with
              | Some backs =>
                  {| id := id (snd kn); path := path (snd kn); title := title (snd kn);
                     links := links (snd kn); backlinks := JsSet.size backs;
                     tags := tags (snd kn) |}
              | None => snd kn
              end)) ns.
Proof.
  unfold updateBacklinkCounts.
  induction bl as [|[f b] bl IH]; intros ns Hbl Hns; cbn [fold_left].
  - cbn. rewrite <- (map_id ns) at 1. apply map_ext. intros [k n]. reflexivity.
  - unfold JsMap.keys in Hbl. cbn in Hbl. apply NoDup_cons in Hbl as [Hf Hbl].
    destruct (JsMap.get f ns) as [node|] eqn:Hget.
    + rewrite IH; [|exact Hbl|apply JsMap_set_NoDup; exact Hns].
      rewrite (JsMap_set_present ns f node _ Hns Hget), map_map.
      apply map_ext_in. intros [k n] Hin. cbn [fst snd JsMap.get].
      destruct (String.eqb_spec k f) as [->|Hk]; cbn [fst snd].
      * assert (n = node) as ->.
        { apply list_elem_of_In, (JsMap_elem_get ns f n Hns) in Hin. congruence. }
        replace (JsMap.get f bl) with (@None JsSet.t); [reflexivity|].
        symmetry. apply JsMap_get_None. exact Hf.
      * reflexivity.
    + rewrite IH by assumption. apply map_ext_in. intros [k n] Hin. cbn [fst snd JsMap.get].
      destruct (String.eqb_spec k f) as [->|Hk]; [|reflexivity].
      apply list_elem_of_In, (JsMap_elem_get ns f n Hns) in Hin. congruence.
Qed.

Lemma secondPass_NoDup lc : NoDup (JsMap.keys (secondPass lc)).
Proof.
  unfold secondPass.
  assert (H : forall lc bl, NoDup (JsMap.keys bl) ->
    NoDup (JsMap.keys (fold_left
      (fun bl (entry : string * JsSet.t) =>
         let '(src, targets) := entry in
         fold_left
           (fun bl tgt =>
              let bl1 := if JsMap.has tgt bl then bl else JsMap.set tgt JsSet.empty bl in
              JsMap.set tgt (JsSet.add src (default JsSet.empty (JsMap.get tgt bl1))) bl1)
           targets bl)
      lc bl))).
  { clear lc. intros lc. induction lc as [|[src targets] lc IH]; intros bl Hbl; [exact Hbl|].
    cbn [fold_left]. apply IH. clear IH. revert bl Hbl.
    induction targets as [|tgt targets IH]; intros bl Hbl; [exact Hbl|].
    cbn [fold_left]. apply IH. apply JsMap_set_NoDup.
    destruct (JsMap.has tgt bl); [exact Hbl|apply JsMap_set_NoDup; exact Hbl]. }
  apply H. apply NoDup_nil_2.
Qed.

(** X10.  Once a build has succeeded, backlinks and forward links
    are inverse to each other: [getBacklinks(t)] and [getForwardLinks(s)]
    both return without rebuilding anything different, and [s] is among
    the backlinks of [t] exactly when [t] is among the forward links of
    [s]. *)
Theorem backlinks_invert_forward_links st g st' s t :
  buildLinkGraph fs parser np st = (Ok g, st') ->
  exists sources targets,
    getBacklinks fs parser np t st' = (Ok sources, st')
    /\ getForwardLinks fs parser np s st' = (Ok targets, st')
    /\ (s ∈ sources <-> t ∈ targets).
Proof.
  intros Hbuild.
  destruct (buildLinkGraph_ok fs parser np st g st' Hbuild)
    as (p & (Hnd & _) & Hlc & Hbl & _).
  exists (default [] (JsMap.get t (backlinkCache st'))),
         (default [] (JsMap.get s (linkCache st'))).
  split; [|split].
  - unfold getBacklinks. destruct (JsMap.size (backlinkCache st') =? 0)%nat; [|reflexivity].
    rewrite (buildLinkGraph_again st st'), Hbuild. reflexivity.
  - unfold getForwardLinks, ensureBuilt.
    destruct (JsMap.size (linkCache st') =? 0)%nat; [|reflexivity].
    rewrite (buildLinkGraph_again st st'), Hbuild. reflexivity.
  - rewrite Hbl, Hlc, secondPass_sources by exact Hnd. apply sourcesOf_spec. exact Hnd.
Qed.

(** X11.  The edges of the graph a build returns are the links it
    stores: there is an edge from [s] to [t] exactly when [t] is a
    forward link of [s], and no edge joins a document to itself. *)
Theorem graph_edges_are_the_forward_links st g st' :
  buildLinkGraph fs parser np st = (Ok g, st') ->
  (forall s t,
      (exists ty, {| source := s; target := t; type := ty |} ∈ edges g)
      <-> t ∈ default [] (JsMap.get s (linkCache st')))
  /\ (forall e, e ∈ edges g -> source e <> target e).
Proof.
  intros Hbuild.
  destruct (buildLinkGraph_ok fs parser np st g st' Hbuild)
    as (p & (Hnd & _ & _ & _ & Hedges) & Hlc & _ & _ & He).
  rewrite He, Hlc. split; [exact Hedges|].
  intros [s t ty] Hin Heq. cbn in Heq. subst t.
  assert (Hst : s ∈ default [] (JsMap.get s (p_linkCache p))) by (apply Hedges; eauto).
  destruct (JsMap.get s (p_linkCache p)) as [S|] eqn:Hget; [|inversion Hst].
  pose proof (buildLinkGraph_selfFree fs parser np st) as Hself.
  rewrite Hbuild in Hself. cbn in Hself. rewrite Hlc in Hself.
  exact (Hself s S Hget Hst).
Qed.

Lemma firstPass_keys files :
  forall acc p lc,
    firstPass fs parser np files acc = (Ok p, lc) ->
    forall f, f ∈ JsMap.keys (p_linkCache p)
              <-> f ∈ files \/ f ∈ JsMap.keys (p_linkCache acc).
Proof.
  induction files as [|file files IH]; intros acc p lc; cbn [firstPass].
  - intros [= <- <-] f. rewrite elem_of_nil. tauto.
  - destruct (readNote fs parser file) as [note|e]; [|discriminate].
    destruct (processLinks np file _) as [out newEdges].
    intros H f. rewrite (IH _ _ _ H f). cbn [p_linkCache].
    rewrite JsMap_keys_set, elem_of_cons. tauto.
Qed.

Lemma map_filter_commute {A B} (f : A -> B) (P : A -> bool) (Q : B -> bool) l :
  (forall x, In x l -> P x = Q (f x)) ->
  map f (List.filter P l) = List.filter Q (map f l).
Proof.
  induction l as [|x l IH]; intros H; cbn; [reflexivity|].
  rewrite <- (H x) by (left; reflexivity).
  destruct (P x); cbn; rewrite IH; auto; intros y Hy; apply H; right; exact Hy.
Qed.

(** The nodes of a finished build, their counts and the orphaned list. *)
Lemma buildLinkGraph_nodes st g st' :
  buildLinkGraph fs parser np st = (Ok g, st') ->
  let forward p := default [] (JsMap.get p (linkCache st')) in
  let backward p := default [] (JsMap.get p (backlinkCache st')) in
  map path (nodes g) = JsMap.keys (linkCache st')
  /\ NoDup (map path (nodes g))
  /\ (forall f, f ∈ map path (nodes g) <-> f ∈ FileUtils.listMarkdownFiles fs)
  /\ Forall (fun n => links n = length (forward (path n))
                      /\ backlinks n = length (backward (path n))) (nodes g)
  /\ orphaned g
     = List.filter
         (fun p => (length (forward p) =? 0)%nat && (length (backward p) =? 0)%nat)
         (JsMap.keys (linkCache st')).
Proof.
  intros Hbuild forward backward.
  destruct (buildLinkGraph_ok fs parser np st g st' Hbuild)
    as (p & (Hnd & Hkeys & _ & Hnodes & _) & Hlc & Hbl & Hg & _).
  assert (Hfiles : forall f, f ∈ JsMap.keys (p_linkCache p)
                             <-> f ∈ FileUtils.listMarkdownFiles fs).
  { unfold buildLinkGraph in Hbuild.
    destruct (firstPass _ _ _ _ _) as [[p'|e] lc] eqn:Hpass; [|discriminate].
    injection Hbuild as _ Hst. subst st'. cbn in Hlc.
    intros f. pose proof (firstPass_keys _ _ _ _ Hpass f) as Hf. cbn in Hf.
    rewrite elem_of_nil in Hf.
    destruct (firstPass_gathered fs parser np _ _ _ _ (gathered_empty fs parser np) Hpass)
      as [_ ->].
    rewrite <- Hlc. tauto. }
  assert (Hns : NoDup (JsMap.keys (p_nodes p))) by (rewrite Hkeys; exact Hnd).
  rewrite updateBacklinkCounts_nodes in Hg by (apply secondPass_NoDup || exact Hns).
  unfold JsMap.values in Hg. rewrite map_map in Hg. cbn [snd fst] in Hg.
  assert (Hpaths : map path (nodes g) = JsMap.keys (linkCache st')).
  { rewrite Hg, map_map, Hlc, <- Hkeys. unfold JsMap.keys. apply map_ext_in.
    intros [k n] Hin. cbn [fst snd].
    destruct (Hnodes k n (proj2 (list_elem_of_In _ _) Hin)) as (Hp & _).
    destruct (JsMap.get k _); exact Hp. }
  assert (Hcount : Forall (fun n => links n = length (forward (path n))
                                    /\ backlinks n = length (backward (path n))) (nodes g)).
  { rewrite Hg. apply Forall_forall. intros n' Hin.
    apply list_elem_of_fmap in Hin as ([k n] & -> & Hin). cbn [fst snd].
    destruct (Hnodes k n Hin) as (Hp & Hl & Hb).
    subst forward backward. cbn beta. rewrite Hlc, Hbl.
    destruct (JsMap.get k (secondPass (p_linkCache p))) as [backs|] eqn:Hget; cbn.
    - rewrite Hp, Hget. auto.
    - rewrite Hp, Hget. auto. }
  split; [exact Hpaths|].
  split; [rewrite Hpaths, Hlc; exact Hnd|].
  split; [intros f; rewrite Hpaths, Hlc; apply Hfiles|].
  split; [exact Hcount|].
  assert (Horph : orphaned g
                  = map path (List.filter
                                (fun n => (links n =? 0)%nat && (backlinks n =? 0)%nat)
                                (nodes g))).
  { unfold buildLinkGraph in Hbuild.
    destruct (firstPass _ _ _ _ _) as [[p'|e] lc]; [|discriminate].
    injection Hbuild as <- _. reflexivity. }
  rewrite Horph, <- Hpaths. apply map_filter_commute.
  intros n Hin. rewrite Forall_forall in Hcount.
  destruct (Hcount n (proj2 (list_elem_of_In _ _) Hin)) as [-> ->]. reflexivity.
Qed.

(** X12.  The graph a build returns has one node per listed document,
    in the order of the forward-link map; each node counts the forward
    links and the backlinks stored for its document, and [orphaned] lists,
    in that order, the documents for which both are empty. *)
Theorem graph_nodes_count_their_links st g st' :
  buildLinkGraph fs parser np st = (Ok g, st') ->
  let forward p := default [] (JsMap.get p (linkCache st')) in
  let backward p := default [] (JsMap.get p (backlinkCache st')) in
  map path (nodes g) = JsMap.keys (linkCache st')
  /\ NoDup (map path (nodes g))
  /\ (forall f, f ∈ map path (nodes g) <-> f ∈ FileUtils.listMarkdownFiles fs)
  /\ Forall (fun n => links n = length (forward (path n))
                      /\ backlinks n = length (backward (path n))) (nodes g)
  /\ orphaned g
     = List.filter
         (fun p => (length (forward p) =? 0)%nat && (length (backward p) =? 0)%nat)
         (JsMap.keys (linkCache st')).
Proof. apply buildLinkGraph_nodes. Qed.

Lemma insertByDegree_perm n l : insertByDegree n l ≡ₚ n :: l.
Proof.
  induction l as [|m l IH]; cbn [insertByDegree]; [reflexivity|].
  destruct (degree m <? degree n)%nat; [reflexivity|].
  rewrite IH. apply perm_swap.
Qed.

Lemma insertByDegree_sorted n l :
  descendingDegree l -> descendingDegree (insertByDegree n l).
Proof.
  induction l as [|m l IH]; cbn [insertByDegree]; intros Hs.
  - cbn. auto.
  - destruct Hs as [Hm Hs].
    destruct (degree m <? degree n)%nat eqn:Hlt.
    + apply Nat.ltb_lt in Hlt. cbn. split; [|auto].
      constructor; [lia|]. eapply Forall_impl; [exact Hm|]. cbn. intros; lia.
    + apply Nat.ltb_ge in Hlt. cbn [descendingDegree]. split; [|auto].
      rewrite insertByDegree_perm. constructor; assumption.
Qed.

Lemma sortByDegree_spec ns :
  sortByDegree ns ≡ₚ ns /\ descendingDegree (sortByDegree ns).
Proof.
  unfold sortByDegree.
  assert (H : forall ns acc,
    descendingDegree acc ->
    fold_left (fun acc n => insertByDegree n acc) ns acc ≡ₚ acc ++ ns
    /\ descendingDegree (fold_left (fun acc n => insertByDegree n acc) ns acc)).
  { clear ns. intros ns. induction ns as [|n ns IH]; intros acc Hacc; cbn [fold_left].
    - rewrite app_nil_r. auto.
    - destruct (IH (insertByDegree n acc) (insertByDegree_sorted n acc Hacc)) as [Hp Hs].
      split; [|exact Hs]. rewrite Hp, insertByDegree_perm.
      rewrite <- Permutation_middle. reflexivity. }
  destruct (H ns [] I) as [Hp Hs]. auto.
Qed.

(** X13.  [hubs] holds the ten most connected documents (all of them
    when there are fewer), most connected first: the nodes split into the
    hubs and the rest, and no node of the rest has more links and
    backlinks together than a hub. *)
Theorem hubs_are_the_most_connected st g st' :
  buildLinkGraph fs parser np st = (Ok g, st') ->
  exists top rest,
    nodes g ≡ₚ top ++ rest
    /\ hubs g = map path top
    /\ length top = Nat.min 10 (length (nodes g))
    /\ descendingDegree top
    /\ (forall h n, h ∈ top -> n ∈ rest -> (degree n <= degree h)%nat).
Proof.
  intros Hbuild.
  assert (Hhubs : hubs g = map path (take 10 (sortByDegree (nodes g)))).
  { unfold buildLinkGraph in Hbuild.
    destruct (firstPass _ _ _ _ _) as [[p'|e] lc]; [|discriminate].
    injection Hbuild as <- _. reflexivity. }
  destruct (sortByDegree_spec (nodes g)) as [Hp Hs].
  exists (take 10 (sortByDegree (nodes g))), (drop 10 (sortByDegree (nodes g))).
  rewrite take_drop. split; [symmetry; exact Hp|]. split; [exact Hhubs|].
  split; [rewrite length_take, (Permutation_length Hp); reflexivity|].
  rewrite <- (take_drop 10 (sortByDegree (nodes g))) in Hs.
  set (top := take 10 _) in *. set (rest := drop 10 _) in *. clearbody top rest.
  clear -Hs. induction top as [|a top IH]; cbn in Hs.
  - split; [exact I|]. intros h n Hh. inversion Hh.
  - destruct Hs as [Ha Hs]. destruct (IH Hs) as [IH1 IH2].
    apply Forall_app in Ha as [Ha1 Ha2]. split; [split; assumption|].
    intros h n Hh Hn. apply elem_of_cons in Hh as [->|Hh]; [|auto].
    rewrite Forall_forall in Ha2. apply Ha2. exact Hn.
Qed.

End Graph.

(** ** Queries after a failed build *)

Section PartialGraph.
Context {Yaml : Type}.
Context (fs : FileUtils.t) (parser : Parser.ObsidianParser Yaml) (np : PathModule).
Import LinkParser.

End PartialGraph.

(** ** Graph queries over a vault that cannot be read *)

Section Unreadable.
Context {Yaml : Type}.
Context (fs : FileUtils.t) (parser : Parser.ObsidianParser Yaml) (np : PathModule).
Context (d : string) (rest : list string) (e : JsError).
Context (Hfiles : FileUtils.listMarkdownFiles fs = d :: rest).
Context (Hd : FileUtils.readFile fs d = Err e).

Lemma getLinksFromFile_unreadable f :
  GraphUtils.getLinksFromFile fs parser np f GraphUtils.init
  = (Err ("Failed to get links from file: " ++ errorToString e)%string,
     GraphUtils.init).
Proof.
  unfold GraphUtils.getLinksFromFile. cbn [GraphUtils.linkCache GraphUtils.init].
  rewrite lookup_empty.
  unfold LinkParser.getForwardLinks, LinkParser.ensureBuilt, LinkParser.buildLinkGraph.
  cbn [GraphUtils.linkParser LinkParser.linkCache LinkParser.init JsMap.size JsMap.empty
       length Nat.eqb].
  rewrite Hfiles. cbn [LinkParser.firstPass].
  rewrite (readNote_unreadable fs parser d e Hd). reflexivity.
Qed.

Lemma backlinkScan_unreadable t files :
  forall backlinks errs n,
    GraphUtils.backlinkScan fs parser np t files backlinks errs n GraphUtils.init
    = ((backlinks,
        errs ++ map (fun f =>
                       {| GraphUtils.ge_path := Some f;
                          GraphUtils.ge_operation := Some "getBacklinks";
                          GraphUtils.ge_error :=
                            "Failed to get links from file: "
                            ++ errorToString e |})
                    (List.filter (fun f => negb (String.eqb f t)) files),
        n + Z.of_nat (length (List.filter (fun f => negb (String.eqb f t)) files))),
       GraphUtils.init).
Proof.
  induction files as [|f files IH]; intros backlinks errs n; cbn [GraphUtils.backlinkScan].
  - cbn. rewrite app_nil_r, Z.add_0_r. reflexivity.
  - cbn [List.filter]. destruct (String.eqb f t); cbn [negb]; [apply IH|].
    rewrite getLinksFromFile_unreadable, IH. cbn [map length].
    rewrite <- app_assoc, Nat2Z.inj_succ. cbn [app]. f_equal. f_equal. lia.
Qed.

Lemma getBacklinks_unreadable path :
  GraphUtils.getBacklinks fs parser np path GraphUtils.init
  = (GraphUtils.response []
       (Z.of_nat (length (List.filter
                            (fun f => negb (String.eqb f (FileUtils.ensureMarkdownExtension path)))
                            (d :: rest))))
       (map (fun f =>
               {| GraphUtils.ge_path := Some f;
                  GraphUtils.ge_operation := Some "getBacklinks";
                  GraphUtils.ge_error :=
                    "Failed to get links from file: " ++ errorToString e |})
            (List.filter
               (fun f => negb (String.eqb f (FileUtils.ensureMarkdownExtension path)))
               (d :: rest))),
     GraphUtils.init).
Proof.
  unfold GraphUtils.getBacklinks. rewrite Hfiles, backlinkScan_unreadable. reflexivity.
Qed.

Lemma getForwardLinks_unreadable path :
  GraphUtils.getForwardLinks fs parser np path GraphUtils.init
  = ({| GraphUtils.data := [];
        GraphUtils.errors :=
          Some [{| GraphUtils.ge_path := Some path;
                   GraphUtils.ge_operation := Some "getForwardLinks";
                   GraphUtils.ge_error :=
                     "Failed to get links from file: " ++ errorToString e |}];
        GraphUtils.metadata :=
          {| GraphUtils.totalProcessed := 1; GraphUtils.successCount := 0;
             GraphUtils.errorCount := 1 |} |},
     GraphUtils.init).
Proof.
  unfold GraphUtils.getForwardLinks. rewrite getLinksFromFile_unreadable. reflexivity.
Qed.

Lemma errorsField_default es : default [] (GraphUtils.errorsField es) = es.
Proof. destruct es; reflexivity. Qed.

Lemma orphanScan_unreadable files :
  forall orphaned errs n,
    exists errs',
      GraphUtils.orphanScan fs parser np files orphaned errs n GraphUtils.init
      = ((orphaned ++ files, errs ++ errs', n + Z.of_nat (length files)), GraphUtils.init)
      /\ length errs'
         = fold_right
             (fun f total =>
                (S (length (List.filter
                              (fun g => negb (String.eqb g (FileUtils.ensureMarkdownExtension f)))
                              (d :: rest)))
                 + total)%nat)
             0%nat files.
Proof.
  induction files as [|f files IH]; intros orphaned errs n; cbn [GraphUtils.orphanScan].
  - exists []. rewrite !app_nil_r, Z.add_0_r. auto.
  - rewrite getBacklinks_unreadable, getForwardLinks_unreadable.
    cbn [GraphUtils.data GraphUtils.errors GraphUtils.response length Nat.eqb andb
         default option_map from_option].
    rewrite errorsField_default.
    match goal with
    | |- context [GraphUtils.orphanScan _ _ _ _ _ (errs ++ ?new) _ _] =>
        destruct (IH (orphaned ++ [f]) (errs ++ new) (n + 1)) as (errs' & -> & Hlen);
        exists (new ++ errs')
    end.
    split.
    + rewrite <- !app_assoc. cbn [app length]. f_equal. f_equal. lia.
    + rewrite length_app, length_app, length_map, Hlen. unfold id.
      cbn [length fold_right]. lia.
Qed.

(** X18.  When the first listed document cannot be read, no link can
    be obtained for any document, and [findOrphanedNotes] on a new object
    reports every listed document as orphaned.  Each of the [n] documents
    collects the errors of the other [n - 1] and its own, so [errorCount]
    is [n * n] and [successCount], computed as the documents processed
    minus the errors, is [n - n * n]: negative from two documents on. *)
Theorem orphans_of_an_unreadable_vault :
  NoDup (d :: rest) ->
  Forall (fun f => endsWith f ".md" = true) (d :: rest) ->
  let n := Z.of_nat (length (d :: rest)) in
  exists r,
    GraphUtils.findOrphanedNotes fs parser np GraphUtils.init = (r, GraphUtils.init)
    /\ GraphUtils.data r = d :: rest
    /\ GraphUtils.totalProcessed (GraphUtils.metadata r) = n
    /\ GraphUtils.errorCount (GraphUtils.metadata r) = n * n
    /\ GraphUtils.successCount (GraphUtils.metadata r) = n - n * n.
Proof.
  intros Hnd Hmd n. unfold GraphUtils.findOrphanedNotes. rewrite Hfiles.
  destruct (orphanScan_unreadable (d :: rest) [] [] 0) as (errs & -> & Hlen).
  eexists. split; [reflexivity|].
  assert (Herrs : Z.of_nat (length errs) = n * n).
  { rewrite Hlen. subst n. clear Hlen.
    assert (H : forall files,
      (forall f, f ∈ files -> f ∈ d :: rest) ->
      fold_right
        (fun f total =>
           (S (length (List.filter
                         (fun g => negb (String.eqb g (FileUtils.ensureMarkdownExtension f)))
                         (d :: rest)))
            + total)%nat)
        0%nat files
      = (length files * length (d :: rest))%nat).
    { intros files. induction files as [|f files IH]; intros Hsub; [reflexivity|].
      cbn [fold_right length]. rewrite IH by (intros; apply Hsub; apply list_elem_of_further; assumption).
      assert (Hf : f ∈ d :: rest) by (apply Hsub; apply list_elem_of_here).
      rewrite Forall_forall in Hmd. unfold FileUtils.ensureMarkdownExtension.
      rewrite (Hmd f Hf). cbn [negb].
      assert (Hcount : forall l, NoDup l -> f ∈ l ->
                S (length (List.filter (fun g => negb (String.eqb g f)) l)) = length l).
      { clear. intros l. induction l as [|g l IHl]; intros Hnd Hin; [inversion Hin|].
        apply NoDup_cons in Hnd as [Hg Hnd]. cbn [List.filter length].
        destruct (String.eqb_spec g f) as [->|Hgf]; cbn [negb length].
        - f_equal. clear IHl Hin Hnd. induction l as [|h l IHl]; [reflexivity|].
          apply not_elem_of_cons in Hg as [Hh Hg]. cbn [List.filter].
          destruct (String.eqb_spec h f); [congruence|]. cbn. f_equal. auto.
        - f_equal. apply IHl; [exact Hnd|].
          apply elem_of_cons in Hin as [->|Hin]; [congruence|exact Hin]. }
      rewrite (Hcount (d :: rest) Hnd Hf). reflexivity. }
    rewrite H by auto. apply Nat2Z.inj_mul. }
  cbn [GraphUtils.data GraphUtils.response GraphUtils.metadata GraphUtils.totalProcessed
       GraphUtils.errorCount GraphUtils.successCount app].
  rewrite Herrs. subst n. repeat split; lia.
Qed.

End Unreadable.

(** ** Graph queries over a vault that can be read *)

Section Listing.
Context {Yaml : Type}.
Context (fs : FileUtils.t) (parser : Parser.ObsidianParser Yaml) (np : PathModule).
Context (Hread : Forall (processable fs parser) (FileUtils.listMarkdownFiles fs)).
Context (Hnd : NoDup (FileUtils.listMarkdownFiles fs)).
Context (Hmd : Forall (fun f => endsWith f ".md" = true) (FileUtils.listMarkdownFiles fs)).

Abbreviation G := (forwardGraph fs parser np).
Abbreviation files := (FileUtils.listMarkdownFiles fs).
















End Listing.

(** ** The graph properties on the sample vaults *)

Lemma backlinks_invert_forward_links_witness :
  exists sources targets,
    LinkParser.getBacklinks Sample.chain Sample.parser Sample.flatPath "A.md"
      (snd (LinkParser.buildLinkGraph Sample.chain Sample.parser Sample.flatPath
              LinkParser.init))
    = (Ok sources,
       snd (LinkParser.buildLinkGraph Sample.chain Sample.parser Sample.flatPath
              LinkParser.init))
    /\ LinkParser.getForwardLinks Sample.chain Sample.parser Sample.flatPath "B.md"
         (snd (LinkParser.buildLinkGraph Sample.chain Sample.parser Sample.flatPath
                 LinkParser.init))
       = (Ok targets,
          snd (LinkParser.buildLinkGraph Sample.chain Sample.parser Sample.flatPath
                 LinkParser.init))
    /\ ("B.md" ∈ sources <-> "A.md" ∈ targets).
Proof.
  eapply (backlinks_invert_forward_links Sample.chain Sample.parser Sample.flatPath
            LinkParser.init).
  vm_compute. reflexivity.
Defined.

Lemma graph_edges_are_the_forward_links_witness :
  exists g st',
    LinkParser.buildLinkGraph Sample.chain Sample.parser Sample.flatPath LinkParser.init
    = (Ok g, st')
    /\ (forall s t,
          (exists ty, {| LinkParser.source := s; LinkParser.target := t;
                         LinkParser.type := ty |} ∈ LinkParser.edges g)
          <-> t ∈ default [] (JsMap.get s (LinkParser.linkCache st')))
    /\ (forall e, e ∈ LinkParser.edges g -> LinkParser.source e <> LinkParser.target e).
Proof.
  do 2 eexists. split; [vm_compute; reflexivity|].
  apply (graph_edges_are_the_forward_links Sample.chain Sample.parser Sample.flatPath
           LinkParser.init).
  vm_compute. reflexivity.
Defined.

Lemma graph_nodes_count_their_links_witness :
  exists g st',
    LinkParser.buildLinkGraph Sample.withOrphan Sample.parser Sample.flatPath
      LinkParser.init = (Ok g, st')
    /\ LinkParser.orphaned g = ["D.md"]
    /\ map LinkParser.path (LinkParser.nodes g) = JsMap.keys (LinkParser.linkCache st')
    /\ NoDup (map LinkParser.path (LinkParser.nodes g))
    /\ (forall f, f ∈ map LinkParser.path (LinkParser.nodes g)
                  <-> f ∈ FileUtils.listMarkdownFiles Sample.withOrphan)
    /\ Forall (fun n =>
                 LinkParser.links n
                 = length (default [] (JsMap.get (LinkParser.path n)
                                         (LinkParser.linkCache st')))
                 /\ LinkParser.backlinks n
                    = length (default [] (JsMap.get (LinkParser.path n)
                                            (LinkParser.backlinkCache st'))))
              (LinkParser.nodes g)
    /\ LinkParser.orphaned g
       = List.filter
           (fun p => (length (default [] (JsMap.get p (LinkParser.linkCache st'))) =? 0)%nat
                     && (length (default [] (JsMap.get p (LinkParser.backlinkCache st')))
                         =? 0)%nat)
           (JsMap.keys (LinkParser.linkCache st')).
Proof.
  do 2 eexists. split; [vm_compute; reflexivity|]. split; [reflexivity|].
  apply (graph_nodes_count_their_links Sample.withOrphan Sample.parser Sample.flatPath
           LinkParser.init).
  vm_compute. reflexivity.
Defined.

Lemma hubs_are_the_most_connected_witness :
  exists g st' top rest,
    LinkParser.buildLinkGraph Sample.chain Sample.parser Sample.flatPath LinkParser.init
    = (Ok g, st')
    /\ LinkParser.hubs g = ["B.md"; "A.md"; "C.md"]
    /\ LinkParser.nodes g ≡ₚ top ++ rest
    /\ LinkParser.hubs g = map LinkParser.path top
    /\ length top = Nat.min 10 (length (LinkParser.nodes g))
    /\ descendingDegree top
    /\ (forall h n, h ∈ top -> n ∈ rest ->
                    (LinkParser.degree n <= LinkParser.degree h)%nat).
Proof.
  do 2 eexists.
  destruct (hubs_are_the_most_connected Sample.chain Sample.parser Sample.flatPath
              LinkParser.init _ _ eq_refl) as (top & rest & H).
  exists top, rest. split; [reflexivity|]. split; [reflexivity|]. exact H.
Defined.


Lemma orphans_of_an_unreadable_vault_witness :
  exists r,
    GraphUtils.findOrphanedNotes Sample.sealed Sample.parser Sample.flatPath
      GraphUtils.init = (r, GraphUtils.init)
    /\ GraphUtils.data r = ["A.md"; "B.md"; "C.md"]
    /\ GraphUtils.totalProcessed (GraphUtils.metadata r) = 3
    /\ GraphUtils.errorCount (GraphUtils.metadata r) = 3 * 3
    /\ GraphUtils.successCount (GraphUtils.metadata r) = 3 - 3 * 3.
Proof.
  apply (orphans_of_an_unreadable_vault Sample.sealed Sample.parser Sample.flatPath
           "A.md" ["B.md"; "C.md"] "EACCES: permission denied, open 'A.md'").
  - reflexivity.
  - reflexivity.
  - repeat constructor; rewrite ?elem_of_cons, ?elem_of_nil; intuition discriminate.
  - repeat constructor.
Defined.



(** ** The content store and its cache *)

Section StoreFacts.
Context {D : Type}.
Context (fs : FileUtilsOnDisk.Fs D) (np : PathModule) (isAbsolute : string -> bool)
        (vaultPath : string).
Import FileUtilsOnDisk.

Lemma JsMap_get_delete_ne {V} (m : JsMap.t V) k k' :
  k <> k' -> JsMap.get k (JsMap.delete k' m) = JsMap.get k m.
Proof.
  intros Hk. induction m as [|[k0 v0] m IH]; cbn; [reflexivity|].
  destruct (String.eqb_spec k' k0) as [->|Hk'].
  - destruct (String.eqb_spec k k0); [congruence|reflexivity].
  - cbn. destruct (String.eqb k k0); [reflexivity|exact IH].
Qed.

Lemma get_absent {T} key now (c : LRU.LRUCache T) :
  key ∉ LRU.keys c -> LRU.get key now c = (None, c).
Proof.
  intros Hk. unfold LRU.get. apply JsMap_get_None in Hk. rewrite Hk. reflexivity.
Qed.

(** X19.  Read your writes: on a file system where a file that has
    just been written reads back as written, a [readFile] that follows a
    successful [writeFile] of the same normalised path never returns
    anything but the written content, whatever the cache held before (the
    cache has no duplicate keys): [writeFile] takes the path out of the
    cache, so the read goes to the disk.  The read returns unless the
    empty string is a key of the cache. *)
Theorem read_returns_what_was_written path path' content tGet tSet st st' :
  (forall p c d u d', fs_writeFile fs p c d = (Ok u, d') -> fs_readFile fs p d' = Ok c) ->
  (forall c, cache st = Some c -> NoDup (LRU.keys c)) ->
  FileUtils.ensureMarkdownExtension path' = FileUtils.ensureMarkdownExtension path ->
  writeFile fs np isAbsolute vaultPath path content st = (Ok tt, st') ->
  (forall r st'',
      readFile fs np isAbsolute vaultPath path' tGet tSet st' = Some (r, st'') ->
      r = Ok content)
  /\ ((forall c, cache st = Some c -> "" ∉ LRU.keys c) ->
      exists st'',
        readFile fs np isAbsolute vaultPath path' tGet tSet st' = Some (Ok content, st'')).
Proof.
  intros Hlaw Hnd Hpath. unfold writeFile.
  destruct (fs_mkdir fs _ (disk st)) as [[u1|e1] d1]; [|discriminate].
  destruct (fs_writeFile fs _ content d1) as [[u2|e2] d2] eqn:Hwrite; [|discriminate].
  intros [= <-]. apply Hlaw in Hwrite.
  unfold readFile. rewrite Hpath. cbn [cache disk].
  set (n := FileUtils.ensureMarkdownExtension path) in *.
  destruct (cache st) as [c|] eqn:Hc; cbn [invalidate].
  - assert (Habs : n ∉ LRU.keys (snd (LRU.delete n c))).
    { unfold LRU.keys. rewrite cache_delete. apply NoDup_delete. apply Hnd. reflexivity. }
    rewrite (get_absent n tGet _ Habs). unfold readFromDisk. rewrite Hwrite.
    destruct (Z.of_nat (String.length content) <? 5 * 1024 * 1024).
    + split.
      * intros r st''. destruct (LRU.set n content _ tSet _); [|discriminate].
        intros [= <- _]. reflexivity.
      * intros Hempty. destruct (set_total n content (byteLength content) tSet
                                   (snd (LRU.delete n c))) as [c' ->]; [|eauto].
        intros Hin. apply (Hempty c eq_refl). revert Hin. apply entries_keys.
        intros x. apply delete_entries.
    + split; [intros r st'' [= <- _]; reflexivity|eauto].
  - unfold readFromDisk. rewrite Hwrite.
    split; [intros r st'' [= <- _]; reflexivity|eauto].
Qed.

(** X20.  [renameFile] takes only the old path out of the cache.  If the
    cache holds an unexpired, non-empty entry for the new path, that entry
    survives a successful rename onto the path, and the next [readFile] of
    the new path returns it without reading the disk: the content that
    was moved there is not seen. *)
Theorem rename_keeps_cached_destination oldPath newPath tGet tSet st st' c e :
  cache st = Some c ->
  JsMap.get (FileUtils.ensureMarkdownExtension newPath) (LRU.cache c) = Some e ->
  LRU.value e <> "" ->
  tGet - LRU.lastAccessed e <= LRU.ttl c ->
  FileUtils.ensureMarkdownExtension oldPath <> FileUtils.ensureMarkdownExtension newPath ->
  renameFile fs np isAbsolute vaultPath oldPath newPath st = (Ok tt, st') ->
  exists st'',
    readFile fs np isAbsolute vaultPath newPath tGet tSet st'
    = Some (Ok (LRU.value e), st'')
    /\ disk st'' = disk st'.
Proof.
  intros Hc Hget Hvalue Hfresh Hne. unfold renameFile.
  destruct (fs_mkdir fs _ (disk st)) as [[u1|e1] d1]; [|discriminate].
  destruct (fs_rename fs _ _ d1) as [[u2|e2] d2]; [|discriminate].
  intros [= <-]. unfold readFile. cbn [cache disk]. rewrite Hc. cbn [invalidate].
  set (nOld := FileUtils.ensureMarkdownExtension oldPath) in *.
  set (nNew := FileUtils.ensureMarkdownExtension newPath) in *.
  assert (Hget' : JsMap.get nNew (LRU.cache (snd (LRU.delete nOld c))) = Some e).
  { rewrite cache_delete, JsMap_get_delete_ne by congruence. exact Hget. }
  rewrite (get_present nNew tGet _ e Hget'). unfold LRU.expired. rewrite ttl_delete.
  replace (tGet - LRU.lastAccessed e >? LRU.ttl c) with false
    by (symmetry; rewrite Z.gtb_ltb; apply Z.ltb_ge; lia).
  destruct (String.eqb_spec (LRU.value e) ""); [contradiction|]. cbn [negb].
  eexists. split; reflexivity.
Qed.

(** X21.  On a file system where a
    file that has just been unlinked cannot be read, a [readFile] that
    follows a successful [deleteFile] of the same normalised path fails
    with the error of the disk, whatever the cache held for the path (the
    cache has no duplicate keys): [deleteFile] takes the path out of the
    cache, so the read goes to the disk. *)
Theorem deleted_note_is_not_served_from_cache path path' tGet tSet st st' :
  (forall p d u d', fs_unlink fs p d = (Ok u, d') -> exists e, fs_readFile fs p d' = Err e) ->
  (forall c, cache st = Some c -> NoDup (LRU.keys c)) ->
  FileUtils.ensureMarkdownExtension path' = FileUtils.ensureMarkdownExtension path ->
  deleteFile fs np isAbsolute vaultPath path st = (Ok tt, st') ->
  exists e st'',
    readFile fs np isAbsolute vaultPath path' tGet tSet st' = Some (Err e, st'')
    /\ fs_readFile fs (toAbsolutePath np isAbsolute vaultPath
                         (FileUtils.ensureMarkdownExtension path)) (disk st') = Err e
    /\ disk st'' = disk st'.
Proof.
  intros Hlaw Hnd Hpath. unfold deleteFile.
  destruct (fs_unlink fs _ (disk st)) as [[u1|e1] d1] eqn:Hunlink; [|discriminate].
  intros [= <-]. apply Hlaw in Hunlink as [e He].
  unfold readFile. rewrite Hpath. cbn [cache disk].
  set (n := FileUtils.ensureMarkdownExtension path) in *.
  exists e. destruct (cache st) as [c|] eqn:Hc; cbn [invalidate].
  - assert (Habs : n ∉ LRU.keys (snd (LRU.delete n c))).
    { unfold LRU.keys. rewrite cache_delete. apply NoDup_delete. apply Hnd. reflexivity. }
    rewrite (get_absent n tGet _ Habs). unfold readFromDisk. rewrite He.
    eexists. split; [reflexivity|]. split; reflexivity.
  - unfold readFromDisk. rewrite He.
    eexists. split; [reflexivity|]. split; reflexivity.
Qed.

End StoreFacts.

Lemma read_returns_what_was_written_witness :
  let st := {| FileUtilsOnDisk.cache := Some (FileContentCache.new 50 100);
               FileUtilsOnDisk.disk := ({["/v/a.md" := "old"]} : gmap string string) |} in
  let st' := {| FileUtilsOnDisk.cache := Some (FileContentCache.new 50 100);
                FileUtilsOnDisk.disk :=
                  (<["/v/a.md" := "new"]> {["/v/a.md" := "old"]} : gmap string string) |} in
  (forall r st'',
      FileUtilsOnDisk.readFile Sample.memFs Sample.flatPath (fun _ => false) "/v"
        "a.md" 1 2 st' = Some (r, st'') ->
      r = Ok "new")
  /\ ((forall c, FileUtilsOnDisk.cache st = Some c -> "" ∉ LRU.keys c) ->
      exists st'',
        FileUtilsOnDisk.readFile Sample.memFs Sample.flatPath (fun _ => false) "/v"
          "a.md" 1 2 st' = Some (Ok "new", st'')).
Proof.
  intros st st'.
  apply (read_returns_what_was_written Sample.memFs Sample.flatPath (fun _ => false) "/v"
           "a" "a.md" "new" 1 2 st st').
  - intros p c d u d' H. unfold Sample.memFs in *.
    cbn [FileUtilsOnDisk.fs_readFile FileUtilsOnDisk.fs_writeFile] in *.
    injection H as _ <-. rewrite lookup_insert.
    destruct (decide (p = p)); [reflexivity|congruence].
  - intros c [= <-]. apply NoDup_nil_2.
  - reflexivity.
  - reflexivity.
Defined.

Lemma rename_keeps_cached_destination_witness :
  let eb := {| LRU.value := "text of b"; LRU.size := 9; LRU.lastAccessed := 0;
               LRU.accessCount := 1 |} in
  let c := LRU.with_cache (FileContentCache.new 50 100) [("b.md", eb)] 9 in
  let st := {| FileUtilsOnDisk.cache := Some c;
               FileUtilsOnDisk.disk :=
                 ({["/v/a.md" := "text of a"; "/v/b.md" := "text of b"]}
                  : gmap string string) |} in
  let renamed :=
    FileUtilsOnDisk.renameFile Sample.memFs Sample.flatPath (fun _ => false) "/v"
      "a.md" "b.md" st in
  fst renamed = Ok tt
  /\ FileUtilsOnDisk.disk (snd renamed) !! "/v/b.md" = Some "text of a"
  /\ exists st'',
      FileUtilsOnDisk.readFile Sample.memFs Sample.flatPath (fun _ => false) "/v"
        "b.md" 1 2 (snd renamed) = Some (Ok "text of b", st'')
      /\ FileUtilsOnDisk.disk st'' = FileUtilsOnDisk.disk (snd renamed).
Proof.
  intros eb c st renamed.
  split; [reflexivity|]. split; [vm_compute; reflexivity|].
  apply (rename_keeps_cached_destination Sample.memFs Sample.flatPath (fun _ => false)
           "/v" "a.md" "b.md" 1 2 st (snd renamed) c eb).
  - reflexivity.
  - reflexivity.
  - discriminate.
  - cbn. lia.
  - discriminate.
  - reflexivity.
Defined.

Lemma deleted_note_is_not_served_from_cache_witness :
  let cached :=
    default (FileContentCache.new 50 100)
            (FileContentCache.cacheFile "a.md" "text of a" 1 (FileContentCache.new 50 100)) in
  let st := {| FileUtilsOnDisk.cache := Some cached;
               FileUtilsOnDisk.disk := ({["/v/a.md" := "text of a"]} : gmap string string) |} in
  let deleted := FileUtilsOnDisk.deleteFile Sample.memFs Sample.flatPath (fun _ => false) "/v"
                   "a" st in
  fst deleted = Ok tt
  /\ exists e st'',
       FileUtilsOnDisk.readFile Sample.memFs Sample.flatPath (fun _ => false) "/v"
         "a.md" 2 3 (snd deleted) = Some (Err e, st'')
       /\ FileUtilsOnDisk.fs_readFile Sample.memFs "/v/a.md" (FileUtilsOnDisk.disk (snd deleted))
          = Err e
       /\ FileUtilsOnDisk.disk st'' = FileUtilsOnDisk.disk (snd deleted).
Proof.
  intros cached st deleted. split; [reflexivity|].
  apply (deleted_note_is_not_served_from_cache Sample.memFs Sample.flatPath (fun _ => false)
           "/v" "a" "a.md" 2 3 st (snd deleted)).
  - intros p d u d'. unfold Sample.memFs.
    cbn [FileUtilsOnDisk.fs_unlink FileUtilsOnDisk.fs_readFile].
    destruct (d !! p) eqn:Hp; [|discriminate]. intros [= _ <-].
    rewrite lookup_delete_eq. eauto.
  - intros c [= <-]. vm_compute. repeat constructor; cbn; intros H; inversion H.
  - reflexivity.
  - reflexivity.
Defined.

(** ** Similar notes *)

(** *** [NaN] in the similarity *)

Lemma nan_times (x y : float) :
  Prim2SF x = S754_nan -> Prim2SF (PrimFloat.mul x y) = S754_nan.
Proof. intros H. rewrite mul_spec, H. reflexivity. Qed.

Lemma nan_plus_l (x y : float) :
  Prim2SF x = S754_nan -> Prim2SF (PrimFloat.add x y) = S754_nan.
Proof. intros H. rewrite add_spec, H. reflexivity. Qed.

Lemma nan_plus_r (x y : float) :
  Prim2SF y = S754_nan -> Prim2SF (PrimFloat.add x y) = S754_nan.
Proof.
  intros H. rewrite add_spec, H. unfold SF64add, SFadd. destruct (Prim2SF x); reflexivity.
Qed.

Lemma nan_below (m x : float) :
  Prim2SF x = S754_nan -> PrimFloat.leb m x = false.
Proof.
  intros H. rewrite leb_spec, H. unfold SFleb, SFcompare. destruct (Prim2SF m); reflexivity.
Qed.

Lemma overlap_of_nothing : Prim2SF (SearchUtils.overlap 0 0 0) = S754_nan.
Proof. vm_compute. reflexivity. Qed.

(** When both lists of tags, both lists of links or both lists of words
    are empty, the similarity is [NaN]. *)
Lemma similarityOf_nan tags referenceTags links referenceLinks content referenceContent :
  (tags = [] /\ referenceTags = [])
  \/ (links = [] /\ referenceLinks = [])
  \/ (SearchUtils.getWords content = [] /\ SearchUtils.getWords referenceContent = []) ->
  Prim2SF (SearchUtils.similarityOf tags referenceTags links referenceLinks
             content referenceContent) = S754_nan.
Proof.
  unfold SearchUtils.similarityOf. intros [[-> ->]|[[-> ->]|[-> ->]]]; cbn [List.filter length].
  - apply nan_plus_l, nan_plus_l, nan_plus_r, nan_times, overlap_of_nothing.
  - apply nan_plus_l, nan_plus_r, nan_times, overlap_of_nothing.
  - apply nan_plus_r, nan_times, overlap_of_nothing.
Qed.

Lemma similarityOf_reached tags referenceTags links referenceLinks content referenceContent m :
  PrimFloat.leb m (SearchUtils.similarityOf tags referenceTags links referenceLinks
                     content referenceContent) = true ->
  (tags <> [] \/ referenceTags <> [])
  /\ (links <> [] \/ referenceLinks <> [])
  /\ (SearchUtils.getWords content <> [] \/ SearchUtils.getWords referenceContent <> []).
Proof.
  intros Hle.
  assert (Hno : ~ ((tags = [] /\ referenceTags = [])
                   \/ (links = [] /\ referenceLinks = [])
                   \/ (SearchUtils.getWords content = []
                       /\ SearchUtils.getWords referenceContent = []))).
  { intros H. apply similarityOf_nan in H. apply (nan_below m) in H. congruence. }
  split; [|split].
  - destruct tags; [|left; discriminate]. destruct referenceTags; [|right; discriminate].
    exfalso. apply Hno. auto.
  - destruct links; [|left; discriminate]. destruct referenceLinks; [|right; discriminate].
    exfalso. apply Hno. auto.
  - destruct (SearchUtils.getWords content); [|left; discriminate].
    destruct (SearchUtils.getWords referenceContent); [|right; discriminate].
    exfalso. apply Hno. auto.
Qed.

Section Similar.
Context {Yaml : Type}.
Context (fs : FileUtils.t) (parser : Parser.ObsidianParser Yaml) (np : PathModule).
Import SearchUtils.

Lemma insertBySimilarity_elem x y l :
  y ∈ insertBySimilarity x l -> y = x \/ y ∈ l.
Proof.
  induction l as [|z l IH]; cbn [insertBySimilarity].
  - rewrite list_elem_of_singleton. auto.
  - destruct (PrimFloat.ltb _ _); rewrite !elem_of_cons; intuition.
Qed.

Lemma sortBySimilarity_elem y l : y ∈ sortBySimilarity l -> y ∈ l.
Proof.
  unfold sortBySimilarity.
  assert (H : forall l acc, y ∈ fold_left (fun acc x => insertBySimilarity x acc) l acc ->
                            y ∈ acc \/ y ∈ l).
  { clear l. intros l. induction l as [|x l IH]; intros acc; cbn [fold_left]; [auto|].
    intros Hy. apply IH in Hy as [Hy|Hy].
    - apply insertBySimilarity_elem in Hy as [->|Hy]; [right; apply list_elem_of_here|auto].
    - right. apply list_elem_of_further. exact Hy. }
  intros Hy. apply H in Hy as [Hy|Hy]; [inversion Hy|exact Hy].
Qed.

Lemma sliceTo_elem {A} limit (l : list A) y : y ∈ sliceTo limit l -> y ∈ l.
Proof.
  unfold sliceTo. destruct (limit <? 0); intros Hy;
    apply list_elem_of_lookup in Hy as [i Hi];
    apply lookup_take_Some in Hi as [Hi _]; apply list_elem_of_lookup; eauto.
Qed.

(** Once the forward map is not empty, a query neither rebuilds nor
    fails. *)
Lemma getForwardLinks_stored f st :
  LinkParser.linkCache st <> [] ->
  LinkParser.getForwardLinks fs parser np f st
  = (Ok (default [] (JsMap.get f (LinkParser.linkCache st))), st).
Proof.
  intros Hne. unfold LinkParser.getForwardLinks, LinkParser.ensureBuilt.
  destruct (LinkParser.linkCache st) as [|entry lc] eqn:Hlc; [congruence|].
  cbn. rewrite Hlc. reflexivity.
Qed.

(** What the loop records for a candidate, over a stored graph. *)
Lemma scanSimilar_stored path referenceContent referenceTags referenceLinks minSimilarity
      st (P : Similar -> Prop) :
  LinkParser.linkCache st <> [] ->
  (forall file content tags,
      file <> path ->
      contentAndTags fs parser file = Ok (content, tags) ->
      let sim := similarityOf tags referenceTags
                   (default [] (JsMap.get file (LinkParser.linkCache st)))
                   referenceLinks content referenceContent in
      PrimFloat.leb minSimilarity sim = true ->
      P {| path := file; similarity := sim |}) ->
  forall files similarities errs n,
    Forall P similarities ->
    snd (scanSimilar fs parser np path referenceContent referenceTags referenceLinks
           minSimilarity files similarities errs n st) = st
    /\ Forall P (fst (fst (fst (scanSimilar fs parser np path referenceContent referenceTags
                                  referenceLinks minSimilarity files similarities errs n
                                  st)))).
Proof.
  intros Hst HP files. induction files as [|file files IH]; intros similarities errs n Hs;
    cbn [scanSimilar]; [split; [reflexivity|exact Hs]|].
  destruct (String.eqb_spec file path) as [->|Hne]; [apply IH; exact Hs|].
  destruct (contentAndTags fs parser file) as [[content tags]|e] eqn:Hread;
    [|apply IH; exact Hs].
  rewrite (getForwardLinks_stored file st Hst).
  apply IH. unfold atLeast.
  destruct (PrimFloat.leb minSimilarity _) eqn:Hle; [|exact Hs].
  apply Forall_app. split; [exact Hs|]. constructor; [|constructor].
  apply (HP file content tags Hne Hread). exact Hle.
Qed.

(** X22.  [findSimilarNotes] divides the numbers of common tags, links
    and words by the larger of the two counts, and [0 / 0] is [NaN], which
    fails [similarity >= minSimilarity].  So a note is reported only if
    it is not the reference, can be read and parsed, has the sum of the
    three weighted quotients, computed in doubles over its tags, its
    stored forward links and its words, as similarity, reaches the
    threshold, and it or the reference has a tag, it or the reference has
    a forward link, and it or the reference has a word of more than three
    characters.  With a parser that never finds a tag, nothing is
    reported, whatever the threshold. *)
Theorem similar_notes_need_tags_links_and_words path limit minSimilarity st r st' :
  findSimilarNotes fs parser np path limit minSimilarity st = (Ok r, st') ->
  (forall x, x ∈ results r ->
     SearchUtils.path x <> path
     /\ exists content tags referenceContent referenceTags,
         let links := default [] (JsMap.get (SearchUtils.path x) (LinkParser.linkCache st')) in
         let referenceLinks := default [] (JsMap.get path (LinkParser.linkCache st')) in
         contentAndTags fs parser (SearchUtils.path x) = Ok (content, tags)
         /\ contentAndTags fs parser path = Ok (referenceContent, referenceTags)
         /\ similarity x
            = similarityOf tags referenceTags links referenceLinks content referenceContent
         /\ PrimFloat.leb minSimilarity (similarity x) = true
         /\ (tags <> [] \/ referenceTags <> [])
         /\ (links <> [] \/ referenceLinks <> [])
         /\ (getWords content <> [] \/ getWords referenceContent <> []))
  /\ ((forall c fm, Parser.op_extractTags parser c fm = Ok []) -> results r = []).
Proof.
  unfold findSimilarNotes.
  destruct (contentAndTags fs parser path) as [[referenceContent referenceTags]|e] eqn:Href;
    [|discriminate].
  destruct (LinkParser.getForwardLinks fs parser np path st) as [[referenceLinks|e] st1]
    eqn:Hlinks; [|discriminate].
  destruct (scanSimilar _ _ _ _ _ _ _ _ _ _ _ _ _) as [[[similarities errs] n] st2] eqn:Hscan.
  intros [= <- <-]. cbn [results].
  set (P := fun x : Similar =>
       SearchUtils.path x <> path
       /\ exists content tags,
           contentAndTags fs parser (SearchUtils.path x) = Ok (content, tags)
           /\ similarity x
              = similarityOf tags referenceTags
                  (default [] (JsMap.get (SearchUtils.path x) (LinkParser.linkCache st1)))
                  referenceLinks content referenceContent
           /\ PrimFloat.leb minSimilarity (similarity x) = true).
  assert (Hall : st2 = st1 /\ Forall P similarities
                 /\ referenceLinks = default [] (JsMap.get path (LinkParser.linkCache st1))).
  { assert (Href' : referenceLinks = default [] (JsMap.get path (LinkParser.linkCache st1))).
    { unfold LinkParser.getForwardLinks in Hlinks.
      destruct (LinkParser.ensureBuilt fs parser np st) as [[[]|e] st0]; [|discriminate].
      injection Hlinks as <- <-. reflexivity. }
    assert (Hcases : LinkParser.linkCache st1 = [] \/ LinkParser.linkCache st1 <> [])
      by (destruct (LinkParser.linkCache st1); [left; reflexivity|right; discriminate]).
    destruct Hcases as [Hlc|Hne].
    - (* an empty forward map after a query: nothing is listed *)
      assert (Hfiles : FileUtils.listMarkdownFiles fs = []).
      { unfold LinkParser.getForwardLinks, LinkParser.ensureBuilt in Hlinks.
        destruct (JsMap.size (LinkParser.linkCache st) =? 0)%nat eqn:Hsize.
        - destruct (LinkParser.buildLinkGraph fs parser np st) as [[g|e] st0] eqn:Hbuild;
            [|discriminate].
          injection Hlinks as _ <-.
          destruct (buildLinkGraph_nodes fs parser np st g st0 Hbuild)
            as (Hpaths & _ & Hlisted & _).
          destruct (FileUtils.listMarkdownFiles fs) as [|f fl]; [reflexivity|].
          exfalso. specialize (Hlisted f). rewrite Hpaths, Hlc in Hlisted.
          cbn in Hlisted. rewrite elem_of_nil, elem_of_cons in Hlisted. tauto.
        - injection Hlinks as _ <-. rewrite Hlc in Hsize. discriminate. }
      rewrite Hfiles in Hscan. cbn in Hscan. injection Hscan as <- _ _ <-.
      split; [reflexivity|]. split; [constructor|exact Href'].
    - destruct (scanSimilar_stored path referenceContent referenceTags referenceLinks
                  minSimilarity st1 P Hne) with
        (files := FileUtils.listMarkdownFiles fs) (similarities := @nil Similar)
        (errs := @nil SearchError) (n := 0) as [Hstate Hsims].
      + intros file content tags Hfile Hread sim Hle. split; [exact Hfile|].
        exists content, tags. cbn [SearchUtils.path similarity].
        split; [exact Hread|]. split; [reflexivity|exact Hle].
      + constructor.
      + rewrite Hscan in Hstate, Hsims. cbn [fst snd] in Hstate, Hsims.
        auto. }
  destruct Hall as (-> & Hall & Hrefl).
  assert (Hres : forall x, x ∈ sliceTo limit (sortBySimilarity similarities) -> P x).
  { intros x Hx. apply sliceTo_elem, sortBySimilarity_elem in Hx.
    rewrite Forall_forall in Hall. apply Hall, Hx. }
  assert (Hfull : forall x, x ∈ sliceTo limit (sortBySimilarity similarities) ->
            SearchUtils.path x <> path
            /\ exists content tags,
                 contentAndTags fs parser (SearchUtils.path x) = Ok (content, tags)
                 /\ similarity x
                    = similarityOf tags referenceTags
                        (default [] (JsMap.get (SearchUtils.path x) (LinkParser.linkCache st1)))
                        (default [] (JsMap.get path (LinkParser.linkCache st1)))
                        content referenceContent
                 /\ PrimFloat.leb minSimilarity (similarity x) = true
                 /\ (tags <> [] \/ referenceTags <> [])
                 /\ (default [] (JsMap.get (SearchUtils.path x) (LinkParser.linkCache st1)) <> []
                     \/ default [] (JsMap.get path (LinkParser.linkCache st1)) <> [])
                 /\ (getWords content <> [] \/ getWords referenceContent <> [])).
  { intros x Hx. destruct (Hres x Hx) as (Hpath & content & tags & Hread & Hsim & Hle).
    split; [exact Hpath|]. exists content, tags. rewrite <- Hrefl.
    split; [exact Hread|]. split; [exact Hsim|]. split; [exact Hle|].
    rewrite Hsim in Hle. apply similarityOf_reached in Hle. exact Hle. }
  split.
  - intros x Hx. destruct (Hfull x Hx) as (Hpath & content & tags & H).
    split; [exact Hpath|]. exists content, tags, referenceContent, referenceTags.
    cbv zeta. destruct H as (H1 & H2 & H3 & H4 & H5 & H6).
    repeat split; assumption.
  - intros Hnotags.
    destruct (sliceTo limit (sortBySimilarity similarities)) as [|x rest] eqn:Hsl;
      [reflexivity|].
    exfalso.
    destruct (Hfull x (list_elem_of_here _ _))
      as (_ & content & tags & Hread & _ & _ & Htags & _).
    assert (Hempty : forall file c t, contentAndTags fs parser file = Ok (c, t) -> t = []).
    { intros file c t. unfold contentAndTags.
      destruct (FileUtils.readFile fs file); [|discriminate].
      destruct (Parser.op_parseFrontmatter parser _); [|discriminate].
      rewrite Hnotags. intros [= _ <-]. reflexivity. }
    apply Hempty in Hread, Href. destruct Htags; congruence.
Qed.

End Similar.

Lemma similar_notes_need_tags_links_and_words_witness :
  let found :=
    SearchUtils.findSimilarNotes Sample.journal Sample.tagging Sample.flatPath
      "A.md" 10 0.25%float LinkParser.init in
  exists r,
    fst found = Ok r
    /\ map SearchUtils.path (SearchUtils.results r) = ["B.md"; "C.md"]
    /\ (forall x, x ∈ SearchUtils.results r ->
          SearchUtils.path x <> "A.md"
          /\ exists content tags referenceContent referenceTags,
              let links :=
                default [] (JsMap.get (SearchUtils.path x) (LinkParser.linkCache (snd found))) in
              let referenceLinks :=
                default [] (JsMap.get "A.md" (LinkParser.linkCache (snd found))) in
              SearchUtils.contentAndTags Sample.journal Sample.tagging (SearchUtils.path x)
              = Ok (content, tags)
              /\ SearchUtils.contentAndTags Sample.journal Sample.tagging "A.md"
                 = Ok (referenceContent, referenceTags)
              /\ SearchUtils.similarity x
                 = SearchUtils.similarityOf tags referenceTags links referenceLinks
                     content referenceContent
              /\ PrimFloat.leb 0.25%float (SearchUtils.similarity x) = true
              /\ (tags <> [] \/ referenceTags <> [])
              /\ (links <> [] \/ referenceLinks <> [])
              /\ (SearchUtils.getWords content <> []
                  \/ SearchUtils.getWords referenceContent <> []))
    /\ ((forall c fm, Parser.op_extractTags Sample.tagging c fm = Ok []) ->
        SearchUtils.results r = []).
Proof.
  intros found. eexists. split; [vm_compute; reflexivity|].
  split; [vm_compute; reflexivity|].
  apply (similar_notes_need_tags_links_and_words Sample.journal Sample.tagging
           Sample.flatPath "A.md" 10 0.25%float LinkParser.init _ (snd found)).
  vm_compute. reflexivity.
Defined.

(** ** Slugs and normalised file names *)

Section Characters.
Import Js.

(** Facts about single characters, settled by running through the 256
    code units. *)
Ltac each_char c := destruct c as [[] [] [] [] [] [] [] []]; vm_compute; try reflexivity; try discriminate; auto.

Lemma kept_lowered_char c :
  (isWord (toLowerChar c) || isSpace (toLowerChar c) || Ascii.eqb (toLowerChar c) "-") = true ->
  (isSlugChar (toLowerChar c) || isSpace (toLowerChar c)) = true.
Proof. each_char c. Qed.

Lemma slug_char_lower c : isSlugChar c = true -> toLowerChar c = c.
Proof. each_char c. Qed.

Lemma slug_char_kept c :
  isSlugChar c = true -> (isWord c || isSpace c || Ascii.eqb c "-") = true.
Proof. each_char c. Qed.

Lemma slug_char_no_space c : isSlugChar c = true -> isSpace c = false.
Proof. each_char c. Qed.

Lemma hyphen_slug_char : isSlugChar "-" = true.
Proof. reflexivity. Qed.

End Characters.

Section Strings.
Import Js.

Lemma allChars_impl (p q : ascii -> bool) s :
  (forall c, p c = true -> q c = true) -> allChars p s = true -> allChars q s = true.
Proof.
  intros Hpq. induction s as [|c s IH]; cbn; [reflexivity|].
  intros H. apply andb_true_iff in H as [Hc Hs]. rewrite (Hpq c Hc), IH; auto.
Qed.

Lemma kept_lowered s :
  allChars (fun c => isSlugChar c || isSpace c)
           (filterChars (fun c => isWord c || isSpace c || Ascii.eqb c "-")
                        (toLowerCase s)) = true.
Proof.
  unfold toLowerCase. induction s as [|c s IH]; cbn [mapChars filterChars]; [reflexivity|].
  destruct (isWord (toLowerChar c) || isSpace (toLowerChar c) || Ascii.eqb (toLowerChar c) "-")
    eqn:Hk; [|exact IH].
  cbn [allChars]. rewrite (kept_lowered_char c Hk), IH. reflexivity.
Qed.

Lemma replaceSpaceRuns_slug s :
  allChars (fun c => isSlugChar c || isSpace c) s = true ->
  forall b, allChars isSlugChar (replaceSpaceRuns "-" b s) = true.
Proof.
  induction s as [|c s IH]; cbn [allChars replaceSpaceRuns]; [reflexivity|].
  intros H b. apply andb_true_iff in H as [Hc Hs].
  destruct (isSpace c) eqn:Hsp.
  - destruct b; [apply IH; exact Hs|]. cbn [allChars]. rewrite IH by exact Hs. reflexivity.
  - rewrite orb_false_r in Hc. cbn [allChars]. rewrite Hc, IH by exact Hs. reflexivity.
Qed.

Lemma slug_fixed s :
  allChars isSlugChar s = true ->
  toLowerCase s = s
  /\ filterChars (fun c => isWord c || isSpace c || Ascii.eqb c "-") s = s
  /\ forall b, replaceSpaceRuns "-" b s = s.
Proof.
  unfold toLowerCase.
  induction s as [|c s IH]; cbn [allChars mapChars filterChars replaceSpaceRuns]; [auto|].
  intros H. apply andb_true_iff in H as [Hc Hs]. destruct (IH Hs) as (H1 & H2 & H3).
  rewrite (slug_char_lower c Hc), (slug_char_kept c Hc), (slug_char_no_space c Hc), H1, H2.
  split; [reflexivity|]. split; [reflexivity|]. intros b. rewrite H3. reflexivity.
Qed.

Lemma squeezeHyphens_slug s :
  allChars isSlugChar s = true -> forall b, allChars isSlugChar (squeezeHyphens b s) = true.
Proof.
  induction s as [|c s IH]; cbn [allChars squeezeHyphens]; [reflexivity|].
  intros H b. apply andb_true_iff in H as [Hc Hs].
  destruct (Ascii.eqb c "-"); [destruct b|]; cbn [allChars]; rewrite ?Hc, IH; auto.
Qed.

Lemma squeezeHyphens_single s :
  forall b, singleHyphens (squeezeHyphens b s) = true
            /\ (b = true -> firstChar (squeezeHyphens b s) <> Some "-"%char).
Proof.
  induction s as [|c s IH]; intros b; cbn [squeezeHyphens]; [split; [reflexivity|discriminate]|].
  destruct (Ascii.eqb_spec c "-") as [->|Hc].
  - destruct b; [apply IH|]. destruct (IH true) as [H1 H2]. split; [|discriminate].
    cbn [singleHyphens]. destruct (squeezeHyphens true s) as [|c' s'] eqn:Hs; [reflexivity|].
    rewrite H1. destruct (Ascii.eqb_spec c' "-") as [->|]; [|reflexivity].
    exfalso. apply H2; reflexivity.
  - destruct (IH false) as [H1 _]. split.
    + cbn [singleHyphens]. destruct (squeezeHyphens false s) as [|c' s'] eqn:Hs; [reflexivity|].
      rewrite H1. destruct (Ascii.eqb_spec c "-"); [contradiction|reflexivity].
    + intros _. cbn. congruence.
Qed.

Lemma squeezeHyphens_fixed s :
  forall b, singleHyphens s = true -> (b = true -> firstChar s <> Some "-"%char) ->
            squeezeHyphens b s = s.
Proof.
  induction s as [|c s IH]; intros b Hs Hb; cbn [squeezeHyphens]; [reflexivity|].
  assert (Hs' : singleHyphens s = true).
  { cbn [singleHyphens] in Hs. destruct s; [reflexivity|].
    apply andb_true_iff in Hs. tauto. }
  destruct (Ascii.eqb_spec c "-") as [->|Hc].
  - destruct b; [exfalso; apply Hb; reflexivity|].
    f_equal. apply IH; [exact Hs'|]. intros _.
    cbn [singleHyphens] in Hs. destruct s as [|c' s']; [discriminate|].
    cbn. apply andb_true_iff in Hs as [Hs _]. cbn in Hs.
    destruct (Ascii.eqb_spec c' "-"); [discriminate|congruence].
  - f_equal. apply IH; [exact Hs'|discriminate].
Qed.

Lemma dropEndChars_fixed (p : ascii -> bool) s :
  allChars (fun c => negb (p c)) s = true -> dropEndChars p s = s.
Proof.
  induction s as [|c s IH]; cbn [allChars dropEndChars]; [reflexivity|].
  intros H. apply andb_true_iff in H as [Hc Hs]. rewrite IH by exact Hs.
  destruct s; [|reflexivity]. destruct (p c); [discriminate|reflexivity].
Qed.

Lemma dropWhileChars_fixed (p : ascii -> bool) s :
  allChars (fun c => negb (p c)) s = true -> dropWhileChars p s = s.
Proof.
  destruct s as [|c s]; cbn [allChars dropWhileChars]; [reflexivity|].
  intros H. apply andb_true_iff in H as [Hc Hs]. destruct (p c); [discriminate|reflexivity].
Qed.

Lemma trim_fixed s : allChars isSlugChar s = true -> trim s = s.
Proof.
  intros H. unfold trim.
  assert (Hs : allChars (fun c => negb (isSpace c)) s = true).
  { eapply allChars_impl; [|exact H]. intros c Hc. rewrite (slug_char_no_space c Hc).
    reflexivity. }
  rewrite dropWhileChars_fixed by exact Hs. apply dropEndChars_fixed. exact Hs.
Qed.

(** X23.  A normalised file name holds only lower-case letters, digits,
    underscores and single hyphens, and normalising it again changes
    nothing.  The closing [trim] never removes anything, since every
    white space is a hyphen by then: a name that starts or ends with a
    blank keeps a hyphen there. *)
Theorem normalizeFilename_is_stable (filename : string) :
  let name := VaultUtils.normalizeFilename filename in
  allChars isSlugChar name = true
  /\ singleHyphens name = true
  /\ VaultUtils.normalizeFilename name = name
  /\ name
     = squeezeHyphens false
         (replaceSpaceRuns "-" false
            (filterChars (fun c => isWord c || isSpace c || Ascii.eqb c "-")
                         (toLowerCase filename))).
Proof.
  cbv zeta. unfold VaultUtils.normalizeFilename.
  set (squeezed := squeezeHyphens false _).
  assert (Hslug : allChars isSlugChar squeezed = true).
  { subst squeezed. apply squeezeHyphens_slug, replaceSpaceRuns_slug, kept_lowered. }
  assert (Hsingle : singleHyphens squeezed = true) by (apply squeezeHyphens_single).
  rewrite (trim_fixed squeezed Hslug).
  split; [exact Hslug|]. split; [exact Hsingle|]. split; [|reflexivity].
  destruct (slug_fixed squeezed Hslug) as (-> & -> & ->).
  rewrite squeezeHyphens_fixed by (exact Hsingle || discriminate).
  apply trim_fixed. exact Hslug.
Qed.

Lemma dropWhileChars_spec (p q : ascii -> bool) s :
  allChars q s = true ->
  allChars q (dropWhileChars p s) = true
  /\ (forall c, firstChar (dropWhileChars p s) = Some c -> p c = false).
Proof.
  induction s as [|c s IH]; cbn [allChars dropWhileChars]; [split; [reflexivity|discriminate]|].
  intros H. apply andb_true_iff in H as [Hc Hs]. destruct (p c) eqn:Hp; [apply IH; exact Hs|].
  split; [cbn; rewrite Hc, Hs; reflexivity|]. cbn. intros c' [= <-]. exact Hp.
Qed.

Lemma dropEndChars_spec (p q : ascii -> bool) s :
  allChars q s = true ->
  (forall c, firstChar s = Some c -> p c = false) ->
  allChars q (dropEndChars p s) = true
  /\ (forall c, firstChar (dropEndChars p s) = Some c -> p c = false)
  /\ (forall c, lastChar (dropEndChars p s) = Some c -> p c = false).
Proof.
  intros Hq Hfirst.
  assert (H : allChars q (dropEndChars p s) = true
              /\ (forall c, lastChar (dropEndChars p s) = Some c -> p c = false)
              /\ (forall c, firstChar (dropEndChars p s) = Some c -> firstChar s = Some c)).
  { clear Hfirst. induction s as [|c s IH]; cbn [allChars dropEndChars] in *.
    - split; [reflexivity|]. split; discriminate.
    - apply andb_true_iff in Hq as [Hc Hs]. destruct (IH Hs) as (H1 & H2 & H3).
      destruct (dropEndChars p s) as [|c' s'] eqn:Hd.
      + destruct (p c) eqn:Hp; cbn.
        * split; [reflexivity|]. split; discriminate.
        * rewrite Hc. split; [reflexivity|]. split; [intros ? [= <-]; exact Hp|auto].
      + split; [cbn [allChars] in *; rewrite Hc, H1; reflexivity|].
        split; [|cbn; auto]. intros c0 Hc0. apply H2. exact Hc0. }
  destruct H as (H1 & H2 & H3). split; [exact H1|]. split; [|exact H2].
  intros c Hc. apply Hfirst, H3. exact Hc.
Qed.

Lemma dropWhileChars_first (p : ascii -> bool) s :
  (forall c, firstChar s = Some c -> p c = false) -> dropWhileChars p s = s.
Proof.
  destruct s as [|c s]; cbn; [reflexivity|]. intros H. rewrite (H c eq_refl). reflexivity.
Qed.

Lemma dropEndChars_last (p : ascii -> bool) s :
  (forall c, lastChar s = Some c -> p c = false) -> dropEndChars p s = s.
Proof.
  induction s as [|c s IH]; cbn [dropEndChars]; [reflexivity|].
  intros H. destruct s as [|c' s'].
  - cbn. rewrite (H c eq_refl). reflexivity.
  - rewrite IH by (intros c0 Hc0; apply H; exact Hc0). reflexivity.
Qed.

(** X24.  A slug holds only lower-case letters, digits, underscores
    and hyphens, does not start or end with a hyphen, and is its own
    slug: [createSlug(createSlug(text)) = createSlug(text)]. *)
Theorem createSlug_is_idempotent (text : string) :
  let slug := Parser.createSlug text in
  allChars isSlugChar slug = true
  /\ firstChar slug <> Some "-"%char
  /\ lastChar slug <> Some "-"%char
  /\ Parser.createSlug slug = slug.
Proof.
  cbv zeta. set (slug := Parser.createSlug text).
  assert (H : allChars isSlugChar slug = true
              /\ (forall c, firstChar slug = Some c -> Ascii.eqb c "-" = false)
              /\ (forall c, lastChar slug = Some c -> Ascii.eqb c "-" = false)).
  { subst slug. unfold Parser.createSlug.
    set (hyphenated := replaceSpaceRuns "-" false _).
    assert (Hh : allChars isSlugChar hyphenated = true)
      by (subst hyphenated; apply replaceSpaceRuns_slug, kept_lowered).
    destruct (dropWhileChars_spec (fun c => Ascii.eqb c "-") isSlugChar hyphenated Hh)
      as [Hw1 Hw2].
    apply (dropEndChars_spec (fun c => Ascii.eqb c "-") isSlugChar _ Hw1 Hw2). }
  clearbody slug. destruct H as (He1 & He2 & He3).
  split; [exact He1|].
  split; [intros H; specialize (He2 _ H); discriminate|].
  split; [intros H; specialize (He3 _ H); discriminate|].
  unfold Parser.createSlug. destruct (slug_fixed slug He1) as (-> & -> & ->).
  rewrite dropWhileChars_first by exact He2. apply dropEndChars_last. exact He3.
Qed.

End Strings.

Example createSlug_sample :
  Parser.createSlug "  Hello, World! -- Part 2 " = "hello-world----part-2".
Proof. reflexivity. Qed.

Example normalizeFilename_sample :
  VaultUtils.normalizeFilename " My  File--name.md " = "-my-file-namemd-".
Proof. reflexivity. Qed.

Example getWords_sample :
  SearchUtils.getWords "  Project notes: see B; re-read it_all" = ["project"; "notes"; "read"; "it_all"].
Proof. vm_compute. reflexivity. Qed.

(** ** Links in the text *)

Section LinkText.
Import Parser.

Lemma append_cons c (s t : string) : (String c s ++ t)%string = String c (s ++ t)%string.
Proof. reflexivity. Qed.

Lemma append_nil_l (t : string) : ("" ++ t)%string = t.
Proof. reflexivity. Qed.

Lemma append_assoc (a b c : string) : ((a ++ b) ++ c)%string = (a ++ (b ++ c))%string.
Proof.
  induction a as [|x a IH]; [reflexivity|]. rewrite !append_cons, IH. reflexivity.
Qed.

Lemma untilChar_spec stop s :
  s = (fst (untilChar stop s) ++ snd (untilChar stop s))%string
  /\ includesChar stop (fst (untilChar stop s)) = false
  /\ (snd (untilChar stop s) = ""
      \/ exists rest, snd (untilChar stop s) = String stop rest).
Proof.
  induction s as [|c s (IH1 & IH2 & IH3)]; cbn [untilChar].
  - split; [reflexivity|]. split; [reflexivity|]. left. reflexivity.
  - destruct (Ascii.eqb_spec c stop) as [->|Hc]; cbn [fst snd].
    + split; [reflexivity|]. split; [reflexivity|]. right. eauto.
    + rewrite append_cons, <- IH1. split; [reflexivity|]. split; [|exact IH3].
      cbn [includesChar]. rewrite IH2.
      destruct (Ascii.eqb_spec stop c); [congruence|reflexivity].
Qed.

Lemma untilChar_app stop (a rest : string) :
  includesChar stop a = false ->
  untilChar stop (a ++ String stop rest) = (a, String stop rest).
Proof.
  induction a as [|c a IH]; cbn [includesChar].
  - intros _. rewrite append_nil_l. cbn. rewrite Ascii.eqb_refl. reflexivity.
  - intros H. apply orb_false_iff in H as [Hc Ha].
    rewrite append_cons. cbn [untilChar]. rewrite Ascii.eqb_sym, Hc, (IH Ha). reflexivity.
Qed.

(** A match of the wiki expression is the text of a link. *)
Lemma matchWikiLink_shape s inner :
  matchWikiLink s = Some inner ->
  inner <> ""
  /\ includesChar "]" inner = false
  /\ exists rest, s = ("[[" ++ inner ++ "]]" ++ rest)%string.
Proof.
  unfold matchWikiLink. destruct s as [|c1 [|c2 s1]]; try discriminate.
  destruct (Ascii.eqb_spec c1 "[") as [->|]; [|discriminate].
  destruct (Ascii.eqb_spec c2 "[") as [->|]; [|discriminate]. cbn [andb].
  destruct (untilChar_spec "]" s1) as (Hs1 & Hno & Hrest).
  destruct (untilChar "]" s1) as [a b]. cbn [fst snd] in *.
  destruct a as [|ca a]; [discriminate|].
  destruct b as [|cb [|c4 b]]; try discriminate.
  destruct (Ascii.eqb_spec c4 "]") as [->|]; [|discriminate].
  intros [= <-]. split; [discriminate|]. split; [exact Hno|].
  destruct Hrest as [|[rest' [= -> _]]]; [discriminate|].
  exists b. rewrite Hs1. rewrite !append_cons, !append_nil_l. reflexivity.
Qed.

Lemma matchWikiLink_here inner rest :
  inner <> "" -> includesChar "]" inner = false ->
  matchWikiLink ("[[" ++ inner ++ "]]" ++ rest) = Some inner.
Proof.
  intros Hne Hno. rewrite !append_cons, !append_nil_l.
  unfold matchWikiLink. cbn [Ascii.eqb Bool.eqb andb].
  change ("]]" ++ rest)%string with (String "]" (String "]" rest)).
  rewrite (untilChar_app "]" inner _ Hno).
  destruct inner; [congruence|]. reflexivity.
Qed.

Lemma matchWikiLink_other c s :
  c <> "["%char -> matchWikiLink (String c s) = None.
Proof.
  intros Hc. unfold matchWikiLink. destruct s; [reflexivity|].
  destruct (Ascii.eqb_spec c "["); [contradiction|reflexivity].
Qed.

(** Scanning past the characters of a match. *)
Lemma wikiLinksFrom_skip (pre rest : string) :
  forall pos,
    wikiLinksFrom pos (String.length pre) (pre ++ rest)
    = wikiLinksFrom (pos + String.length pre) 0 rest.
Proof.
  induction pre as [|c pre IH]; intros pos.
  - rewrite append_nil_l. cbn [String.length]. rewrite Nat.add_0_r. reflexivity.
  - rewrite append_cons. cbn [String.length wikiLinksFrom]. rewrite IH.
    f_equal. lia.
Qed.

Lemma replaceWikiLinks_skip callback (pre rest : string) :
  replaceWikiLinks callback (String.length pre) (pre ++ rest)
  = replaceWikiLinks callback 0 rest.
Proof.
  induction pre as [|c pre IH].
  - rewrite append_nil_l. reflexivity.
  - rewrite append_cons. cbn [String.length replaceWikiLinks]. exact IH.
Qed.

(** One step of the two scans at a match. *)
Lemma wikiLinksFrom_match pos inner rest :
  inner <> "" -> includesChar "]" inner = false ->
  wikiLinksFrom pos 0 ("[[" ++ inner ++ "]]" ++ rest)
  = wikiLinkAt pos inner :: wikiLinksFrom (pos + (String.length inner + 4)) 0 rest.
Proof.
  intros Hne Hno.
  pose proof (matchWikiLink_here inner rest Hne Hno) as Hm.
  rewrite append_cons in *. cbn [wikiLinksFrom]. rewrite Hm. f_equal.
  change ("[" ++ inner ++ "]]" ++ rest)%string
    with (String "[" (inner ++ "]]" ++ rest))%string.
  replace (String "[" (inner ++ "]]" ++ rest))%string
    with ((String "[" (inner ++ "]]")) ++ rest)%string
    by (rewrite append_cons, append_assoc; reflexivity).
  replace (String.length inner + 3)%nat with (String.length (String "[" (inner ++ "]]")))
    by (cbn [String.length]; rewrite length_append; cbn; lia).
  rewrite wikiLinksFrom_skip. f_equal. cbn [String.length]. rewrite length_append. cbn. lia.
Qed.

Lemma replaceWikiLinks_match callback inner rest :
  inner <> "" -> includesChar "]" inner = false ->
  replaceWikiLinks callback 0 ("[[" ++ inner ++ "]]" ++ rest)
  = (callback ("[[" ++ inner ++ "]]") inner ++ replaceWikiLinks callback 0 rest)%string.
Proof.
  intros Hne Hno.
  pose proof (matchWikiLink_here inner rest Hne Hno) as Hm.
  rewrite append_cons in Hm. rewrite append_cons at 1. cbn [replaceWikiLinks]. rewrite Hm.
  f_equal.
  change ("[" ++ inner ++ "]]" ++ rest)%string
    with (String "[" (inner ++ "]]" ++ rest))%string.
  replace (String "[" (inner ++ "]]" ++ rest))%string
    with ((String "[" (inner ++ "]]")) ++ rest)%string
    by (rewrite append_cons, append_assoc; reflexivity).
  replace (String.length inner + 3)%nat with (String.length (String "[" (inner ++ "]]")))
    by (cbn [String.length]; rewrite length_append; cbn; lia).
  apply replaceWikiLinks_skip.
Qed.


Lemma matchMarkdownLink_shape s text target_ :
  matchMarkdownLink s = Some (text, target_) ->
  exists rest, s = ("[" ++ text ++ "](" ++ target_ ++ ")" ++ rest)%string.
Proof.
  unfold matchMarkdownLink. destruct s as [|c1 s1]; [discriminate|].
  destruct (Ascii.eqb_spec c1 "[") as [->|]; [|discriminate].
  destruct (untilChar_spec "]" s1) as (Hs1 & _ & Hrest).
  destruct (untilChar "]" s1) as [a b]. cbn [fst snd] in *.
  destruct b as [|cb [|c3 s2]]; try discriminate.
  destruct (Ascii.eqb_spec c3 "(") as [->|]; [|discriminate].
  destruct Hrest as [|[rest' [= -> _]]]; [discriminate|].
  destruct (untilChar_spec ")" s2) as (Hs2 & _ & Hrest2).
  destruct (untilChar ")" s2) as [a2 b2]. cbn [fst snd] in *.
  destruct a2 as [|ca a2]; [discriminate|].
  destruct b2 as [|cb2 b2]; [discriminate|].
  destruct Hrest2 as [|[rest2 [= -> _]]]; [discriminate|].
  intros [= <- <-]. exists b2. rewrite Hs1, Hs2.
  rewrite !append_cons, !append_nil_l. reflexivity.
Qed.

Lemma matchMarkdownLink_other c s :
  c <> "["%char -> matchMarkdownLink (String c s) = None.
Proof.
  intros Hc. unfold matchMarkdownLink.
  destruct (Ascii.eqb_spec c "["); [contradiction|reflexivity].
Qed.

Lemma markdownLinksFrom_skip (pre rest : string) :
  forall pos,
    markdownLinksFrom pos (String.length pre) (pre ++ rest)
    = markdownLinksFrom (pos + String.length pre) 0 rest.
Proof.
  induction pre as [|c pre IH]; intros pos.
  - rewrite append_nil_l. cbn [String.length]. rewrite Nat.add_0_r. reflexivity.
  - rewrite append_cons. cbn [String.length markdownLinksFrom]. rewrite IH.
    f_equal. lia.
Qed.

Lemma replaceMarkdownLinks_skip callback (pre rest : string) :
  replaceMarkdownLinks callback (String.length pre) (pre ++ rest)
  = replaceMarkdownLinks callback 0 rest.
Proof.
  induction pre as [|c pre IH].
  - rewrite append_nil_l. reflexivity.
  - rewrite append_cons. cbn [String.length replaceMarkdownLinks]. exact IH.
Qed.

(** One step of the two markdown scans at a match. *)
Lemma markdown_match_step s text target_ :
  matchMarkdownLink s = Some (text, target_) ->
  exists rest,
    s = (("[" ++ text ++ "](" ++ target_ ++ ")") ++ rest)%string
    /\ (forall callback,
          replaceMarkdownLinks callback 0 s
          = (callback ("[" ++ text ++ "](" ++ target_ ++ ")") text target_
             ++ replaceMarkdownLinks callback 0 rest)%string)
    /\ (forall pos,
          markdownLinksFrom pos 0 s
          = markdownLinkAt pos text target_
            :: markdownLinksFrom (pos + (String.length text + String.length target_ + 4)) 0 rest).
Proof.
  intros Hm. destruct (matchMarkdownLink_shape _ _ _ Hm) as [rest Hs].
  exists rest. split; [rewrite Hs, !append_assoc; reflexivity|].
  assert (Hlen : String.length (text ++ "](" ++ target_ ++ ")")
                 = (String.length text + String.length target_ + 3)%nat).
  { rewrite !length_append. cbn. lia. }
  assert (Htail : exists tail, s = String "[" (tail ++ rest)
                    /\ String.length tail = (String.length text + String.length target_ + 3)%nat).
  { exists (text ++ "](" ++ target_ ++ ")")%string. split; [|exact Hlen].
    rewrite Hs, append_cons, append_nil_l, !append_assoc. reflexivity. }
  destruct Htail as (tail & Htail & Htl). subst s. rewrite Htail in Hm.
  split.
  - intros callback. rewrite Htail. cbn [replaceMarkdownLinks]. rewrite Hm.
    f_equal. rewrite <- Htl. apply replaceMarkdownLinks_skip.
  - intros pos. rewrite Htail. cbn [markdownLinksFrom]. rewrite Hm. f_equal.
    rewrite <- Htl, markdownLinksFrom_skip. f_equal. lia.
Qed.

(** The same for the wiki scans. *)
Lemma wiki_match_step s inner :
  matchWikiLink s = Some inner ->
  exists rest,
    s = (("[[" ++ inner ++ "]]") ++ rest)%string
    /\ inner <> "" /\ includesChar "]" inner = false
    /\ (forall callback,
          replaceWikiLinks callback 0 s
          = (callback ("[[" ++ inner ++ "]]") inner
             ++ replaceWikiLinks callback 0 rest)%string)
    /\ (forall pos,
          wikiLinksFrom pos 0 s
          = wikiLinkAt pos inner :: wikiLinksFrom (pos + (String.length inner + 4)) 0 rest).
Proof.
  intros Hm. destruct (matchWikiLink_shape _ _ Hm) as (Hne & Hno & rest & Hs).
  exists rest. subst s. split; [rewrite !append_assoc; reflexivity|].
  split; [exact Hne|]. split; [exact Hno|]. split.
  - intros callback. apply replaceWikiLinks_match; assumption.
  - intros pos. apply wikiLinksFrom_match; assumption.
Qed.

(** *** A rename that concerns no link *)

Lemma replaceWikiLinks_unchanged callback (named : string -> bool) :
  (forall whole inner, named (fst (wikiParts inner)) = false -> callback whole inner = whole) ->
  forall n s pos,
    (String.length s <= n)%nat ->
    (forall l, l ∈ wikiLinksFrom pos 0 s -> named (target l) = false) ->
    replaceWikiLinks callback 0 s = s.
Proof.
  intros Hcb. induction n as [|n IH]; intros s pos Hn Hall.
  - destruct s; [reflexivity|cbn in Hn; lia].
  - destruct s as [|c s']; [reflexivity|].
    destruct (matchWikiLink (String c s')) as [inner|] eqn:Hm.
    + destruct (wiki_match_step _ _ Hm) as (rest & Hs & _ & _ & Hrep & Hlinks).
      rewrite Hrep. rewrite Hlinks in Hall.
      rewrite Hcb by (apply (Hall (wikiLinkAt pos inner)); apply elem_of_cons; left; reflexivity).
      rewrite (IH rest (pos + (String.length inner + 4))%nat).
      * symmetry. exact Hs.
      * apply (f_equal String.length) in Hs. rewrite !length_append in Hs.
        cbn [String.length] in Hs, Hn. lia.
      * intros l Hl. apply Hall. apply elem_of_cons. right. exact Hl.
    + cbn [replaceWikiLinks wikiLinksFrom] in *. rewrite Hm in *.
      f_equal. apply (IH s' (S pos)); [cbn in Hn; lia|exact Hall].
Qed.

Lemma replaceMarkdownLinks_unchanged callback (named : string -> bool) :
  (forall whole text target_, named target_ = false -> callback whole text target_ = whole) ->
  forall n s pos,
    (String.length s <= n)%nat ->
    (forall l, l ∈ markdownLinksFrom pos 0 s -> named (target l) = false) ->
    replaceMarkdownLinks callback 0 s = s.
Proof.
  intros Hcb. induction n as [|n IH]; intros s pos Hn Hall.
  - destruct s; [reflexivity|cbn in Hn; lia].
  - destruct s as [|c s']; [reflexivity|].
    destruct (matchMarkdownLink (String c s')) as [[text target_]|] eqn:Hm.
    + destruct (markdown_match_step _ _ _ Hm) as (rest & Hs & Hrep & Hlinks).
      rewrite Hrep. rewrite Hlinks in Hall.
      rewrite Hcb
        by (apply (Hall (markdownLinkAt pos text target_)); apply elem_of_cons; left; reflexivity).
      rewrite (IH rest (pos + (String.length text + String.length target_ + 4))%nat).
      * symmetry. exact Hs.
      * apply (f_equal String.length) in Hs. rewrite !length_append in Hs.
        cbn [String.length] in Hs, Hn. lia.
      * intros l Hl. apply Hall. apply elem_of_cons. right. exact Hl.
    + cbn [replaceMarkdownLinks markdownLinksFrom] in *. rewrite Hm in *.
      f_equal. apply (IH s' (S pos)); [cbn in Hn; lia|exact Hall].
Qed.

Lemma insertByStart_elem x l sorted :
  l ∈ insertByStart x sorted <-> l = x \/ l ∈ sorted.
Proof.
  induction sorted as [|y rest IH]; cbn [insertByStart].
  - rewrite list_elem_of_singleton. rewrite elem_of_nil. tauto.
  - destruct (_ <=? _)%nat; rewrite !elem_of_cons; [rewrite IH|]; tauto.
Qed.

Lemma sortByStart_elem l xs acc :
  l ∈ fold_left (fun acc x => insertByStart x acc) xs acc <-> l ∈ xs \/ l ∈ acc.
Proof.
  revert acc. induction xs as [|x xs IH]; intros acc; cbn [fold_left].
  - rewrite elem_of_nil. tauto.
  - rewrite IH, insertByStart_elem, elem_of_cons. tauto.
Qed.

Lemma extractAllLinks_elem l content :
  l ∈ extractAllLinks content
  <-> l ∈ extractWikiLinks content \/ l ∈ extractMarkdownLinks content.
Proof.
  unfold extractAllLinks. rewrite sortByStart_elem, elem_of_app, elem_of_nil. tauto.
Qed.

(** X25.  When none of the links that
    [extractAllLinks] finds in a text has the old path, with or without
    its [.md], as its target, [updateLinks] returns the text as it is, and
    so does [removeLink]. *)
Theorem links_to_other_notes_are_left_alone (content oldPath newPath : string) :
  (forall l, l ∈ extractAllLinks content -> namesPath (target l) oldPath = false) ->
  updateLinks content oldPath newPath = content
  /\ removeLink content oldPath = content.
Proof.
  intros Hall.
  assert (Hw : forall l, l ∈ wikiLinksFrom 0 0 content -> namesPath (target l) oldPath = false).
  { intros l Hl. apply Hall, extractAllLinks_elem. left. exact Hl. }
  assert (Hm : forall l, l ∈ markdownLinksFrom 0 0 content -> namesPath (target l) oldPath = false).
  { intros l Hl. apply Hall, extractAllLinks_elem. right. exact Hl. }
  split.
  - unfold updateLinks.
    rewrite (replaceWikiLinks_unchanged _ (fun t => namesPath t oldPath))
      with (n := String.length content) (pos := 0%nat); [|..|exact Hw]; [|..|lia].
    + apply (replaceMarkdownLinks_unchanged _ (fun t => namesPath t oldPath))
        with (n := String.length content) (pos := 0%nat); [|lia|exact Hm].
      intros whole text target_ ->. reflexivity.
    + intros whole inner. destruct (wikiParts inner) as [t d]. cbn [fst].
      intros ->. reflexivity.
  - unfold removeLink.
    rewrite (replaceWikiLinks_unchanged _ (fun t => namesPath t oldPath))
      with (n := String.length content) (pos := 0%nat); [|..|exact Hw]; [|..|lia].
    + apply (replaceMarkdownLinks_unchanged _ (fun t => namesPath t oldPath))
        with (n := String.length content) (pos := 0%nat); [|lia|exact Hm].
      intros whole text target_ ->. reflexivity.
    + intros whole inner. destruct (wikiParts inner) as [t d]. cbn [fst].
      intros ->. reflexivity.
Qed.


(** *** Where the links are *)

Lemma inTextOrder_from lo lo' links :
  (lo' <= lo)%nat -> inTextOrder lo links -> inTextOrder lo' links.
Proof.
  destruct links as [|l rest]; [trivial|]. cbn [inTextOrder].
  intros Hlo (H1 & H2 & H3). split; [lia|]. split; assumption.
Qed.

Lemma wikiLinksFrom_located :
  forall n s pos,
    (String.length s <= n)%nat ->
    (forall l, l ∈ wikiLinksFrom pos 0 s ->
       exists before inner after,
         s = (before ++ "[[" ++ inner ++ "]]" ++ after)%string
         /\ inner <> "" /\ includesChar "]" inner = false
         /\ l = wikiLinkAt (pos + String.length before) inner)
    /\ inTextOrder pos (wikiLinksFrom pos 0 s).
Proof.
  induction n as [|n IH]; intros s pos Hn.
  - destruct s; [|cbn in Hn; lia]. cbn. split; [|exact I].
    intros l Hl. apply elem_of_nil in Hl. contradiction.
  - destruct s as [|c s'].
    { cbn. split; [|exact I]. intros l Hl. apply elem_of_nil in Hl. contradiction. }
    destruct (matchWikiLink (String c s')) as [inner|] eqn:Hm.
    + destruct (wiki_match_step _ _ Hm) as (rest & Hs & Hne & Hno & _ & Hlinks).
      rewrite Hlinks.
      assert (Hlen : (String.length rest <= n)%nat).
      { apply (f_equal String.length) in Hs. rewrite !length_append in Hs.
        cbn [String.length] in Hs, Hn. lia. }
      destruct (IH rest (pos + (String.length inner + 4))%nat Hlen) as [Hloc Hord].
      split.
      * intros l Hl. apply elem_of_cons in Hl as [->|Hl].
        -- exists ""%string, inner, rest. rewrite append_nil_l.
           split; [rewrite Hs, !append_assoc; reflexivity|].
           split; [exact Hne|]. split; [exact Hno|].
           cbn [String.length]. rewrite Nat.add_0_r. reflexivity.
        -- destruct (Hloc l Hl) as (before & inner' & after & Hrest & Hne' & Hno' & ->).
           exists ("[[" ++ inner ++ "]]" ++ before)%string, inner', after.
           split; [rewrite Hs, Hrest, !append_assoc; reflexivity|].
           split; [exact Hne'|]. split; [exact Hno'|].
           f_equal. rewrite !length_append. cbn [String.length]. lia.
      * cbn [inTextOrder wikiLinkAt position fst snd].
        split; [lia|]. split; [lia|]. exact Hord.
    + cbn [wikiLinksFrom]. rewrite Hm.
      assert (Hlen : (String.length s' <= n)%nat) by (cbn in Hn; lia).
      destruct (IH s' (S pos) Hlen) as [Hloc Hord]. split.
      * intros l Hl.
        destruct (Hloc l Hl) as (before & inner' & after & Hrest & Hne' & Hno' & ->).
        exists (String c before), inner', after.
        split; [rewrite append_cons, <- Hrest; reflexivity|].
        split; [exact Hne'|]. split; [exact Hno'|].
        f_equal. cbn [String.length]. lia.
      * apply (inTextOrder_from (S pos)); [lia|exact Hord].
Qed.

(** X26.  Every link that
    [extractWikiLinks] reports stands in the text: the text is what comes
    before the link, two opening brackets, a non-empty inside without a
    closing bracket, two closing brackets and what comes after; the
    reported position is where the link starts and ends, and the target
    and the display text are the trimmed pieces of the inside.  The links
    are reported in the order of the text and do not overlap. *)
Theorem wiki_links_are_found_where_they_stand (content : string) :
  (forall l, l ∈ extractWikiLinks content ->
     exists before inner after,
       content = (before ++ "[[" ++ inner ++ "]]" ++ after)%string
       /\ inner <> "" /\ includesChar "]" inner = false
       /\ type l = wiki
       /\ position l = (String.length before, String.length before + (String.length inner + 4))%nat
       /\ target l = Js.trim (nth 0 (splitChar "|" "" inner) "")
       /\ displayText l = Js.trim <$> nth_error (splitChar "|" "" inner) 1)
  /\ inTextOrder 0 (extractWikiLinks content).
Proof.
  destruct (wikiLinksFrom_located (String.length content) content 0 (le_n _)) as [Hloc Hord].
  split; [|exact Hord].
  intros l Hl. destruct (Hloc l Hl) as (before & inner & after & Hs & Hne & Hno & ->).
  exists before, inner, after.
  split; [exact Hs|]. split; [exact Hne|]. split; [exact Hno|].
  unfold wikiLinkAt, wikiParts. cbn [target displayText position type fst snd].
  split; [reflexivity|]. split; [reflexivity|]. split.
  - exact (map_nth Js.trim _ ""%string 0).
  - rewrite nth_error_map. reflexivity.
Qed.

(** *** One link in a text *)

Lemma wikiLinksFrom_plain (a s : string) :
  includesChar "[" a = false ->
  forall pos, wikiLinksFrom pos 0 (a ++ s) = wikiLinksFrom (pos + String.length a) 0 s.
Proof.
  induction a as [|c a IH]; cbn [includesChar]; intros H pos.
  - rewrite append_nil_l. cbn. rewrite Nat.add_0_r. reflexivity.
  - apply orb_false_iff in H as [Hc Ha]. rewrite append_cons.
    cbn [wikiLinksFrom]. rewrite matchWikiLink_other.
    + rewrite (IH Ha). f_equal. cbn [String.length]. lia.
    + intros ->. rewrite Ascii.eqb_refl in Hc. discriminate.
Qed.

Lemma wikiLinksFrom_plain_end (a : string) :
  includesChar "[" a = false -> forall pos, wikiLinksFrom pos 0 a = [].
Proof.
  induction a as [|c a IH]; cbn [includesChar]; intros H pos; [reflexivity|].
  apply orb_false_iff in H as [Hc Ha].
  cbn [wikiLinksFrom]. rewrite matchWikiLink_other; [apply (IH Ha)|].
  intros ->. rewrite Ascii.eqb_refl in Hc. discriminate.
Qed.

Lemma replaceWikiLinks_plain callback (a s : string) :
  includesChar "[" a = false ->
  replaceWikiLinks callback 0 (a ++ s) = (a ++ replaceWikiLinks callback 0 s)%string.
Proof.
  induction a as [|c a IH]; cbn [includesChar]; intros H.
  - rewrite !append_nil_l. reflexivity.
  - apply orb_false_iff in H as [Hc Ha]. rewrite !append_cons.
    cbn [replaceWikiLinks]. rewrite matchWikiLink_other.
    + rewrite (IH Ha). reflexivity.
    + intros ->. rewrite Ascii.eqb_refl in Hc. discriminate.
Qed.

Lemma replaceWikiLinks_plain_end callback (a : string) :
  includesChar "[" a = false -> replaceWikiLinks callback 0 a = a.
Proof.
  induction a as [|c a IH]; cbn [includesChar]; intros H; [reflexivity|].
  apply orb_false_iff in H as [Hc Ha].
  cbn [replaceWikiLinks]. rewrite matchWikiLink_other; [rewrite (IH Ha); reflexivity|].
  intros ->. rewrite Ascii.eqb_refl in Hc. discriminate.
Qed.

Lemma includesChar_append c (a b : string) :
  includesChar c (a ++ b) = includesChar c a || includesChar c b.
Proof.
  induction a as [|x a IH]; [reflexivity|].
  rewrite append_cons. cbn [includesChar]. rewrite IH, orb_assoc. reflexivity.
Qed.

Lemma splitChar_plain sep (a : string) :
  includesChar sep a = false ->
  forall cur rest,
    splitChar sep cur (a ++ rest) = splitChar sep (cur ++ a) rest.
Proof.
  induction a as [|c a IH]; cbn [includesChar]; intros H cur rest.
  - rewrite append_nil_l. f_equal. clear. induction cur as [|x cur IH]; [reflexivity|].
    rewrite append_cons, <- IH. reflexivity.
  - apply orb_false_iff in H as [Hc Ha]. rewrite append_cons. cbn [splitChar].
    rewrite Ascii.eqb_sym, Hc, (IH Ha). f_equal.
    rewrite append_assoc. reflexivity.
Qed.

Lemma append_nil_r (a : string) : (a ++ "")%string = a.
Proof. induction a as [|x a IH]; [reflexivity|]. rewrite append_cons, IH. reflexivity. Qed.

Lemma wikiParts_plain (t : string) :
  includesChar "|" t = false -> wikiParts t = (Js.trim t, None).
Proof.
  intros Ht. unfold wikiParts.
  rewrite <- (append_nil_r t) at 1 2. rewrite (splitChar_plain "|" t Ht).
  rewrite append_nil_l. reflexivity.
Qed.

Lemma wikiParts_piped (t d : string) :
  includesChar "|" t = false -> includesChar "|" d = false ->
  wikiParts (t ++ "|" ++ d) = (Js.trim t, Some (Js.trim d)).
Proof.
  intros Ht Hd. unfold wikiParts.
  rewrite (splitChar_plain "|" t Ht). rewrite append_nil_l.
  change ("|" ++ d)%string with (String "|" d). cbn [splitChar Ascii.eqb Bool.eqb].
  rewrite <- (append_nil_r d) at 1 2. rewrite (splitChar_plain "|" d Hd).
  rewrite append_nil_l. reflexivity.
Qed.

Lemma extractWikiLinks_one (before inner after : string) :
  includesChar "[" before = false -> includesChar "[" after = false ->
  inner <> "" -> includesChar "]" inner = false ->
  extractWikiLinks (before ++ "[[" ++ inner ++ "]]" ++ after)
  = [wikiLinkAt (String.length before) inner].
Proof.
  intros Hb Ha Hne Hno. unfold extractWikiLinks.
  rewrite (wikiLinksFrom_plain _ _ Hb), (wikiLinksFrom_match _ _ _ Hne Hno).
  rewrite (wikiLinksFrom_plain_end _ Ha). reflexivity.
Qed.

(** X27.  A text without opening brackets around
    one wiki link gives exactly that link: with a target and a display
    text, neither holding a closing bracket or a bar, the link is reported
    with both trimmed, from the first opening bracket to after the last
    closing one; without a bar and with a non-empty inside there is no
    display text. *)
Theorem a_wiki_link_is_read_back (before target_ shown after : string) :
  includesChar "[" before = false -> includesChar "[" after = false ->
  includesChar "]" target_ = false -> includesChar "|" target_ = false ->
  includesChar "]" shown = false -> includesChar "|" shown = false ->
  extractWikiLinks (before ++ "[[" ++ target_ ++ "|" ++ shown ++ "]]" ++ after)
  = [ {| type := wiki; target := Js.trim target_; displayText := Some (Js.trim shown);
         position := (String.length before,
                      String.length before
                      + (String.length target_ + String.length shown + 5))%nat |} ]
  /\ (target_ <> "" ->
      extractWikiLinks (before ++ "[[" ++ target_ ++ "]]" ++ after)
      = [ {| type := wiki; target := Js.trim target_; displayText := None;
             position := (String.length before,
                          String.length before + (String.length target_ + 4))%nat |} ]).
Proof.
  intros Hb Ha Ht1 Ht2 Hd1 Hd2. split.
  - pose proof (extractWikiLinks_one before (target_ ++ "|" ++ shown) after Hb Ha) as H.
    rewrite !append_assoc in H. rewrite H.
    + unfold wikiLinkAt. rewrite (wikiParts_piped _ _ Ht2 Hd2). cbn [fst snd].
      do 3 f_equal. rewrite !length_append. cbn [String.length]. lia.
    + destruct target_; discriminate.
    + rewrite !includesChar_append, Ht1, Hd1. reflexivity.
  - intros Hne. rewrite (extractWikiLinks_one before target_ after Hb Ha Hne Ht1).
    unfold wikiLinkAt. rewrite (wikiParts_plain _ Ht2). reflexivity.
Qed.


(** *** A rename that concerns one link *)

Lemma matchMarkdownLink_before_bracket (y after : string) :
  includesChar "]" y = false ->
  matchMarkdownLink (String "[" (y ++ "]]" ++ after)) = None.
Proof.
  intros Hy. unfold matchMarkdownLink. cbn [Ascii.eqb Bool.eqb andb].
  change ("]]" ++ after)%string with (String "]" (String "]" after)).
  rewrite (untilChar_app "]" y _ Hy). reflexivity.
Qed.

Lemma replaceMarkdownLinks_inside callback (y after : string) :
  includesChar "]" y = false ->
  replaceMarkdownLinks callback 0 (y ++ "]]" ++ after)
  = (y ++ replaceMarkdownLinks callback 0 ("]]" ++ after))%string.
Proof.
  induction y as [|c y IH]; cbn [includesChar]; intros H.
  - rewrite !append_nil_l. reflexivity.
  - apply orb_false_iff in H as [Hc Hy].
    rewrite (append_cons c y), (append_cons c y).
    cbn [replaceMarkdownLinks].
    destruct (Ascii.eqb_spec c "[") as [->|Hne].
    + rewrite (matchMarkdownLink_before_bracket _ _ Hy), (IH Hy). reflexivity.
    + rewrite (matchMarkdownLink_other _ _ Hne), (IH Hy). reflexivity.
Qed.

Lemma replaceMarkdownLinks_plain callback (a s : string) :
  includesChar "[" a = false ->
  replaceMarkdownLinks callback 0 (a ++ s) = (a ++ replaceMarkdownLinks callback 0 s)%string.
Proof.
  induction a as [|c a IH]; cbn [includesChar]; intros H.
  - rewrite !append_nil_l. reflexivity.
  - apply orb_false_iff in H as [Hc Ha]. rewrite !append_cons.
    cbn [replaceMarkdownLinks]. rewrite matchMarkdownLink_other.
    + rewrite (IH Ha). reflexivity.
    + intros ->. rewrite Ascii.eqb_refl in Hc. discriminate.
Qed.

Lemma replaceMarkdownLinks_plain_end callback (a : string) :
  includesChar "[" a = false -> replaceMarkdownLinks callback 0 a = a.
Proof.
  intros Ha. rewrite <- (append_nil_r a) at 1.
  rewrite (replaceMarkdownLinks_plain _ _ _ Ha). cbn [replaceMarkdownLinks].
  apply append_nil_r.
Qed.

(** The markdown pass leaves a text with one wiki link alone. *)
Lemma replaceMarkdownLinks_wiki_text callback (before x after : string) :
  includesChar "[" before = false -> includesChar "[" after = false ->
  includesChar "]" x = false ->
  replaceMarkdownLinks callback 0 (before ++ "[[" ++ x ++ "]]" ++ after)
  = (before ++ "[[" ++ x ++ "]]" ++ after)%string.
Proof.
  intros Hb Ha Hx. rewrite (replaceMarkdownLinks_plain _ _ _ Hb). f_equal.
  replace ("[[" ++ x ++ "]]" ++ after)%string with (("[[" ++ x) ++ "]]" ++ after)%string
    by apply append_assoc.
  rewrite replaceMarkdownLinks_inside.
  - f_equal. apply replaceMarkdownLinks_plain_end.
    change ("]]" ++ after)%string with (String "]" (String "]" after)).
    cbn [includesChar Ascii.eqb Bool.eqb orb]. exact Ha.
  - rewrite includesChar_append, Hx. reflexivity.
Qed.

Lemma includesChar_dropWhileChars c p (s : string) :
  includesChar c s = false -> includesChar c (Js.dropWhileChars p s) = false.
Proof.
  induction s as [|x s IH]; [trivial|]. cbn [Js.dropWhileChars].
  destruct (p x); [|trivial]. cbn [includesChar].
  intros H. apply orb_false_iff in H as [_ H]. exact (IH H).
Qed.

Lemma includesChar_dropEndChars c p (s : string) :
  includesChar c s = false -> includesChar c (Js.dropEndChars p s) = false.
Proof.
  induction s as [|x s IH]; [trivial|]. cbn [Js.dropEndChars includesChar].
  intros H. apply orb_false_iff in H as [Hx H]. specialize (IH H).
  destruct (Js.dropEndChars p s).
  - destruct (p x); [reflexivity|]. cbn [includesChar]. rewrite Hx. reflexivity.
  - cbn [includesChar] in *. rewrite Hx. exact IH.
Qed.

Lemma includesChar_trim c (s : string) :
  includesChar c s = false -> includesChar c (Js.trim s) = false.
Proof.
  intros H. apply includesChar_dropEndChars, includesChar_dropWhileChars, H.
Qed.

Lemma replaceWikiLinks_one callback (before inner after : string) :
  includesChar "[" before = false -> includesChar "[" after = false ->
  inner <> "" -> includesChar "]" inner = false ->
  replaceWikiLinks callback 0 (before ++ "[[" ++ inner ++ "]]" ++ after)
  = (before ++ callback ("[[" ++ inner ++ "]]") inner ++ after)%string.
Proof.
  intros Hb Ha Hne Hno.
  rewrite (replaceWikiLinks_plain _ _ _ Hb), (replaceWikiLinks_match _ _ _ Hne Hno).
  rewrite (replaceWikiLinks_plain_end _ _ Ha). reflexivity.
Qed.

(** X28.  In a text without
    opening brackets around one wiki link whose trimmed target is the old
    path, with or without its [.md], [updateLinks] puts the new path
    without its first [.md] in the place of the target, provided that name
    holds no closing bracket; a non-blank display text is kept, trimmed.
    [removeLink] leaves the trimmed display text in the place of the link,
    and nothing when there is none. *)
Theorem a_link_to_the_renamed_note_is_rewritten
        (before target_ shown after oldPath newPath : string) :
  includesChar "[" before = false -> includesChar "[" after = false ->
  target_ <> "" ->
  includesChar "]" target_ = false -> includesChar "|" target_ = false ->
  includesChar "]" shown = false -> includesChar "|" shown = false ->
  includesChar "[" shown = false -> Js.trim shown <> "" ->
  namesPath (Js.trim target_) oldPath = true ->
  includesChar "]" (removeFirst ".md" newPath) = false ->
  updateLinks (before ++ "[[" ++ target_ ++ "]]" ++ after) oldPath newPath
  = (before ++ "[[" ++ removeFirst ".md" newPath ++ "]]" ++ after)%string
  /\ updateLinks (before ++ "[[" ++ target_ ++ "|" ++ shown ++ "]]" ++ after) oldPath newPath
     = (before ++ "[[" ++ removeFirst ".md" newPath ++ "|" ++ Js.trim shown ++ "]]" ++ after)%string
  /\ removeLink (before ++ "[[" ++ target_ ++ "]]" ++ after) oldPath
     = (before ++ after)%string
  /\ removeLink (before ++ "[[" ++ target_ ++ "|" ++ shown ++ "]]" ++ after) oldPath
     = (before ++ Js.trim shown ++ after)%string.
Proof.
  intros Hb Ha Hne Ht1 Ht2 Hd1 Hd2 Hd3 Hshown Hnames Hnew.
  assert (Hpiped : includesChar "]" (target_ ++ "|" ++ shown) = false).
  { rewrite !includesChar_append, Ht1, Hd1. reflexivity. }
  assert (Hpne : (target_ ++ "|" ++ shown)%string <> "") by (destruct target_; discriminate).
  assert (Hblank : String.eqb (Js.trim shown) "" = false).
  { destruct (String.eqb_spec (Js.trim shown) ""); [contradiction|reflexivity]. }
  split; [|split; [|split]].
  - unfold updateLinks.
    rewrite (replaceWikiLinks_one _ _ _ _ Hb Ha Hne Ht1).
    rewrite (wikiParts_plain _ Ht2), Hnames.
    rewrite !append_assoc. apply replaceMarkdownLinks_wiki_text; assumption.
  - unfold updateLinks.
    replace (before ++ "[[" ++ target_ ++ "|" ++ shown ++ "]]" ++ after)%string
      with (before ++ "[[" ++ (target_ ++ "|" ++ shown) ++ "]]" ++ after)%string
      by (rewrite !append_assoc; reflexivity).
    rewrite (replaceWikiLinks_one _ _ _ _ Hb Ha Hpne Hpiped).
    rewrite (wikiParts_piped _ _ Ht2 Hd2), Hnames, Hblank. cbn [negb].
    replace (before ++ ("[[" ++ removeFirst ".md" newPath ++ "|" ++ Js.trim shown ++ "]]")
             ++ after)%string
      with (before ++ "[[" ++ (removeFirst ".md" newPath ++ "|" ++ Js.trim shown)
            ++ "]]" ++ after)%string
      by (rewrite !append_assoc; reflexivity).
    replace (before ++ "[[" ++ removeFirst ".md" newPath ++ "|" ++ Js.trim shown ++ "]]"
             ++ after)%string
      with (before ++ "[[" ++ (removeFirst ".md" newPath ++ "|" ++ Js.trim shown)
            ++ "]]" ++ after)%string
      by (rewrite !append_assoc; reflexivity).
    apply replaceMarkdownLinks_wiki_text; [assumption..|].
    rewrite !includesChar_append, Hnew, (includesChar_trim _ _ Hd1). reflexivity.
  - unfold removeLink.
    rewrite (replaceWikiLinks_one _ _ _ _ Hb Ha Hne Ht1).
    rewrite (wikiParts_plain _ Ht2), Hnames. cbn [default]. rewrite append_nil_l.
    apply replaceMarkdownLinks_plain_end.
    rewrite includesChar_append, Hb, Ha. reflexivity.
  - unfold removeLink.
    replace (before ++ "[[" ++ target_ ++ "|" ++ shown ++ "]]" ++ after)%string
      with (before ++ "[[" ++ (target_ ++ "|" ++ shown) ++ "]]" ++ after)%string
      by (rewrite !append_assoc; reflexivity).
    rewrite (replaceWikiLinks_one _ _ _ _ Hb Ha Hpne Hpiped).
    rewrite (wikiParts_piped _ _ Ht2 Hd2), Hnames. cbn [default].
    apply replaceMarkdownLinks_plain_end.
    rewrite !includesChar_append, Hb, Ha, (includesChar_trim _ _ Hd3). reflexivity.
Qed.

End LinkText.

Lemma links_to_other_notes_are_left_alone_witness :
  Parser.updateLinks "see [[b]] and [t](c.md), not [[a.md.bak]]" "a.md" "z.md"
  = "see [[b]] and [t](c.md), not [[a.md.bak]]"
  /\ Parser.removeLink "see [[b]] and [t](c.md), not [[a.md.bak]]" "a.md"
     = "see [[b]] and [t](c.md), not [[a.md.bak]]".
Proof.
  apply (links_to_other_notes_are_left_alone
           "see [[b]] and [t](c.md), not [[a.md.bak]]" "a.md" "z.md").
  intros l Hl. vm_compute in Hl.
  repeat (apply elem_of_cons in Hl as [->|Hl]; [reflexivity|]).
  apply elem_of_nil in Hl. contradiction.
Defined.

Lemma a_wiki_link_is_read_back_witness :
  Parser.extractWikiLinks "see [[ Note A|the note ]] now"
  = [ {| Parser.type := Parser.wiki; Parser.target := "Note A";
         Parser.displayText := Some "the note"; Parser.position := (4, 25)%nat |} ]
  /\ Parser.extractWikiLinks "see [[ Note A]] now"
     = [ {| Parser.type := Parser.wiki; Parser.target := "Note A";
            Parser.displayText := None; Parser.position := (4, 15)%nat |} ].
Proof.
  destruct (a_wiki_link_is_read_back "see " " Note A" "the note " " now") as [H1 H2];
    try reflexivity.
  split; [exact H1|]. apply H2. discriminate.
Defined.

Lemma a_link_to_the_renamed_note_is_rewritten_witness :
  Parser.updateLinks "see [[old ]]." "old.md" "new.md" = "see [[new]]."
  /\ Parser.updateLinks "see [[old | it]]." "old.md" "new.md" = "see [[new|it]]."
  /\ Parser.removeLink "see [[old ]]." "old.md" = "see ."
  /\ Parser.removeLink "see [[old | it]]." "old.md" = "see it.".
Proof.
  apply (a_link_to_the_renamed_note_is_rewritten "see " "old " " it" "." "old.md" "new.md");
    try reflexivity; discriminate.
Defined.

(** ** Notes within a distance *)

Section Distances.
Import LinkParser.
Context (lc bl : JsMap.t JsSet.t) (maxDistance : Q) (start : string).

Lemma bound_reached_later (d d' : nat) :
  (d <= d')%nat ->
  Qle_bool maxDistance (inject_Z (Z.of_nat d)) = true ->
  Qle_bool maxDistance (inject_Z (Z.of_nat d')) = true.
Proof.
  rewrite !Qle_bool_iff. intros H H1. eapply Qle_trans; [exact H1|].
  rewrite <- Zle_Qle. lia.
Qed.

Lemma addAll_elem v (l : list string) :
  forall s, v ∈ fold_left (fun s link => JsSet.add link s) l s <-> v ∈ l \/ v ∈ s.
Proof.
  induction l as [|x l IH]; intros s; cbn [fold_left].
  - rewrite elem_of_nil. tauto.
  - rewrite IH, JsSet_add_elem, elem_of_cons. tauto.
Qed.

Lemma allLinks_elem node v : v ∈ allLinks lc bl node <-> neighbour lc bl node v.
Proof.
  unfold allLinks, neighbour. rewrite addAll_elem, elem_of_app.
  unfold JsSet.empty. rewrite elem_of_nil. tauto.
Qed.

Lemma stored_target (m : JsMap.t JsSet.t) u v :
  v ∈ default [] (JsMap.get u m) -> v ∈ concat (JsMap.values m).
Proof.
  destruct (JsMap.get u m) as [T|] eqn:Hget; cbn; [|intros H; inversion H].
  intros Hv. apply list_elem_of_In, in_concat. exists T.
  split; [|apply list_elem_of_In; exact Hv].
  apply JsMap_get_elem in Hget. unfold JsMap.values.
  apply list_elem_of_In, list_elem_of_fmap. exists (u, T). auto.
Qed.

Lemma neighbour_target u v : neighbour lc bl u v -> v ∈ hopTargets lc bl.
Proof.
  unfold hopTargets. rewrite elem_of_list_to_set, elem_of_app.
  intros [H|H]; [left|right]; eapply stored_target; exact H.
Qed.

Lemma withoutDistance_set (distances : JsMap.t nat) v d :
  v ∈ hopTargets lc bl -> JsMap.get v distances = None ->
  S (withoutDistance lc bl (JsMap.set v d distances)) = withoutDistance lc bl distances.
Proof.
  intros Hv Hget. apply JsMap_get_None in Hget. unfold withoutDistance.
  set (U := hopTargets lc bl) in *.
  set (K := list_to_set (JsMap.keys distances) : gset string).
  set (K' := list_to_set (JsMap.keys (JsMap.set v d distances)) : gset string).
  assert (HK' : forall x, x ∈ K' <-> x = v \/ x ∈ K).
  { intros x. unfold K', K. rewrite !elem_of_list_to_set. apply JsMap_keys_set. }
  assert (HvK : v ∉ K) by (unfold K; rewrite elem_of_list_to_set; exact Hget).
  assert (Heq : U ∖ K = {[v]} ∪ (U ∖ K')).
  { apply set_eq. intros x.
    rewrite elem_of_union, !elem_of_difference, elem_of_singleton, HK'.
    destruct (decide (x = v)) as [->|Hx]; [tauto|]. tauto. }
  rewrite Heq. rewrite (size_union ({[v]} : gset string) (U ∖ K')).
  - rewrite size_singleton. reflexivity.
  - intros x. rewrite elem_of_singleton, elem_of_difference, HK'. tauto.
Qed.

Lemma relax_present L distances queue v d :
  JsMap.get v distances = Some d -> (d <= S L)%nat ->
  relax L (distances, queue) v = (distances, queue).
Proof.
  intros Hget Hd. unfold relax, JsMap.has. rewrite Hget. cbn [negb from_option orb]. unfold Datatypes.id.
  assert (Hlt : (L + 1 <? d)%nat = false) by (apply Nat.ltb_ge; lia).
  rewrite Hlt. reflexivity.
Qed.

Lemma relax_absent L distances queue v :
  JsMap.get v distances = None ->
  relax L (distances, queue) v
  = (JsMap.set v (S L) distances, queue ++ [(v, S L)]).
Proof.
  intros Hget. unfold relax, JsMap.has. rewrite Hget. cbn [negb orb].
  replace (L + 1)%nat with (S L) by lia. reflexivity.
Qed.

(** What one pass over the links of a note does to the distances and to
    the queue, when no distance is above the one it gives. *)
Lemma relax_links (L : nat) (ls : list string) :
  forall distances queue,
    (forall k d, JsMap.get k distances = Some d -> (d <= S L)%nat) ->
    (forall v, v ∈ ls -> v ∈ hopTargets lc bl) ->
    exists new,
      snd (fold_left (relax L) ls (distances, queue))
      = queue ++ map (fun v => (v, S L)) new
      /\ (forall k,
            JsMap.get k (fst (fold_left (relax L) ls (distances, queue)))
            = match JsMap.get k distances with
              | Some d => Some d
              | None => if bool_decide (k ∈ ls) then Some (S L) else None
              end)
      /\ (forall v, v ∈ new <-> v ∈ ls /\ JsMap.get v distances = None)
      /\ (length new
          + withoutDistance lc bl (fst (fold_left (relax L) ls (distances, queue)))
          = withoutDistance lc bl distances)%nat.
Proof.
  induction ls as [|v ls IH]; intros distances queue Hbound Htargets.
  - exists []. cbn. split; [symmetry; apply app_nil_r|].
    split; [intros k; destruct (JsMap.get k distances); reflexivity|].
    split; [|reflexivity].
    intros v. rewrite elem_of_nil. tauto.
  - cbn [fold_left].
    assert (Hls : forall x, x ∈ ls -> x ∈ hopTargets lc bl).
    { intros x Hx. apply Htargets. apply elem_of_cons. auto. }
    destruct (JsMap.get v distances) as [d|] eqn:Hget.
    + rewrite (relax_present L distances queue v d Hget (Hbound v d Hget)).
      destruct (IH distances queue Hbound Hls) as (new & Hq & Hd' & Hnew & Hcount).
      exists new. split; [exact Hq|]. split; [|split; [|exact Hcount]].
      * intros k. rewrite Hd'. destruct (JsMap.get k distances) eqn:Hk; [reflexivity|].
        assert (k <> v) by congruence.
        destruct (bool_decide_reflect (k ∈ ls)) as [H1|H1];
          destruct (bool_decide_reflect (k ∈ v :: ls)) as [H2|H2]; try reflexivity.
        -- exfalso. apply H2. apply elem_of_cons. auto.
        -- exfalso. apply elem_of_cons in H2 as [?|?]; contradiction.
      * intros x. rewrite Hnew, elem_of_cons. split; [tauto|].
        intros [[->|Hx] Hnone]; [congruence|tauto].
    + rewrite (relax_absent L distances queue v Hget).
      assert (Hbound' : forall k d, JsMap.get k (JsMap.set v (S L) distances) = Some d ->
                                    (d <= S L)%nat).
      { intros k d. rewrite JsMap_get_set. destruct (String.eqb_spec k v).
        - intros [= <-]. lia.
        - apply Hbound. }
      destruct (IH (JsMap.set v (S L) distances) (queue ++ [(v, S L)]) Hbound' Hls)
        as (new & Hq & Hd' & Hnew & Hcount).
      exists (v :: new). split; [rewrite Hq, <- app_assoc; reflexivity|].
      split; [|split].
      * intros k. rewrite Hd', JsMap_get_set.
        destruct (String.eqb_spec k v) as [->|Hk].
        -- rewrite Hget. rewrite bool_decide_eq_true_2; [reflexivity|].
           apply elem_of_cons. auto.
        -- destruct (JsMap.get k distances); [reflexivity|].
           destruct (bool_decide_reflect (k ∈ ls)) as [H1|H1];
             destruct (bool_decide_reflect (k ∈ v :: ls)) as [H2|H2]; try reflexivity.
           ++ exfalso. apply H2. apply elem_of_cons. auto.
           ++ exfalso. apply elem_of_cons in H2 as [?|?]; contradiction.
      * intros x. rewrite !elem_of_cons, Hnew, JsMap_get_set.
        destruct (String.eqb_spec x v) as [->|Hx].
        -- split; [intros _; auto|auto].
        -- tauto.
      * cbn [length]. rewrite <- (withoutDistance_set distances v (S L)).
        -- lia.
        -- apply Htargets. apply elem_of_cons. auto.
        -- exact Hget.
Qed.

Lemma hopLevels_head L x d rest distances :
  hopLevels L ((x, d) :: rest) distances ->
  exists q1 q2, rest = q1 ++ q2
    /\ Forall (fun e : string * nat => snd e = d) q1
    /\ Forall (fun e : string * nat => snd e = S d) q2
    /\ forall k dk, JsMap.get k distances = Some dk -> (dk <= S d)%nat.
Proof.
  intros [(q1 & q2 & Hq & H1 & H2) Hbound]. destruct q1 as [|e q1].
  - cbn in Hq. subst q2. apply Forall_cons in H2 as [Hd H2]. cbn in Hd. subst d.
    exists rest, []. split; [symmetry; apply app_nil_r|].
    split; [|split; [constructor|]].
    + exact H2.
    + intros k dk Hk. specialize (Hbound k dk Hk). lia.
  - cbn in Hq. injection Hq as <- ->. apply Forall_cons in H1 as [Hd H1].
    cbn in Hd. subst d. exists q1, q2. auto.
Qed.

(** The loop returns, and keeps the invariant to its end. *)
Lemma distanceQueue_spec fuel :
  forall queue distances L,
    HopInv lc bl maxDistance start queue distances ->
    hopLevels L queue distances ->
    (length queue + withoutDistance lc bl distances <= fuel)%nat ->
    exists final,
      distanceQueue fuel lc bl maxDistance queue distances = Some final
      /\ HopInv lc bl maxDistance start [] final.
Proof.
  induction fuel as [|fuel IH]; intros queue distances L Hinv Hlev Hfuel.
  - destruct queue as [|[x d] rest]; [|cbn in Hfuel; lia].
    exists distances. split; [reflexivity|exact Hinv].
  - destruct queue as [|[x d] rest].
    { exists distances. split; [reflexivity|exact Hinv]. }
    cbn [distanceQueue].
    destruct (hopLevels_head _ _ _ _ _ Hlev) as (q1 & q2 & Hrest & Hq1 & Hq2 & Hbound).
    pose proof (hi_queued _ _ _ _ _ _ Hinv x d (list_elem_of_here _ _)) as Hx.
    destruct (Qle_bool maxDistance (inject_Z (Z.of_nat d))) eqn:Hstop.
    + apply (IH rest distances d).
      * split.
        -- apply (hi_start _ _ _ _ _ _ Hinv).
        -- apply (hi_hops _ _ _ _ _ _ Hinv).
        -- intros y dy Hy. apply (hi_queued _ _ _ _ _ _ Hinv). apply list_elem_of_further, Hy.
        -- intros u du v Hu Hv.
           destruct (hi_next _ _ _ _ _ _ Hinv u du v Hu Hv) as [H|[H|H]]; [auto| |auto].
           apply elem_of_cons in H as [[= -> ->]|H]; auto.
      * split; [exists q1, q2; auto|exact Hbound].
      * cbn in Hfuel. lia.
    + assert (Htargets : forall v, v ∈ allLinks lc bl x -> v ∈ hopTargets lc bl).
      { intros v Hv. apply allLinks_elem in Hv. eapply neighbour_target, Hv. }
      destruct (relax_links d (allLinks lc bl x) distances rest Hbound Htargets)
        as (new & Hq & Hget & Hnew & Hcount).
      destruct (fold_left (relax d) (allLinks lc bl x) (distances, rest))
        as [distances' queue'] eqn:Hfold.
      cbn [fst snd] in *. subst queue'.
      assert (Hkeep : forall k dk, JsMap.get k distances = Some dk ->
                                   JsMap.get k distances' = Some dk).
      { intros k dk Hk. rewrite Hget, Hk. reflexivity. }
      apply (IH _ distances' d).
      * split.
        -- apply Hkeep, (hi_start _ _ _ _ _ _ Hinv).
        -- intros k dk. rewrite Hget.
           destruct (JsMap.get k distances) as [d0|] eqn:Hk.
           ++ intros [= <-]. apply (hi_hops _ _ _ _ _ _ Hinv). exact Hk.
           ++ match goal with
              | |- context [bool_decide ?P] => destruct (bool_decide_reflect P) as [Hin|Hin]
              end; [|discriminate].
              intros [= <-]. split.
              ** apply (hops_step _ _ _ d x).
                 --- apply (hi_hops _ _ _ _ _ _ Hinv). exact Hx.
                 --- apply allLinks_elem. exact Hin.
              ** intros d0 [= <-]. exact Hstop.
        -- intros y dy Hy. apply elem_of_app in Hy as [Hy|Hy].
           ++ apply Hkeep, (hi_queued _ _ _ _ _ _ Hinv). apply list_elem_of_further, Hy.
           ++ apply list_elem_of_fmap in Hy as (v & Heq & Hv).
              cbn beta in Heq. injection Heq as -> ->.
              apply Hnew in Hv as [Hv Hnone]. rewrite Hget, Hnone.
              rewrite bool_decide_eq_true_2 by exact Hv. reflexivity.
        -- intros u du v. rewrite (Hget u).
           destruct (JsMap.get u distances) as [d0|] eqn:Hu.
           ++ intros [= <-] Hv.
              destruct (hi_next _ _ _ _ _ _ Hinv u d0 v Hu Hv) as [(d' & Hd' & Hle)|[H|H]].
              ** left. exists d'. split; [apply Hkeep, Hd'|exact Hle].
              ** apply elem_of_cons in H as [[= -> ->]|H].
                 --- left. rewrite (Hget v).
                     destruct (JsMap.get v distances) as [dv|] eqn:Hdv.
                     +++ exists dv. split; [reflexivity|eapply Hbound, Hdv].
                     +++ exists (S d). rewrite bool_decide_eq_true_2.
                         *** split; [reflexivity|lia].
                         *** apply allLinks_elem. exact Hv.
                 --- right. left. apply elem_of_app. left. exact H.
              ** right. right. exact H.
           ++ match goal with
              | |- context [bool_decide ?P] => destruct (bool_decide_reflect P) as [Hin|Hin]
              end; [|discriminate].
              intros [= <-] Hv. right. left. apply elem_of_app. right.
              apply list_elem_of_fmap. exists u. split; [reflexivity|].
              apply Hnew. auto.
      * split.
        -- exists q1, (q2 ++ map (fun v => (v, S d)) new). split.
           ++ rewrite Hrest, <- app_assoc. reflexivity.
           ++ split; [exact Hq1|]. apply Forall_app. split; [exact Hq2|].
              apply Forall_forall. intros e He.
              apply list_elem_of_fmap in He as (v & Heq & _). rewrite Heq. reflexivity.
        -- intros k dk. rewrite Hget.
           destruct (JsMap.get k distances) as [d0|] eqn:Hk.
           ++ intros [= <-]. eapply Hbound, Hk.
           ++ match goal with
              | |- context [bool_decide ?P] => destruct (bool_decide_reflect P) as [Hin|Hin]
              end; [|discriminate].
              intros [= <-]. lia.
      * rewrite length_app, length_map. cbn [length] in Hfuel. lia.
Qed.

(** At the end of the loop every walk leads to a note with a distance no
    longer than the walk, or goes past the bound. *)
Lemma hops_covered final :
  HopInv lc bl maxDistance start [] final ->
  forall n k, hops lc bl start n k ->
    (exists d, JsMap.get k final = Some d /\ (d <= n)%nat)
    \/ exists m, (m < n)%nat /\ Qle_bool maxDistance (inject_Z (Z.of_nat m)) = true.
Proof.
  intros Hinv n k Hwalk. induction Hwalk as [|n u v Hwalk IH Hedge].
  - left. exists 0%nat. split; [apply (hi_start _ _ _ _ _ _ Hinv)|lia].
  - destruct IH as [(d & Hd & Hle)|(m & Hm & Hstop)].
    + destruct (hi_next _ _ _ _ _ _ Hinv u d v Hd Hedge) as [(d' & Hd' & Hle')|[H|H]].
      * left. exists d'. split; [exact Hd'|lia].
      * apply elem_of_nil in H. contradiction.
      * right. exists d. split; [lia|exact H].
    + right. exists m. split; [lia|exact Hstop].
Qed.

End Distances.

Section WithinDistance.
Context {Yaml : Type}.
Context (fs : FileUtils.t) (parser : Parser.ObsidianParser Yaml) (np : PathModule).

(** X29.  Once the graph is there
    (stored already, or built without an error), [findNotesWithinDistance]
    returns, given enough iterations, and leaves the stored graph as it
    is.  A note has the distance [d] in the result exactly when [d] is
    the least number of hops, along stored links in either direction, that
    lead to it from the given note, and the note is the given one or
    [d - 1] is below [maxDistance]. *)
Theorem notes_within_distance_are_the_near_ones st st' notePath (maxDistance : Q) :
  LinkParser.ensureBuilt fs parser np st = (Ok tt, st') ->
  exists fuel0, forall fuel, (fuel0 <= fuel)%nat ->
    exists distances,
      LinkParser.findNotesWithinDistance fs parser np fuel notePath maxDistance st
      = Some (Ok distances, st')
      /\ forall k d,
           JsMap.get k distances = Some d
           <-> hops (LinkParser.linkCache st') (LinkParser.backlinkCache st') notePath d k
               /\ (forall n,
                     hops (LinkParser.linkCache st') (LinkParser.backlinkCache st')
                          notePath n k -> (d <= n)%nat)
               /\ (forall d0, d = S d0 -> (inject_Z (Z.of_nat d0) < maxDistance)%Q).
Proof.
  intros Hbuilt.
  set (lc := LinkParser.linkCache st'). set (bl := LinkParser.backlinkCache st').
  set (first := JsMap.set notePath 0%nat (JsMap.empty : JsMap.t nat)).
  exists (S (withoutDistance lc bl first)). intros fuel Hfuel.
  unfold LinkParser.findNotesWithinDistance. rewrite Hbuilt. fold lc bl first.
  assert (Hfirst : forall k d, JsMap.get k first = Some d -> k = notePath /\ d = 0%nat).
  { intros k d. unfold first. cbn. destruct (String.eqb_spec k notePath); [|discriminate].
    intros [= <-]. auto. }
  destruct (distanceQueue_spec lc bl maxDistance notePath fuel [(notePath, 0%nat)] first 0)
    as (final & -> & Hinv).
  - split.
    + unfold first. cbn. rewrite String.eqb_refl. reflexivity.
    + intros k d Hk. apply Hfirst in Hk as [-> ->]. split; [constructor|discriminate].
    + intros x d Hx. apply list_elem_of_singleton in Hx as [= -> ->].
      unfold first. cbn. rewrite String.eqb_refl. reflexivity.
    + intros u d v Hu _. apply Hfirst in Hu as [-> ->]. right. left.
      apply list_elem_of_here.
  - split.
    + exists [(notePath, 0%nat)], []. repeat split; repeat constructor.
    + intros k d Hk. apply Hfirst in Hk as [_ ->]. lia.
  - cbn [length]. lia.
  - exists final. split; [reflexivity|]. intros k d. split.
    + intros Hk. destruct (hi_hops _ _ _ _ _ _ Hinv k d Hk) as [Hwalk Hbelow].
      split; [exact Hwalk|]. split.
      * intros n Hn.
        destruct (hops_covered lc bl maxDistance notePath final Hinv n k Hn)
          as [(d' & Hd' & Hle)|(m & Hm & Hstop)].
        -- rewrite Hk in Hd'. injection Hd' as <-. exact Hle.
        -- destruct d as [|d0]; [lia|].
           destruct (Nat.le_gt_cases (S d0) n) as [|Hlt]; [assumption|]. exfalso.
           specialize (Hbelow d0 eq_refl).
           rewrite (bound_reached_later maxDistance m d0) in Hbelow;
             [discriminate|lia|exact Hstop].
      * intros d0 Hd0. specialize (Hbelow d0 Hd0).
        apply Qnot_le_lt. intros Hle. apply Qle_bool_iff in Hle. congruence.
    + intros (Hwalk & Hmin & Hbelow).
      destruct (hops_covered lc bl maxDistance notePath final Hinv d k Hwalk)
        as [(d' & Hd' & Hle)|(m & Hm & Hstop)].
      * destruct (hi_hops _ _ _ _ _ _ Hinv k d' Hd') as [Hwalk' _].
        specialize (Hmin d' Hwalk'). replace d with d' by lia. exact Hd'.
      * exfalso. destruct d as [|d0]; [lia|]. specialize (Hbelow d0 eq_refl).
        apply Qlt_not_le in Hbelow. apply Hbelow, Qle_bool_iff.
        apply (bound_reached_later maxDistance m d0); [lia|exact Hstop].
Qed.

End WithinDistance.

(** In the chain [A -> B -> C] with [B -> A], the notes within one link of
    [C] are [C] itself and [B], which links to it. *)
Example findNotesWithinDistance_sample :
  fst <$> LinkParser.findNotesWithinDistance Sample.chain Sample.parser Sample.flatPath
            5 "C.md" 1 LinkParser.init
  = Some (Ok [("C.md", 0%nat); ("B.md", 1%nat)]).
Proof. vm_compute. reflexivity. Qed.

Lemma notes_within_distance_are_the_near_ones_witness :
  let st' := snd (LinkParser.ensureBuilt Sample.chain Sample.parser Sample.flatPath
                    LinkParser.init) in
  exists fuel0, forall fuel, (fuel0 <= fuel)%nat ->
    exists distances,
      LinkParser.findNotesWithinDistance Sample.chain Sample.parser Sample.flatPath
        fuel "C.md" 1 LinkParser.init
      = Some (Ok distances, st')
      /\ forall k d,
           JsMap.get k distances = Some d
           <-> hops (LinkParser.linkCache st') (LinkParser.backlinkCache st') "C.md" d k
               /\ (forall n,
                     hops (LinkParser.linkCache st') (LinkParser.backlinkCache st')
                          "C.md" n k -> (d <= n)%nat)
               /\ (forall d0, d = S d0 -> (inject_Z (Z.of_nat d0) < 1)%Q).
Proof.
  intros st'.
  apply (notes_within_distance_are_the_near_ones Sample.chain Sample.parser Sample.flatPath
           LinkParser.init st' "C.md" 1).
  vm_compute. reflexivity.
Defined.

(** ** Link clusters *)

Section Clusters.
Import LinkParser.
Context (lc bl : JsMap.t JsSet.t).

Lemma notVisited_mono (V V' : JsSet.t) :
  (forall x, x ∈ V -> x ∈ V') -> (notVisited lc bl V' <= notVisited lc bl V)%nat.
Proof.
  intros Hsub. unfold notVisited. apply subseteq_size.
  intros x. rewrite !elem_of_difference, !elem_of_list_to_set. intros [Hx Hn].
  split; [exact Hx|]. intros H. apply Hn, Hsub, H.
Qed.

Lemma notVisited_add (V : JsSet.t) node :
  node ∈ storedNotes lc bl -> node ∉ V ->
  S (notVisited lc bl (V ++ [node])) = notVisited lc bl V.
Proof.
  intros Hnode Hnew. unfold notVisited.
  set (U := storedNotes lc bl) in *.
  set (K := list_to_set V : gset string).
  set (K' := list_to_set (V ++ [node]) : gset string).
  assert (HK' : forall x, x ∈ K' <-> x = node \/ x ∈ K).
  { intros x. unfold K', K. rewrite !elem_of_list_to_set, elem_of_app, list_elem_of_singleton.
    tauto. }
  assert (HvK : node ∉ K) by (unfold K; rewrite elem_of_list_to_set; exact Hnew).
  assert (Heq : U ∖ K = {[node]} ∪ (U ∖ K')).
  { apply set_eq. intros x.
    rewrite elem_of_union, !elem_of_difference, elem_of_singleton, HK'.
    destruct (decide (x = node)) as [->|Hx]; tauto. }
  rewrite Heq. rewrite (size_union ({[node]} : gset string) (U ∖ K')).
  - rewrite size_singleton. reflexivity.
  - intros x. rewrite elem_of_singleton, elem_of_difference, HK'. tauto.
Qed.

Lemma connected_refl s : connected lc bl s s.
Proof. exists 0%nat. constructor. Qed.

Lemma connected_step s u v :
  connected lc bl s u -> neighbour lc bl u v -> connected lc bl s v.
Proof. intros [n Hn] Hv. exists (S n). econstructor; eassumption. Qed.

Lemma connected_trans s l u :
  connected lc bl s l -> connected lc bl l u -> connected lc bl s u.
Proof.
  intros Hl [n Hn]. induction Hn as [|n u v _ IH Hv]; [exact Hl|].
  eapply connected_step; eassumption.
Qed.

Lemma addAll_fresh (new : list string) :
  forall C, NoDup (C ++ new) ->
            fold_left (fun s link => JsSet.add link s) new C = C ++ new.
Proof.
  induction new as [|x new IH]; intros C Hnd; cbn [fold_left].
  - symmetry. apply app_nil_r.
  - assert (Hx : x ∉ C).
    { apply NoDup_app in Hnd as (_ & Hd & _). intros H. apply (Hd x H).
      apply list_elem_of_here. }
    unfold JsSet.add at 2. case_decide; [contradiction|].
    rewrite IH.
    + rewrite <- app_assoc. reflexivity.
    + rewrite <- app_assoc. exact Hnd.
Qed.

Lemma neighbour_stored u v : neighbour lc bl u v -> v ∈ storedNotes lc bl.
Proof.
  intros H. unfold storedNotes. apply elem_of_union. right.
  eapply neighbour_target, H.
Qed.

(** One call of [dfsCluster] returns when the recursion may go as deep as
    there are notes left; it adds to both sets the notes it visits, each
    of them connected to the note it was called on and with all its
    neighbours visited by the end. *)
Lemma dfsCluster_spec fuel :
  forall node V C,
    node ∈ storedNotes lc bl -> (notVisited lc bl V < fuel)%nat ->
    exists new,
      dfsCluster fuel lc bl node (V, C)
      = Some (V ++ new, fold_left (fun s link => JsSet.add link s) new C)
      /\ NoDup new
      /\ (forall u, u ∈ new -> u ∉ V)
      /\ node ∈ V ++ new
      /\ (forall u, u ∈ new -> connected lc bl node u)
      /\ (forall u v, u ∈ new -> neighbour lc bl u v -> v ∈ V ++ new).
Proof.
  induction fuel as [|fuel IH]; intros node V C Hnode Hfuel; [lia|].
  cbn [dfsCluster]. unfold JsSet.has.
  destruct (bool_decide_reflect (node ∈ V)) as [Hin|Hout].
  { exists []. rewrite app_nil_r. split; [reflexivity|]. split; [constructor|].
    split; [intros u Hu; inversion Hu|]. split; [exact Hin|].
    split; intros u; [|intros v]; intros Hu; inversion Hu. }
  assert (Hadd : JsSet.add node V = V ++ [node]).
  { unfold JsSet.add. case_decide; [contradiction|reflexivity]. }
  rewrite Hadd.
  pose proof (notVisited_add V node Hnode Hout) as Hcount.
  set (step := fun (r : option (JsSet.t * JsSet.t)) (link : string) =>
                 match r with
                 | Some a => dfsCluster fuel lc bl link a
                 | None => None
                 end).
  set (state := fun newi : list string =>
                  (V ++ node :: newi,
                   fold_left (fun s link => JsSet.add link s) (node :: newi) C)).
  set (good := fun newi : list string =>
                 NoDup (node :: newi)
                 /\ (forall u, u ∈ newi -> u ∉ V)
                 /\ (forall u, u ∈ newi -> connected lc bl node u)
                 /\ (forall u v, u ∈ newi -> neighbour lc bl u v -> v ∈ V ++ node :: newi)).
  assert (Hfold : forall ls, (forall l, l ∈ ls -> neighbour lc bl node l) ->
            forall newi, good newi ->
            exists newi',
              fold_left step ls (Some (state newi)) = Some (state newi')
              /\ good newi'
              /\ (forall x, x ∈ newi -> x ∈ newi')
              /\ (forall l, l ∈ ls -> l ∈ V ++ node :: newi')).
  { induction ls as [|l ls IHls]; intros Hls newi Hgood.
    - exists newi. split; [reflexivity|]. split; [exact Hgood|]. split; [auto|].
      intros l Hl. inversion Hl.
    - change (fold_left step (l :: ls) (Some (state newi)))
        with (fold_left step ls (dfsCluster fuel lc bl l (state newi))).
      destruct Hgood as (Hnd & Hfresh & Hconn & Hclosed).
      destruct (IH l (V ++ node :: newi)
                  (fold_left (fun s link => JsSet.add link s) (node :: newi) C))
        as (newl & Hcall & Hndl & Hfreshl & Hinl & Hconnl & Hclosedl).
      + eapply neighbour_stored, Hls, list_elem_of_here.
      + assert (notVisited lc bl (V ++ node :: newi) <= notVisited lc bl (V ++ [node]))%nat.
        { apply notVisited_mono. intros x. rewrite !elem_of_app, !elem_of_cons, elem_of_nil.
          tauto. }
        lia.
      + assert (Hstate : (V ++ node :: newi) ++ newl = V ++ node :: (newi ++ newl)).
        { rewrite <- app_assoc. reflexivity. }
        assert (Hgood' : good (newi ++ newl)).
        { split; [|split; [|split]].
          - change (NoDup ((node :: newi) ++ newl)). apply NoDup_app.
            split; [exact Hnd|]. split; [|exact Hndl].
            intros x Hx Hxl. apply (Hfreshl x Hxl). apply elem_of_app. right. exact Hx.
          - intros u Hu. apply elem_of_app in Hu as [Hu|Hu]; [auto|].
            intros HV. apply (Hfreshl u Hu). apply elem_of_app. left. exact HV.
          - intros u Hu. apply elem_of_app in Hu as [Hu|Hu]; [auto|].
            apply (connected_trans node l u); [|auto].
            apply (connected_step node node l); [apply connected_refl|].
            apply Hls, list_elem_of_here.
          - intros u v Hu Hv. rewrite <- Hstate.
            apply elem_of_app in Hu as [Hu|Hu].
            + apply elem_of_app. left. eapply Hclosed; eassumption.
            + eapply Hclosedl; eassumption. }
        destruct (IHls (fun x Hx => Hls x (list_elem_of_further _ _ _ Hx)) (newi ++ newl) Hgood')
          as (newi' & Hrun & Hgood'' & Hsub & Hall).
        assert (Hcall' : dfsCluster fuel lc bl l (state newi) = Some (state (newi ++ newl))).
        { etransitivity; [exact Hcall|]. unfold state. rewrite Hstate. do 2 f_equal.
          change (node :: newi ++ newl) with ((node :: newi) ++ newl).
          rewrite fold_left_app. reflexivity. }
        exists newi'. split.
        * rewrite Hcall'. exact Hrun.
        * split; [exact Hgood''|]. split.
          -- intros x Hx. apply Hsub. apply elem_of_app. left. exact Hx.
          -- intros x Hx. apply elem_of_cons in Hx as [->|Hx]; [|auto].
             rewrite Hstate in Hinl.
             apply elem_of_app in Hinl as [HV|Hl]; [apply elem_of_app; left; exact HV|].
             apply elem_of_app. right.
             apply elem_of_cons in Hl as [->|Hl]; [apply list_elem_of_here|].
             apply list_elem_of_further. auto. }
  assert (Hgood0 : good []).
  { split; [repeat constructor; apply not_elem_of_nil|].
    split; [intros u Hu; inversion Hu|].
    split; intros u; [|intros v]; intros Hu; inversion Hu. }
  destruct (Hfold (default JsSet.empty (JsMap.get node lc))
              (fun l Hl => or_introl Hl) [] Hgood0)
    as (new1 & Hrun1 & Hgood1 & _ & Hall1).
  destruct (Hfold (default JsSet.empty (JsMap.get node bl))
              (fun l Hl => or_intror Hl) new1 Hgood1)
    as (new2 & Hrun2 & (Hnd & Hfresh & Hconn & Hclosed) & Hsub & Hall2).
  exists (node :: new2). split.
  - change (fold_left step (default JsSet.empty (JsMap.get node bl))
              (fold_left step (default JsSet.empty (JsMap.get node lc)) (Some (state [])))
            = Some (state new2)).
    rewrite Hrun1. exact Hrun2.
  - split; [exact Hnd|]. split.
    + intros u Hu. apply elem_of_cons in Hu as [->|Hu]; auto.
    + split; [apply elem_of_app; right; apply list_elem_of_here|]. split.
      * intros u Hu. apply elem_of_cons in Hu as [->|Hu]; [apply connected_refl|auto].
      * intros u v Hu Hv. apply elem_of_cons in Hu as [->|Hu]; [|eauto].
        destruct Hv as [Hv|Hv]; [|apply Hall2, Hv].
        specialize (Hall1 v Hv).
        apply elem_of_app in Hall1 as [HV|Hl]; [apply elem_of_app; left; exact HV|].
        apply elem_of_app. right.
        apply elem_of_cons in Hl as [->|Hl]; [apply list_elem_of_here|].
        apply list_elem_of_further. auto.
Qed.

Lemma notVisited_bound (V : JsSet.t) :
  (notVisited lc bl V <= size (storedNotes lc bl))%nat.
Proof.
  unfold notVisited. apply subseteq_size. intros x. rewrite elem_of_difference. tauto.
Qed.

Lemma key_stored node : node ∈ JsMap.keys lc -> node ∈ storedNotes lc bl.
Proof.
  intros H. unfold storedNotes. apply elem_of_union. left.
  apply elem_of_list_to_set. exact H.
Qed.

Context (Hsym : forall u v, neighbour lc bl u v -> neighbour lc bl v u).

(** From a note outside a set closed under the links, the search visits
    exactly the notes connected to it. *)
Lemma component_visited (V new : list string) node :
  (forall u v, u ∈ V -> neighbour lc bl u v -> v ∈ V) ->
  node ∉ V -> node ∈ V ++ new ->
  (forall u, u ∈ new -> u ∉ V) ->
  (forall u, u ∈ new -> connected lc bl node u) ->
  (forall u v, u ∈ new -> neighbour lc bl u v -> v ∈ V ++ new) ->
  forall v, v ∈ new <-> connected lc bl node v.
Proof.
  intros Hclosed Hout Hin Hfresh Hconn Hnew v. split; [apply Hconn|].
  intros [n Hn]. induction Hn as [|n u w _ IH Hw].
  - apply elem_of_app in Hin as [?|?]; [contradiction|assumption].
  - specialize (Hnew u w IH Hw). apply elem_of_app in Hnew as [HV|?]; [|assumption].
    exfalso. apply (Hfresh u IH). apply (Hclosed w u HV). apply Hsym, Hw.
Qed.

(** The scan returns; what it has found so far are whole groups of
    connected notes, each with two notes or more, no note in two of them,
    and every visited note with a neighbour other than itself in one of
    them. *)
Lemma clusterScan_spec fuel :
  (size (storedNotes lc bl) < fuel)%nat ->
  forall nodes V clusters,
    (forall x, x ∈ nodes -> x ∈ JsMap.keys lc) ->
    (forall u v, u ∈ V -> neighbour lc bl u v -> v ∈ V) ->
    Forall (fun c : JsSet.t =>
              (2 <= length c)%nat
              /\ exists first, first ∈ JsMap.keys lc
                   /\ forall v, v ∈ c <-> connected lc bl first v) clusters ->
    (forall c u, c ∈ clusters -> u ∈ c -> u ∈ V) ->
    NoDup (concat clusters) ->
    (forall u v, u ∈ V -> neighbour lc bl u v -> v <> u ->
                 exists c, c ∈ clusters /\ u ∈ c) ->
    exists found,
      clusterScan fuel lc bl nodes V clusters = Some found
      /\ Forall (fun c : JsSet.t =>
                   (2 <= length c)%nat
                   /\ exists first, first ∈ JsMap.keys lc
                        /\ forall v, v ∈ c <-> connected lc bl first v) found
      /\ NoDup (concat found)
      /\ (forall u v, u ∈ V \/ u ∈ nodes -> neighbour lc bl u v -> v <> u ->
                      exists c, c ∈ found /\ u ∈ c).
Proof.
  intros Hfuel nodes.
  induction nodes as [|node rest IH];
    intros V clusters Hkeys Hclosed Hgood Hsub Hnd Hcover.
  - exists clusters. split; [reflexivity|]. split; [exact Hgood|]. split; [exact Hnd|].
    intros u v [Hu|Hu]; [eauto|inversion Hu].
  - cbn [clusterScan]. unfold JsSet.has.
    assert (Hrest : forall x, x ∈ rest -> x ∈ JsMap.keys lc).
    { intros x Hx. apply Hkeys. apply list_elem_of_further, Hx. }
    destruct (bool_decide_reflect (node ∈ V)) as [Hin|Hout]; cbn [negb].
    + destruct (IH V clusters Hrest Hclosed Hgood Hsub Hnd Hcover)
        as (found & -> & Hgood' & Hnd' & Hcover').
      exists found. split; [reflexivity|]. split; [exact Hgood'|]. split; [exact Hnd'|].
      intros u v [Hu|Hu]; [eauto|].
      apply elem_of_cons in Hu as [->|Hu]; eauto.
    + assert (Hkey : node ∈ JsMap.keys lc) by (apply Hkeys, list_elem_of_here).
      destruct (dfsCluster_spec fuel node V JsSet.empty (key_stored node Hkey))
        as (new & -> & Hndn & Hfresh & Hnode & Hconn & Hnew).
      { pose proof (notVisited_bound V). lia. }
      rewrite (addAll_fresh new JsSet.empty) by exact Hndn.
      change (JsSet.empty ++ new) with new.
      pose proof (component_visited V new node Hclosed Hout Hnode Hfresh Hconn Hnew)
        as Hcomp.
      assert (Hclosed' : forall u v, u ∈ V ++ new -> neighbour lc bl u v -> v ∈ V ++ new).
      { intros u v Hu Hv. apply elem_of_app in Hu as [Hu|Hu]; [|eauto].
        apply elem_of_app. left. eauto. }
      assert (Hnodein : node ∈ new).
      { apply elem_of_app in Hnode as [?|?]; [contradiction|assumption]. }
      unfold JsSet.size. destruct (1 <? length new)%nat eqn:Hsize.
      * apply Nat.ltb_lt in Hsize.
        destruct (IH (V ++ new) (clusters ++ [new]) Hrest Hclosed')
          as (found & Hscan & Hgood' & Hnd' & Hcover').
        -- apply Forall_app. split; [exact Hgood|]. constructor; [|constructor].
           split; [lia|]. exists node. auto.
        -- intros c u Hc Hu. apply elem_of_app in Hc as [Hc|Hc].
           ++ apply elem_of_app. left. eauto.
           ++ apply list_elem_of_singleton in Hc as ->. apply elem_of_app. right. exact Hu.
        -- rewrite concat_app. cbn [concat]. rewrite app_nil_r. apply NoDup_app.
           split; [exact Hnd|]. split; [|exact Hndn].
           intros x Hx Hxn. apply (Hfresh x Hxn).
           apply list_elem_of_In, in_concat in Hx as (c & Hc & Hxc).
           apply (Hsub c x); apply list_elem_of_In; assumption.
        -- intros u v Hu Hv Hne. apply elem_of_app in Hu as [Hu|Hu].
           ++ destruct (Hcover u v Hu Hv Hne) as (c & Hc & Huc).
              exists c. split; [apply elem_of_app; left; exact Hc|exact Huc].
           ++ exists new. split; [|exact Hu]. apply elem_of_app. right.
              apply list_elem_of_here.
        -- exists found. split; [exact Hscan|]. split; [exact Hgood'|].
           split; [exact Hnd'|].
           intros u v [Hu|Hu]; [apply Hcover'; left; apply elem_of_app; left; exact Hu|].
           apply elem_of_cons in Hu as [->|Hu]; [|apply Hcover'; right; exact Hu].
           apply Hcover'. left. exact Hnode.
      * apply Nat.ltb_ge in Hsize.
        assert (Honly : new = [node]).
        { destruct new as [|x [|y new]]; cbn in Hsize; [inversion Hnodein| |lia].
          apply list_elem_of_singleton in Hnodein as ->. reflexivity. }
        subst new.
        destruct (IH (V ++ [node]) clusters Hrest Hclosed' Hgood)
          as (found & Hscan & Hgood' & Hnd' & Hcover').
        -- intros c u Hc Hu. apply elem_of_app. left. eauto.
        -- exact Hnd.
        -- intros u v Hu Hv Hne. apply elem_of_app in Hu as [Hu|Hu]; [eauto|].
           apply list_elem_of_singleton in Hu as ->. exfalso.
           specialize (Hnew node v (list_elem_of_here _ _) Hv).
           apply elem_of_app in Hnew as [HV|Hv'].
           ++ apply Hout. apply (Hclosed v node HV). apply Hsym, Hv.
           ++ apply list_elem_of_singleton in Hv'. contradiction.
        -- exists found. split; [exact Hscan|]. split; [exact Hgood'|].
           split; [exact Hnd'|].
           intros u v [Hu|Hu]; [apply Hcover'; left; apply elem_of_app; left; exact Hu|].
           apply elem_of_cons in Hu as [->|Hu]; [|apply Hcover'; right; exact Hu].
           apply Hcover'. left. exact Hnode.
Qed.

End Clusters.

Lemma insertBySize_perm c l : LinkParser.insertBySize c l ≡ₚ c :: l.
Proof.
  induction l as [|m l IH]; cbn [LinkParser.insertBySize]; [reflexivity|].
  destruct (JsSet.size m <? JsSet.size c)%nat; [reflexivity|].
  rewrite IH. apply perm_swap.
Qed.

Lemma insertBySize_sorted c l :
  descendingSize l -> descendingSize (LinkParser.insertBySize c l).
Proof.
  induction l as [|m l IH]; cbn [LinkParser.insertBySize]; intros Hs.
  - cbn. auto.
  - destruct Hs as [Hm Hs].
    destruct (JsSet.size m <? JsSet.size c)%nat eqn:Hlt.
    + apply Nat.ltb_lt in Hlt. cbn. split; [|auto].
      constructor; [lia|]. eapply Forall_impl; [exact Hm|]. cbn. intros; lia.
    + apply Nat.ltb_ge in Hlt. cbn [descendingSize]. split; [|auto].
      rewrite insertBySize_perm. constructor; assumption.
Qed.

Lemma sortBySize_spec cs :
  LinkParser.sortBySize cs ≡ₚ cs /\ descendingSize (LinkParser.sortBySize cs).
Proof.
  unfold LinkParser.sortBySize.
  assert (H : forall cs acc,
    descendingSize acc ->
    fold_left (fun acc c => LinkParser.insertBySize c acc) cs acc ≡ₚ acc ++ cs
    /\ descendingSize (fold_left (fun acc c => LinkParser.insertBySize c acc) cs acc)).
  { clear cs. intros cs. induction cs as [|c cs IH]; intros acc Hacc; cbn [fold_left].
    - rewrite app_nil_r. auto.
    - destruct (IH (LinkParser.insertBySize c acc) (insertBySize_sorted c acc Hacc))
        as [Hp Hs].
      split; [|exact Hs]. rewrite Hp, insertBySize_perm.
      rewrite <- Permutation_middle. reflexivity. }
  destruct (H cs [] I) as [Hp Hs]. auto.
Qed.

Lemma concat_perm (l l' : list (list string)) : l ≡ₚ l' -> concat l ≡ₚ concat l'.
Proof.
  induction 1 as [|x l l' _ IH|x y l|l l' l'' _ IH1 _ IH2]; cbn [concat].
  - reflexivity.
  - rewrite IH. reflexivity.
  - rewrite !app_assoc. apply Permutation_app_tail, Permutation_app_comm.
  - etransitivity; eassumption.
Qed.

Section LinkClusters.
Context {Yaml : Type}.
Context (fs : FileUtils.t) (parser : Parser.ObsidianParser Yaml) (np : PathModule).

(** X30.  Once the graph is there
    (stored already, or built without an error) and its backward sets
    mirror its forward sets, [findLinkClusters] returns, given enough
    depth of recursion, and leaves the stored graph as it is.  Each
    cluster has two notes or more and holds exactly the notes connected,
    by stored links in either direction, to one of the keys of the
    forward map; no note is in two clusters; every key with a neighbour
    other than itself is in a cluster; and the clusters are in descending
    order of size. *)
Theorem link_clusters_are_the_connected_groups st st' :
  LinkParser.ensureBuilt fs parser np st = (Ok tt, st') ->
  (forall u v,
      neighbour (LinkParser.linkCache st') (LinkParser.backlinkCache st') u v ->
      neighbour (LinkParser.linkCache st') (LinkParser.backlinkCache st') v u) ->
  exists fuel0, forall fuel, (fuel0 <= fuel)%nat ->
    exists clusters,
      LinkParser.findLinkClusters fs parser np fuel st = Some (Ok clusters, st')
      /\ Forall (fun c : JsSet.t =>
                   (2 <= length c)%nat
                   /\ exists first,
                        first ∈ JsMap.keys (LinkParser.linkCache st')
                        /\ forall v,
                             v ∈ c
                             <-> connected (LinkParser.linkCache st')
                                           (LinkParser.backlinkCache st') first v)
                clusters
      /\ NoDup (concat clusters)
      /\ (forall node v,
            node ∈ JsMap.keys (LinkParser.linkCache st') ->
            neighbour (LinkParser.linkCache st') (LinkParser.backlinkCache st') node v ->
            v <> node ->
            exists c, c ∈ clusters /\ node ∈ c)
      /\ descendingSize clusters.
Proof.
  intros Hbuilt Hsym.
  set (lc := LinkParser.linkCache st') in *.
  set (bl := LinkParser.backlinkCache st') in *.
  exists (S (size (storedNotes lc bl))). intros fuel Hfuel.
  unfold LinkParser.findLinkClusters. rewrite Hbuilt. fold lc bl.
  destruct (clusterScan_spec lc bl Hsym fuel) with (nodes := JsMap.keys lc)
    (V := JsSet.empty) (clusters := @nil JsSet.t)
    as (found & -> & Hgood & Hnd & Hcover).
  - lia.
  - auto.
  - intros u v Hu. inversion Hu.
  - constructor.
  - intros c u Hc. inversion Hc.
  - constructor.
  - intros u v Hu. inversion Hu.
  - destruct (sortBySize_spec found) as [Hperm Hsorted].
    exists (LinkParser.sortBySize found). split; [reflexivity|].
    split; [rewrite Hperm; exact Hgood|].
    split; [rewrite (concat_perm _ _ Hperm); exact Hnd|].
    split; [|exact Hsorted].
    intros node v Hnode Hv Hne.
    destruct (Hcover node v (or_intror Hnode) Hv Hne) as (c & Hc & Hin).
    exists c. split; [rewrite Hperm; exact Hc|exact Hin].
Qed.

End LinkClusters.

(** A build leaves backward sets that mirror the forward sets. *)
Lemma built_graph_mirrors {Yaml : Type} (fs : FileUtils.t)
      (parser : Parser.ObsidianParser Yaml) (np : PathModule) st g st' :
  LinkParser.buildLinkGraph fs parser np st = (Ok g, st') ->
  forall u v,
    neighbour (LinkParser.linkCache st') (LinkParser.backlinkCache st') u v ->
    neighbour (LinkParser.linkCache st') (LinkParser.backlinkCache st') v u.
Proof.
  intros Hbuild.
  destruct (buildLinkGraph_ok fs parser np _ _ _ Hbuild) as (p & Hg & Hlc & Hbl & _).
  destruct Hg as (Hnd & _). rewrite <- Hlc in Hnd, Hbl.
  intros u v. unfold neighbour. rewrite Hbl.
  rewrite !(secondPass_sources _ Hnd), !(sourcesOf_spec _ _ _ Hnd). tauto.
Qed.

(** In the vault where [A] links to [B] and nothing else is linked, the
    only cluster is the pair. *)
Example findLinkClusters_sample :
  fst <$> LinkParser.findLinkClusters Sample.withOrphan Sample.parser Sample.flatPath
            4 LinkParser.init
  = Some (Ok [["A.md"; "B.md"]]).
Proof. vm_compute. reflexivity. Qed.

Lemma link_clusters_are_the_connected_groups_witness :
  let st' := snd (LinkParser.ensureBuilt Sample.withOrphan Sample.parser Sample.flatPath
                    LinkParser.init) in
  exists fuel0, forall fuel, (fuel0 <= fuel)%nat ->
    exists clusters,
      LinkParser.findLinkClusters Sample.withOrphan Sample.parser Sample.flatPath
        fuel LinkParser.init
      = Some (Ok clusters, st')
      /\ Forall (fun c : JsSet.t =>
                   (2 <= length c)%nat
                   /\ exists first,
                        first ∈ JsMap.keys (LinkParser.linkCache st')
                        /\ forall v,
                             v ∈ c
                             <-> connected (LinkParser.linkCache st')
                                           (LinkParser.backlinkCache st') first v)
                clusters
      /\ NoDup (concat clusters)
      /\ (forall node v,
            node ∈ JsMap.keys (LinkParser.linkCache st') ->
            neighbour (LinkParser.linkCache st') (LinkParser.backlinkCache st') node v ->
            v <> node ->
            exists c, c ∈ clusters /\ node ∈ c)
      /\ descendingSize clusters.
Proof.
  intros st'.
  apply (link_clusters_are_the_connected_groups Sample.withOrphan Sample.parser
           Sample.flatPath LinkParser.init st').
  - vm_compute. reflexivity.
  - eapply (built_graph_mirrors Sample.withOrphan Sample.parser Sample.flatPath
              LinkParser.init).
    vm_compute. reflexivity.
Defined.
